(** * Pairing Bots: a shallow embedding of the orchestration core

  The development follows the TypeScript sources module by module:
  - [Js]            the JavaScript string and value primitives the code uses;
  - [Parsing]       [src/parsing.ts] (tagged protocol parser);
  - [Tracker]       [createDriverExecutionTracker] of [src/pair-orchestrator.ts];

  JavaScript numbers that hold counters, sizes and indices are integers
  [Z]; the numbers that the code divides, scales or reads from text are
  binary64 values, rounded as IEEE 754 says ([Double]); strings are Rocq
  strings, one character per UTF-16 code unit below 256. *)

From Stdlib Require Import ZArith QArith Qround Qabs Qpower Lqa Ascii String List Bool Lia.
From Stdlib Require Floats.
From stdpp Require Import base option list strings gmap pretty.

Local Open Scope Z_scope.
Set Warnings "-register-all".

(* ===================================================================== *)
(** * JavaScript primitives *)
(* ===================================================================== *)

Module Js.

(** ** Characters *)

Definition code (c : ascii) : N := N_of_ascii c.

(** [WhiteSpace] and [LineTerminator] code units below 256:
    TAB, LF, VT, FF, CR, SP and NBSP. *)
Definition isWhiteSpace (c : ascii) : bool :=
  let n := code c in
  ((9 <=? n) && (n <=? 13) || (n =? 32) || (n =? 160))%N.

Definition isLowerAscii (c : ascii) : bool :=
  let n := code c in ((97 <=? n) && (n <=? 122))%N.

Definition isUpperAscii (c : ascii) : bool :=
  let n := code c in ((65 <=? n) && (n <=? 90))%N.

(** Upper-case Latin-1 letters other than ASCII: U+00C0..U+00DE but the
    multiplication sign; their lower-case forms lie 32 above. *)
Definition isUpperLatin1 (c : ascii) : bool :=
  let n := code c in ((192 <=? n) && (n <=? 222) && negb (n =? 215))%N.

Definition isLowerLatin1 (c : ascii) : bool :=
  let n := code c in ((224 <=? n) && (n <=? 254) && negb (n =? 247))%N.

(** [String.prototype.toUpperCase] on one code unit.  The three Latin-1
    characters whose upper-case form leaves the 8-bit range (micro sign,
    sharp s, y with diaeresis) are left as they are; none of them maps to
    a letter of the literals the code compares against. *)
Definition upperChar (c : ascii) : ascii :=
  if isLowerAscii c || isLowerLatin1 c then ascii_of_N (code c - 32) else c.

Definition lowerChar (c : ascii) : ascii :=
  if isUpperAscii c || isUpperLatin1 c then ascii_of_N (code c + 32) else c.

(** [Canonicalize] of a regular expression with the [i] flag and without
    the [u] flag: the upper-case form, except that a non-ASCII character
    is never folded onto an ASCII one.  Below 256 this only ever leaves a
    character alone or moves it within its own half of the range. *)
Definition canonicalize (c : ascii) : ascii := upperChar c.

(** ** Strings *)

Fixpoint mapString (f : ascii → ascii) (s : string) : string :=
  match s with
  | EmptyString => EmptyString
  | String c r => String (f c) (mapString f r)
  end.

Definition toUpperCase : string → string := mapString upperChar.
Definition toLowerCase : string → string := mapString lowerChar.

Fixpoint trimStart (s : string) : string :=
  match s with
  | EmptyString => EmptyString
  | String c r => if isWhiteSpace c then trimStart r else s
  end.

Fixpoint trimEnd (s : string) : string :=
  match s with
  | EmptyString => EmptyString
  | String c r =>
      match trimEnd r with
      | EmptyString => if isWhiteSpace c then EmptyString else String c EmptyString
      | r' => String c r'
      end
  end.

Definition trim (s : string) : string := trimEnd (trimStart s).

(** [s.length] in code units. *)
Definition length (s : string) : Z := Z.of_nat (String.length s).

(** [Buffer.byteLength(s, "utf8")]: one byte below U+0080, two up to
    U+07FF. *)
Fixpoint byteLength (s : string) : Z :=
  match s with
  | EmptyString => 0
  | String c r => (if (code c <? 128)%N then 1 else 2) + byteLength r
  end.

(** [s.startsWith(p)], returning what follows the prefix. *)
Fixpoint stripPrefix (p s : string) : option string :=
  match p, s with
  | EmptyString, _ => Some s
  | String a p', String b s' => if Ascii.eqb a b then stripPrefix p' s' else None
  | String _ _, EmptyString => None
  end.

Definition startsWith (s p : string) : bool := bool_decide (is_Some (stripPrefix p s)).

(** [parts.join(sep)]. *)
Fixpoint join (sep : string) (parts : list string) : string :=
  match parts with
  | [] => ""
  | [p] => p
  | p :: rest => p +:+ sep +:+ join sep rest
  end.

Definition nl : string := String (ascii_of_N 10) EmptyString.

(** Template literal rendering of an integer number. *)
Definition numToString (z : Z) : string := pretty z.

(** ** Untyped values ([unknown], [Record<string, unknown>]) *)

Inductive Value :=
| VUndefined
| VNull
| VBool (b : bool)
| VNumber (z : Z)
| VString (s : string)
| VArray (items : list Value)
| VObject (fields : list (string * Value)).

(** Property read [obj.key] on a plain object given by its own
    properties; a missing property reads as [undefined]. *)
Fixpoint getField (fields : list (string * Value)) (key : string) : Value :=
  match fields with
  | [] => VUndefined
  | (k, v) :: rest => if String.eqb k key then v else getField rest key
  end.

(** [Boolean(v)] *)
Definition truthy (v : Value) : bool :=
  match v with
  | VUndefined | VNull => false
  | VBool b => b
  | VNumber z => negb (z =? 0)
  | VString s => negb (String.eqb s "")
  | VArray _ | VObject _ => true
  end.

End Js.

(* ===================================================================== *)
(** * JavaScript numbers *)
(* ===================================================================== *)

(** A JavaScript number is an IEEE 754 binary64 value.  The counters,
    sizes and indices of the program are integers far below 2^53, which
    binary64 holds exactly, and are written as [Z].  Where the program
    divides, multiplies by a constant or reads a number of any size, its
    numbers are rounded: a finite number is then written as the rational
    it denotes, and each operation returns the exact result rounded to
    the nearest binary64 value, ties to the even significand, as IEEE 754
    defines it. *)
Module Double.

Local Open Scope Q_scope.

(** [2^e] for any integer [e]. *)
Definition pow2 (e : Z) : Q := 2 ^ e.

(** [floor(log2 x)] of a positive rational: the [e] with
    [2^e <= x < 2^(e+1)]. *)
Definition ilog2 (x : Q) : Z :=
  let k := (Z.log2 (Qnum x) - Z.log2 (Zpos (Qden x)))%Z in
  if Qle_bool (pow2 k) x then k else (k - 1)%Z.

(** The integer nearest to [q], a tie going to the even one. *)
Definition nearestEven (q : Q) : Z :=
  let f := Qfloor q in
  match Qcompare (q - inject_Z f) (1 # 2) with
  | Lt => f
  | Gt => (f + 1)%Z
  | Eq => if Z.even f then f else (f + 1)%Z
  end.

(** The exponent of the last place of the binary64 significand of [x]:
    53 bits in the normal range, and never below that of the subnormal
    numbers. *)
Definition lastPlace (x : Q) : Z := Z.max (ilog2 (Qabs x) - 52) (-1074).

(** The binary64 value nearest to [x], for [x] within the finite range of
    binary64 (below 2^1024 in size; [overflows] tells). *)
Definition round (x : Q) : Q :=
  if Qeq_bool x 0 then 0
  else inject_Z (nearestEven (x / pow2 (lastPlace x))) * pow2 (lastPlace x).

(** Whether the value nearest to [x] is beyond the finite range, which
    rounds to an infinity. *)
Definition overflows (x : Q) : bool :=
  Qle_bool (pow2 1024) (Qabs (round x)).

(** [a + b], [a * b] and [a / b] on finite numbers, [b] not zero in the
    last. *)
Definition add (a b : Q) : Q := round (a + b).
Definition mul (a b : Q) : Q := round (a * b).
Definition div (a b : Q) : Q := round (a / b).

(** A number that is an integer, an infinity or NaN: what reading an
    integer of any size gives. *)
Inductive Integer :=
| NaN
| Infinite
| Finite (n : Z).

(** The number for a mathematical integer: the nearest binary64 value,
    which is an integer again, or an infinity beyond the finite range. *)
Definition ofZ (n : Z) : Integer :=
  if overflows (inject_Z n) then Infinite else Finite (Qfloor (round (inject_Z n))).

(** The rational that a value of the kernel's binary64 type denotes. *)
Definition ofFloat (f : PrimFloat.float) : option Q :=
  match FloatOps.Prim2SF f with
  | SpecFloat.S754_zero _ => Some 0
  | SpecFloat.S754_finite negative m e =>
      Some ((if negative then - inject_Z (Zpos m) else inject_Z (Zpos m)) * pow2 e)
  | SpecFloat.S754_infinity _ | SpecFloat.S754_nan => None
  end.

(** An integer below 2^63 as a value of the kernel's binary64 type. *)
Definition toFloat (n : Z) : PrimFloat.float := PrimFloat.of_uint63 (Uint63.of_Z n).

End Double.

(* ===================================================================== *)
(** * Domain types ([src/types.ts]) *)
(* ===================================================================== *)

Inductive AgentId := A | B.

Inductive PauseStrategy :=
| PauseNone
| EveryNFileEdits (editsPerPause : Z) (countedTools : list string).

Inductive TurnPolicy :=
| AlternateEachRound
| SameDriverUntilNavigatorSignoff (maxConsecutiveRounds maxConsecutiveCheckpoints : Z).

Inductive DriverStatus := StatusContinue | StatusDone.
Inductive Recommendation := RecContinue | RecHandoff.
Inductive Decision := Accept | Partial | Reject.
Inductive Verdict := APPROVED | NEEDS_MORE_WORK.

Record DriverReport := {
  dr_status : DriverStatus;
  dr_summary : string;
  dr_changes : string;
  dr_questionsForNavigator : string;
  dr_raw : string }.

Record NavigatorReview := {
  privateReflection : string;
  publicFeedback : string;
  hasFeedback : bool;
  driverRecommendation : Recommendation;
  nr_raw : string }.

Record DriverDecision := {
  decision : Decision;
  justification : string;
  dd_raw : string }.

Record JointVerdict := {
  jv_jointVerdict : Verdict;
  jv_rationale : string;
  jv_nextSteps : string;
  jv_raw : string }.

Global Instance AgentId_eq_dec : EqDecision AgentId.
Proof. solve_decision. Defined.
Global Instance DriverStatus_eq_dec : EqDecision DriverStatus.
Proof. solve_decision. Defined.
Global Instance Recommendation_eq_dec : EqDecision Recommendation.
Proof. solve_decision. Defined.
Global Instance Decision_eq_dec : EqDecision Decision.
Proof. solve_decision. Defined.

(* ===================================================================== *)
(** * The tagged protocol parser ([src/parsing.ts]) *)
(* ===================================================================== *)

Module Parsing.

(** Match of a literal pattern at the head of the text under the [i] flag;
    the result is the text after the match. *)
Fixpoint matchLiteralCI (pat text : string) : option string :=
  match pat, text with
  | EmptyString, _ => Some text
  | String p pat', String c text' =>
      if Ascii.eqb (Js.canonicalize p) (Js.canonicalize c)
      then matchLiteralCI pat' text' else None
  | String _ _, EmptyString => None
  end.

(** Leftmost match of a literal pattern: the text before it and the text
    after it. *)
Fixpoint searchLiteralCI (pat text : string) : option (string * string) :=
  match matchLiteralCI pat text with
  | Some rest => Some (EmptyString, rest)
  | None =>
      match text with
      | EmptyString => None
      | String c text' =>
          match searchLiteralCI pat text' with
          | Some (before, rest) => Some (String c before, rest)
          | None => None
          end
      end
  end.

(** [text.match(new RegExp(`<${tag}>([\s\S]*?)<\/${tag}>`, "i"))?.[1]?.trim()]
    for a tag name without regular-expression metacharacters: the lazy
    group ends at the first closing tag after the leftmost opening tag. *)
Definition extractTag (text tag : string) : option string :=
  match searchLiteralCI ("<" +:+ tag +:+ ">") text with
  | None => None
  | Some (_, afterOpen) =>
      match searchLiteralCI ("</" +:+ tag +:+ ">") afterOpen with
      | None => None
      | Some (group, _) => Some (Js.trim group)
      end
  end.

(** [a ?? b] on an optional string. *)
Definition orElse (o : option string) (d : string) : string :=
  match o with Some s => s | None => d end.

Definition parseDriverReport (raw : string) : DriverReport :=
  let statusRaw := Js.toLowerCase <$> extractTag raw "status" in
  let status := if bool_decide (statusRaw = Some "done") then StatusDone else StatusContinue in
  let summary := orElse (extractTag raw "summary") (Js.trim raw) in
  let changes := orElse (extractTag raw "changes")
                   "(driver did not provide a structured changes section)" in
  let questionsForNavigator := orElse (extractTag raw "questions_for_navigator") "NONE" in
  {| dr_status := status; dr_summary := summary; dr_changes := changes;
     dr_questionsForNavigator := questionsForNavigator; dr_raw := raw |}.

(** [s.replace(/[.!]+$/, "")]: the leftmost suffix that is a non-empty run
    of full stops and exclamation marks is removed. *)
Definition isStopOrBang (c : ascii) : bool :=
  Ascii.eqb c "."%char || Ascii.eqb c "!"%char.

Fixpoint allStopOrBang (s : string) : bool :=
  match s with
  | EmptyString => true
  | String c r => isStopOrBang c && allStopOrBang r
  end.

Fixpoint stripTrailingPunctuation (s : string) : string :=
  match s with
  | EmptyString => EmptyString
  | String c r => if allStopOrBang s then EmptyString else String c (stripTrailingPunctuation r)
  end.

Definition normalizeFeedback (publicFeedback : string) : string :=
  stripTrailingPunctuation (Js.toUpperCase (Js.trim publicFeedback)).

Definition parseNavigatorReview (raw : string) : NavigatorReview :=
  let privateReflection := orElse (extractTag raw "private_reflection")
                             "(no private reflection provided)" in
  let publicFeedback := orElse (extractTag raw "public_feedback") "NONE" in
  let normalizedFeedback := normalizeFeedback publicFeedback in
  let hasFeedback := negb (String.eqb normalizedFeedback "NONE") in
  let recommendationRaw := Js.toLowerCase <$> extractTag raw "driver_recommendation" in
  let driverRecommendation :=
    if bool_decide (recommendationRaw = Some "handoff") then RecHandoff else RecContinue in
  {| privateReflection := privateReflection; publicFeedback := publicFeedback;
     hasFeedback := hasFeedback; driverRecommendation := driverRecommendation;
     nr_raw := raw |}.

Definition parseDriverDecision (raw : string) : DriverDecision :=
  let decisionRaw := Js.toLowerCase <$> extractTag raw "decision" in
  let decision :=
    if bool_decide (decisionRaw = Some "accept") then Accept
    else if bool_decide (decisionRaw = Some "reject") then Reject
    else Partial in
  let justification := orElse (extractTag raw "justification") (Js.trim raw) in
  {| decision := decision; justification := justification; dd_raw := raw |}.

Definition parseJointVerdict (raw : string) : JointVerdict :=
  let verdictRaw := Js.toUpperCase <$> extractTag raw "joint_verdict" in
  let jointVerdict :=
    if bool_decide (verdictRaw = Some "APPROVED") then APPROVED else NEEDS_MORE_WORK in
  let rationale := orElse (extractTag raw "rationale") (Js.trim raw) in
  let nextSteps := orElse (extractTag raw "next_steps") "NONE" in
  {| jv_jointVerdict := jointVerdict; jv_rationale := rationale;
     jv_nextSteps := nextSteps; jv_raw := raw |}.

End Parsing.

(* ===================================================================== *)
(** * Agent events (the [AgentEvent] union of the agent runtime) *)
(* ===================================================================== *)

(** The message carried by [message_start], [message_end] and [turn_end]:
    its role and, for an assistant message, stop reason and error text. *)
Record EventMessage := {
  em_role : string;
  em_stopReason : string;
  em_errorMessage : option string }.

Inductive AgentEvent :=
| ToolExecutionStart (toolCallId toolName : string) (args : Js.Value)
| ToolExecutionEnd (toolCallId toolName : string) (result : Js.Value) (isError : bool)
| MessageUpdate (assistantMessageEventType : string)
| MessageStart (message : EventMessage)
| MessageEnd (message : EventMessage)
| TurnEnd (message : EventMessage) (toolResults : Z)
| OtherEvent (type : string).

Definition eventType (e : AgentEvent) : string :=
  match e with
  | ToolExecutionStart _ _ _ => "tool_execution_start"
  | ToolExecutionEnd _ _ _ _ => "tool_execution_end"
  | MessageUpdate _ => "message_update"
  | MessageStart _ => "message_start"
  | MessageEnd _ => "message_end"
  | TurnEnd _ _ => "turn_end"
  | OtherEvent t => t
  end.

(* ===================================================================== *)
(** * The driver execution tracker ([createDriverExecutionTracker]) *)
(* ===================================================================== *)

Module Tracker.

Inductive Phase := Driving | FeedbackResolution.

(** A number that is an integer or [Infinity]. *)
Inductive Threshold := Finite (n : Z) | Infinity.

Definition ltThreshold (x : Z) (t : Threshold) : bool :=
  match t with Finite n => x <? n | Infinity => true end.

Definition addThreshold (t : Threshold) (d : Z) : Threshold :=
  match t with Finite n => Finite (n + d) | Infinity => Infinity end.

Definition isWriteTool (toolName : string) : bool :=
  String.eqb toolName "edit" || String.eqb toolName "write".

(** [countedTools.includes(toolName)] *)
Definition includes (l : list string) (x : string) : bool :=
  existsb (String.eqb x) l.

Definition estimateWrittenBytes (toolName : string) (args : Js.Value) : Z :=
  match args with
  | Js.VObject fields =>
      if String.eqb toolName "write" then
        match Js.getField fields "content" with
        | Js.VString content => Js.byteLength content
        | _ => 0
        end
      else if String.eqb toolName "edit" then
        match Js.getField fields "newText" with
        | Js.VString newText => Js.byteLength newText
        | _ => 0
        end
      else 0
  | Js.VArray _ => 0
  | _ => 0
  end.

(** The variables closed over by [onEvent], [setPhase] and [snapshot]. *)
Record State := {
  pauseTriggered : bool;
  countedEdits : Z;
  nextCheckpointAt : Threshold;
  checkpointCount : Z;
  editWriteCallCount : Z;
  estimatedWrittenBytes : Z;
  pendingWriteEstimates : gmap string Z;
  currentPhase : Phase }.

Definition create (pauseStrategy : PauseStrategy) : State :=
  {| pauseTriggered := false;
     countedEdits := 0;
     nextCheckpointAt :=
       match pauseStrategy with
       | EveryNFileEdits editsPerPause _ => Finite editsPerPause
       | PauseNone => Infinity
       end;
     checkpointCount := 0;
     editWriteCallCount := 0;
     estimatedWrittenBytes := 0;
     pendingWriteEstimates := ∅;
     currentPhase := Driving |}.

(** [pendingWriteEstimates.get(id) ?? 0] *)
Definition pendingOrZero (st : State) (toolCallId : string) : Z :=
  default 0 (pendingWriteEstimates st !! toolCallId).

Definition recordStart (st : State) (toolCallId toolName : string) (args : Js.Value) : State :=
  {| pauseTriggered := pauseTriggered st;
     countedEdits := countedEdits st;
     nextCheckpointAt := nextCheckpointAt st;
     checkpointCount := checkpointCount st;
     editWriteCallCount := editWriteCallCount st;
     estimatedWrittenBytes := estimatedWrittenBytes st;
     pendingWriteEstimates :=
       <[toolCallId := estimateWrittenBytes toolName args]> (pendingWriteEstimates st);
     currentPhase := currentPhase st |}.

(** [editWriteCallCount += 1; estimatedWrittenBytes += pending ?? 0] *)
Definition promote (st : State) (toolCallId : string) : State :=
  {| pauseTriggered := pauseTriggered st;
     countedEdits := countedEdits st;
     nextCheckpointAt := nextCheckpointAt st;
     checkpointCount := checkpointCount st;
     editWriteCallCount := editWriteCallCount st + 1;
     estimatedWrittenBytes := estimatedWrittenBytes st + pendingOrZero st toolCallId;
     pendingWriteEstimates := pendingWriteEstimates st;
     currentPhase := currentPhase st |}.

(** [pendingWriteEstimates.delete(id)] *)
Definition clearPending (st : State) (toolCallId : string) : State :=
  {| pauseTriggered := pauseTriggered st;
     countedEdits := countedEdits st;
     nextCheckpointAt := nextCheckpointAt st;
     checkpointCount := checkpointCount st;
     editWriteCallCount := editWriteCallCount st;
     estimatedWrittenBytes := estimatedWrittenBytes st;
     pendingWriteEstimates := delete toolCallId (pendingWriteEstimates st);
     currentPhase := currentPhase st |}.

(** [countedEdits += 1] *)
Definition countEdit (st : State) : State :=
  {| pauseTriggered := pauseTriggered st;
     countedEdits := countedEdits st + 1;
     nextCheckpointAt := nextCheckpointAt st;
     checkpointCount := checkpointCount st;
     editWriteCallCount := editWriteCallCount st;
     estimatedWrittenBytes := estimatedWrittenBytes st;
     pendingWriteEstimates := pendingWriteEstimates st;
     currentPhase := currentPhase st |}.

(** [pauseTriggered = true; checkpointCount += 1;
     nextCheckpointAt += editsPerPause] *)
Definition fireCheckpoint (st : State) (editsPerPause : Z) : State :=
  {| pauseTriggered := true;
     countedEdits := countedEdits st;
     nextCheckpointAt := addThreshold (nextCheckpointAt st) editsPerPause;
     checkpointCount := checkpointCount st + 1;
     editWriteCallCount := editWriteCallCount st;
     estimatedWrittenBytes := estimatedWrittenBytes st;
     pendingWriteEstimates := pendingWriteEstimates st;
     currentPhase := currentPhase st |}.

(** [onEvent].  The second component is the argument of the
    [onCheckpoint] callback when the event fires a checkpoint. *)
Definition onEvent (pauseStrategy : PauseStrategy) (st : State) (event : AgentEvent)
  : State * option Phase :=
  match event with
  | ToolExecutionStart toolCallId toolName args =>
      if isWriteTool toolName then (recordStart st toolCallId toolName args, None)
      else (st, None)
  | ToolExecutionEnd toolCallId toolName _ isError =>
      match pauseStrategy with
      | PauseNone =>
          if negb isError && isWriteTool toolName
          then (clearPending (promote st toolCallId) toolCallId, None)
          else (st, None)
      | EveryNFileEdits editsPerPause countedTools =>
          let st1 :=
            if isWriteTool toolName then
              clearPending (if negb isError then promote st toolCallId else st) toolCallId
            else st in
          if isError then (st1, None)
          else if negb (includes countedTools toolName) then (st1, None)
          else
            let st2 := countEdit st1 in
            if ltThreshold (countedEdits st2) (nextCheckpointAt st2) then (st2, None)
            else (fireCheckpoint st2 editsPerPause, Some (currentPhase st2))
      end
  | _ => (st, None)
  end.

Definition setPhase (st : State) (phase : Phase) : State :=
  {| pauseTriggered := pauseTriggered st;
     countedEdits := countedEdits st;
     nextCheckpointAt := nextCheckpointAt st;
     checkpointCount := checkpointCount st;
     editWriteCallCount := editWriteCallCount st;
     estimatedWrittenBytes := estimatedWrittenBytes st;
     pendingWriteEstimates := pendingWriteEstimates st;
     currentPhase := phase |}.

Record Snapshot := {
  snap_pauseTriggered : bool;
  snap_checkpointCount : Z;
  snap_editWriteCallCount : Z;
  snap_estimatedWrittenBytes : Z }.

Definition snapshot (st : State) : Snapshot :=
  {| snap_pauseTriggered := pauseTriggered st;
     snap_checkpointCount := checkpointCount st;
     snap_editWriteCallCount := editWriteCallCount st;
     snap_estimatedWrittenBytes := estimatedWrittenBytes st |}.

(** The tracker after a whole sequence of events, callbacks dropped. *)
Definition onEvents (pauseStrategy : PauseStrategy) (st : State) (events : list AgentEvent)
  : State :=
  fold_left (λ s e, fst (onEvent pauseStrategy s e)) events st.

(** The arguments of the [onCheckpoint] calls a sequence of events makes,
    in order. *)
Fixpoint checkpointsFired (pauseStrategy : PauseStrategy) (st : State)
    (events : list AgentEvent) : list Phase :=
  match events with
  | [] => []
  | e :: rest =>
      let '(st', fired) := onEvent pauseStrategy st e in
      match fired with
      | Some phase => phase :: checkpointsFired pauseStrategy st' rest
      | None => checkpointsFired pauseStrategy st' rest
      end
  end.

(** A successful call of a counted tool: what the checkpoint cadence
    counts. *)
Definition isCountedSuccess (countedTools : list string) (event : AgentEvent) : bool :=
  match event with
  | ToolExecutionEnd _ toolName _ isError => negb isError && includes countedTools toolName
  | _ => false
  end.

Definition isErroredCall (event : AgentEvent) : bool :=
  match event with
  | ToolExecutionEnd _ _ _ isError => isError
  | _ => false
  end.

Definition isToolExecutionEnd (event : AgentEvent) : bool :=
  match event with
  | ToolExecutionEnd _ _ _ _ => true
  | _ => false
  end.

(** The number of successful calls of counted tools in a sequence of
    events. *)
Definition successfulCountedCalls (countedTools : list string) (events : list AgentEvent) : Z :=
  Z.of_nat (List.length (List.filter (isCountedSuccess countedTools) events)).

(** The tracker between two events, seen from the checkpoint cadence with
    period [N]: [k] qualifying calls counted so far, and the next
    threshold one period after the last checkpoint. *)
Definition Cadence (N : Z) (k : Z) (st : State) : Prop :=
  countedEdits st = k
  ∧ nextCheckpointAt st = Finite (N * (checkpointCount st + 1))
  ∧ N * checkpointCount st ≤ k < N * (checkpointCount st + 1).

End Tracker.

(* ===================================================================== *)
(** * Effects: exceptions, the clock, the file system, the agents *)
(* ===================================================================== *)

(** A thrown value: an [Error] object, or anything else as [String(error)]
    renders it. *)
Inductive Thrown :=
| ErrorObject (message : string)
| ThrownValue (rendered : string).

(** [error instanceof Error ? error.message : String(error)] *)
Definition thrownMessage (e : Thrown) : string :=
  match e with ErrorObject m => m | ThrownValue r => r end.

Inductive Result (T : Type) :=
| Ok (value : T)
| Throw (error : Thrown).
Arguments Ok {T} value.
Arguments Throw {T} error.

(** Code that reads and writes a state [S] and may throw. *)
Definition ST (S T : Type) : Type := S → Result T * S.

Definition ret {S T} (x : T) : ST S T := λ s, (Ok x, s).
Definition throw {S T} (e : Thrown) : ST S T := λ s, (Throw e, s).
Definition bind {S T U} (m : ST S T) (k : T → ST S U) : ST S U :=
  λ s, match m s with
       | (Ok x, s') => k x s'
       | (Throw e, s') => (Throw e, s')
       end.
Definition gets {S T} (f : S → T) : ST S T := λ s, (Ok (f s), s).
Definition modify {S} (f : S → S) : ST S unit := λ s, (Ok tt, f s).

Declare Scope st_scope.
Delimit Scope st_scope with st.
Notation "x <- m ;; k" := (bind m (λ x, k))
  (at level 100, m at next level, right associativity) : st_scope.
Notation "m ;;; k" := (bind m (λ _, k))
  (at level 100, right associativity) : st_scope.
Local Open Scope st_scope.

(** [try { x = body } catch (error) { handler(error); throw error }
     finally { y = final }] followed by [return (x, y)].  The [finally]
    block sees whether the [catch] block was entered and with which error;
    when it throws, its exception replaces the pending one. *)
Definition tryCatchRethrowFinally {S T F} (body : ST S T) (handler : Thrown → ST S unit)
    (final : option Thrown → ST S F) : ST S (T * F) :=
  λ s, match body s with
       | (Ok x, s1) =>
           match final None s1 with
           | (Ok y, s2) => (Ok (x, y), s2)
           | (Throw e', s2) => (Throw e', s2)
           end
       | (Throw e, s1) =>
           let '(handled, s2) := handler e s1 in
           let pending := match handled with Ok _ => e | Throw e' => e' end in
           match final (Some e) s2 with
           | (Ok _, s3) => (Throw pending, s3)
           | (Throw e'', s3) => (Throw e'', s3)
           end
       end.

(** What one [agent.prompt(...)] does, as far as the orchestrator can see:
    the events it emits to subscribers, whether the promise rejects, and the
    last assistant message in the agent's state afterwards. *)
Record AssistantMessage := {
  am_stopReason : string;
  am_errorMessage : option string;
  am_textParts : list string }.

Record AgentRun := {
  run_events : list AgentEvent;
  run_rejects : option Thrown;
  run_lastAssistantMessage : option AssistantMessage }.

(** Outcome of one interaction with the file system. [FsFailEarly] is a
    failure of [mkdir] or of opening the file, before anything is
    changed; [FsFailLate] is a failure of the write of the data itself,
    once the file has been created or opened. *)
Inductive FsOutcome :=
| FsOk
| FsFailEarly (message : string)
| FsFailLate (message : string).

(** The world outside the program, as oracles: the [k]-th reading of
    [Date.now()], the [k]-th file-system interaction, the [k]-th agent
    invocation; and the two library functions whose values are only used
    as text. *)
Record Env := {
  clock : nat → Z;
  fsOutcome : nat → FsOutcome;
  agentRun : nat → AgentRun;
  toISOString : Z → string;
  shortHash : string → string }.

(** What a file written in one piece holds: the whole data of a
    [writeFile] that returned, or what a [writeFile] that failed after
    opening the file left of it.  [writeFile] truncates the file when it
    opens it, so that the old data is gone by then, and of the new data
    there is at most a part. *)
Inductive Written (Data : Type) :=
| Whole (data : Data)
| Torn.
Arguments Whole {Data} data.
Arguments Torn {Data}.

(** Positions reached in the oracles, and the files on disk. *)
Record Outside (Line Payload : Type) := {
  ticks : nat;
  fsOps : nat;
  prompts : nat;
  eventStreamFileContent : option (list Line);
  logFileContent : option (Written Payload) }.
Arguments ticks {Line Payload} o.
Arguments fsOps {Line Payload} o.
Arguments prompts {Line Payload} o.
Arguments eventStreamFileContent {Line Payload} o.
Arguments logFileContent {Line Payload} o.

(* ===================================================================== *)
(** * The session observer ([src/observability.ts]) *)
(* ===================================================================== *)

Module Observer.

Inductive EventStreamMode := Compact | Full.
Inductive Category := CatSession | CatPrompt | CatAgentEvent | CatOrchestrator.
Inductive Actor := ActorAgent (id : AgentId) | ActorSystem.
Inductive Status := Completed | Failed.

(** [Omit<LogEvent, "index" | "timestamp">] *)
Record EventInput := {
  category : Category;
  name : string;
  actor : option Actor;
  round : option Z;
  phase : option string;
  details : option (list (string * Js.Value)) }.

Record LogEvent := {
  index : Z;
  timestamp : Z;
  event : EventInput }.

Record Summary := {
  sum_logFile : string;
  sum_eventStreamFile : option string;
  sum_eventStreamMode : EventStreamMode;
  sum_eventStreamWriteError : option string;
  eventCount : Z;
  promptCount : Z;
  toolExecutionCount : Z;
  toolExecutionErrorCount : Z;
  durationMs : Z }.

(** The objects handed to [queueEventStreamLine]. *)
Inductive StreamEntry :=
| MetaStart (timestamp : Z) (logFile : string) (mode : EventStreamMode)
| EventEntry (e : LogEvent)
| MetaEnd (timestamp : Z) (status : Status) (errorMessage : option string)
    (eventCount promptCount toolExecutionCount toolExecutionErrorCount durationMs : Z)
    (mode : EventStreamMode).

(** The object written to the log file by [flush]. *)
Record Payload := {
  meta_startedAt : Z;
  meta_endedAt : Z;
  meta_durationMs : Z;
  meta_status : Status;
  meta_errorMessage : option string;
  meta_eventLogFile : option string;
  meta_eventStreamMode : EventStreamMode;
  meta_eventLogWriteError : option string;
  payload_summary : Summary;
  payload_events : list LogEvent }.

(** The fields of a [SessionObserver].  [eventStreamWriteQueue] holds the
    entries whose write has been chained on the promise and has not run
    yet. *)
Record State := {
  logFile : string;
  eventLogFile : option string;
  startedAt : Z;
  events : list LogEvent;
  eventStreamMode : EventStreamMode;
  eventIndex : Z;
  flushedSummary : option Summary;
  eventStreamInitialized : bool;
  eventStreamWriteQueue : list StreamEntry;
  eventStreamWriteError : option string }.

Definition Out := Outside StreamEntry Payload.

(** Methods: [this] and the outside world are the state. *)
Definition Method (T : Type) : Type := ST (State * Out) T.

Record SessionObserverOptions := {
  opt_cwd : string;
  opt_logFile : option string;
  opt_eventLogFile : option string;
  opt_disableEventStream : bool;
  opt_eventStreamMode : option EventStreamMode }.

Definition categoryName (c : Category) : string :=
  match c with
  | CatSession => "session" | CatPrompt => "prompt"
  | CatAgentEvent => "agent_event" | CatOrchestrator => "orchestrator"
  end.

Definition isCategory (c d : Category) : bool :=
  String.eqb (categoryName c) (categoryName d).

Definition setTicks (o : Out) (n : nat) : Out :=
  {| ticks := n; fsOps := fsOps o; prompts := prompts o;
     eventStreamFileContent := eventStreamFileContent o;
     logFileContent := logFileContent o |}.

Definition setFs (o : Out) (n : nat) (stream : option (list StreamEntry))
    (log : option (Written Payload)) : Out :=
  {| ticks := ticks o; fsOps := n; prompts := prompts o;
     eventStreamFileContent := stream; logFileContent := log |}.

Definition setQueue (st : State) (q : list StreamEntry) : State :=
  {| logFile := logFile st; eventLogFile := eventLogFile st; startedAt := startedAt st;
     events := events st; eventStreamMode := eventStreamMode st;
     eventIndex := eventIndex st; flushedSummary := flushedSummary st;
     eventStreamInitialized := eventStreamInitialized st;
     eventStreamWriteQueue := q;
     eventStreamWriteError := eventStreamWriteError st |}.

Definition setStream (st : State) (initialized : bool) (q : list StreamEntry)
    (err : option string) : State :=
  {| logFile := logFile st; eventLogFile := eventLogFile st; startedAt := startedAt st;
     events := events st; eventStreamMode := eventStreamMode st;
     eventIndex := eventIndex st; flushedSummary := flushedSummary st;
     eventStreamInitialized := initialized;
     eventStreamWriteQueue := q;
     eventStreamWriteError := err |}.

Definition pushEvent (st : State) (e : LogEvent) : State :=
  {| logFile := logFile st; eventLogFile := eventLogFile st; startedAt := startedAt st;
     events := events st ++ [e]; eventStreamMode := eventStreamMode st;
     eventIndex := eventIndex st + 1; flushedSummary := flushedSummary st;
     eventStreamInitialized := eventStreamInitialized st;
     eventStreamWriteQueue := eventStreamWriteQueue st;
     eventStreamWriteError := eventStreamWriteError st |}.

Definition setFlushed (st : State) (s : Summary) : State :=
  {| logFile := logFile st; eventLogFile := eventLogFile st; startedAt := startedAt st;
     events := events st; eventStreamMode := eventStreamMode st;
     eventIndex := eventIndex st; flushedSummary := Some s;
     eventStreamInitialized := eventStreamInitialized st;
     eventStreamWriteQueue := eventStreamWriteQueue st;
     eventStreamWriteError := eventStreamWriteError st |}.

(** Truthiness of [string | undefined]: set and not empty. *)
Definition isSet (m : option string) : bool :=
  match m with
  | Some s => negb (String.eqb s "")
  | None => false
  end.

(** [...(m ? { key: m } : {})] *)
Definition ifSet (m : option string) : option string :=
  if isSet m then m else None.

Section WithEnv.
Context (E : Env).

(** [Date.now()] *)
Definition dateNow : Method Z :=
  λ '(st, o), (Ok (clock E (ticks o)), (st, setTicks o (S (ticks o)))).

Definition shouldStreamEvent (st : State) (e : LogEvent) : bool :=
  match eventStreamMode st with
  | Full => true
  | Compact =>
      negb (isCategory (category (event e)) CatAgentEvent
            && String.eqb (name (event e)) "message_update")
  end.

(** [queueEventStreamLine]: the write is chained on the queue unless the
    stream is disabled or an earlier write is already known to have
    failed. *)
Definition queueEventStreamLine (entry : StreamEntry) : Method unit :=
  λ '(st, o),
    if negb (isSet (eventLogFile st)) || isSet (eventStreamWriteError st)
    then (Ok tt, (st, o))
    else (Ok tt, (setQueue st (eventStreamWriteQueue st ++ [entry]), o)).

(** One chained write running: create and truncate the file on first use,
    append the line; a failure is caught and kept as
    [eventStreamWriteError]. *)
Definition runQueuedWrite (entry : StreamEntry) (st : State) (o : Out) : State * Out :=
  let rest := tail (eventStreamWriteQueue st) in
  let created : option (list StreamEntry) :=
    if eventStreamInitialized st then eventStreamFileContent o else Some [] in
  match fsOutcome E (fsOps o) with
  | FsOk =>
      (setStream st true rest (eventStreamWriteError st),
       setFs o (S (fsOps o)) (Some (default [] created ++ [entry])) (logFileContent o))
  | FsFailEarly msg =>
      if eventStreamInitialized st then
        (setStream st true rest (Some msg),
         setFs o (S (fsOps o)) (eventStreamFileContent o) (logFileContent o))
      else
        (setStream st false rest (Some msg),
         setFs o (S (fsOps o)) (eventStreamFileContent o) (logFileContent o))
  | FsFailLate msg =>
      (setStream st true rest (Some msg),
       setFs o (S (fsOps o)) created (logFileContent o))
  end.

(** [await this.eventStreamWriteQueue]: every chained write has run. *)
Fixpoint drainQueue (pending : list StreamEntry) (st : State) (o : Out) : State * Out :=
  match pending with
  | [] => (st, o)
  | entry :: rest => let '(st', o') := runQueuedWrite entry st o in drainQueue rest st' o'
  end.

Definition awaitWriteQueue : Method unit :=
  λ '(st, o), (Ok tt, drainQueue (eventStreamWriteQueue st) st o).

(** [defaultEventLogFile] *)
Definition dropLast (n : nat) (s : string) : string :=
  String.substring 0 (String.length s - n) s.

Definition endsWith (s suffix : string) : bool :=
  String.eqb (String.substring (String.length s - String.length suffix)
                (String.length suffix) s) suffix
  && (String.length suffix <=? String.length s)%nat.

Definition defaultEventLogFile (logFile : string) : string :=
  if endsWith logFile ".json" then dropLast 5 logFile +:+ ".events.jsonl"
  else logFile +:+ ".events.jsonl".

(** [stamp.replace(/[:.]/g, "-")] *)
Definition dashStamp (s : string) : string :=
  Js.mapString (λ c, if Ascii.eqb c ":"%char || Ascii.eqb c "."%char then "-"%char else c) s.

(** [new SessionObserver(options)] for POSIX paths. *)
Definition create (options : SessionObserverOptions) (o : Out) : State * Out :=
  let startedAt := clock E (ticks o) in
  let stamp := dashStamp (toISOString E startedAt) in
  let logFile :=
    match opt_logFile options with
    | Some f => f
    | None => opt_cwd options +:+ "/.pairing-bots/logs/session-" +:+ stamp +:+ ".json"
    end in
  let eventLogFile :=
    if opt_disableEventStream options then None
    else Some (match opt_eventLogFile options with
               | Some f => f
               | None => defaultEventLogFile logFile
               end) in
  let mode := default Compact (opt_eventStreamMode options) in
  let st := {| logFile := logFile; eventLogFile := eventLogFile; startedAt := startedAt;
               events := []; eventStreamMode := mode; eventIndex := 0;
               flushedSummary := None; eventStreamInitialized := false;
               eventStreamWriteQueue := []; eventStreamWriteError := None |} in
  snd (queueEventStreamLine (MetaStart startedAt logFile mode) (st, setTicks o (S (ticks o)))).

(** [record] *)
Definition record (ev : EventInput) : Method unit :=
  λ '(st, o),
    match flushedSummary st with
    | Some _ => (Ok tt, (st, o))
    | None =>
        (now <- dateNow ;;
         let renderedEvent := {| index := eventIndex st; timestamp := now; event := ev |} in
         modify (λ '(st, o), (pushEvent st renderedEvent, o)) ;;;
         if shouldStreamEvent st renderedEvent
         then queueEventStreamLine (EventEntry renderedEvent)
         else ret tt) (st, o)
    end.

Definition isPromptStart (e : LogEvent) : bool :=
  isCategory (category (event e)) CatPrompt && String.eqb (name (event e)) "prompt_start".

Definition isToolEnd (e : LogEvent) : bool :=
  isCategory (category (event e)) CatAgentEvent
  && String.eqb (name (event e)) "tool_execution_end".

(** [Boolean(event.details?.isError)] *)
Definition detailsIsError (e : LogEvent) : bool :=
  match details (event e) with
  | Some fields => Js.truthy (Js.getField fields "isError")
  | None => false
  end.

Definition count {T} (p : T → bool) (l : list T) : Z :=
  Z.of_nat (List.length (List.filter p l)).

(** The final [mkdir] and [writeFile] of the log file.  A failure of
    [mkdir], or of [writeFile] to open the file, leaves the file as it
    was; a failure of [writeFile] after that leaves it torn. *)
Definition writeLogFile (payload : Payload) : Method unit :=
  λ '(st, o),
    match fsOutcome E (fsOps o) with
    | FsOk =>
        (Ok tt, (st, setFs o (S (fsOps o)) (eventStreamFileContent o) (Some (Whole payload))))
    | FsFailEarly msg =>
        (Throw (ErrorObject msg),
         (st, setFs o (S (fsOps o)) (eventStreamFileContent o) (logFileContent o)))
    | FsFailLate msg =>
        (Throw (ErrorObject msg),
         (st, setFs o (S (fsOps o)) (eventStreamFileContent o) (Some Torn)))
    end.

(** [flush] *)
Definition flush (status : Status) (errorMessage : option string) : Method Summary :=
  λ '(st, o),
    match flushedSummary st with
    | Some s => (Ok s, (st, o))
    | None =>
        (endedAt <- dateNow ;;
         let durationMs := endedAt - startedAt st in
         let promptCount := count isPromptStart (events st) in
         let toolEnds := List.filter isToolEnd (events st) in
         let toolExecutionCount := Z.of_nat (List.length toolEnds) in
         let toolExecutionErrorCount := count detailsIsError toolEnds in
         let eventCount := Z.of_nat (List.length (events st)) in
         queueEventStreamLine
           (MetaEnd endedAt status (ifSet errorMessage) eventCount promptCount
              toolExecutionCount toolExecutionErrorCount durationMs (eventStreamMode st)) ;;;
         awaitWriteQueue ;;;
         writeError <- gets (λ '(st, _), eventStreamWriteError st) ;;
         let summary :=
           {| sum_logFile := logFile st;
              sum_eventStreamFile := ifSet (eventLogFile st);
              sum_eventStreamMode := eventStreamMode st;
              sum_eventStreamWriteError := ifSet writeError;
              eventCount := eventCount;
              promptCount := promptCount;
              toolExecutionCount := toolExecutionCount;
              toolExecutionErrorCount := toolExecutionErrorCount;
              durationMs := durationMs |} in
         let payload :=
           {| meta_startedAt := startedAt st; meta_endedAt := endedAt;
              meta_durationMs := durationMs; meta_status := status;
              meta_errorMessage := errorMessage;
              meta_eventLogFile := eventLogFile st;
              meta_eventStreamMode := eventStreamMode st;
              meta_eventLogWriteError := writeError;
              payload_summary := summary;
              payload_events := events st |} in
         writeLogFile payload ;;;
         modify (λ '(st, o), (setFlushed st summary, o)) ;;;
         ret summary) (st, o)
    end.

(** [...(params.round !== undefined ? { round: params.round } : {})] is the
    optional [round] itself. *)
Definition recordPromptStart (actor : AgentId) (round : option Z) (phase promptKind prompt : string)
  : Method unit :=
  record {| category := CatPrompt; name := "prompt_start";
            actor := Some (ActorAgent actor); round := round; phase := Some phase;
            details := Some [("promptKind", Js.VString promptKind);
                             ("promptLength", Js.VNumber (Js.length prompt));
                             ("promptHash", Js.VString (shortHash E prompt))] |}.

Definition recordPromptEnd (actor : AgentId) (round : option Z) (phase promptKind response : string)
  : Method unit :=
  record {| category := CatPrompt; name := "prompt_end";
            actor := Some (ActorAgent actor); round := round; phase := Some phase;
            details := Some [("promptKind", Js.VString promptKind);
                             ("responseLength", Js.VNumber (Js.length response));
                             ("responseHash", Js.VString (shortHash E response))] |}.

Definition summarizeText (key : string) (v : Js.Value) : list (string * Js.Value) :=
  match v with
  | Js.VString text =>
      [(key +:+ "Length", Js.VNumber (Js.length text));
       (key +:+ "Hash", Js.VString (shortHash E text))]
  | _ => []
  end.

Definition summarizeToolArgs (args : Js.Value) : list (string * Js.Value) :=
  match args with
  | Js.VObject record =>
      (match Js.getField record "path" with
       | Js.VString path => [("path", Js.VString path)]
       | _ => []
       end)
      ++ summarizeText "command" (Js.getField record "command")
      ++ summarizeText "content" (Js.getField record "content")
      ++ summarizeText "oldText" (Js.getField record "oldText")
      ++ summarizeText "newText" (Js.getField record "newText")
  | _ => []
  end.

(** [item && typeof item === "object" && item.type === "text"] *)
Definition isTextBlock (item : Js.Value) : bool :=
  match item with
  | Js.VObject fields =>
      match Js.getField fields "type" with
      | Js.VString t => String.eqb t "text"
      | _ => false
      end
  | _ => false
  end.

Definition summarizeToolResult (result : Js.Value) : list (string * Js.Value) :=
  match result with
  | Js.VObject record =>
      match Js.getField record "content" with
      | Js.VArray content =>
          ("contentBlocks", Js.VNumber (Z.of_nat (List.length content)))
          :: match List.find isTextBlock content with
             | Some (Js.VObject fields) =>
                 match Js.getField fields "text" with
                 | Js.VString text => [("firstTextLength", Js.VNumber (Js.length text))]
                 | _ => []
                 end
             | _ => []
             end
      | _ => []
      end
  | _ => []
  end.

(** The [details] of [message_start], [message_end] and [turn_end]. *)
Definition messageDetails (message : EventMessage) : list (string * Js.Value) :=
  if String.eqb (em_role message) "assistant" then
    ("stopReason", Js.VString (em_stopReason message))
    :: match ifSet (em_errorMessage message) with
       | Some m => [("errorMessage", Js.VString m)]
       | None => []
       end
  else [].

Definition recordAgentEvent (actor : AgentId) (round : option Z) (phase : string)
    (ev : AgentEvent) : Method unit :=
  let agentEvent (name : string) (details : option (list (string * Js.Value))) :=
    record {| category := CatAgentEvent; name := name;
              actor := Some (ActorAgent actor); round := round; phase := Some phase;
              details := details |} in
  match ev with
  | MessageUpdate assistantEventType =>
      agentEvent "message_update"
        (Some [("assistantEventType", Js.VString assistantEventType)])
  | ToolExecutionStart toolCallId toolName args =>
      agentEvent "tool_execution_start"
        (Some [("toolCallId", Js.VString toolCallId);
               ("toolName", Js.VString toolName);
               ("args", Js.VObject (summarizeToolArgs args))])
  | ToolExecutionEnd toolCallId toolName result isError =>
      agentEvent "tool_execution_end"
        (Some [("toolCallId", Js.VString toolCallId);
               ("toolName", Js.VString toolName);
               ("isError", Js.VBool isError);
               ("result", Js.VObject (summarizeToolResult result))])
  | MessageStart message =>
      agentEvent "message_start"
        (Some (("role", Js.VString (em_role message)) :: messageDetails message))
  | MessageEnd message =>
      agentEvent "message_end"
        (Some (("role", Js.VString (em_role message)) :: messageDetails message))
  | TurnEnd message toolResults =>
      agentEvent "turn_end"
        (Some (("toolResults", Js.VNumber toolResults) :: messageDetails message))
  | OtherEvent type => agentEvent type None
  end.

(** A use of the observer by its owner: one of the two public methods
    that the claims are about. *)
Inductive Call :=
| CallRecord (ev : EventInput)
| CallFlush (status : Status) (errorMessage : option string).

(** The call and what it returns ([record] returns nothing). *)
Definition call (c : Call) : Method (option Summary) :=
  match c with
  | CallRecord ev => record ev ;;; ret None
  | CallFlush status errorMessage => s <- flush status errorMessage ;; ret (Some s)
  end.

Fixpoint calls (cs : list Call) : Method (list (option Summary)) :=
  match cs with
  | [] => ret []
  | c :: rest => r <- call c ;; rs <- calls rest ;; ret (r :: rs)
  end.

End WithEnv.

(** What a call made after a [flush] that returned [summary] returns. *)
Definition frozenAnswer (summary : Summary) (c : Call) : option Summary :=
  match c with
  | CallFlush _ _ => Some summary
  | CallRecord _ => None
  end.

End Observer.

(* ===================================================================== *)
(** * Prompt contracts ([src/prompts.ts]) *)
(* ===================================================================== *)

Module Prompts.

Definition agentName (id : AgentId) : string :=
  match id with A => "A" | B => "B" end.

Definition describePauseStrategy (strategy : PauseStrategy) : string :=
  match strategy with
  | PauseNone => "No automatic pause. Driver decides when to hand off."
  | EveryNFileEdits editsPerPause countedTools =>
      "Automatically pause after " +:+ Js.numToString editsPerPause
      +:+ " edit/write tool calls (counted tools: " +:+ Js.join ", " countedTools +:+ ")."
  end.

Definition describeTurnPolicy (policy : TurnPolicy) : string :=
  match policy with
  | AlternateEachRound => "Driver changes every round."
  | SameDriverUntilNavigatorSignoff maxConsecutiveRounds maxConsecutiveCheckpoints =>
      "Driver stays the same until navigator recommends handoff. Safety caps: max "
      +:+ Js.numToString maxConsecutiveRounds +:+ " consecutive rounds or "
      +:+ Js.numToString maxConsecutiveCheckpoints
      +:+ " consecutive checkpoints before forced swap."
  end.

Definition buildPlanDraftPrompt (task : string) : string :=
  Js.join Js.nl
    [ "Task: " +:+ task;
      "You are starting the planning handshake as Model A.";
      "Create an implementation plan with ordered steps, key risks, and explicit test/validation steps.";
      "Return exactly:";
      "<plan_draft>";
      "...";
      "</plan_draft>" ].

Definition buildPlanCritiquePrompt (task draft : string) : string :=
  Js.join Js.nl
    [ "Task: " +:+ task;
      "Review Model A's draft plan.";
      "Identify gaps, incorrect assumptions, sequencing issues, and missing tests.";
      "If plan is strong, keep feedback short.";
      "Draft plan:";
      draft;
      "Return exactly:";
      "<plan_feedback>";
      "...";
      "</plan_feedback>" ].

Definition buildPlanRevisionPrompt (task draft critique : string) : string :=
  Js.join Js.nl
    [ "Task: " +:+ task;
      "Revise the plan after considering Model B's critique.";
      "For each major critique, either incorporate it or explain why not.";
      "Original draft:";
      draft;
      "Critique:";
      critique;
      "Return exactly:";
      "<agreed_plan>";
      "...";
      "</agreed_plan>" ].

Definition buildSoloPlanPrompt (task : string) : string :=
  Js.join Js.nl
    [ "Task: " +:+ task;
      "You are Model A and should produce the final implementation plan directly.";
      "Create an implementation plan with ordered steps, key risks, and explicit test/validation steps.";
      "Return exactly:";
      "<agreed_plan>";
      "...";
      "</agreed_plan>" ].

Definition driverReportFormat : list string :=
  [ "<status>continue|done</status>";
    "<summary>Short progress summary.</summary>";
    "<changes>Files changed and what changed.</changes>";
    "<questions_for_navigator>Specific review asks, or NONE.</questions_for_navigator>" ].

Definition buildDriverTurnPrompt (task agreedPlan : string) (round : Z)
    (driver navigator : AgentId) (pauseDescription turnPolicyDescription : string) : string :=
  Js.join Js.nl
    ([ "Task: " +:+ task;
       "Round: " +:+ Js.numToString round;
       "You are Model " +:+ agentName driver +:+ " acting as DRIVER. Model "
         +:+ agentName navigator +:+ " is NAVIGATOR.";
       "Implement the next meaningful chunk of work from the agreed plan.";
       "Use tools as needed. Keep scope tight and leave a clear handoff.";
       "Pause policy: " +:+ pauseDescription;
       "Turn policy: " +:+ turnPolicyDescription;
       "Agreed plan:";
       agreedPlan;
       "At the end of this turn, return exactly:" ] ++ driverReportFormat).

Definition buildSoloDriverTurnPrompt (task agreedPlan : string) (driver reviewer : AgentId)
    (pauseDescription : string) : string :=
  Js.join Js.nl
    ([ "Task: " +:+ task;
       "You are Model " +:+ agentName driver +:+ " acting as DRIVER. Model "
         +:+ agentName reviewer +:+ " will review after your implementation pass.";
       "Implement the task end-to-end before handing off to reviewer.";
       "Do not pause to request intermediate navigator feedback.";
       "Pause policy metric context: " +:+ pauseDescription;
       "Agreed plan:";
       agreedPlan;
       "At the end of implementation, return exactly:" ] ++ driverReportFormat).

Definition buildPauseInterruptionPrompt (navigator : AgentId) (phase : Tracker.Phase) : string :=
  match phase with
  | Tracker.FeedbackResolution =>
      Js.join Js.nl
        [ "Pause now due to checkpoint policy.";
          "Model " +:+ agentName navigator +:+ " is observing this checkpoint.";
          "Stop additional edits in this turn and complete your current required output format." ]
  | Tracker.Driving =>
      Js.join Js.nl
        [ "Pause now due to checkpoint policy.";
          "Prepare an immediate handoff for Model " +:+ agentName navigator +:+ ".";
          "Stop additional edits in this turn and emit the required tagged report." ]
  end.

Definition navigatorReviewFormat : list string :=
  [ "<private_reflection>Your private internal notes.</private_reflection>";
    "<public_feedback>Actionable feedback for driver, or NONE.</public_feedback>";
    "<driver_recommendation>continue|handoff</driver_recommendation>" ].

Definition buildNavigatorReviewPrompt (task agreedPlan : string) (round : Z) (driver : AgentId)
    (driverReport : string) (pauseTriggered : bool) (turnPolicyDescription : string) : string :=
  Js.join Js.nl
    ([ "Task: " +:+ task;
       "Round: " +:+ Js.numToString round;
       "You are NAVIGATOR reviewing Model " +:+ agentName driver +:+ "'s driving turn.";
       "Focus on correctness bugs, regressions, weak assumptions, missed edge cases, and refactor opportunities.";
       "You may use read-only tools to inspect current files.";
       "Checkpoint pause triggered: " +:+ (if pauseTriggered then "yes" else "no") +:+ ".";
       "Turn policy: " +:+ turnPolicyDescription;
       "Agreed plan:";
       agreedPlan;
       "Driver report:";
       driverReport;
       "Return exactly:" ] ++ navigatorReviewFormat
     ++ [ "Use 'handoff' only if you think roles should swap after this round." ]).

Definition buildSoloNavigatorReviewPrompt (task agreedPlan : string) (driver reviewer : AgentId)
    (driverReport : string) (checkpointCount : Z) : string :=
  Js.join Js.nl
    ([ "Task: " +:+ task;
       "You are Model " +:+ agentName reviewer +:+ " reviewing Model " +:+ agentName driver
         +:+ "'s full implementation pass.";
       "Focus on bugs, regressions, weak assumptions, missed edge cases, and refactor opportunities.";
       "You may use read-only tools to inspect current files.";
       "Checkpoint count during implementation: " +:+ Js.numToString checkpointCount +:+ ".";
       "Agreed plan:";
       agreedPlan;
       "Driver report:";
       driverReport;
       "Return exactly:" ] ++ navigatorReviewFormat
     ++ [ "Use 'handoff' if you believe the other model should drive next in a follow-up session." ]).

Definition buildDriverDecisionPrompt (feedback : string) : string :=
  Js.join Js.nl
    [ "Navigator feedback received.";
      "Decide whether to accept, partially accept, or reject it.";
      "If accepting/partial, make any required edits before replying.";
      "Navigator feedback:";
      feedback;
      "Return exactly:";
      "<decision>accept|partial|reject</decision>";
      "<justification>Why you made this decision, with technical rationale.</justification>" ].

Definition buildFinalReviewPrompt (task agreedPlan : string) : string :=
  Js.join Js.nl
    [ "Task: " +:+ task;
      "Perform final quality review of the current workspace state against the agreed plan.";
      "Call out remaining risk, missing tests, and any last improvements.";
      "Agreed plan:";
      agreedPlan;
      "Return exactly:";
      "<private_reflection>Your private quality notes.</private_reflection>";
      "<public_feedback>Final public review, or NONE if no issues remain.</public_feedback>" ].

Definition buildJointSynthesisPrompt (reviewA reviewB : string) : string :=
  Js.join Js.nl
    [ "Synthesize a joint final decision across both model reviews.";
      "Review from Model A:";
      reviewA;
      "Review from Model B:";
      reviewB;
      "Return exactly:";
      "<joint_verdict>APPROVED|NEEDS_MORE_WORK</joint_verdict>";
      "<rationale>Why this verdict is correct.</rationale>";
      "<next_steps>If NEEDS_MORE_WORK, list exact next actions. If APPROVED, write NONE.</next_steps>" ].

End Prompts.

(* ===================================================================== *)
(** * Run artefacts ([src/types.ts]) *)
(* ===================================================================== *)

Record ModelSpec := {
  provider : string;
  modelId : string;
  thinkingLevel : string }.

(** Modelled from the spec: the [ExecutionMode] type and the
    [executionMode] field of [PairAgentConfig] are declared in a revision
    of [src/types.ts] that is not among the sources; the two strategies are
    the ones section 4.5 names and the code compares against. *)
Inductive ExecutionMode := PairedTurns | SoloDriverThenReviewer.

Record PairAgentConfig := {
  modelA : ModelSpec;
  modelB : ModelSpec;
  cwd : string;
  maxRounds : Z;
  driverStartsAs : AgentId;
  pauseStrategy : PauseStrategy;
  turnPolicy : TurnPolicy;
  executionMode : ExecutionMode }.

Record SharedEntry := {
  stage : string;
  entryActor : Observer.Actor;
  content : string;
  entryTimestamp : Z }.

Record RoundResult := {
  rr_round : Z;
  rr_driver : AgentId;
  rr_navigator : AgentId;
  rr_pauseTriggered : bool;
  rr_checkpointCount : Z;
  rr_editWriteCallCount : Z;
  rr_estimatedWrittenBytes : Z;
  rr_driverReport : DriverReport;
  rr_navigatorReview : NavigatorReview;
  rr_driverDecision : option DriverDecision }.

(** [roughCodeSharePercent] is the one number of the run that is not an
    integer; it is an exact rational here (the rounding error of the
    double-precision division and products is not modelled). *)
Record ContributionSummary := {
  cs_agent : AgentId;
  cs_estimatedWrittenBytes : Z;
  cs_editWriteCallCount : Z;
  cs_roundsDriven : Z;
  cs_checkpointsWhileDriving : Z;
  roughCodeSharePercent : Q }.

(** [Record<AgentId, ContributionSummary>] *)
Record Contributions := {
  contribA : ContributionSummary;
  contribB : ContributionSummary }.

Record RunSummary := {
  rs_checkpointCount : Z;
  rs_swapCount : Z;
  totalEstimatedWrittenBytes : Z;
  rs_contributions : Contributions }.

Record FinalReview := {
  reviewA : NavigatorReview;
  reviewB : NavigatorReview;
  jointVerdict : Verdict;
  rationale : string;
  nextSteps : string;
  fr_raw : string }.

Record PairRunResult := {
  res_task : string;
  res_agreedPlan : string;
  res_rounds : list RoundResult;
  res_finalReview : FinalReview;
  res_summary : RunSummary;
  res_observability : option Observer.Summary;
  res_sharedJournal : list SharedEntry }.

(* ===================================================================== *)
(** * The model worker ([src/model-worker.ts]) and the orchestrator state *)
(* ===================================================================== *)

Inductive PairRole := Driver | Navigator.

(** What the orchestrator hands to an agent, in order. *)
Inductive AgentInput :=
| Appended (text : string) (timestamp : Z)
| Steered (text : string) (timestamp : Z)
| Prompted (prompt : string).

Record ModelWorker := {
  mw_id : AgentId;
  mw_modelSpec : ModelSpec;
  mw_tools : PairRole;
  mw_inputs : list AgentInput }.

(** The orchestrator object, its two workers, its observer and the world
    outside. *)
Record World := {
  outside : Observer.Out;
  observer : option Observer.State;
  sharedJournal : list SharedEntry;
  workerA : ModelWorker;
  workerB : ModelWorker }.

Definition M (T : Type) : Type := ST World T.

Definition setOutside (w : World) (o : Observer.Out) : World :=
  {| outside := o; observer := observer w; sharedJournal := sharedJournal w;
     workerA := workerA w; workerB := workerB w |}.

Definition setObserver (w : World) (o : Observer.Out) (obs : Observer.State) : World :=
  {| outside := o; observer := Some obs; sharedJournal := sharedJournal w;
     workerA := workerA w; workerB := workerB w |}.

Definition pushJournal (w : World) (e : SharedEntry) : World :=
  {| outside := outside w; observer := observer w;
     sharedJournal := sharedJournal w ++ [e];
     workerA := workerA w; workerB := workerB w |}.

Definition worker (w : World) (id : AgentId) : ModelWorker :=
  match id with A => workerA w | B => workerB w end.

Definition setWorker (w : World) (id : AgentId) (mw : ModelWorker) : World :=
  match id with
  | A => {| outside := outside w; observer := observer w;
            sharedJournal := sharedJournal w; workerA := mw; workerB := workerB w |}
  | B => {| outside := outside w; observer := observer w;
            sharedJournal := sharedJournal w; workerA := workerA w; workerB := mw |}
  end.

Definition withTools (mw : ModelWorker) (role : PairRole) : ModelWorker :=
  {| mw_id := mw_id mw; mw_modelSpec := mw_modelSpec mw; mw_tools := role;
     mw_inputs := mw_inputs mw |}.

Definition withInput (mw : ModelWorker) (i : AgentInput) : ModelWorker :=
  {| mw_id := mw_id mw; mw_modelSpec := mw_modelSpec mw; mw_tools := mw_tools mw;
     mw_inputs := mw_inputs mw ++ [i] |}.

(** [new PairProgrammingOrchestrator(config, { observer })] once both
    workers have been constructed: every agent starts with the coding
    tools. *)
Definition newOrchestrator (config : PairAgentConfig) (obs : option Observer.State)
    (o : Observer.Out) : World :=
  {| outside := o; observer := obs; sharedJournal := [];
     workerA := {| mw_id := A; mw_modelSpec := modelA config; mw_tools := Driver;
                   mw_inputs := [] |};
     workerB := {| mw_id := B; mw_modelSpec := modelB config; mw_tools := Driver;
                   mw_inputs := [] |} |}.

(* ===================================================================== *)
(** * The orchestrator: what both revisions share *)
(* ===================================================================== *)

(** [src/pair-orchestrator.ts] is present in two revisions.  The functions
    and methods of this module read the same in both. *)
Module OrchestratorCommon.

Definition otherAgent (id : AgentId) : AgentId :=
  match id with A => B | B => A end.

Definition actorName (a : Observer.Actor) : string :=
  match a with
  | Observer.ActorAgent id => Prompts.agentName id
  | Observer.ActorSystem => "system"
  end.

Definition contributionTemplate (agent : AgentId) : ContributionSummary :=
  {| cs_agent := agent; cs_estimatedWrittenBytes := 0; cs_editWriteCallCount := 0;
     cs_roundsDriven := 0; cs_checkpointsWhileDriving := 0;
     roughCodeSharePercent := 0%Q |}.

(** [Math.round(x)] of a finite number: the nearest integer, ties towards
    positive infinity.  It is exact: an integer of this size is a
    binary64 value. *)
Definition mathRound (x : Q) : Z := Qfloor (x + (1 # 2))%Q.

(** [Math.round(value * 10) / 10]: the product and the quotient are
    rounded to binary64. *)
Definition roundPercent (value : Q) : Q :=
  Double.div (inject_Z (mathRound (Double.mul value 10))) 10.

Definition contribution (c : Contributions) (id : AgentId) : ContributionSummary :=
  match id with A => contribA c | B => contribB c end.

Definition setContribution (c : Contributions) (id : AgentId) (s : ContributionSummary)
  : Contributions :=
  match id with
  | A => {| contribA := s; contribB := contribB c |}
  | B => {| contribA := contribA c; contribB := s |}
  end.

Definition withShare (s : ContributionSummary) (p : Q) : ContributionSummary :=
  {| cs_agent := cs_agent s; cs_estimatedWrittenBytes := cs_estimatedWrittenBytes s;
     cs_editWriteCallCount := cs_editWriteCallCount s; cs_roundsDriven := cs_roundsDriven s;
     cs_checkpointsWhileDriving := cs_checkpointsWhileDriving s;
     roughCodeSharePercent := p |}.

(** [roundPercent((part / total) * 100)], of two counts that binary64
    holds exactly. *)
Definition sharePercent (part total : Z) : Q :=
  roundPercent (Double.mul (Double.div (inject_Z part) (inject_Z total)) 100).

Definition buildSummary (contributions : Contributions) (checkpointCount swapCount : Z)
  : RunSummary :=
  let a := contribA contributions in
  let b := contribB contributions in
  let totalEstimatedWrittenBytes := cs_estimatedWrittenBytes a + cs_estimatedWrittenBytes b in
  let '(shareA, shareB) :=
    if 0 <? totalEstimatedWrittenBytes then
      (sharePercent (cs_estimatedWrittenBytes a) totalEstimatedWrittenBytes,
       sharePercent (cs_estimatedWrittenBytes b) totalEstimatedWrittenBytes)
    else
      let totalDrivenRounds := cs_roundsDriven a + cs_roundsDriven b in
      if 0 <? totalDrivenRounds then
        (sharePercent (cs_roundsDriven a) totalDrivenRounds,
         sharePercent (cs_roundsDriven b) totalDrivenRounds)
      else (0%Q, 0%Q) in
  {| rs_checkpointCount := checkpointCount;
     rs_swapCount := swapCount;
     totalEstimatedWrittenBytes := totalEstimatedWrittenBytes;
     rs_contributions := {| contribA := withShare a shareA; contribB := withShare b shareB |} |}.

Record SwapDecision := { swap : bool; reason : string }.

Definition recommendationName (r : Recommendation) : string :=
  match r with RecContinue => "continue" | RecHandoff => "handoff" end.

Definition statusName (s : DriverStatus) : string :=
  match s with StatusContinue => "continue" | StatusDone => "done" end.

Definition decisionName (d : Decision) : string :=
  match d with Accept => "accept" | Partial => "partial" | Reject => "reject" end.

Definition verdictName (v : Verdict) : string :=
  match v with APPROVED => "APPROVED" | NEEDS_MORE_WORK => "NEEDS_MORE_WORK" end.

Definition turnPolicyMode (p : TurnPolicy) : string :=
  match p with
  | AlternateEachRound => "alternate_each_round"
  | SameDriverUntilNavigatorSignoff _ _ => "same_driver_until_navigator_signoff"
  end.

Definition pauseStrategyMode (p : PauseStrategy) : string :=
  match p with
  | PauseNone => "none"
  | EveryNFileEdits _ _ => "every_n_file_edits"
  end.

Definition phaseName (p : Tracker.Phase) : string :=
  match p with
  | Tracker.Driving => "driving"
  | Tracker.FeedbackResolution => "feedback_resolution"
  end.

(** The variables of the round loop. *)
Record LoopState := {
  rounds : list RoundResult;
  driverId : AgentId;
  consecutiveRoundsWithDriver : Z;
  consecutiveCheckpointsWithDriver : Z;
  swapCount : Z;
  checkpointCount : Z;
  contributions : Contributions }.

Definition addRound (c : ContributionSummary) (result : RoundResult) : ContributionSummary :=
  {| cs_agent := cs_agent c;
     cs_estimatedWrittenBytes := cs_estimatedWrittenBytes c + rr_estimatedWrittenBytes result;
     cs_editWriteCallCount := cs_editWriteCallCount c + rr_editWriteCallCount result;
     cs_roundsDriven := cs_roundsDriven c + 1;
     cs_checkpointsWhileDriving := cs_checkpointsWhileDriving c + rr_checkpointCount result;
     roughCodeSharePercent := roughCodeSharePercent c |}.

(** The bookkeeping after [runRound] returns. *)
Definition accumulate (ls : LoopState) (result : RoundResult) : LoopState :=
  {| rounds := rounds ls ++ [result];
     driverId := driverId ls;
     consecutiveRoundsWithDriver := consecutiveRoundsWithDriver ls + 1;
     consecutiveCheckpointsWithDriver :=
       consecutiveCheckpointsWithDriver ls + rr_checkpointCount result;
     swapCount := swapCount ls;
     checkpointCount := checkpointCount ls + rr_checkpointCount result;
     contributions :=
       setContribution (contributions ls) (driverId ls)
         (addRound (contribution (contributions ls) (driverId ls)) result) |}.

(** The assignments of the [if (swapDecision.swap)] branch. *)
Definition swapDriver (ls : LoopState) : LoopState :=
  {| rounds := rounds ls;
     driverId := otherAgent (driverId ls);
     consecutiveRoundsWithDriver := 0;
     consecutiveCheckpointsWithDriver := 0;
     swapCount := swapCount ls + 1;
     checkpointCount := checkpointCount ls;
     contributions := contributions ls |}.

Definition initialLoopState (config : PairAgentConfig) : LoopState :=
  {| rounds := []; driverId := driverStartsAs config;
     consecutiveRoundsWithDriver := 0; consecutiveCheckpointsWithDriver := 0;
     swapCount := 0; checkpointCount := 0;
     contributions := {| contribA := contributionTemplate A;
                         contribB := contributionTemplate B |} |}.

Definition shouldStop (result : RoundResult) : bool :=
  bool_decide (dr_status (rr_driverReport result) = StatusDone)
  && negb (hasFeedback (rr_navigatorReview result)).

Definition driverReportEntry (round : Z) (driverReport : DriverReport) : string :=
  Js.join Js.nl
    [ "Round " +:+ Js.numToString round;
      "Status: " +:+ statusName (dr_status driverReport);
      "Summary: " +:+ dr_summary driverReport;
      "Changes: " +:+ dr_changes driverReport;
      "Navigator questions: " +:+ dr_questionsForNavigator driverReport ].

Definition driverDecisionEntry (d : DriverDecision) : string :=
  "Decision: " +:+ decisionName (decision d) +:+ Js.nl
  +:+ "Justification: " +:+ justification d.

Definition roundEndDetails (result : RoundResult) : list (string * Js.Value) :=
  [ ("driverStatus", Js.VString (statusName (dr_status (rr_driverReport result))));
    ("navigatorHasFeedback", Js.VBool (hasFeedback (rr_navigatorReview result)));
    ("navigatorRecommendation",
     Js.VString (recommendationName (driverRecommendation (rr_navigatorReview result))));
    ("checkpointCount", Js.VNumber (rr_checkpointCount result));
    ("editWriteCallCount", Js.VNumber (rr_editWriteCallCount result)) ].

Definition roundResult (round : Z) (driverId navigatorId : AgentId)
    (executionStats : Tracker.Snapshot) (driverReport : DriverReport)
    (navigatorReview : NavigatorReview) (driverDecision : option DriverDecision)
  : RoundResult :=
  {| rr_round := round; rr_driver := driverId; rr_navigator := navigatorId;
     rr_pauseTriggered := Tracker.snap_pauseTriggered executionStats;
     rr_checkpointCount := Tracker.snap_checkpointCount executionStats;
     rr_editWriteCallCount := Tracker.snap_editWriteCallCount executionStats;
     rr_estimatedWrittenBytes := Tracker.snap_estimatedWrittenBytes executionStats;
     rr_driverReport := driverReport;
     rr_navigatorReview := navigatorReview;
     rr_driverDecision := driverDecision |}.

Record ResultCore := {
  core_task : string;
  core_agreedPlan : string;
  core_rounds : list RoundResult;
  core_finalReview : FinalReview;
  core_summary : RunSummary;
  core_sharedJournal : list SharedEntry }.

(** [{ ...resultCore, ...(observabilitySummary ? { observability } : {}) }] *)
Definition pairRunResult (r : ResultCore * option Observer.Summary) : PairRunResult :=
  {| res_task := core_task (fst r); res_agreedPlan := core_agreedPlan (fst r);
     res_rounds := core_rounds (fst r); res_finalReview := core_finalReview (fst r);
     res_summary := core_summary (fst r); res_observability := snd r;
     res_sharedJournal := core_sharedJournal (fst r) |}.

Section WithEnv.
Context (E : Env) (config : PairAgentConfig).

Definition shouldSwapDriver (result : RoundResult)
    (consecutiveRoundsWithDriver consecutiveCheckpointsWithDriver : Z) : SwapDecision :=
  match turnPolicy config with
  | AlternateEachRound => {| swap := true; reason := "alternate_each_round" |}
  | SameDriverUntilNavigatorSignoff maxConsecutiveRounds maxConsecutiveCheckpoints =>
      if bool_decide (driverRecommendation (rr_navigatorReview result) = RecHandoff) then
        {| swap := true; reason := "navigator_requested_handoff" |}
      else if maxConsecutiveRounds <=? consecutiveRoundsWithDriver then
        {| swap := true;
           reason := "safety_cap_rounds_" +:+ Js.numToString maxConsecutiveRounds |}
      else if maxConsecutiveCheckpoints <=? consecutiveCheckpointsWithDriver then
        {| swap := true;
           reason := "safety_cap_checkpoints_" +:+ Js.numToString maxConsecutiveCheckpoints |}
      else {| swap := false; reason := "continue_same_driver" |}
  end.

(** [Date.now()] *)
Definition dateNow : M Z :=
  λ w, let o := outside w in
       (Ok (clock E (ticks o)), setOutside w (Observer.setTicks o (S (ticks o)))).

(** [this.observer?.method(...)] *)
Definition observerCall (method : Observer.Method unit) : M unit :=
  λ w, match observer w with
       | None => (Ok tt, w)
       | Some obs =>
           let '(r, (obs', o')) := method (obs, outside w) in (r, setObserver w o' obs')
       end.

Definition orchestratorEvent (name : string) (round : Z) (details : list (string * Js.Value))
  : Observer.EventInput :=
  {| Observer.category := Observer.CatOrchestrator; Observer.name := name;
     Observer.actor := Some Observer.ActorSystem; Observer.round := Some round;
     Observer.phase := None; Observer.details := Some details |}.

(** The [round_start] event of the paired loop. *)
Definition roundStartEvent (round : Z) (driverId : AgentId) : Observer.EventInput :=
  orchestratorEvent "round_start" round
    [ ("driver", Js.VString (Prompts.agentName driverId));
      ("navigator", Js.VString (Prompts.agentName (otherAgent driverId))) ].

Definition sessionEvent (name : string) (details : list (string * Js.Value))
  : Observer.EventInput :=
  {| Observer.category := Observer.CatSession; Observer.name := name;
     Observer.actor := Some Observer.ActorSystem; Observer.round := None;
     Observer.phase := None; Observer.details := Some details |}.

(** ** [ModelWorker] methods *)

Definition updateWorker (id : AgentId) (f : ModelWorker → ModelWorker) : M unit :=
  modify (λ w, setWorker w id (f (worker w id))).

Definition setRole (id : AgentId) (role : PairRole) : M unit :=
  updateWorker id (λ mw, withTools mw role).

Definition appendSharedContext (id : AgentId) (content : string) : M unit :=
  now <- dateNow ;;
  updateWorker id (λ mw, withInput mw (Appended ("[SHARED CONTEXT]" +:+ Js.nl +:+ content) now)).

Definition appendPrivateMemory (id : AgentId) (content : string) : M unit :=
  now <- dateNow ;;
  updateWorker id (λ mw, withInput mw
    (Appended ("[PRIVATE MEMORY - MODEL " +:+ Prompts.agentName id +:+ " ONLY]"
               +:+ Js.nl +:+ content) now)).

(** [worker.agent.steer({ role: "user", content: [text], timestamp: Date.now() })] *)
Definition steer (id : AgentId) (text : string) : M unit :=
  now <- dateNow ;;
  updateWorker id (λ mw, withInput mw (Steered text now)).

Definition assistantText (message : AssistantMessage) : string :=
  Js.trim (Js.join Js.nl (am_textParts message)).

(** The agent invokes the subscriber on each event it emits. *)
Fixpoint deliver {St} (onEvent : AgentEvent → St → M St) (events : list AgentEvent) (s : St)
  : M St :=
  match events with
  | [] => ret s
  | e :: rest => s' <- onEvent e s ;; deliver onEvent rest s'
  end.

(** [await this.agent.prompt(prompt)] with its subscriber. *)
Definition agentPrompt {St} (id : AgentId) (prompt : string)
    (onEvent : AgentEvent → St → M St) (s : St) : M (option AssistantMessage * St) :=
  run <- (λ w, let o := outside w in
               (Ok (agentRun E (prompts o)),
                setOutside w {| ticks := ticks o; fsOps := fsOps o; prompts := S (prompts o);
                                eventStreamFileContent := eventStreamFileContent o;
                                logFileContent := logFileContent o |})) ;;
  updateWorker id (λ mw, withInput mw (Prompted prompt)) ;;;
  s' <- deliver onEvent (run_events run) s ;;
  match run_rejects run with
  | Some e => throw e
  | None => ret (run_lastAssistantMessage run, s')
  end.

(** [ModelWorker.runPrompt].  The state [St] is what the subscriber closes
    over. *)
Definition runPrompt {St} (id : AgentId) (prompt : string)
    (onEvent : AgentEvent → St → M St) (s : St) : M (string * St) :=
  r <- agentPrompt id prompt onEvent s ;;
  let '(last, s') := r in
  match last with
  | None => ret (""%string, s')
  | Some message =>
      if String.eqb (am_stopReason message) "error"
         || String.eqb (am_stopReason message) "aborted" then
        spec <- gets (λ w, mw_modelSpec (worker w id)) ;;
        let trimmed := Js.trim <$> am_errorMessage message in
        let reason := if Observer.isSet trimmed then default ""%string trimmed
                      else "unknown provider error" in
        throw (ErrorObject ("Model " +:+ Prompts.agentName id +:+ " (" +:+ provider spec
                            +:+ "/" +:+ modelId spec +:+ ") failed: " +:+ reason))
      else ret (assistantText message, s')
  end.

(** ** Orchestrator methods *)

Definition runPromptWithObservability {St} (actor : AgentId) (prompt promptKind phase : string)
    (round : option Z) (onEvent : AgentEvent → St → M St) (s : St) : M (string * St) :=
  observerCall (Observer.recordPromptStart E actor round phase promptKind prompt) ;;;
  r <- runPrompt actor prompt
         (λ event s,
            observerCall (Observer.recordAgentEvent E actor round phase event) ;;;
            onEvent event s) s ;;
  observerCall (Observer.recordPromptEnd E actor round phase promptKind (fst r)) ;;;
  ret r.

(** A call that passes no [onEvent]. *)
Definition promptPlain (actor : AgentId) (prompt promptKind phase : string)
    (round : option Z) : M string :=
  r <- runPromptWithObservability actor prompt promptKind phase round (λ _ s, ret s) tt ;;
  ret (fst r).

Definition formatSharedEntry (entry : SharedEntry) : string :=
  Js.join Js.nl
    [ "Stage: " +:+ stage entry;
      "Actor: " +:+ actorName (entryActor entry);
      "Timestamp: " +:+ toISOString E (entryTimestamp entry);
      content entry ].

Definition broadcastShared (stage : string) (actor : Observer.Actor) (content : string)
  : M unit :=
  now <- dateNow ;;
  let entry := {| stage := stage; entryActor := actor; content := content;
                  entryTimestamp := now |} in
  modify (λ w, pushJournal w entry) ;;;
  let rendered := formatSharedEntry entry in
  appendSharedContext A rendered ;;;
  appendSharedContext B rendered.

Definition collaborativePlanning (task : string) : M string :=
  setRole A Navigator ;;;
  setRole B Navigator ;;;
  aDraftRaw <- promptPlain A (Prompts.buildPlanDraftPrompt task) "plan_draft" "planning" None ;;
  let aDraft := Js.trim aDraftRaw in
  broadcastShared "plan_draft" (Observer.ActorAgent A) aDraft ;;;
  bFeedbackRaw <- promptPlain B (Prompts.buildPlanCritiquePrompt task aDraft)
                    "plan_feedback" "planning" None ;;
  let bFeedback := Js.trim bFeedbackRaw in
  broadcastShared "plan_feedback" (Observer.ActorAgent B) bFeedback ;;;
  aFinalRaw <- promptPlain A (Prompts.buildPlanRevisionPrompt task aDraft bFeedback)
                 "plan_revision" "planning" None ;;
  let agreedPlan := Js.trim aFinalRaw in
  broadcastShared "plan_agreed" (Observer.ActorAgent A) agreedPlan ;;;
  ret agreedPlan.

Definition finalReview (task agreedPlan : string) : M FinalReview :=
  setRole A Navigator ;;;
  setRole B Navigator ;;;
  reviewARaw <- promptPlain A (Prompts.buildFinalReviewPrompt task agreedPlan)
                  "final_review" "final_review" None ;;
  reviewBRaw <- promptPlain B (Prompts.buildFinalReviewPrompt task agreedPlan)
                  "final_review" "final_review" None ;;
  let reviewA := Parsing.parseNavigatorReview reviewARaw in
  let reviewB := Parsing.parseNavigatorReview reviewBRaw in
  appendPrivateMemory A (privateReflection reviewA) ;;;
  appendPrivateMemory B (privateReflection reviewB) ;;;
  broadcastShared "final_review_A" (Observer.ActorAgent A) (publicFeedback reviewA) ;;;
  broadcastShared "final_review_B" (Observer.ActorAgent B) (publicFeedback reviewB) ;;;
  synthesisRaw <- promptPlain A
                    (Prompts.buildJointSynthesisPrompt (publicFeedback reviewA)
                       (publicFeedback reviewB))
                    "joint_synthesis" "final_review" None ;;
  let synthesis := Parsing.parseJointVerdict synthesisRaw in
  broadcastShared "joint_verdict" (Observer.ActorAgent A)
    ("Verdict: " +:+ verdictName (jv_jointVerdict synthesis) +:+ Js.nl
     +:+ "Rationale: " +:+ jv_rationale synthesis +:+ Js.nl
     +:+ "Next steps: " +:+ jv_nextSteps synthesis) ;;;
  ret {| reviewA := reviewA; reviewB := reviewB;
         jointVerdict := jv_jointVerdict synthesis;
         rationale := jv_rationale synthesis;
         nextSteps := jv_nextSteps synthesis;
         fr_raw := jv_raw synthesis |}.

(** What follows [runRound] in one iteration of the loop.  The boolean
    tells whether the loop goes on; [false] is [break]. *)
Definition afterRound (round : Z) (ls : LoopState) (result : RoundResult)
  : M (bool * LoopState) :=
  let ls := accumulate ls result in
  observerCall (Observer.record E
    (orchestratorEvent "round_end" round (roundEndDetails result))) ;;;
  if shouldStop result then
    broadcastShared "loop_stop" Observer.ActorSystem
      ("Stopped at round " +:+ Js.numToString round
       +:+ " because driver signaled done and navigator had no feedback.") ;;;
    ret (false, ls)
  else if round =? maxRounds config then
    broadcastShared "loop_stop" Observer.ActorSystem
      ("Reached max rounds (" +:+ Js.numToString (maxRounds config) +:+ ").") ;;;
    ret (false, ls)
  else
    let swapDecision :=
      shouldSwapDriver result (consecutiveRoundsWithDriver ls)
        (consecutiveCheckpointsWithDriver ls) in
    if swap swapDecision then
      let previousDriver := driverId ls in
      let ls := swapDriver ls in
      broadcastShared "driver_swap" Observer.ActorSystem
        ("Swapped driver from " +:+ Prompts.agentName previousDriver +:+ " to "
         +:+ Prompts.agentName (driverId ls) +:+ ". Reason: " +:+ reason swapDecision
         +:+ ".") ;;;
      observerCall (Observer.record E (orchestratorEvent "driver_swap" round
        [ ("from", Js.VString (Prompts.agentName previousDriver));
          ("to", Js.VString (Prompts.agentName (driverId ls)));
          ("reason", Js.VString (reason swapDecision)) ])) ;;;
      ret (true, ls)
    else ret (true, ls).

(** [this.observer ? await this.observer.flush(status, failureMessage)
     : undefined] *)
Definition flushObserver (status : Observer.Status) (failureMessage : option string)
  : M (option Observer.Summary) :=
  λ w, match observer w with
       | None => (Ok None, w)
       | Some obs =>
           let '(r, (obs', o')) := Observer.flush E status failureMessage (obs, outside w) in
           (match r with Ok s => Ok (Some s) | Throw e => Throw e end, setObserver w o' obs')
       end.

(** The [catch] block up to its [throw error]. *)
Definition recordSessionError (error : Thrown) : M unit :=
  observerCall (Observer.record E
    (sessionEvent "session_error" [("message", Js.VString (thrownMessage error))])).

(** The [finally] block: [status] and [failureMessage] are what the
    [catch] block left in them. *)
Definition flushAtEnd (caught : option Thrown) : M (option Observer.Summary) :=
  match caught with
  | None => flushObserver Observer.Completed None
  | Some error => flushObserver Observer.Failed (Some (thrownMessage error))
  end.

End WithEnv.

End OrchestratorCommon.

(* ===================================================================== *)
(** * The orchestrator, later revision (tracker extracted, two modes) *)
(* ===================================================================== *)

Module Orchestrator.
Import OrchestratorCommon.

Record ExecutionResult := {
  ex_rounds : list RoundResult;
  ex_checkpointCount : Z;
  ex_swapCount : Z;
  ex_contributions : Contributions;
  ex_finalReview : option FinalReview }.

Definition executionModeName (m : ExecutionMode) : string :=
  match m with
  | PairedTurns => "paired_turns"
  | SoloDriverThenReviewer => "solo_driver_then_reviewer"
  end.

Section WithEnv.
Context (E : Env) (config : PairAgentConfig).

(** The subscriber built from a tracker: [onEvent] of the tracker, whose
    [onCheckpoint] callback, when given, runs after the tracker's own
    assignments. *)
Definition trackerOnEvent (onCheckpoint : option (Tracker.Phase → M unit))
    (event : AgentEvent) (tracker : Tracker.State) : M Tracker.State :=
  let '(tracker', fired) := Tracker.onEvent (pauseStrategy config) tracker event in
  match fired, onCheckpoint with
  | Some phase, Some callback => callback phase ;;; ret tracker'
  | _, _ => ret tracker'
  end.

Definition broadcastReview (navigatorId : AgentId) (navigatorReview : NavigatorReview)
  : M unit :=
  (if hasFeedback navigatorReview
   then broadcastShared E "navigator_feedback" (Observer.ActorAgent navigatorId)
          (publicFeedback navigatorReview)
   else broadcastShared E "navigator_feedback" (Observer.ActorAgent navigatorId) "NONE") ;;;
  broadcastShared E "navigator_handoff_signal" (Observer.ActorAgent navigatorId)
    (recommendationName (driverRecommendation navigatorReview)).

(** [if (navigatorReview.hasFeedback) { ... }]: the decision cycle. *)
Definition resolveFeedback (round : Z) (driverId : AgentId)
    (navigatorReview : NavigatorReview)
    (onEvent : AgentEvent → Tracker.State → M Tracker.State)
    (tracker : Tracker.State) : M (option DriverDecision * Tracker.State) :=
  if hasFeedback navigatorReview then
    let tracker := Tracker.setPhase tracker Tracker.FeedbackResolution in
    r <- runPromptWithObservability E driverId
           (Prompts.buildDriverDecisionPrompt (publicFeedback navigatorReview))
           "driver_decision" "feedback_resolution" (Some round) onEvent tracker ;;
    let driverDecision := Parsing.parseDriverDecision (fst r) in
    broadcastShared E "driver_decision" (Observer.ActorAgent driverId)
      (driverDecisionEntry driverDecision) ;;;
    ret (Some driverDecision, snd r)
  else ret (None, tracker).

Definition runRound (task agreedPlan : string) (round : Z) (driverId : AgentId)
  : M RoundResult :=
  let navigatorId := otherAgent driverId in
  setRole driverId Driver ;;;
  setRole navigatorId Navigator ;;;
  let pauseDescription := Prompts.describePauseStrategy (pauseStrategy config) in
  let turnPolicyDescription := Prompts.describeTurnPolicy (turnPolicy config) in
  let driverPrompt :=
    Prompts.buildDriverTurnPrompt task agreedPlan round driverId navigatorId
      pauseDescription turnPolicyDescription in
  let executionTracker := Tracker.create (pauseStrategy config) in
  let onEvent :=
    trackerOnEvent
      (Some (λ phase,
         steer E driverId (Prompts.buildPauseInterruptionPrompt navigatorId phase))) in
  r <- runPromptWithObservability E driverId driverPrompt "driver_turn" "driving"
         (Some round) onEvent executionTracker ;;
  let driverReport := Parsing.parseDriverReport (fst r) in
  broadcastShared E "driver_report" (Observer.ActorAgent driverId)
    (driverReportEntry round driverReport) ;;;
  let drivingStats := Tracker.snapshot (snd r) in
  navigatorReviewRaw <-
    promptPlain E navigatorId
      (Prompts.buildNavigatorReviewPrompt task agreedPlan round driverId
         (dr_raw driverReport) (Tracker.snap_pauseTriggered drivingStats)
         turnPolicyDescription)
      "navigator_review" "navigation" (Some round) ;;
  let navigatorReview := Parsing.parseNavigatorReview navigatorReviewRaw in
  appendPrivateMemory E navigatorId (privateReflection navigatorReview) ;;;
  broadcastReview navigatorId navigatorReview ;;;
  d <- resolveFeedback round driverId navigatorReview onEvent (snd r) ;;
  let executionStats := Tracker.snapshot (snd d) in
  ret (roundResult round driverId navigatorId executionStats driverReport navigatorReview
         (fst d)).

(** [for (let round = ...; round <= maxRounds; round += 1) { ... }].
    [remaining] bounds the iterations still possible; started with
    [maxRounds] of them at round 1 it is positive whenever the loop
    condition holds. *)
Fixpoint roundLoop (task agreedPlan : string) (remaining : nat) (round : Z) (ls : LoopState)
  : M LoopState :=
  match remaining with
  | O => ret ls
  | S remaining' =>
      if round <=? maxRounds config then
        observerCall (Observer.record E (roundStartEvent round (driverId ls))) ;;;
        result <- runRound task agreedPlan round (driverId ls) ;;
        next <- afterRound E config round ls result ;;
        if fst next then roundLoop task agreedPlan remaining' (round + 1) (snd next)
        else ret (snd next)
      else ret ls
  end.

Definition runPairedExecution (task agreedPlan : string) : M ExecutionResult :=
  ls <- roundLoop task agreedPlan (Z.to_nat (maxRounds config)) 1 (initialLoopState config) ;;
  ret {| ex_rounds := rounds ls; ex_checkpointCount := checkpointCount ls;
         ex_swapCount := swapCount ls; ex_contributions := contributions ls;
         ex_finalReview := None |}.

Definition soloPlanning (task : string) : M string :=
  setRole A Navigator ;;;
  setRole B Navigator ;;;
  aPlanRaw <- promptPlain E A (Prompts.buildSoloPlanPrompt task) "plan_solo" "planning" None ;;
  let agreedPlan := Js.trim aPlanRaw in
  broadcastShared E "plan_agreed" (Observer.ActorAgent A) agreedPlan ;;;
  ret agreedPlan.

Definition synthesizeSoloFinalReview (round : RoundResult) : M FinalReview :=
  let reviewA :=
    Parsing.parseNavigatorReview
      (Js.join Js.nl
         [ "<private_reflection>Skipped extra final review in solo mode.</private_reflection>";
           match rr_driverDecision round with
           | Some d =>
               "<public_feedback>Driver decision: " +:+ decisionName (decision d) +:+ ". "
               +:+ justification d +:+ "</public_feedback>"
           | None => "<public_feedback>NONE</public_feedback>"
           end;
           "<driver_recommendation>continue</driver_recommendation>" ]) in
  let reviewB := rr_navigatorReview round in
  let accepted :=
    match rr_driverDecision round with
    | Some d => bool_decide (decision d = Accept)
    | None => false
    end in
  let jointVerdict :=
    if negb (hasFeedback reviewB) || accepted then APPROVED else NEEDS_MORE_WORK in
  let rationale :=
    match jointVerdict with
    | APPROVED => "Solo mode completed after B's final review and A's integration decision."
    | NEEDS_MORE_WORK => "B provided final feedback and A did not fully accept it in solo mode."
    end in
  let nextSteps :=
    match jointVerdict with
    | APPROVED => "NONE"
    | NEEDS_MORE_WORK => publicFeedback reviewB
    end in
  broadcastShared E "joint_verdict" Observer.ActorSystem
    ("Verdict: " +:+ verdictName jointVerdict +:+ Js.nl
     +:+ "Rationale: " +:+ rationale +:+ Js.nl
     +:+ "Next steps: " +:+ nextSteps) ;;;
  ret {| reviewA := reviewA; reviewB := reviewB; jointVerdict := jointVerdict;
         rationale := rationale; nextSteps := nextSteps;
         fr_raw := "synthetic_solo_final_review" |}.

Definition runSoloDriverThenReviewerExecution (task agreedPlan : string)
  : M ExecutionResult :=
  let round := 1 in
  let driverId := A in
  let reviewerId := B in
  setRole driverId Driver ;;;
  setRole reviewerId Navigator ;;;
  observerCall (Observer.record E (orchestratorEvent "round_start" round
    [ ("driver", Js.VString (Prompts.agentName driverId));
      ("navigator", Js.VString (Prompts.agentName reviewerId));
      ("mode", Js.VString "solo_driver_then_reviewer") ])) ;;;
  let executionTracker := Tracker.create (pauseStrategy config) in
  let onEvent := trackerOnEvent None in
  r <- runPromptWithObservability E driverId
         (Prompts.buildSoloDriverTurnPrompt task agreedPlan driverId reviewerId
            (Prompts.describePauseStrategy (pauseStrategy config)))
         "driver_turn_solo" "driving" (Some round) onEvent executionTracker ;;
  let driverReport := Parsing.parseDriverReport (fst r) in
  broadcastShared E "driver_report" (Observer.ActorAgent driverId)
    (driverReportEntry round driverReport) ;;;
  let drivingStats := Tracker.snapshot (snd r) in
  navigatorReviewRaw <-
    promptPlain E reviewerId
      (Prompts.buildSoloNavigatorReviewPrompt task agreedPlan driverId reviewerId
         (dr_raw driverReport) (Tracker.snap_checkpointCount drivingStats))
      "navigator_review_solo" "navigation" (Some round) ;;
  let navigatorReview := Parsing.parseNavigatorReview navigatorReviewRaw in
  appendPrivateMemory E reviewerId (privateReflection navigatorReview) ;;;
  broadcastReview reviewerId navigatorReview ;;;
  d <- resolveFeedback round driverId navigatorReview onEvent (snd r) ;;
  let executionStats := Tracker.snapshot (snd d) in
  let roundResult :=
    roundResult round driverId reviewerId executionStats driverReport navigatorReview
      (fst d) in
  observerCall (Observer.record E
    (orchestratorEvent "round_end" round (roundEndDetails roundResult))) ;;;
  broadcastShared E "loop_stop" Observer.ActorSystem
    "Stopped after solo driver pass plus reviewer feedback/integration cycle." ;;;
  let template := contributionTemplate driverId in
  let contributions :=
    {| contribA :=
         {| cs_agent := cs_agent template;
            cs_estimatedWrittenBytes := rr_estimatedWrittenBytes roundResult;
            cs_editWriteCallCount := rr_editWriteCallCount roundResult;
            cs_roundsDriven := 1;
            cs_checkpointsWhileDriving := rr_checkpointCount roundResult;
            roughCodeSharePercent := roughCodeSharePercent template |};
       contribB := contributionTemplate B |} in
  finalReview <- synthesizeSoloFinalReview roundResult ;;
  ret {| ex_rounds := [roundResult];
         ex_checkpointCount := rr_checkpointCount roundResult;
         ex_swapCount := 0;
         ex_contributions := contributions;
         ex_finalReview := Some finalReview |}.

(** The [try] block of [run]. *)
Definition runBody (task : string) : M ResultCore :=
  observerCall (Observer.record E (sessionEvent "session_start"
    [ ("taskLength", Js.VNumber (Js.length task));
      ("maxRounds", Js.VNumber (maxRounds config));
      ("executionMode", Js.VString (executionModeName (executionMode config)));
      ("turnPolicy", Js.VString (turnPolicyMode (turnPolicy config)));
      ("pausePolicy", Js.VString (pauseStrategyMode (pauseStrategy config))) ])) ;;;
  broadcastShared E "task" Observer.ActorSystem task ;;;
  agreedPlan <-
    match executionMode config with
    | SoloDriverThenReviewer => soloPlanning task
    | PairedTurns => collaborativePlanning E task
    end ;;
  execution <-
    match executionMode config with
    | SoloDriverThenReviewer => runSoloDriverThenReviewerExecution task agreedPlan
    | PairedTurns => runPairedExecution task agreedPlan
    end ;;
  finalReview <-
    match ex_finalReview execution with
    | Some review => ret review
    | None => finalReview E task agreedPlan
    end ;;
  let summary :=
    buildSummary (ex_contributions execution) (ex_checkpointCount execution)
      (ex_swapCount execution) in
  journal <- gets sharedJournal ;;
  ret {| core_task := task; core_agreedPlan := agreedPlan;
         core_rounds := ex_rounds execution; core_finalReview := finalReview;
         core_summary := summary; core_sharedJournal := journal |}.

(** [run].  The [throw] after the [finally] block is out of reach: the
    [try] block either assigns [resultCore] or throws. *)
Definition run (task : string) : M PairRunResult :=
  r <- tryCatchRethrowFinally (runBody task) (recordSessionError E) (flushAtEnd E) ;;
  ret (pairRunResult r).

End WithEnv.

End Orchestrator.

(* ===================================================================== *)
(** * The orchestrator, earlier revision (checkpoint logic inline) *)
(* ===================================================================== *)

(** In this revision [runRound] declares the eight variables itself and
    closes [onDriverEvent] over them and over the driver; the record
    [Tracker.State] holds them.  The round loop is part of [run]; there is
    one execution mode, and [config.executionMode] does not exist. *)
Module InlineOrchestrator.
Import OrchestratorCommon.

Section WithEnv.
Context (E : Env) (config : PairAgentConfig).

Definition onDriverEvent (driverId navigatorId : AgentId) (event : AgentEvent)
    (v : Tracker.State) : M Tracker.State :=
  match event with
  | ToolExecutionStart toolCallId toolName args =>
      if Tracker.isWriteTool toolName
      then ret (Tracker.recordStart v toolCallId toolName args)
      else ret v
  | ToolExecutionEnd toolCallId toolName _ isError =>
      match pauseStrategy config with
      | PauseNone =>
          if negb isError && Tracker.isWriteTool toolName
          then ret (Tracker.clearPending (Tracker.promote v toolCallId) toolCallId)
          else ret v
      | EveryNFileEdits editsPerPause countedTools =>
          let v :=
            if Tracker.isWriteTool toolName then
              Tracker.clearPending
                (if negb isError then Tracker.promote v toolCallId else v) toolCallId
            else v in
          if isError then ret v
          else if negb (Tracker.includes countedTools toolName) then ret v
          else
            let v := Tracker.countEdit v in
            if Tracker.ltThreshold (Tracker.countedEdits v) (Tracker.nextCheckpointAt v)
            then ret v
            else
              let v := Tracker.fireCheckpoint v editsPerPause in
              steer E driverId
                (Prompts.buildPauseInterruptionPrompt navigatorId (Tracker.currentPhase v)) ;;;
              ret v
      end
  | _ => ret v
  end.

Definition runRound (task agreedPlan : string) (round : Z) (driverId : AgentId)
  : M RoundResult :=
  let navigatorId := otherAgent driverId in
  setRole driverId Driver ;;;
  setRole navigatorId Navigator ;;;
  let pauseDescription := Prompts.describePauseStrategy (pauseStrategy config) in
  let turnPolicyDescription := Prompts.describeTurnPolicy (turnPolicy config) in
  let driverPrompt :=
    Prompts.buildDriverTurnPrompt task agreedPlan round driverId navigatorId
      pauseDescription turnPolicyDescription in
  let v := Tracker.create (pauseStrategy config) in
  r <- runPromptWithObservability E driverId driverPrompt "driver_turn" "driving"
         (Some round) (onDriverEvent driverId navigatorId) v ;;
  let v := snd r in
  let driverReport := Parsing.parseDriverReport (fst r) in
  broadcastShared E "driver_report" (Observer.ActorAgent driverId)
    (driverReportEntry round driverReport) ;;;
  navigatorReviewRaw <-
    promptPlain E navigatorId
      (Prompts.buildNavigatorReviewPrompt task agreedPlan round driverId
         (dr_raw driverReport) (Tracker.pauseTriggered v) turnPolicyDescription)
      "navigator_review" "navigation" (Some round) ;;
  let navigatorReview := Parsing.parseNavigatorReview navigatorReviewRaw in
  appendPrivateMemory E navigatorId (privateReflection navigatorReview) ;;;
  (if hasFeedback navigatorReview
   then broadcastShared E "navigator_feedback" (Observer.ActorAgent navigatorId)
          (publicFeedback navigatorReview)
   else broadcastShared E "navigator_feedback" (Observer.ActorAgent navigatorId) "NONE") ;;;
  broadcastShared E "navigator_handoff_signal" (Observer.ActorAgent navigatorId)
    (recommendationName (driverRecommendation navigatorReview)) ;;;
  d <- (if hasFeedback navigatorReview then
          let v := Tracker.setPhase v Tracker.FeedbackResolution in
          r <- runPromptWithObservability E driverId
                 (Prompts.buildDriverDecisionPrompt (publicFeedback navigatorReview))
                 "driver_decision" "feedback_resolution" (Some round)
                 (onDriverEvent driverId navigatorId) v ;;
          let driverDecision := Parsing.parseDriverDecision (fst r) in
          broadcastShared E "driver_decision" (Observer.ActorAgent driverId)
            (driverDecisionEntry driverDecision) ;;;
          ret (Some driverDecision, snd r)
        else ret (None, v)) ;;
  let v := snd d in
  ret {| rr_round := round; rr_driver := driverId; rr_navigator := navigatorId;
         rr_pauseTriggered := Tracker.pauseTriggered v;
         rr_checkpointCount := Tracker.checkpointCount v;
         rr_editWriteCallCount := Tracker.editWriteCallCount v;
         rr_estimatedWrittenBytes := Tracker.estimatedWrittenBytes v;
         rr_driverReport := driverReport;
         rr_navigatorReview := navigatorReview;
         rr_driverDecision := fst d |}.

(** The [for] loop of [run]. *)
Fixpoint roundLoop (task agreedPlan : string) (remaining : nat) (round : Z) (ls : LoopState)
  : M LoopState :=
  match remaining with
  | O => ret ls
  | S remaining' =>
      if round <=? maxRounds config then
        observerCall (Observer.record E (roundStartEvent round (driverId ls))) ;;;
        result <- runRound task agreedPlan round (driverId ls) ;;
        next <- afterRound E config round ls result ;;
        if fst next then roundLoop task agreedPlan remaining' (round + 1) (snd next)
        else ret (snd next)
      else ret ls
  end.

(** The [try] block of [run]. *)
Definition runBody (task : string) : M ResultCore :=
  observerCall (Observer.record E (sessionEvent "session_start"
    [ ("taskLength", Js.VNumber (Js.length task));
      ("maxRounds", Js.VNumber (maxRounds config));
      ("turnPolicy", Js.VString (turnPolicyMode (turnPolicy config)));
      ("pausePolicy", Js.VString (pauseStrategyMode (pauseStrategy config))) ])) ;;;
  broadcastShared E "task" Observer.ActorSystem task ;;;
  agreedPlan <- collaborativePlanning E task ;;
  ls <- roundLoop task agreedPlan (Z.to_nat (maxRounds config)) 1 (initialLoopState config) ;;
  finalReview <- finalReview E task agreedPlan ;;
  let summary := buildSummary (contributions ls) (checkpointCount ls) (swapCount ls) in
  journal <- gets sharedJournal ;;
  ret {| core_task := task; core_agreedPlan := agreedPlan;
         core_rounds := rounds ls;
         core_finalReview := finalReview;
         core_summary := summary;
         core_sharedJournal := journal |}.

Definition run (task : string) : M PairRunResult :=
  r <- tryCatchRethrowFinally (runBody task) (recordSessionError E)
         (flushAtEnd E) ;;
  ret (pairRunResult r).

End WithEnv.

End InlineOrchestrator.

(* ===================================================================== *)
(** * Command-line configuration ([src/config.ts]) *)
(* ===================================================================== *)

Module Cli.

Inductive WorkspaceMode := Direct | EphemeralCopy.

Record CliConfig := {
  task : string;
  outputPath : option string;
  logFile : option string;
  eventLogFile : option string;
  eventStreamMode : Observer.EventStreamMode;
  workspaceMode : WorkspaceMode;
  keepWorkspace : bool;
  pair : PairAgentConfig }.

Definition dquote : string := String (ascii_of_N 34) EmptyString.

Definition isDigit (c : ascii) : bool :=
  let n := Js.code c in ((48 <=? n) && (n <=? 57))%N.

(** The value of the longest prefix of decimal digits, and whether there
    is one. *)
Fixpoint digitsPrefix (s : string) (acc : Z) (seen : bool) : option Z :=
  match s with
  | String c r =>
      if isDigit c then digitsPrefix r (10 * acc + Z.of_N (Js.code c - 48)) true
      else if seen then Some acc else None
  | EmptyString => if seen then Some acc else None
  end.

(** The mathematical integer that [Number.parseInt(value, 10)] reads:
    white space and a sign, both optional, then the longest run of
    decimal digits.  [None] when there is no digit. *)
Definition mathInt (value : string) : option Z :=
  match Js.trimStart value with
  | String "-" r => Z.opp <$> digitsPrefix r 0 false
  | String "+" r => digitsPrefix r 0 false
  | s => digitsPrefix s 0 false
  end.

(** [Number.parseInt(value, 10)]: [NaN] without a digit, and otherwise
    the number for the integer read, which is that integer up to 2^53,
    the nearest binary64 value beyond, and an infinity beyond the finite
    range.  (ECMAScript lets an implementation read the digits after the
    twentieth as zeros; the integers below 2^53 have at most sixteen.) *)
Definition parseInt (value : string) : Double.Integer :=
  match mathInt value with
  | Some n => Double.ofZ n
  | None => Double.NaN
  end.

(** [if (!Number.isFinite(parsed) || parsed <= 0) throw ...; return parsed] *)
Definition parsePositiveInteger (name value : string) : Result Z :=
  match parseInt value with
  | Double.Finite parsed =>
      if parsed <=? 0
      then Throw (ErrorObject (name +:+ " must be a positive integer. Received: " +:+ value))
      else Ok parsed
  | Double.NaN | Double.Infinite =>
      Throw (ErrorObject (name +:+ " must be a positive integer. Received: " +:+ value))
  end.

Definition ALLOWED_THINKING : list string :=
  ["off"; "minimal"; "low"; "medium"; "high"; "xhigh"].

Definition parseThinking (value : string) : Result string :=
  if Tracker.includes ALLOWED_THINKING value then Ok value
  else Throw (ErrorObject ("Invalid thinking level: " +:+ value)).

Definition parseAgentId (value : string) : Result AgentId :=
  if String.eqb value "A" then Ok A
  else if String.eqb value "B" then Ok B
  else Throw (ErrorObject ("Invalid agent id: " +:+ value +:+ ". Use A or B.")).

Definition parseWorkspaceMode (value : string) : Result WorkspaceMode :=
  if String.eqb value "direct" then Ok Direct
  else if String.eqb value "ephemeral_copy" then Ok EphemeralCopy
  else Throw (ErrorObject ("Invalid --workspace-mode: " +:+ value)).

Definition parseEventStreamMode (value : string) : Result Observer.EventStreamMode :=
  if String.eqb value "compact" then Ok Observer.Compact
  else if String.eqb value "full" then Ok Observer.Full
  else Throw (ErrorObject ("Invalid --event-stream-mode: " +:+ value)).

Definition defaultPauseStrategy : PauseStrategy := EveryNFileEdits 3 ["edit"; "write"].
Definition defaultEveryNFileEditsPause : PauseStrategy := EveryNFileEdits 3 ["edit"; "write"].
Definition defaultTurnPolicy : TurnPolicy := SameDriverUntilNavigatorSignoff 3 4.
Definition defaultStickyTurnPolicy : TurnPolicy := SameDriverUntilNavigatorSignoff 3 4.

(** [defaultPairConfig].  The revision of [src/config.ts] among the
    sources has no execution mode; the paired mode is the default that
    [test/config.test.ts] expects of the later one. *)
Definition defaultPairConfig (cwd : string) : PairAgentConfig :=
  {| cwd := cwd; maxRounds := 8; driverStartsAs := A;
     pauseStrategy := defaultPauseStrategy; turnPolicy := defaultTurnPolicy;
     modelA := {| provider := "anthropic"; modelId := "claude-opus-4-6";
                  thinkingLevel := "high" |};
     modelB := {| provider := "openai"; modelId := "gpt-5.2-codex";
                  thinkingLevel := "high" |};
     executionMode := PairedTurns |}.

Definition helpText : string :=
  Js.join Js.nl
    [ "Pairing Bots CLI"; "";
      "Required:";
      "  --task " +:+ dquote +:+ "<task description>" +:+ dquote;
      "";
      "Optional:";
      "  --cwd <path>";
      "  --max-rounds <n>";
      "  --driver-start A|B";
      "  --turn-policy alternate_each_round|same_driver_until_navigator_signoff";
      "  --max-consecutive-rounds <n>";
      "  --max-consecutive-checkpoints <n>";
      "  --pause-mode none|every_n_file_edits";
      "  --edits-per-pause <n>";
      "  --model-a-provider <provider>";
      "  --model-a-id <model-id>";
      "  --model-a-thinking off|minimal|low|medium|high|xhigh";
      "  --model-b-provider <provider>";
      "  --model-b-id <model-id>";
      "  --model-b-thinking off|minimal|low|medium|high|xhigh";
      "  --output <json-path>";
      "  --log-file <json-path>";
      "  --event-log-file <jsonl-path>";
      "  --event-stream-mode compact|full";
      "  --workspace-mode direct|ephemeral_copy";
      "  --keep-workspace";
      "  --help" ].

(** Field updates of [pair] and of the local variables. *)
Definition withPair (c : CliConfig) (p : PairAgentConfig) : CliConfig :=
  {| task := task c; outputPath := outputPath c; logFile := logFile c;
     eventLogFile := eventLogFile c; eventStreamMode := eventStreamMode c;
     workspaceMode := workspaceMode c; keepWorkspace := keepWorkspace c; pair := p |}.

Definition withTurnPolicy (p : PairAgentConfig) (t : TurnPolicy) : PairAgentConfig :=
  {| modelA := modelA p; modelB := modelB p; cwd := cwd p; maxRounds := maxRounds p;
     driverStartsAs := driverStartsAs p; pauseStrategy := pauseStrategy p;
     turnPolicy := t; executionMode := executionMode p |}.

Definition withPauseStrategy (p : PairAgentConfig) (s : PauseStrategy) : PairAgentConfig :=
  {| modelA := modelA p; modelB := modelB p; cwd := cwd p; maxRounds := maxRounds p;
     driverStartsAs := driverStartsAs p; pauseStrategy := s;
     turnPolicy := turnPolicy p; executionMode := executionMode p |}.

Definition withCwd (p : PairAgentConfig) (d : string) : PairAgentConfig :=
  {| modelA := modelA p; modelB := modelB p; cwd := d; maxRounds := maxRounds p;
     driverStartsAs := driverStartsAs p; pauseStrategy := pauseStrategy p;
     turnPolicy := turnPolicy p; executionMode := executionMode p |}.

Definition withMaxRounds (p : PairAgentConfig) (n : Z) : PairAgentConfig :=
  {| modelA := modelA p; modelB := modelB p; cwd := cwd p; maxRounds := n;
     driverStartsAs := driverStartsAs p; pauseStrategy := pauseStrategy p;
     turnPolicy := turnPolicy p; executionMode := executionMode p |}.

Definition withDriverStartsAs (p : PairAgentConfig) (a : AgentId) : PairAgentConfig :=
  {| modelA := modelA p; modelB := modelB p; cwd := cwd p; maxRounds := maxRounds p;
     driverStartsAs := a; pauseStrategy := pauseStrategy p;
     turnPolicy := turnPolicy p; executionMode := executionMode p |}.

Definition withModelA (p : PairAgentConfig) (m : ModelSpec) : PairAgentConfig :=
  {| modelA := m; modelB := modelB p; cwd := cwd p; maxRounds := maxRounds p;
     driverStartsAs := driverStartsAs p; pauseStrategy := pauseStrategy p;
     turnPolicy := turnPolicy p; executionMode := executionMode p |}.

Definition withModelB (p : PairAgentConfig) (m : ModelSpec) : PairAgentConfig :=
  {| modelA := modelA p; modelB := m; cwd := cwd p; maxRounds := maxRounds p;
     driverStartsAs := driverStartsAs p; pauseStrategy := pauseStrategy p;
     turnPolicy := turnPolicy p; executionMode := executionMode p |}.

(** [Result] as an error monad for the parser. *)
Definition andThen {T U} (r : Result T) (k : T → Result U) : Result U :=
  match r with Ok x => k x | Throw e => Throw e end.

(** The [--max-consecutive-rounds] case: an alternating policy is first
    replaced by the default sticky one, then the cap is assigned. *)
Definition setMaxConsecutiveRounds (policy : TurnPolicy) (next : string) : Result TurnPolicy :=
  let policy :=
    match policy with
    | AlternateEachRound => defaultStickyTurnPolicy
    | p => p
    end in
  match policy with
  | SameDriverUntilNavigatorSignoff _ maxConsecutiveCheckpoints =>
      andThen (parsePositiveInteger "--max-consecutive-rounds" next)
        (λ n, Ok (SameDriverUntilNavigatorSignoff n maxConsecutiveCheckpoints))
  | AlternateEachRound => Ok policy
  end.

Definition setMaxConsecutiveCheckpoints (policy : TurnPolicy) (next : string)
  : Result TurnPolicy :=
  let policy :=
    match policy with
    | AlternateEachRound => defaultStickyTurnPolicy
    | p => p
    end in
  match policy with
  | SameDriverUntilNavigatorSignoff maxConsecutiveRounds _ =>
      andThen (parsePositiveInteger "--max-consecutive-checkpoints" next)
        (λ n, Ok (SameDriverUntilNavigatorSignoff maxConsecutiveRounds n))
  | AlternateEachRound => Ok policy
  end.

Definition setTurnPolicy (policy : TurnPolicy) (next : string) : Result TurnPolicy :=
  if String.eqb next "alternate_each_round" then Ok AlternateEachRound
  else if String.eqb next "same_driver_until_navigator_signoff" then
    let previous :=
      match policy with
      | SameDriverUntilNavigatorSignoff _ _ => policy
      | AlternateEachRound => defaultStickyTurnPolicy
      end in
    Ok previous
  else Throw (ErrorObject ("Invalid --turn-policy: " +:+ next)).

Definition setPauseMode (strategy : PauseStrategy) (next : string) : Result PauseStrategy :=
  if String.eqb next "none" then Ok PauseNone
  else if String.eqb next "every_n_file_edits" then
    let previous :=
      match strategy with
      | EveryNFileEdits _ _ => strategy
      | PauseNone => defaultEveryNFileEditsPause
      end in
    Ok previous
  else Throw (ErrorObject ("Invalid --pause-mode: " +:+ next)).

Definition setEditsPerPause (strategy : PauseStrategy) (next : string) : Result PauseStrategy :=
  let strategy :=
    match strategy with
    | PauseNone => defaultEveryNFileEditsPause
    | s => s
    end in
  match strategy with
  | EveryNFileEdits _ countedTools =>
      andThen (parsePositiveInteger "--edits-per-pause" next)
        (λ n, Ok (EveryNFileEdits n countedTools))
  | PauseNone => Ok strategy
  end.

Section WithPaths.
(** [resolve] of [node:path]. *)
Context (resolve : string → string).

(** The [switch (arg)] statement: one option and its value. *)
Definition applyOption (c : CliConfig) (arg next : string) : Result CliConfig :=
  let p := pair c in
  let setPair (q : PairAgentConfig) := Ok (withPair c q) in
  if String.eqb arg "--task" then
    Ok {| task := Js.trim next; outputPath := outputPath c; logFile := logFile c;
          eventLogFile := eventLogFile c; eventStreamMode := eventStreamMode c;
          workspaceMode := workspaceMode c; keepWorkspace := keepWorkspace c; pair := p |}
  else if String.eqb arg "--cwd" then setPair (withCwd p (resolve next))
  else if String.eqb arg "--max-rounds" then
    andThen (parsePositiveInteger "--max-rounds" next) (λ n, setPair (withMaxRounds p n))
  else if String.eqb arg "--driver-start" then
    andThen (parseAgentId next) (λ a, setPair (withDriverStartsAs p a))
  else if String.eqb arg "--turn-policy" then
    andThen (setTurnPolicy (turnPolicy p) next) (λ t, setPair (withTurnPolicy p t))
  else if String.eqb arg "--max-consecutive-rounds" then
    andThen (setMaxConsecutiveRounds (turnPolicy p) next) (λ t, setPair (withTurnPolicy p t))
  else if String.eqb arg "--max-consecutive-checkpoints" then
    andThen (setMaxConsecutiveCheckpoints (turnPolicy p) next)
      (λ t, setPair (withTurnPolicy p t))
  else if String.eqb arg "--pause-mode" then
    andThen (setPauseMode (pauseStrategy p) next) (λ s, setPair (withPauseStrategy p s))
  else if String.eqb arg "--edits-per-pause" then
    andThen (setEditsPerPause (pauseStrategy p) next) (λ s, setPair (withPauseStrategy p s))
  else if String.eqb arg "--model-a-provider" then
    setPair (withModelA p {| provider := next; modelId := modelId (modelA p);
                             thinkingLevel := thinkingLevel (modelA p) |})
  else if String.eqb arg "--model-a-id" then
    setPair (withModelA p {| provider := provider (modelA p); modelId := next;
                             thinkingLevel := thinkingLevel (modelA p) |})
  else if String.eqb arg "--model-a-thinking" then
    andThen (parseThinking next)
      (λ t, setPair (withModelA p {| provider := provider (modelA p);
                                     modelId := modelId (modelA p); thinkingLevel := t |}))
  else if String.eqb arg "--model-b-provider" then
    setPair (withModelB p {| provider := next; modelId := modelId (modelB p);
                             thinkingLevel := thinkingLevel (modelB p) |})
  else if String.eqb arg "--model-b-id" then
    setPair (withModelB p {| provider := provider (modelB p); modelId := next;
                             thinkingLevel := thinkingLevel (modelB p) |})
  else if String.eqb arg "--model-b-thinking" then
    andThen (parseThinking next)
      (λ t, setPair (withModelB p {| provider := provider (modelB p);
                                     modelId := modelId (modelB p); thinkingLevel := t |}))
  else if String.eqb arg "--output" then
    Ok {| task := task c; outputPath := Some (resolve next); logFile := logFile c;
          eventLogFile := eventLogFile c; eventStreamMode := eventStreamMode c;
          workspaceMode := workspaceMode c; keepWorkspace := keepWorkspace c; pair := p |}
  else if String.eqb arg "--log-file" then
    Ok {| task := task c; outputPath := outputPath c; logFile := Some (resolve next);
          eventLogFile := eventLogFile c; eventStreamMode := eventStreamMode c;
          workspaceMode := workspaceMode c; keepWorkspace := keepWorkspace c; pair := p |}
  else if String.eqb arg "--event-log-file" then
    Ok {| task := task c; outputPath := outputPath c; logFile := logFile c;
          eventLogFile := Some (resolve next); eventStreamMode := eventStreamMode c;
          workspaceMode := workspaceMode c; keepWorkspace := keepWorkspace c; pair := p |}
  else if String.eqb arg "--event-stream-mode" then
    andThen (parseEventStreamMode next)
      (λ m, Ok {| task := task c; outputPath := outputPath c; logFile := logFile c;
                  eventLogFile := eventLogFile c; eventStreamMode := m;
                  workspaceMode := workspaceMode c; keepWorkspace := keepWorkspace c;
                  pair := p |})
  else if String.eqb arg "--workspace-mode" then
    andThen (parseWorkspaceMode next)
      (λ m, Ok {| task := task c; outputPath := outputPath c; logFile := logFile c;
                  eventLogFile := eventLogFile c; eventStreamMode := eventStreamMode c;
                  workspaceMode := m; keepWorkspace := keepWorkspace c; pair := p |})
  else Throw (ErrorObject ("Unknown argument: " +:+ arg)).

(** The [for] loop over [argv], from index [i] on: [argv] here is the
    list from [argv[i]]. *)
Fixpoint parseArgs (argv : list string) (c : CliConfig) : Result CliConfig :=
  match argv with
  | [] => Ok c
  | arg :: rest =>
      if String.eqb arg "" then parseArgs rest c
      else if String.eqb arg "--help" || String.eqb arg "-h" then
        Throw (ErrorObject helpText)
      else if String.eqb arg "--keep-workspace" then
        parseArgs rest
          {| task := task c; outputPath := outputPath c; logFile := logFile c;
             eventLogFile := eventLogFile c; eventStreamMode := eventStreamMode c;
             workspaceMode := workspaceMode c; keepWorkspace := true; pair := pair c |}
      else if negb (Js.startsWith arg "--") then parseArgs rest c
      else
        match rest with
        | [] => Throw (ErrorObject ("Missing value for " +:+ arg))
        | next :: rest' =>
            if String.eqb next "" then Throw (ErrorObject ("Missing value for " +:+ arg))
            else
              match applyOption c arg next with
              | Ok c' => parseArgs rest' c'
              | Throw e => Throw e
              end
        end
  end.

Definition parseCli (argv : list string) (processCwd : string) : Result CliConfig :=
  let initial :=
    {| task := ""; outputPath := None; logFile := None; eventLogFile := None;
       eventStreamMode := Observer.Compact; workspaceMode := Direct;
       keepWorkspace := false; pair := defaultPairConfig (resolve processCwd) |} in
  match parseArgs argv initial with
  | Throw e => Throw e
  | Ok c =>
      if String.eqb (task c) "" then
        Throw (ErrorObject ("Missing required --task argument." +:+ Js.nl +:+ Js.nl
                            +:+ helpText))
      else
        Ok {| task := task c;
              outputPath := Observer.ifSet (outputPath c);
              logFile := Observer.ifSet (logFile c);
              eventLogFile := Observer.ifSet (eventLogFile c);
              eventStreamMode := eventStreamMode c; workspaceMode := workspaceMode c;
              keepWorkspace := keepWorkspace c;
              pair := withCwd (pair c) (resolve (cwd (pair c))) |}
  end.

End WithPaths.

(** A stretch of the argument list that the loop consumes as a whole:
    skipped words, and options together with their values. *)
Fixpoint wholeOptions (argv : list string) : bool :=
  match argv with
  | [] => true
  | arg :: rest =>
      if String.eqb arg "" || String.eqb arg "--help" || String.eqb arg "-h"
         || String.eqb arg "--keep-workspace" || negb (Js.startsWith arg "--")
      then wholeOptions rest
      else match rest with
           | [] => false
           | next :: rest' => wholeOptions rest'
           end
  end.

(** The three arguments that assign [pair.turnPolicy]. *)
Definition assignsTurnPolicy (arg : string) : bool :=
  String.eqb arg "--turn-policy" || String.eqb arg "--max-consecutive-rounds"
  || String.eqb arg "--max-consecutive-checkpoints".

Definition turnPolicyFree (argv : list string) : bool :=
  forallb (λ arg, negb (assignsTurnPolicy arg)) argv.

(** The policy a cap option given after [--turn-policy alternate_each_round]
    leaves behind. *)
Definition policyAfterCap (capFlag : string) (n : Z) : TurnPolicy :=
  if String.eqb capFlag "--max-consecutive-rounds"
  then SameDriverUntilNavigatorSignoff n 4
  else SameDriverUntilNavigatorSignoff 3 n.

End Cli.


(* ===================================================================== *)
(** * Two executions side by side *)
(* ===================================================================== *)

(** The vocabulary for comparing two executions: of the same program
    under two environments, or of the two revisions under one. *)
Module Replay.

(** Results agree: both are values, related, or both are the same thrown
    error. *)
Definition resultRel {T1 T2} (Q : T1 → T2 → Prop) (r1 : Result T1) (r2 : Result T2) : Prop :=
  match r1, r2 with
  | Ok a, Ok b => Q a b
  | Throw e1, Throw e2 => e1 = e2
  | _, _ => False
  end.

(** From states related by [R], the two computations end alike in states
    related by [R]. *)
Definition simulates {S1 S2 T1 T2} (R : S1 → S2 → Prop) (Q : T1 → T2 → Prop)
    (m1 : ST S1 T1) (m2 : ST S2 T2) : Prop :=
  ∀ s1 s2, R s1 s2 →
    resultRel Q (fst (m1 s1)) (fst (m2 s2)) ∧ R (snd (m1 s1)) (snd (m2 s2)).

Definition anything {T1 T2} : T1 → T2 → Prop := λ _ _, True.

Section Relations.
(** How the time stamps of the two executions are related: [eq] when the
    clocks agree, [anything] when they need not. *)
Context (Time : Z → Z → Prop).

(** The two environments supply the same agent invocations and the same
    file-system outcomes, and related clock readings; their renderings of
    dates and their hashes are unrelated. *)
Definition envRel (E1 E2 : Env) : Prop :=
  (∀ k, Time (clock E1 k) (clock E2 k))
  ∧ (∀ k, fsOutcome E1 k = fsOutcome E2 k)
  ∧ (∀ k, agentRun E1 k = agentRun E2 k).

Definition entryRel (e1 e2 : SharedEntry) : Prop :=
  stage e1 = stage e2
  ∧ entryActor e1 = entryActor e2
  ∧ content e1 = content e2
  ∧ Time (entryTimestamp e1) (entryTimestamp e2).

Definition journalRel : list SharedEntry → list SharedEntry → Prop := Forall2 entryRel.

Definition outsideRel (o1 o2 : Observer.Out) : Prop :=
  ticks o1 = ticks o2 ∧ fsOps o1 = fsOps o2 ∧ prompts o1 = prompts o2.

(** Two observers that no later step of their owner can tell apart: the
    events they hold may differ in time stamps and details. *)
Definition observerRel (o1 o2 : Observer.State) : Prop :=
  (Observer.flushedSummary o1 = None ↔ Observer.flushedSummary o2 = None)
  ∧ Observer.isSet (Observer.eventLogFile o1) = Observer.isSet (Observer.eventLogFile o2)
  ∧ Observer.eventStreamWriteError o1 = Observer.eventStreamWriteError o2
  ∧ Observer.eventStreamInitialized o1 = Observer.eventStreamInitialized o2
  ∧ List.length (Observer.eventStreamWriteQueue o1)
    = List.length (Observer.eventStreamWriteQueue o2)
  ∧ Observer.eventStreamMode o1 = Observer.eventStreamMode o2.

Definition methodRel (s1 s2 : Observer.State * Observer.Out) : Prop :=
  observerRel (fst s1) (fst s2) ∧ outsideRel (snd s1) (snd s2).

Definition optionRel {T1 T2} (Q : T1 → T2 → Prop) (o1 : option T1) (o2 : option T2) : Prop :=
  match o1, o2 with
  | Some a, Some b => Q a b
  | None, None => True
  | _, _ => False
  end.

Definition worldRel (w1 w2 : World) : Prop :=
  outsideRel (outside w1) (outside w2)
  ∧ optionRel observerRel (observer w1) (observer w2)
  ∧ journalRel (sharedJournal w1) (sharedJournal w2)
  ∧ mw_modelSpec (workerA w1) = mw_modelSpec (workerA w2)
  ∧ mw_modelSpec (workerB w1) = mw_modelSpec (workerB w2).

Definition coreRel (c1 c2 : OrchestratorCommon.ResultCore) : Prop :=
  OrchestratorCommon.core_task c1 = OrchestratorCommon.core_task c2
  ∧ OrchestratorCommon.core_agreedPlan c1 = OrchestratorCommon.core_agreedPlan c2
  ∧ OrchestratorCommon.core_rounds c1 = OrchestratorCommon.core_rounds c2
  ∧ OrchestratorCommon.core_finalReview c1 = OrchestratorCommon.core_finalReview c2
  ∧ OrchestratorCommon.core_summary c1 = OrchestratorCommon.core_summary c2
  ∧ journalRel (OrchestratorCommon.core_sharedJournal c1)
      (OrchestratorCommon.core_sharedJournal c2).

(** What two runs return alike: everything but the observability summary,
    and the journal up to its time stamps. *)
Definition runRel (r1 r2 : PairRunResult) : Prop :=
  res_task r1 = res_task r2
  ∧ res_agreedPlan r1 = res_agreedPlan r2
  ∧ res_rounds r1 = res_rounds r2
  ∧ res_finalReview r1 = res_finalReview r2
  ∧ res_summary r1 = res_summary r2
  ∧ journalRel (res_sharedJournal r1) (res_sharedJournal r2).

End Relations.

(** A journal without its time stamps. *)
Definition untimed (e : SharedEntry) : string * Observer.Actor * string :=
  (stage e, entryActor e, content e).

End Replay.

(* ===================================================================== *)
(** * Sample sessions *)
(* ===================================================================== *)

Module Examples.
Import OrchestratorCommon.

(** An agent invocation that emits the given events and ends with one
    text answer. *)
Definition answer (events : list AgentEvent) (text : string) : AgentRun :=
  {| run_events := events;
     run_rejects := None;
     run_lastAssistantMessage :=
       Some {| am_stopReason := "stop"; am_errorMessage := None; am_textParts := [text] |} |}.

(** An invocation whose last assistant message reports a provider error. *)
Definition providerError (message : string) : AgentRun :=
  {| run_events := [];
     run_rejects := None;
     run_lastAssistantMessage :=
       Some {| am_stopReason := "error"; am_errorMessage := Some message;
               am_textParts := [] |} |}.

Definition scripted (script : list AgentRun) (k : nat) : AgentRun :=
  nth k script (answer [] "").

Definition writeCall (id content : string) (isError : bool) : list AgentEvent :=
  [ ToolExecutionStart id "write"
      (Js.VObject [("path", Js.VString "src/parser.ts"); ("content", Js.VString content)]);
    ToolExecutionEnd id "write" (Js.VObject [("content", Js.VArray [])]) isError ].

(** Five tool calls of which three succeed: with a period of two, one
    checkpoint. *)
Definition drivingEvents : list AgentEvent :=
  writeCall "call-1" "export const a = 1;" false
  ++ writeCall "call-2" "export const b = 2;" true
  ++ writeCall "call-3" "export const b = 2;" false
  ++ [ ToolExecutionEnd "call-4" "read" Js.VUndefined false ]
  ++ writeCall "call-5" "export const c = 3;" false.

Definition driverDone : AgentRun :=
  answer drivingEvents
    "<status>done</status><summary>Parser and tests written.</summary><changes>src/parser.ts</changes><questions_for_navigator>NONE</questions_for_navigator>".

Definition navigatorNone : AgentRun :=
  answer []
    "<private_reflection>Looks stable.</private_reflection><public_feedback>NONE.</public_feedback><driver_recommendation>continue</driver_recommendation>".

(** One round whose driver is done and whose navigator answers [NONE.] *)
Definition roundScript : list AgentRun := [ driverDone; navigatorNone ].

(** A whole paired session that stops after its first round. *)
Definition sessionScript : list AgentRun :=
  [ answer [] "<plan_draft>1. Write the parser.</plan_draft>";
    answer [] "<plan_feedback>Add tests.</plan_feedback>";
    answer [] "<agreed_plan>1. Parser. 2. Tests.</agreed_plan>";
    driverDone;
    navigatorNone;
    answer [] "<private_reflection>Fine.</private_reflection><public_feedback>NONE</public_feedback>";
    answer [] "<private_reflection>Fine.</private_reflection><public_feedback>NONE</public_feedback>";
    answer [] "<joint_verdict>APPROVED</joint_verdict><rationale>Checks pass.</rationale><next_steps>NONE</next_steps>" ].

(** A session whose first invocation fails. *)
Definition failingScript : list AgentRun := [ providerError "overloaded" ].

Definition env (script : list AgentRun) (start : Z) (fs : FsOutcome) : Env :=
  {| clock := λ k, start + Z.of_nat k;
     fsOutcome := λ _, fs;
     agentRun := scripted script;
     toISOString := λ t, "T" +:+ Js.numToString t;
     shortHash := λ _, "0123456789ab" |}.

Definition config : PairAgentConfig :=
  {| modelA := {| provider := "anthropic"; modelId := "claude-opus-4-6";
                  thinkingLevel := "high" |};
     modelB := {| provider := "openai"; modelId := "gpt-5.2-codex";
                  thinkingLevel := "high" |};
     cwd := "/repo"; maxRounds := 3; driverStartsAs := A;
     pauseStrategy := EveryNFileEdits 2 ["edit"; "write"];
     turnPolicy := SameDriverUntilNavigatorSignoff 3 4;
     executionMode := PairedTurns |}.

Definition nothingOutside : Observer.Out :=
  {| ticks := 0; fsOps := 0; prompts := 0;
     eventStreamFileContent := None; logFileContent := None |}.

Definition observerOptions : Observer.SessionObserverOptions :=
  {| Observer.opt_cwd := "/repo";
     Observer.opt_logFile := Some "/repo/session.json";
     Observer.opt_eventLogFile := None;
     Observer.opt_disableEventStream := false;
     Observer.opt_eventStreamMode := None |}.

(** The orchestrator with a fresh observer, and without one. *)
Definition observedWorld (E : Env) : World :=
  let '(obs, o) := Observer.create E observerOptions nothingOutside in
  newOrchestrator config (Some obs) o.

Definition bareWorld : World := newOrchestrator config None nothingOutside.

(** The same session under two clocks. *)
Definition earlyEnv : Env := env sessionScript 1000 FsOk.
Definition lateEnv : Env := env sessionScript 2000 FsOk.

(** One round on its own. *)
Definition roundEnv : Env := env roundScript 1000 FsOk.

(** The same session, and the failing one, on a disk that takes no more
    data. *)
Definition fullDiskEnv : Env := env sessionScript 1000 (FsFailLate "ENOSPC: no space left").
Definition outageEnv : Env := env failingScript 1000 (FsFailLate "ENOSPC: no space left").

(** Agent A wrote one byte of 2000. *)
Definition lopsided : Contributions :=
  {| contribA :=
       {| cs_agent := A; cs_estimatedWrittenBytes := 1; cs_editWriteCallCount := 1;
          cs_roundsDriven := 1; cs_checkpointsWhileDriving := 0;
          roughCodeSharePercent := 0 |};
     contribB :=
       {| cs_agent := B; cs_estimatedWrittenBytes := 1999; cs_editWriteCallCount := 4;
          cs_roundsDriven := 1; cs_checkpointsWhileDriving := 1;
          roughCodeSharePercent := 0 |} |}.

(** The argument list of a run that selects alternation and then caps the
    rounds of one driver. *)
Definition cappedArguments : list string :=
  [ "--task"; "x"; "--turn-policy"; "alternate_each_round";
    "--max-consecutive-rounds"; "5" ].

End Examples.

(* ===================================================================== *)
(** * Vocabulary for the properties of the code beyond the claims *)
(* ===================================================================== *)

Module TrackerSpec.

(** The end of a successful call of a tool that writes. *)
Definition isSuccessfulWrite (event : AgentEvent) : bool :=
  match event with
  | ToolExecutionEnd _ toolName _ isError => negb isError && Tracker.isWriteTool toolName
  | _ => false
  end.

Definition successfulWrites (events : list AgentEvent) : Z :=
  Z.of_nat (List.length (List.filter isSuccessfulWrite events)).

(** The tool call an event belongs to, for the two events that the
    tracker looks at. *)
Definition callId (event : AgentEvent) : option string :=
  match event with
  | ToolExecutionStart toolCallId _ _ => Some toolCallId
  | ToolExecutionEnd toolCallId _ _ _ => Some toolCallId
  | _ => None
  end.

(** No estimate waiting for the end of its call is negative. *)
Definition pendingNonNegative (st : Tracker.State) : Prop :=
  map_Forall (λ _ estimate, 0 ≤ estimate) (Tracker.pendingWriteEstimates st).

End TrackerSpec.

Module ParsingSpec.

(** The text holds no occurrence of the character. *)
Fixpoint lacks (c : ascii) (s : string) : bool :=
  match s with
  | EmptyString => true
  | String d r => negb (Ascii.eqb c d) && lacks c r
  end.

(** A tag name as the parsers use them: letters, digits and underscores,
    none of which means anything special in a regular expression. *)
Definition isNameChar (c : ascii) : bool :=
  Js.isLowerAscii c || Js.isUpperAscii c || Ascii.eqb c "_"%char
  || ((48 <=? Js.code c) && (Js.code c <=? 57))%N.

Fixpoint plainName (s : string) : bool :=
  match s with
  | EmptyString => true
  | String c r => isNameChar c && plainName r
  end.

(** [P] holds of every character of the text. *)
Fixpoint allOf (P : ascii → Prop) (s : string) : Prop :=
  match s with
  | EmptyString => True
  | String c r => P c ∧ allOf P r
  end.

(** White space and line ends below U+0100: tab, line feed, vertical tab,
    form feed, carriage return, space and no-break space. *)
Definition blank (c : ascii) : Prop :=
  In (Js.code c) [9; 10; 11; 12; 13; 32; 160]%N.

Definition stopOrBang (c : ascii) : Prop := c = "."%char ∨ c = "!"%char.

(** The word NONE, each letter in either case. *)
Definition spellsNone (word : string) : Prop :=
  ∃ c1 c2 c3 c4,
    word = String c1 (String c2 (String c3 (String c4 EmptyString)))
    ∧ (c1 = "N"%char ∨ c1 = "n"%char) ∧ (c2 = "O"%char ∨ c2 = "o"%char)
    ∧ (c3 = "N"%char ∨ c3 = "n"%char) ∧ (c4 = "E"%char ∨ c4 = "e"%char).

(** The text says no more than NONE: the word in any mix of cases, then
    nothing but full stops and exclamation marks, with nothing but white
    space before and after. *)
Definition saysNone (text : string) : Prop :=
  ∃ before word marks after,
    text = before +:+ word +:+ marks +:+ after
    ∧ allOf blank before ∧ spellsNone word ∧ allOf stopOrBang marks ∧ allOf blank after.

End ParsingSpec.

Module ObserverSpec.
Import Observer.

(** What the constructor fixes for the life of an observer. *)
Definition sameSetup (st st' : State) : Prop :=
  logFile st' = logFile st
  ∧ eventLogFile st' = eventLogFile st
  ∧ startedAt st' = startedAt st
  ∧ eventStreamMode st' = eventStreamMode st.

(** The events are numbered by their position in the list. *)
Definition indexedByPosition (st : State) : Prop :=
  eventIndex st = Z.of_nat (List.length (events st))
  ∧ ∀ k e, events st !! k = Some e → index e = Z.of_nat k.

(** The event [record] appends for the input [ev]. *)
Definition rendered (E : Env) (st : State) (o : Out) (ev : EventInput) : LogEvent :=
  {| index := eventIndex st; timestamp := clock E (ticks o); event := ev |}.

(** Lines are being queued: a stream file is named and no write is known
    to have failed. *)
Definition streaming (st : State) : bool :=
  isSet (eventLogFile st) && negb (isSet (eventStreamWriteError st)).

End ObserverSpec.

Module CliSpec.

(** Every count of the pair configuration is a positive integer. *)
Definition positiveNumbers (p : PairAgentConfig) : Prop :=
  0 < maxRounds p
  ∧ match turnPolicy p with
    | AlternateEachRound => True
    | SameDriverUntilNavigatorSignoff maxConsecutiveRounds maxConsecutiveCheckpoints =>
        0 < maxConsecutiveRounds ∧ 0 < maxConsecutiveCheckpoints
    end
  ∧ match pauseStrategy p with
    | PauseNone => True
    | EveryNFileEdits editsPerPause _ => 0 < editsPerPause
    end.

End CliSpec.

Module LoopSpec.
Import OrchestratorCommon.

(** What one iteration of the round loop leaves in the loop variables
    once [runRound] has returned [result], and whether the loop goes on:
    the value that [afterRound] computes. *)
Definition nextLoopState (config : PairAgentConfig) (round : Z) (ls : LoopState)
    (result : RoundResult) : bool * LoopState :=
  let ls := accumulate ls result in
  if shouldStop result then (false, ls)
  else if round =? maxRounds config then (false, ls)
  else if swap (shouldSwapDriver config result (consecutiveRoundsWithDriver ls)
                  (consecutiveCheckpointsWithDriver ls))
       then (true, swapDriver ls)
       else (true, ls).

(** The loop variables after the rounds [results], from round [round]
    on. *)
Fixpoint finalState (config : PairAgentConfig) (round : Z) (ls : LoopState)
    (results : list RoundResult) : LoopState :=
  match results with
  | [] => ls
  | result :: rest =>
      finalState config (round + 1) (snd (nextLoopState config round ls result)) rest
  end.

(** [results] are rounds that the loop can have run from round [round]
    with the variables [ls]: each is numbered and driven as the variables
    say, within the round limit, and the one that ends the loop is the
    last. *)
Fixpoint replays (config : PairAgentConfig) (round : Z) (ls : LoopState)
    (results : list RoundResult) : Prop :=
  match results with
  | [] => True
  | result :: rest =>
      rr_round result = round
      ∧ rr_driver result = driverId ls
      ∧ rr_navigator result = otherAgent (driverId ls)
      ∧ round ≤ maxRounds config
      ∧ (if fst (nextLoopState config round ls result) then rest ≠ [] else rest = [])
      ∧ replays config (round + 1) (snd (nextLoopState config round ls result)) rest
  end.

(** The sum of a count over the rounds that [agent] drove. *)
Definition drivenBy (agent : AgentId) (result : RoundResult) : bool :=
  bool_decide (rr_driver result = agent).

Fixpoint total (f : RoundResult → Z) (results : list RoundResult) : Z :=
  match results with
  | [] => 0
  | result :: rest => f result + total f rest
  end.

Definition totalDrivenBy (agent : AgentId) (f : RoundResult → Z)
    (results : list RoundResult) : Z :=
  total f (List.filter (drivenBy agent) results).

(** No stretch of consecutive rounds with one driver is longer than
    [cap]. *)
Definition runsAtMost (cap : Z) (results : list RoundResult) : Prop :=
  ∀ before run after driver,
    results = before ++ run ++ after →
    Forall (λ result, rr_driver result = driver) run →
    Z.of_nat (List.length run) ≤ cap.

(** The same for the stretches of [driver] that end the list. *)
Definition lastRunAtMost (cap : Z) (driver : AgentId) (results : list RoundResult) : Prop :=
  ∀ before run,
    results = before ++ run →
    Forall (λ result, rr_driver result = driver) run →
    Z.of_nat (List.length run) ≤ cap.

End LoopSpec.

(** The arithmetic of the summary and of [Number.parseInt] run on the
    kernel's own binary64 numbers, to check [Double] against. *)
Module Binary64.
Import OrchestratorCommon.

(** [roundPercent((part / total) * 100)]; [Math.round] is taken of the
    exact value of its argument. *)
Definition sharePercent (part total : Z) : option Q :=
  let value :=
    PrimFloat.mul (PrimFloat.div (Double.toFloat part) (Double.toFloat total))
      (Double.toFloat 100) in
  match Double.ofFloat (PrimFloat.mul value (Double.toFloat 10)) with
  | Some scaled =>
      Double.ofFloat (PrimFloat.div (Double.toFloat (mathRound scaled)) (Double.toFloat 10))
  | None => None
  end.

(** [a + b] of two numbers of tenths divided by 10. *)
Definition sumOfTenths (tenthsA tenthsB : Z) : option Q :=
  Double.ofFloat
    (PrimFloat.add (PrimFloat.div (Double.toFloat tenthsA) (Double.toFloat 10))
       (PrimFloat.div (Double.toFloat tenthsB) (Double.toFloat 10))).

Definition agree (x : option Q) (y : Q) : bool :=
  match x with
  | Some q => Qeq_bool q y
  | None => false
  end.

(** Every part of every total up to [n]. *)
Definition grid (n : nat) : list (Z * Z) :=
  total ← seqZ 1 (Z.of_nat n); part ← seqZ 0 (total + 1); [(part, total)].

(** Integers on both sides of 2^53 and up to 2^63, with ties in both
    directions. *)
Definition integers : list Z :=
  [ 1; 5; 4503599627370497; 9007199254740991; 9007199254740992; 9007199254740993;
    9007199254740994; 9007199254740995; 9007199254740997; 18014398509481986;
    18014398509481990; 1152921504606846977; 4611686018427387905;
    9223372036854775807 ].

End Binary64.

Module FrameSpec.

(** What the orchestrator may do to its own state: add entries to the
    shared journal and inputs to the agents.  The agents keep their
    identity and model, and an observer is neither installed nor
    removed.  [allowed] says which inputs may be added. *)
Definition sameAgent (allowed : AgentInput → Prop) (mw mw' : ModelWorker) : Prop :=
  mw_id mw' = mw_id mw
  ∧ mw_modelSpec mw' = mw_modelSpec mw
  ∧ ∃ new, mw_inputs mw' = mw_inputs mw ++ new ∧ Forall allowed new.

Definition extends (allowed : AgentInput → Prop) (w w' : World) : Prop :=
  (∃ new, sharedJournal w' = sharedJournal w ++ new)
  ∧ sameAgent allowed (workerA w) (workerA w')
  ∧ sameAgent allowed (workerB w) (workerB w')
  ∧ (observer w' = None ↔ observer w = None).

(** A computation that only ever extends the state. *)
Definition keeps {T} (allowed : AgentInput → Prop) (m : M T) : Prop :=
  ∀ w, extends allowed w (snd (m w)).

Definition anyInput (input : AgentInput) : Prop := True.

(** Steering messages are allowed, or no checkpoint can fire. *)
Definition maySteer (allowed : AgentInput → Prop) (config : PairAgentConfig) : Prop :=
  (∀ text timestamp, allowed (Steered text timestamp)) ∨ pauseStrategy config = PauseNone.

(** Prompts and appended context, but no steering message. *)
Definition notSteered (input : AgentInput) : Prop :=
  match input with
  | Steered _ _ => False
  | Appended _ _ | Prompted _ => True
  end.

End FrameSpec.

(** Further sample sessions. *)
Module Sessions.
Import OrchestratorCommon Examples.

(** A driver that goes on, after one write. *)
Definition driverContinues : AgentRun :=
  answer (writeCall "call-1" "export const a = 1;" false)
    "<status>continue</status><summary>Parser started.</summary><changes>src/parser.ts</changes><questions_for_navigator>NONE</questions_for_navigator>".

Definition navigatorObjects : AgentRun :=
  answer []
    "<private_reflection>No tests yet.</private_reflection><public_feedback>Add tests.</public_feedback><driver_recommendation>continue</driver_recommendation>".

Definition driverAccepts : AgentRun :=
  answer (writeCall "call-2" "test(parse);" false)
    "<decision>accept</decision><justification>Tests added.</justification>".

(** A paired session of two rounds: feedback and a decision in the
    first, done without feedback in the second. *)
Definition twoRoundScript : list AgentRun :=
  [ answer [] "<plan_draft>1. Write the parser.</plan_draft>";
    answer [] "<plan_feedback>Add tests.</plan_feedback>";
    answer [] "<agreed_plan>1. Parser. 2. Tests.</agreed_plan>";
    driverContinues;
    navigatorObjects;
    driverAccepts;
    driverDone;
    navigatorNone;
    answer [] "<private_reflection>Fine.</private_reflection><public_feedback>NONE</public_feedback>";
    answer [] "<private_reflection>Fine.</private_reflection><public_feedback>NONE</public_feedback>";
    answer [] "<joint_verdict>APPROVED</joint_verdict><rationale>Checks pass.</rationale><next_steps>NONE</next_steps>" ].

(** A solo session: plan, driver pass, review with feedback, decision. *)
Definition soloScript : list AgentRun :=
  [ answer [] "1. Parser. 2. Tests.";
    driverDone;
    navigatorObjects;
    driverAccepts ].

Definition twoRoundEnv : Env := env twoRoundScript 1000 FsOk.
Definition soloEnv : Env := env soloScript 1000 FsOk.

Definition withPolicy (policy : TurnPolicy) (mode : ExecutionMode) : PairAgentConfig :=
  {| modelA := modelA config; modelB := modelB config; cwd := cwd config;
     maxRounds := maxRounds config; driverStartsAs := driverStartsAs config;
     pauseStrategy := pauseStrategy config;
     turnPolicy := policy; executionMode := mode |}.

Definition alternatingConfig : PairAgentConfig := withPolicy AlternateEachRound PairedTurns.

(** No driver keeps the keyboard for a second round. *)
Definition strictConfig : PairAgentConfig :=
  withPolicy (SameDriverUntilNavigatorSignoff 1 4) PairedTurns.

Definition soloConfig : PairAgentConfig :=
  withPolicy (turnPolicy config) SoloDriverThenReviewer.

(** The content of the first write of the sample round. *)
Definition firstWrite : Js.Value :=
  Js.VObject [("path", Js.VString "src/parser.ts");
              ("content", Js.VString "export const a = 1;")].

(** What an observer is told in a short session. *)
Definition sampleEvents : list Observer.EventInput :=
  [ sessionEvent "session_start" [];
    {| Observer.category := Observer.CatPrompt; Observer.name := "prompt_start";
       Observer.actor := Some (Observer.ActorAgent A); Observer.round := Some 1;
       Observer.phase := Some "driving"; Observer.details := None |};
    {| Observer.category := Observer.CatAgentEvent; Observer.name := "message_update";
       Observer.actor := Some (Observer.ActorAgent A); Observer.round := Some 1;
       Observer.phase := Some "driving"; Observer.details := None |};
    {| Observer.category := Observer.CatAgentEvent; Observer.name := "tool_execution_end";
       Observer.actor := Some (Observer.ActorAgent A); Observer.round := Some 1;
       Observer.phase := Some "driving";
       Observer.details := Some [("toolName", Js.VString "write");
                                 ("isError", Js.VBool true)] |} ].

(** An observer without an event stream. *)
Definition logOnlyOptions : Observer.SessionObserverOptions :=
  {| Observer.opt_cwd := "/repo";
     Observer.opt_logFile := Some "/repo/session.json";
     Observer.opt_eventLogFile := None;
     Observer.opt_disableEventStream := true;
     Observer.opt_eventStreamMode := None |}.

(** A disk that refuses the first write and takes the later ones. *)
Definition busyDiskEnv : Env :=
  {| clock := λ k, 1000 + Z.of_nat k;
     fsOutcome := λ k, match k with O => FsFailLate "EBUSY: resource busy" | S _ => FsOk end;
     agentRun := scripted [];
     toISOString := λ t, "T" +:+ Js.numToString t;
     shortHash := λ _, "0123456789ab" |}.

(** Two rounds driven by A and one by B, and no byte written. *)
Definition nothingWritten : Contributions :=
  {| contribA :=
       {| cs_agent := A; cs_estimatedWrittenBytes := 0; cs_editWriteCallCount := 0;
          cs_roundsDriven := 2; cs_checkpointsWhileDriving := 0;
          roughCodeSharePercent := 0 |};
     contribB :=
       {| cs_agent := B; cs_estimatedWrittenBytes := 0; cs_editWriteCallCount := 0;
          cs_roundsDriven := 1; cs_checkpointsWhileDriving := 0;
          roughCodeSharePercent := 0 |} |}.

(** 417 bytes against 1583: a sum of shares below 99.9. *)
Definition uneven : Contributions :=
  {| contribA :=
       {| cs_agent := A; cs_estimatedWrittenBytes := 417; cs_editWriteCallCount := 3;
          cs_roundsDriven := 1; cs_checkpointsWhileDriving := 0;
          roughCodeSharePercent := 0 |};
     contribB :=
       {| cs_agent := B; cs_estimatedWrittenBytes := 1583; cs_editWriteCallCount := 9;
          cs_roundsDriven := 2; cs_checkpointsWhileDriving := 1;
          roughCodeSharePercent := 0 |} |}.

(** A command line that sets every count. *)
Definition countedArguments : list string :=
  [ "--max-rounds"; "7"; "--task"; "  Write a parser  ";
    "--max-consecutive-rounds"; "2"; "--max-consecutive-checkpoints"; "3";
    "--edits-per-pause"; "5" ].

End Sessions.

(* ===================================================================== *)
(** * Text *)
(* ===================================================================== *)

Module TextFacts.

Lemma append_String c s t : String c s +:+ t = String c (s +:+ t).
Proof. reflexivity. Qed.

Lemma append_empty s : EmptyString +:+ s = s.
Proof. reflexivity. Qed.

Lemma append_nil_r s : s +:+ EmptyString = s.
Proof. induction s as [|c s IH]; [done|]. by rewrite append_String, IH. Qed.

Lemma append_assoc s t u : (s +:+ t) +:+ u = s +:+ (t +:+ u).
Proof. induction s as [|c s IH]; [done|]. by rewrite !append_String, IH. Qed.

Ltac append_heads := repeat (rewrite append_String || rewrite append_empty).

Lemma mapString_app f s t : Js.mapString f (s +:+ t) = Js.mapString f s +:+ Js.mapString f t.
Proof.
  induction s as [|c s IH]; [done|]. cbn [Js.mapString]. append_heads.
  cbn [Js.mapString]. by rewrite IH.
Qed.

Lemma length_append s t :
  String.length (s +:+ t) = (String.length s + String.length t)%nat.
Proof. induction s as [|c s IH]; [done|]. rewrite append_String. cbn. by rewrite IH. Qed.

Lemma substring_all s : String.substring 0 (String.length s) s = s.
Proof. induction s as [|c s IH]; [done|]. cbn. by rewrite IH. Qed.

Lemma substring_prefix s t : String.substring 0 (String.length s) (s +:+ t) = s.
Proof.
  induction s as [|c s IH]; [by destruct t|]. rewrite append_String. cbn. by rewrite IH.
Qed.

Lemma substring_suffix s t :
  String.substring (String.length s) (String.length t) (s +:+ t) = t.
Proof.
  induction s as [|c s IH]; [apply substring_all|]. rewrite append_String. cbn. exact IH.
Qed.

End TextFacts.

(* ===================================================================== *)
(** * The execution tracker and the parsers *)
(* ===================================================================== *)

Module TrackerFacts.
Import Tracker.

(** The fields of the tracker that the checkpoint cadence reads and
    writes are untouched by the byte accounting. *)
Lemma cadence_promote st id :
  countedEdits (promote st id) = countedEdits st
  ∧ nextCheckpointAt (promote st id) = nextCheckpointAt st
  ∧ checkpointCount (promote st id) = checkpointCount st.
Proof. done. Qed.

Lemma cadence_clearPending st id :
  countedEdits (clearPending st id) = countedEdits st
  ∧ nextCheckpointAt (clearPending st id) = nextCheckpointAt st
  ∧ checkpointCount (clearPending st id) = checkpointCount st.
Proof. done. Qed.

Lemma Cadence_create N tools : 0 < N → Cadence N 0 (create (EveryNFileEdits N tools)).
Proof. intros HN. repeat split; simpl; try lia. f_equal; lia. Qed.

Lemma Cadence_div N k st : 0 < N → Cadence N k st → checkpointCount st = k / N.
Proof.
  intros HN (_ & _ & Hlo & Hhi).
  apply Z.div_unique with (r := k - N * checkpointCount st); lia.
Qed.

(** An event that is not a successful call of a counted tool leaves the
    cadence alone and fires nothing. *)
Lemma onEvent_not_counted N tools st e :
  isCountedSuccess tools e = false →
  let st' := fst (onEvent (EveryNFileEdits N tools) st e) in
  countedEdits st' = countedEdits st
  ∧ nextCheckpointAt st' = nextCheckpointAt st
  ∧ checkpointCount st' = checkpointCount st
  ∧ snd (onEvent (EveryNFileEdits N tools) st e) = None.
Proof.
  destruct e as [id name args|id name result isError| | | | |]; simpl; intros He; try done.
  - by destruct (isWriteTool name).
  - destruct isError; simpl in *.
    + by destruct (isWriteTool name).
    + rewrite He. by destruct (isWriteTool name).
Qed.

(** A successful call of a counted tool advances the count by one, and
    fires exactly when the count reaches a multiple of the period. *)
Lemma onEvent_counted N tools k st e :
  0 < N → Cadence N k st → isCountedSuccess tools e = true →
  let r := onEvent (EveryNFileEdits N tools) st e in
  Cadence N (k + 1) (fst r)
  ∧ checkpointCount (fst r) = checkpointCount st + (if snd r is Some _ then 1 else 0).
Proof.
  intros HN (Hk & Hnext & Hlo & Hhi) He.
  destruct e as [id name args|id name result isError| | | | |]; simpl in He; try done.
  apply andb_true_iff in He as [Herr Hin]. apply negb_true_iff in Herr. subst isError.
  cbn [onEvent negb]. rewrite Hin. cbn [negb].
  set (st1 := if isWriteTool name then _ else _).
  assert (countedEdits st1 = k ∧ nextCheckpointAt st1 = Finite (N * (checkpointCount st + 1))
          ∧ checkpointCount st1 = checkpointCount st) as (H1 & H2 & H3).
  { unfold st1. by destruct (isWriteTool name). }
  clearbody st1. cbn [countEdit countedEdits nextCheckpointAt]. rewrite H1, H2. cbn [ltThreshold].
  destruct (Z.ltb_spec (k + 1) (N * (checkpointCount st + 1))); unfold Cadence; cbn;
    rewrite ?H1, ?H2, ?H3; repeat split; try lia.
  cbn [addThreshold]. f_equal. lia.
Qed.


Lemma onEvents_app ps st l1 l2 :
  onEvents ps st (l1 ++ l2) = onEvents ps (onEvents ps st l1) l2.
Proof. apply fold_left_app. Qed.

Lemma onEvents_cons ps st e l :
  onEvents ps st (e :: l) = onEvents ps (fst (onEvent ps st e)) l.
Proof. done. Qed.

Lemma cadence_run N tools events : ∀ k st,
  0 < N → Cadence N k st →
  Cadence N (k + successfulCountedCalls tools events)
    (onEvents (EveryNFileEdits N tools) st events)
  ∧ checkpointCount (onEvents (EveryNFileEdits N tools) st events)
    = checkpointCount st
      + Z.of_nat (List.length (checkpointsFired (EveryNFileEdits N tools) st events)).
Proof.
  unfold successfulCountedCalls.
  induction events as [|e events IH]; intros k st HN Hc.
  - simpl. rewrite !Z.add_0_r. done.
  - rewrite onEvents_cons. cbn [List.filter checkpointsFired].
    destruct (isCountedSuccess tools e) eqn:He.
    + destruct (onEvent_counted N tools k st e HN Hc He) as [Hc' Hcp].
      destruct (IH _ _ HN Hc') as [IH1 IH2].
      destruct (onEvent (EveryNFileEdits N tools) st e) as [st' fired] eqn:Hstep.
      cbn [fst snd] in *. split.
      * replace (k + Z.of_nat (List.length (e :: List.filter (isCountedSuccess tools) events)))
          with (k + 1 + Z.of_nat (List.length (List.filter (isCountedSuccess tools) events)))
          by (cbn [List.length]; lia).
        exact IH1.
      * rewrite IH2, Hcp. destruct fired; cbn [List.length]; lia.
    + destruct (onEvent_not_counted N tools st e He) as (H1 & H2 & H3 & H4).
      assert (Hc' : Cadence N k (fst (onEvent (EveryNFileEdits N tools) st e))).
      { destruct Hc as (? & ? & ?). unfold Cadence. rewrite H1, H2, H3. done. }
      destruct (IH _ _ HN Hc') as [IH1 IH2].
      destruct (onEvent (EveryNFileEdits N tools) st e) as [st' fired] eqn:Hstep.
      cbn [fst snd] in *. subst fired.
      split; [exact IH1|]. rewrite IH2, H3. done.
Qed.

(** C1: with the pause strategy [every_n_file_edits] and a positive
    [editsPerPause = N], after any finite sequence of events holding [K]
    successful calls of counted tools (errored calls and other events in
    between, in any number), [checkpointCount] is [floor (K / N)], which
    is also the number of [onCheckpoint] calls made; [countedEdits] is [K];
    and an errored call leaves [countedEdits] as it was, whatever the
    state. *)
Theorem checkpoint_arithmetic (N : Z) (countedTools : list string)
    (events : list AgentEvent) :
  0 < N →
  let ps := EveryNFileEdits N countedTools in
  let K := successfulCountedCalls countedTools events in
  let final := onEvents ps (create ps) events in
  checkpointCount final = K / N
  ∧ Z.of_nat (List.length (checkpointsFired ps (create ps) events)) = K / N
  ∧ countedEdits final = K
  ∧ (∀ st e, isErroredCall e = true → countedEdits (fst (onEvent ps st e)) = countedEdits st).
Proof.
  intros HN ps K final.
  destruct (cadence_run N countedTools events 0 (create ps) HN (Cadence_create N countedTools HN))
    as [Hc Hcp].
  fold ps in Hc, Hcp. fold final in Hc, Hcp. rewrite Z.add_0_l in Hc. fold K in Hc.
  assert (Hdiv := Cadence_div N K final HN Hc).
  repeat split.
  - exact Hdiv.
  - rewrite Hcp in Hdiv. simpl in Hdiv. lia.
  - by destruct Hc.
  - intros st e He. apply (onEvent_not_counted N countedTools st e).
    destruct e; simpl in *; try done. by rewrite He.
Qed.

(** The rest of the claim about pending estimates, which the code does
    meet: the end event of a write-capable call clears the entry under the
    count-based strategy whatever the outcome, and after a success under
    either strategy; and an errored call is credited nothing. *)
Lemma pending_cleared_when_counting N tools st id name result isError :
  isWriteTool name = true →
  pendingWriteEstimates
    (fst (onEvent (EveryNFileEdits N tools) st (ToolExecutionEnd id name result isError)))
    !! id = None.
Proof.
  intros Hw. cbn [onEvent]. rewrite Hw.
  destruct isError; cbn [negb fst].
  - apply lookup_delete_eq.
  - destruct (includes tools name); cbn [negb fst]; [|apply lookup_delete_eq].
    match goal with |- context [if ?b then _ else _] => destruct b end;
      cbn [fst]; apply lookup_delete_eq.
Qed.

Lemma pending_cleared_on_success ps st id name result :
  isWriteTool name = true →
  pendingWriteEstimates (fst (onEvent ps st (ToolExecutionEnd id name result false)))
    !! id = None.
Proof.
  intros Hw. destruct ps as [|N tools].
  - cbn [onEvent negb andb]. rewrite Hw. apply lookup_delete_eq.
  - by apply pending_cleared_when_counting.
Qed.

Lemma errored_call_is_not_credited ps st id name result :
  editWriteCallCount (fst (onEvent ps st (ToolExecutionEnd id name result true)))
  = editWriteCallCount st
  ∧ estimatedWrittenBytes (fst (onEvent ps st (ToolExecutionEnd id name result true)))
    = estimatedWrittenBytes st.
Proof.
  destruct ps as [|N tools]; cbn [onEvent negb andb fst]; [done|].
  by destruct (isWriteTool name).
Qed.

(** C4: a [write] call that errors while the pause strategy is [none].
    Its end event leaves the entry recorded by the start event in
    [pendingWriteEstimates] (the [delete] sits inside the branch for
    successful calls), where the count-based branch removes it. *)
Theorem pending_estimate_survives_errored_call_without_pause :
  let events :=
    [ ToolExecutionStart "call-1" "write"
        (Js.VObject [("path", Js.VString "a.ts"); ("content", Js.VString "abc")]);
      ToolExecutionEnd "call-1" "write" Js.VUndefined true ] in
  let counting := EveryNFileEdits 3 ["edit"; "write"] in
  pendingWriteEstimates (onEvents PauseNone (create PauseNone) events) !! "call-1" = Some 3
  ∧ editWriteCallCount (onEvents PauseNone (create PauseNone) events) = 0
  ∧ estimatedWrittenBytes (onEvents PauseNone (create PauseNone) events) = 0
  ∧ pendingWriteEstimates (onEvents counting (create counting) events) !! "call-1" = None.
Proof. cbv zeta. repeat split; vm_compute; reflexivity. Qed.

End TrackerFacts.

Module ParsingFacts.
Import Parsing ParsingSpec TextFacts.

Lemma hasFeedback_spec raw :
  hasFeedback (parseNavigatorReview raw)
  = negb (String.eqb (normalizeFeedback (publicFeedback (parseNavigatorReview raw))) "NONE").
Proof. done. Qed.

Lemma strip_empty_iff s :
  stripTrailingPunctuation s = "" ↔ allStopOrBang s = true.
Proof.
  destruct s as [|c r]; [done|]. cbn [stripTrailingPunctuation].
  destruct (allStopOrBang (String c r)); split; intros; done.
Qed.

Lemma strip_cons_letter c r t :
  isStopOrBang c = false →
  (stripTrailingPunctuation (String c r) = String c t ↔ stripTrailingPunctuation r = t).
Proof.
  intros Hc. cbn [stripTrailingPunctuation allStopOrBang]. rewrite Hc. cbn [andb].
  split; intros H; [by injection H|by rewrite H].
Qed.

(** What normalises to [NONE]: the word itself followed by any run of
    full stops and exclamation marks. *)
Lemma strip_NONE_iff s :
  stripTrailingPunctuation s = "NONE"
  ↔ ∃ punctuation, s = "NONE" +:+ punctuation ∧ allStopOrBang punctuation = true.
Proof.
  split.
  - intros H.
    destruct s as [|c1 s]; [done|].
    cbn [stripTrailingPunctuation] in H.
    destruct (allStopOrBang (String c1 s)); [done|]. injection H as -> H.
    destruct s as [|c2 s]; [done|]. cbn [stripTrailingPunctuation] in H.
    destruct (allStopOrBang (String c2 s)); [done|]. injection H as -> H.
    destruct s as [|c3 s]; [done|]. cbn [stripTrailingPunctuation] in H.
    destruct (allStopOrBang (String c3 s)); [done|]. injection H as -> H.
    destruct s as [|c4 s]; [done|]. cbn [stripTrailingPunctuation] in H.
    destruct (allStopOrBang (String c4 s)); [done|]. injection H as -> H.
    exists s. split; [done|]. by apply strip_empty_iff.
  - intros (p & -> & Hp). apply strip_empty_iff in Hp.
    cbn [String.append]. by do 4 (apply strip_cons_letter; [done|]).
Qed.

(** ** White space *)

Lemma isWhiteSpace_blank c : Js.isWhiteSpace c = true ↔ blank c.
Proof.
  unfold Js.isWhiteSpace, blank. cbv zeta. generalize (Js.code c). intros n.
  cbn [In]. rewrite !orb_true_iff, andb_true_iff, !N.leb_le, !N.eqb_eq. lia.
Qed.

Lemma not_blank c : Js.isWhiteSpace c = false → ¬ blank c.
Proof. intros H Hc. apply isWhiteSpace_blank in Hc. congruence. Qed.

(** [trimStart] removes a run of white space and nothing else, and stops
    at the first character that is none. *)
Lemma trimStart_split s :
  ∃ before, s = before +:+ Js.trimStart s ∧ allOf blank before.
Proof.
  induction s as [|c s (before & Hs & Hbefore)]; [by exists ""|].
  cbn [Js.trimStart]. destruct (Js.isWhiteSpace c) eqn:Hc.
  - exists (String c before). rewrite append_String, <- Hs. split; [done|].
    split; [by apply isWhiteSpace_blank|done].
  - by exists "".
Qed.

Lemma trimStart_blank before s :
  allOf blank before → Js.trimStart (before +:+ s) = Js.trimStart s.
Proof.
  induction before as [|c before IH]; [done|]. intros [Hc Hbefore].
  rewrite append_String. cbn [Js.trimStart].
  apply isWhiteSpace_blank in Hc. rewrite Hc. by apply IH.
Qed.

Lemma trimStart_letter c s : Js.isWhiteSpace c = false → Js.trimStart (String c s) = String c s.
Proof. intros Hc. cbn [Js.trimStart]. by rewrite Hc. Qed.

Lemma trimEnd_split s :
  ∃ after, s = Js.trimEnd s +:+ after ∧ allOf blank after.
Proof.
  induction s as [|c s (after & Hs & Hafter)]; [by exists ""|].
  cbn [Js.trimEnd]. destruct (Js.trimEnd s) as [|d r] eqn:Hr.
  - destruct (Js.isWhiteSpace c) eqn:Hc.
    + exists (String c after). rewrite append_empty in Hs |- *.
      split; [by rewrite <- Hs|]. split; [by apply isWhiteSpace_blank|done].
    + exists after. rewrite append_String, <- Hs. done.
  - exists after. rewrite append_String, <- Hs. done.
Qed.

Lemma trimEnd_all_blank after : allOf blank after → Js.trimEnd after = "".
Proof.
  induction after as [|c after IH]; [done|]. intros [Hc Hafter].
  cbn [Js.trimEnd]. rewrite IH by done. apply isWhiteSpace_blank in Hc. by rewrite Hc.
Qed.

Lemma trimEnd_blank s after :
  allOf blank after → Js.trimEnd (s +:+ after) = Js.trimEnd s.
Proof.
  intros Hafter. induction s as [|c s IH]; [by apply trimEnd_all_blank|].
  rewrite append_String. cbn [Js.trimEnd]. by rewrite IH.
Qed.

Lemma trimEnd_letters s :
  allOf (λ c, Js.isWhiteSpace c = false) s → Js.trimEnd s = s.
Proof.
  induction s as [|c s IH]; [done|]. intros [Hc Hs].
  cbn [Js.trimEnd]. rewrite IH by done. rewrite Hc. by destruct s.
Qed.

Lemma allOf_app P s t : allOf P (s +:+ t) ↔ allOf P s ∧ allOf P t.
Proof.
  induction s as [|c s IH]; [cbn; tauto|]. rewrite append_String. cbn [allOf].
  rewrite IH. tauto.
Qed.

Lemma allOf_impl (P Q : ascii → Prop) s : (∀ c, P c → Q c) → allOf P s → allOf Q s.
Proof. intros HPQ. induction s as [|c s IH]; [done|]. intros [Hc Hs]. split; auto. Qed.

(** ** Upper case *)

Lemma upperChar_cases c :
  (Js.upperChar c = "N"%char → c = "N"%char ∨ c = "n"%char)
  ∧ (Js.upperChar c = "O"%char → c = "O"%char ∨ c = "o"%char)
  ∧ (Js.upperChar c = "E"%char → c = "E"%char ∨ c = "e"%char)
  ∧ (Js.upperChar c = "."%char → c = "."%char)
  ∧ (Js.upperChar c = "!"%char → c = "!"%char).
Proof.
  destruct c as [[] [] [] [] [] [] [] []]; vm_compute;
    repeat split; intros H; first [discriminate H | by left | by right | done].
Qed.

Lemma stopOrBang_spec c : isStopOrBang c = true ↔ stopOrBang c.
Proof.
  unfold isStopOrBang, stopOrBang. rewrite orb_true_iff, !Ascii.eqb_eq. done.
Qed.

Lemma allStopOrBang_spec s : allStopOrBang s = true ↔ allOf stopOrBang s.
Proof.
  induction s as [|c s IH]; [done|]. cbn [allStopOrBang allOf].
  by rewrite andb_true_iff, IH, stopOrBang_spec.
Qed.

Lemma upper_marks s : allOf stopOrBang s → Js.toUpperCase s = s.
Proof.
  unfold Js.toUpperCase. induction s as [|c s IH]; [done|]. intros [[-> | ->] Hs];
    cbn [Js.mapString]; by rewrite IH.
Qed.

Lemma upper_marks_inv s :
  allOf stopOrBang (Js.toUpperCase s) → allOf stopOrBang s.
Proof.
  unfold Js.toUpperCase. induction s as [|c s IH]; [done|]. cbn [Js.mapString allOf].
  intros [Hc Hs]. split; [|by apply IH].
  destruct (upperChar_cases c) as (_ & _ & _ & Hstop & Hbang).
  destruct Hc as [Hc|Hc]; [left; by apply Hstop|right; by apply Hbang].
Qed.

Lemma upper_spellsNone word : spellsNone word ↔ Js.toUpperCase word = "NONE".
Proof.
  split.
  - intros (c1 & c2 & c3 & c4 & -> & [-> | ->] & [-> | ->] & [-> | ->] & [-> | ->]);
      reflexivity.
  - unfold Js.toUpperCase.
    destruct word as [|c1 [|c2 [|c3 [|c4 [|c5 r]]]]]; try done.
    cbn [Js.mapString]. intros [= H1 H2 H3 H4].
    exists c1, c2, c3, c4. split; [done|].
    destruct (upperChar_cases c1) as (HN & _), (upperChar_cases c2) as (_ & HO & _),
      (upperChar_cases c3) as (HN' & _), (upperChar_cases c4) as (_ & _ & HE & _).
    auto.
Qed.

(** A text whose upper-case form is [NONE] and a run of marks is a
    spelling of the word followed by the same marks. *)
Lemma upper_NONE_marks s marks :
  Js.toUpperCase s = "NONE" +:+ marks →
  ∃ word rest, s = word +:+ rest ∧ Js.toUpperCase word = "NONE" ∧ Js.toUpperCase rest = marks.
Proof.
  unfold Js.toUpperCase.
  destruct s as [|c1 [|c2 [|c3 [|c4 rest]]]]; try done.
  cbn [Js.mapString String.append]. intros [= H1 H2 H3 H4 Hrest].
  exists (String c1 (String c2 (String c3 (String c4 ""))))%string, rest.
  cbn [Js.mapString]. by rewrite H1, H2, H3, H4.
Qed.

Lemma letters_of_a_word word marks :
  spellsNone word → allOf stopOrBang marks →
  allOf (λ c, Js.isWhiteSpace c = false) (word +:+ marks).
Proof.
  intros (c1 & c2 & c3 & c4 & -> & H1 & H2 & H3 & H4) Hmarks.
  rewrite !append_String, append_empty. cbn [allOf].
  repeat split;
    try (by destruct H1 as [-> | ->]); try (by destruct H2 as [-> | ->]);
    try (by destruct H3 as [-> | ->]); try (by destruct H4 as [-> | ->]).
  revert Hmarks. apply allOf_impl. by intros c [-> | ->].
Qed.

(** What normalises to [NONE], said without the operations of the code. *)
Lemma normalizeFeedback_NONE text :
  normalizeFeedback text = "NONE" ↔ saysNone text.
Proof.
  unfold normalizeFeedback, Js.trim. split.
  - intros H. apply strip_NONE_iff in H as (marks' & Hupper & Hmarks').
    apply upper_NONE_marks in Hupper as (word & marks & Htrim & Hword & Hmarks).
    destruct (trimStart_split text) as (before & Hbefore & Hblank).
    destruct (trimEnd_split (Js.trimStart text)) as (after & Hafter & Hblank').
    exists before, word, marks, after. split_and!; try done.
    + rewrite Hbefore at 1. rewrite Hafter at 1. by rewrite Htrim, append_assoc.
    + by apply upper_spellsNone.
    + apply upper_marks_inv. rewrite Hmarks. by apply allStopOrBang_spec.
  - intros (before & word & marks & after & -> & Hbefore & Hword & Hmarks & Hafter).
    pose proof (letters_of_a_word word marks Hword Hmarks) as Hletters.
    rewrite (trimStart_blank before _ Hbefore), <- append_assoc.
    assert (Hstart : Js.trimStart ((word +:+ marks) +:+ after) = (word +:+ marks) +:+ after).
    { destruct Hword as (c1 & c2 & c3 & c4 & -> & H1 & _).
      rewrite !append_String. apply trimStart_letter. by destruct H1 as [-> | ->]. }
    rewrite Hstart, (trimEnd_blank _ _ Hafter), (trimEnd_letters _ Hletters).
    apply strip_NONE_iff. exists marks. split; [|by apply allStopOrBang_spec].
    unfold Js.toUpperCase. rewrite mapString_app.
    apply upper_spellsNone in Hword. unfold Js.toUpperCase in Hword. rewrite Hword.
    f_equal. by apply upper_marks.
Qed.

Example feedback_NONE_with_full_stop :
  hasFeedback (parseNavigatorReview
    "<private_reflection>Looks stable.</private_reflection><public_feedback>NONE.</public_feedback>")
  = false.
Proof. reflexivity. Qed.

Example feedback_none_lower_case_and_bangs :
  hasFeedback (parseNavigatorReview "<Public_Feedback>  none!!.  </PUBLIC_FEEDBACK>") = false.
Proof. reflexivity. Qed.

Example feedback_missing_closing_tag :
  publicFeedback (parseNavigatorReview "<public_feedback>Add a null guard.") = "NONE"
  ∧ hasFeedback (parseNavigatorReview "<public_feedback>Add a null guard.") = false.
Proof. split; reflexivity. Qed.

Example feedback_empty_element :
  publicFeedback (parseNavigatorReview "<public_feedback></public_feedback>") = ""
  ∧ hasFeedback (parseNavigatorReview "<public_feedback></public_feedback>") = true.
Proof. split; reflexivity. Qed.

Example feedback_with_text :
  hasFeedback (parseNavigatorReview
    "<public_feedback>Add null guard in parseConfig().</public_feedback>") = true.
Proof. reflexivity. Qed.

(** C2: [parseNavigatorReview] is a total function (it has no error
    result: every step is a search, a trim or a case mapping, none of which
    can fail on a string).  The public feedback is the content of the
    first [<public_feedback>] element or, without one, the literal [NONE];
    and [hasFeedback] is false exactly when that field says no more than
    NONE: the word in any mix of cases, followed by nothing but full stops
    and exclamation marks, with nothing but white space around.  That is
    what trimming, upper-casing, removing the trailing run of [.] and [!]
    and comparing with [NONE] comes to. *)
Theorem parseNavigatorReview_hasFeedback (raw : string) :
  publicFeedback (parseNavigatorReview raw)
  = match extractTag raw "public_feedback" with
    | Some feedback => feedback
    | None => "NONE"
    end
  ∧ (hasFeedback (parseNavigatorReview raw) = false
     ↔ saysNone (publicFeedback (parseNavigatorReview raw)))
  ∧ (extractTag raw "public_feedback" = None → hasFeedback (parseNavigatorReview raw) = false).
Proof.
  split; [done|]. split.
  - rewrite hasFeedback_spec, negb_false_iff, String.eqb_eq.
    apply normalizeFeedback_NONE.
  - intros Habsent. rewrite hasFeedback_spec. cbn [parseNavigatorReview publicFeedback].
    by rewrite Habsent.
Qed.

End ParsingFacts.

(* ===================================================================== *)
(** * The session observer *)
(* ===================================================================== *)

Module ObserverFacts.
Import Observer.

Section WithEnv.
Context (E : Env).

(** [flush] returns a summary only after it has stored it. *)
Lemma flush_stores_summary status msg st o summary st' o' :
  flush E status msg (st, o) = (Ok summary, (st', o')) →
  flushedSummary st' = Some summary.
Proof.
  unfold flush. destruct (flushedSummary st) as [s|] eqn:Hf.
  - intros [= <- <- <-]. exact Hf.
  - unfold bind, dateNow, queueEventStreamLine, awaitWriteQueue, gets, writeLogFile,
      modify, ret.
    destruct (negb (isSet (eventLogFile st)) || isSet (eventStreamWriteError st));
      match goal with
      | |- context [drainQueue ?q ?s ?o] => destruct (drainQueue q s o) as [st1 o1]
      end;
      destruct (fsOutcome E (fsOps o1)); intros [= <- <- <-]; reflexivity.
Qed.

Lemma record_after_flush ev st o summary :
  flushedSummary st = Some summary →
  record E ev (st, o) = (Ok tt, (st, o)).
Proof. intros Hf. unfold record. by rewrite Hf. Qed.

Lemma flush_after_flush status msg st o summary :
  flushedSummary st = Some summary →
  flush E status msg (st, o) = (Ok summary, (st, o)).
Proof. intros Hf. unfold flush. by rewrite Hf. Qed.

Lemma calls_after_flush later st o summary :
  flushedSummary st = Some summary →
  calls E later (st, o) = (Ok (frozenAnswer summary <$> later), (st, o)).
Proof.
  intros Hf. induction later as [|c later IH]; [done|].
  cbn [calls]. unfold bind at 1.
  assert (call E c (st, o) = (Ok (frozenAnswer summary c), (st, o))) as ->.
  { destruct c as [ev|status msg]; cbn [call frozenAnswer]; unfold bind.
    - by rewrite (record_after_flush ev st o summary Hf).
    - by rewrite (flush_after_flush status msg st o summary Hf). }
  unfold bind. by rewrite IH.
Qed.

(** C9: once a [flush] has returned a summary, any later sequence of
    [record] and [flush] calls leaves the observer and the files as they
    are (no event is added, no line is queued or written), and each of its
    [flush] calls returns that summary whatever its arguments. *)
Theorem flush_is_idempotent_and_freezes_the_log
    (status : Status) (errorMessage : option string) (st : State) (o : Out)
    (summary : Summary) (st' : State) (o' : Out) :
  flush E status errorMessage (st, o) = (Ok summary, (st', o')) →
  (∀ later : list Call,
     calls E later (st', o') = (Ok (frozenAnswer summary <$> later), (st', o')))
  ∧ (∀ status2 errorMessage2,
       flush E status2 errorMessage2 (st', o') = (Ok summary, (st', o')))
  ∧ (∀ ev, record E ev (st', o') = (Ok tt, (st', o'))).
Proof.
  intros Hflush. apply flush_stores_summary in Hflush.
  split; [|split]; intros.
  - by apply calls_after_flush.
  - by apply flush_after_flush.
  - by apply (record_after_flush _ _ _ summary).
Qed.

End WithEnv.
End ObserverFacts.

(* ===================================================================== *)
(** * Binary64 rounding *)
(* ===================================================================== *)

Module DoubleFacts.
Import Double.
Local Open Scope Q_scope.

Lemma pow2_pos e : 0 < pow2 e.
Proof. apply Qpower_0_lt. reflexivity. Qed.

Lemma pow2_le a b : (a ≤ b)%Z → pow2 a <= pow2 b.
Proof. intros H. apply Qpower_le_compat_l; [exact H|discriminate]. Qed.

Lemma pow2_lt a b : (a < b)%Z → pow2 a < pow2 b.
Proof. intros H. apply Qpower_lt_compat_l; [exact H|reflexivity]. Qed.

Lemma pow2_add a b : pow2 (a + b) == pow2 a * pow2 b.
Proof. apply Qpower_plus. discriminate. Qed.

Lemma pow2_Z e : (0 ≤ e)%Z → pow2 e == inject_Z (2 ^ e).
Proof. intros H. unfold pow2. by rewrite Zpower_Qpower. Qed.

Lemma pow2_sub a b : pow2 (a - b) == pow2 a / pow2 b.
Proof.
  pose proof (pow2_pos b) as Hb. pose proof (pow2_add (a - b) b) as Hadd.
  replace (a - b + b)%Z with a in Hadd by lia.
  rewrite Hadd. field. lra.
Qed.

(** ** The exponent *)

Lemma Qmake_as_div n d : n # d == inject_Z n / inject_Z (Zpos d).
Proof. apply Qmake_Qdiv. Qed.

Lemma ilog2_spec x : 0 < x → pow2 (ilog2 x) <= x ∧ x < pow2 (ilog2 x + 1).
Proof.
  intros Hx. destruct x as [n d]. unfold ilog2. cbn [Qnum Qden].
  assert (Hn : (0 < n)%Z) by (unfold Qlt in Hx; cbn in Hx; lia).
  set (a := Z.log2 n). set (b := Z.log2 (Zpos d)).
  assert (Ha : (0 ≤ a)%Z) by apply Z.log2_nonneg.
  assert (Hb : (0 ≤ b)%Z) by apply Z.log2_nonneg.
  destruct (Z.log2_spec n Hn) as [Hn1 Hn2]. fold a in Hn1, Hn2.
  destruct (Z.log2_spec (Zpos d) eq_refl) as [Hd1 Hd2]. fold b in Hd1, Hd2.
  rewrite <- Z.add_1_r in Hn2, Hd2.
  assert (Hxd : (n # d) * inject_Z (Zpos d) == inject_Z n).
  { rewrite Qmake_as_div. field. unfold Qeq; cbn; lia. }
  assert (HdQ : 0 < inject_Z (Zpos d)) by (unfold Qlt; cbn; lia).
  assert (Hupper : n # d < pow2 (a - b + 1)).
  { replace (a - b + 1)%Z with ((a + 1) - b)%Z by lia.
    rewrite pow2_sub, !pow2_Z by lia.
    apply Qlt_shift_div_l. { rewrite <- pow2_Z by lia. apply pow2_pos. }
    apply Qle_lt_trans with ((n # d) * inject_Z (Zpos d)).
    - apply Qmult_le_l; [exact Hx|]. rewrite <- Zle_Qle. exact Hd1.
    - rewrite Hxd. rewrite <- Zlt_Qlt. exact Hn2. }
  assert (Hlower : pow2 (a - b - 1) < n # d).
  { replace (a - b - 1)%Z with (a - (b + 1))%Z by lia.
    rewrite pow2_sub, !pow2_Z by lia.
    apply Qlt_shift_div_r. { rewrite <- pow2_Z by lia. apply pow2_pos. }
    apply Qle_lt_trans with ((n # d) * inject_Z (Zpos d)).
    - rewrite Hxd. rewrite <- Zle_Qle. exact Hn1.
    - apply Qmult_lt_l; [exact Hx|]. rewrite <- Zlt_Qlt. exact Hd2. }
  destruct (Qle_bool (pow2 (a - b)) (n # d)) eqn:Htest.
  - apply Qle_bool_iff in Htest. done.
  - assert (Hlt : n # d < pow2 (a - b)).
    { apply Qnot_le_lt. intros Hle. apply Qle_bool_iff in Hle. congruence. }
    replace (a - b - 1 + 1)%Z with (a - b)%Z by lia. split; [|exact Hlt].
    by apply Qlt_le_weak.
Qed.

Lemma ilog2_lt x k : 0 < x → x < pow2 k → (ilog2 x < k)%Z.
Proof.
  intros Hx Hk. destruct (ilog2_spec x Hx) as [Hlow _].
  apply (Qpower_lt_compat_l_inv 2); [|reflexivity].
  by apply Qle_lt_trans with x.
Qed.

Lemma ilog2_ge x k : 0 < x → pow2 k <= x → (k ≤ ilog2 x)%Z.
Proof.
  intros Hx Hk. destruct (ilog2_spec x Hx) as [_ Hup].
  assert (k < ilog2 x + 1)%Z; [|lia].
  apply (Qpower_lt_compat_l_inv 2); [|reflexivity].
  by apply Qle_lt_trans with x.
Qed.

(** ** The nearest integer *)

Lemma nearestEven_cases q :
  nearestEven q = Qfloor q ∨ nearestEven q = (Qfloor q + 1)%Z.
Proof.
  unfold nearestEven.
  destruct (Qcompare (q - inject_Z (Qfloor q)) (1 # 2)), (Z.even (Qfloor q)); auto.
Qed.

Lemma nearestEven_near q : Qabs (inject_Z (nearestEven q) - q) <= 1 # 2.
Proof.
  pose proof (Qfloor_le q) as Hlow. pose proof (Qlt_floor q) as Hup.
  rewrite inject_Z_plus in Hup. change (inject_Z 1) with 1 in Hup.
  unfold nearestEven.
  destruct (Qcompare (q - inject_Z (Qfloor q)) (1 # 2)) eqn:Hc.
  - apply Qeq_alt in Hc.
    destruct (Z.even (Qfloor q)); [|rewrite inject_Z_plus; change (inject_Z 1) with 1];
      apply Qabs_Qle_condition; split; lra.
  - apply Qlt_alt in Hc. apply Qabs_Qle_condition; split; lra.
  - apply Qgt_alt in Hc. rewrite inject_Z_plus. change (inject_Z 1) with 1.
    apply Qabs_Qle_condition; split; lra.
Qed.

Lemma nearestEven_le q (N : Z) : q <= inject_Z N → (nearestEven q ≤ N)%Z.
Proof.
  intros Hq.
  assert (Hfloor : (Qfloor q ≤ N)%Z) by (rewrite <- (Qfloor_Z N); by apply Qfloor_resp_le).
  destruct (Z.eq_dec (Qfloor q) N) as [Heq|Hne].
  - (* [q] is the integer [N] *)
    pose proof (Qfloor_le q) as Hlow. rewrite Heq in Hlow.
    unfold nearestEven. rewrite Heq.
    assert (Hc : Qcompare (q - inject_Z N) (1 # 2) = Lt) by (rewrite <- Qlt_alt; lra).
    by rewrite Hc.
  - destruct (nearestEven_cases q) as [-> | ->]; lia.
Qed.

Lemma nearestEven_ge q (N : Z) : inject_Z N <= q → (N ≤ nearestEven q)%Z.
Proof.
  intros Hq.
  assert (Hfloor : (N ≤ Qfloor q)%Z) by (rewrite <- (Qfloor_Z N); by apply Qfloor_resp_le).
  destruct (nearestEven_cases q) as [-> | ->]; lia.
Qed.

Lemma nearestEven_Z (N : Z) : nearestEven (inject_Z N) = N.
Proof.
  apply Z.le_antisymm; [apply nearestEven_le|apply nearestEven_ge]; apply Qle_refl.
Qed.

(** ** Rounding *)

Lemma round_0 x : x == 0 → round x = 0.
Proof. intros Hx. unfold round. apply Qeq_bool_iff in Hx. by rewrite Hx. Qed.

Lemma round_pos x :
  ¬ x == 0 →
  round x = inject_Z (nearestEven (x / pow2 (lastPlace x))) * pow2 (lastPlace x).
Proof.
  intros Hx. unfold round. destruct (Qeq_bool x 0) eqn:Hz; [|done].
  by apply Qeq_bool_iff in Hz.
Qed.

(** The distance to the nearest value is at most half a unit in the last
    place. *)
Lemma round_half_ulp x : Qabs (round x - x) <= pow2 (lastPlace x - 1).
Proof.
  destruct (Qeq_dec x 0) as [Hx|Hx].
  - rewrite (round_0 x Hx). pose proof (pow2_pos (lastPlace x - 1)).
    apply Qabs_Qle_condition. split; lra.
  - rewrite (round_pos x Hx).
    set (j := lastPlace x). pose proof (pow2_pos j) as Hj.
    pose proof (nearestEven_near (x / pow2 j)) as Hnear.
    apply Qabs_Qle_condition in Hnear as [Hlow Hup].
    assert (Hhalf : pow2 (j - 1) == pow2 j * (1 # 2)).
    { rewrite pow2_sub. change (pow2 1) with 2. field. }
    assert (E : inject_Z (nearestEven (x / pow2 j)) * pow2 j - x
                == (inject_Z (nearestEven (x / pow2 j)) - x / pow2 j) * pow2 j)
      by (field; lra).
    set (m := inject_Z (nearestEven (x / pow2 j))) in *.
    set (q := x / pow2 j) in *.
    assert (H1 : (m - q) * pow2 j <= (1 # 2) * pow2 j)
      by (apply Qmult_le_compat_r; lra).
    assert (H2 : - (1 # 2) * pow2 j <= (m - q) * pow2 j)
      by (apply Qmult_le_compat_r; lra).
    rewrite Hhalf, E. apply Qabs_Qle_condition. split; lra.
Qed.

Lemma Qabs_nonneg_eq x : 0 <= x → Qabs x = x.
Proof.
  destruct x as [n d]. unfold Qle, Qabs. cbn. intros H. f_equal. apply Z.abs_eq. lia.
Qed.

Lemma lastPlace_below x k :
  0 < x → x < pow2 k → (-1021 ≤ k)%Z → (lastPlace x ≤ k - 53)%Z.
Proof.
  intros Hx Hk Hrange. unfold lastPlace. rewrite Qabs_nonneg_eq by lra.
  pose proof (ilog2_lt x k Hx Hk). lia.
Qed.

(** A number below [2^k] is rounded by at most [2^(k - 54)]. *)
Lemma round_error x k :
  0 <= x → x < pow2 k → (-1021 ≤ k)%Z → Qabs (round x - x) <= pow2 (k - 54).
Proof.
  intros Hx Hk Hrange.
  destruct (Qeq_dec x 0) as [Hz|Hz].
  - rewrite (round_0 x Hz). pose proof (pow2_pos (k - 54)).
    apply Qabs_Qle_condition. split; lra.
  - eapply Qle_trans; [apply round_half_ulp|].
    apply pow2_le. assert (0 < x) by lra.
    pose proof (lastPlace_below x k ltac:(done) Hk Hrange). lia.
Qed.

Lemma round_nonneg x : 0 <= x → 0 <= round x.
Proof.
  intros Hx. destruct (Qeq_dec x 0) as [Hz|Hz]; [by rewrite (round_0 x Hz)|].
  rewrite (round_pos x Hz). pose proof (pow2_pos (lastPlace x)) as Hj.
  apply Qmult_le_0_compat; [|lra].
  change 0 with (inject_Z 0). rewrite <- Zle_Qle. apply nearestEven_ge.
  change (inject_Z 0) with 0. apply Qle_shift_div_l; lra.
Qed.

(** An integer is a multiple of the last place of any positive number
    below 2^53. *)
Lemma integer_on_the_grid x (N : Z) :
  0 < x → x < pow2 53 →
  inject_Z N / pow2 (lastPlace x) == inject_Z (N * 2 ^ (- lastPlace x)).
Proof.
  intros Hx Hk.
  assert (Hj : (lastPlace x ≤ 0)%Z) by (pose proof (lastPlace_below x 53 Hx Hk); lia).
  pose proof (pow2_pos (lastPlace x)) as Hpos.
  rewrite inject_Z_mult, <- pow2_Z by lia.
  pose proof (pow2_add (- lastPlace x) (lastPlace x)) as Hadd.
  replace (- lastPlace x + lastPlace x)%Z with 0%Z in Hadd by lia.
  change (pow2 0) with 1 in Hadd.
  apply Qmult_inj_r with (pow2 (lastPlace x)); [lra|].
  transitivity (inject_Z N); [field; lra|].
  rewrite <- Qmult_assoc, <- Hadd. ring.
Qed.

(** Rounding never crosses an integer: a number below 2^53 and its
    binary64 value lie on the same side of every integer. *)
Lemma round_le_Z x (N : Z) : 0 <= x → x < pow2 53 → x <= inject_Z N → round x <= inject_Z N.
Proof.
  intros Hx Hk HN.
  destruct (Qeq_dec x 0) as [Hz|Hz]; [rewrite (round_0 x Hz); lra|].
  assert (Hpos : 0 < x) by lra.
  rewrite (round_pos x Hz). pose proof (pow2_pos (lastPlace x)) as Hj.
  pose proof (integer_on_the_grid x N Hpos Hk) as Hgrid.
  assert (Hm : (nearestEven (x / pow2 (lastPlace x)) ≤ N * 2 ^ (- lastPlace x))%Z).
  { apply nearestEven_le. rewrite <- Hgrid. apply Qmult_le_compat_r; [exact HN|].
    apply Qlt_le_weak, Qinv_lt_0_compat, Hj. }
  rewrite Zle_Qle, <- Hgrid in Hm.
  apply Qle_trans with (inject_Z N / pow2 (lastPlace x) * pow2 (lastPlace x)).
  - apply Qmult_le_compat_r; [exact Hm|lra].
  - apply Qle_lteq. right. field. lra.
Qed.

Lemma round_ge_Z x (N : Z) : 0 <= x → x < pow2 53 → inject_Z N <= x → inject_Z N <= round x.
Proof.
  intros Hx Hk HN.
  destruct (Qeq_dec x 0) as [Hz|Hz]; [rewrite (round_0 x Hz); lra|].
  assert (Hpos : 0 < x) by lra.
  rewrite (round_pos x Hz). pose proof (pow2_pos (lastPlace x)) as Hj.
  pose proof (integer_on_the_grid x N Hpos Hk) as Hgrid.
  assert (Hm : (N * 2 ^ (- lastPlace x) ≤ nearestEven (x / pow2 (lastPlace x)))%Z).
  { apply nearestEven_ge. rewrite <- Hgrid. apply Qmult_le_compat_r; [exact HN|].
    apply Qlt_le_weak, Qinv_lt_0_compat, Hj. }
  rewrite Zle_Qle, <- Hgrid in Hm.
  apply Qle_trans with (inject_Z N / pow2 (lastPlace x) * pow2 (lastPlace x)).
  - apply Qle_lteq. right. field. lra.
  - apply Qmult_le_compat_r; [exact Hm|lra].
Qed.

(** The integers below 2^53 are binary64 values. *)
Lemma round_Z (N : Z) : (0 ≤ N < 2 ^ 53)%Z → round (inject_Z N) == inject_Z N.
Proof.
  intros [Hlow Hup].
  assert (0 <= inject_Z N) by (change 0 with (inject_Z 0); by rewrite <- Zle_Qle).
  assert (inject_Z N < pow2 53) by (rewrite pow2_Z by lia; by rewrite <- Zlt_Qlt).
  apply Qle_antisym; [apply round_le_Z|apply round_ge_Z]; try done; apply Qle_refl.
Qed.

(** [Double] and the kernel's binary64 numbers read the same number from
    integers on both sides of 2^53. *)
Lemma ofZ_matches_binary64 :
  forallb (λ n, match ofZ n with
                | Finite m => Binary64.agree (ofFloat (toFloat n)) (inject_Z m)
                | NaN | Infinite => false
                end) Binary64.integers = true.
Proof. vm_compute. reflexivity. Qed.

(** Reading an integer below 2^53 gives that integer. *)
Lemma ofZ_exact (N : Z) : (0 ≤ N < 2 ^ 53)%Z → ofZ N = Finite N.
Proof.
  intros HN. pose proof (round_Z N HN) as Hround.
  unfold ofZ, overflows.
  assert (Hfinite : Qle_bool (pow2 1024) (Qabs (round (inject_Z N))) = false).
  { apply not_true_is_false. intros Hle. apply Qle_bool_iff in Hle.
    rewrite Hround in Hle. rewrite Qabs_pos in Hle
      by (change 0 with (inject_Z 0); rewrite <- Zle_Qle; lia).
    assert (Hlt : inject_Z N < pow2 53) by (rewrite pow2_Z by lia; rewrite <- Zlt_Qlt; lia).
    pose proof (pow2_le 53 1024 ltac:(lia)). lra. }
  rewrite Hfinite. f_equal. rewrite (Qfloor_comp _ _ Hround). apply Qfloor_Z.
Qed.

End DoubleFacts.

(* ===================================================================== *)
(** * The run summary *)
(* ===================================================================== *)

Module SummaryFacts.
Import OrchestratorCommon DoubleFacts.

(** [Math.round] brackets its argument: [x - 1/2 < Math.round x <= x + 1/2]. *)
Lemma mathRound_bounds (x : Q) :
  (inject_Z (mathRound x) <= x + (1 # 2) ∧ x - (1 # 2) < inject_Z (mathRound x))%Q.
Proof.
  unfold mathRound. split.
  - apply Qfloor_le.
  - pose proof (Qlt_floor (x + (1 # 2))) as H.
    rewrite inject_Z_plus in H. change (inject_Z 1) with 1%Q in H. lra.
Qed.

Lemma mathRound_range (x : Q) (lo hi : Z) :
  (inject_Z lo <= x)%Q → (x <= inject_Z hi)%Q → lo ≤ mathRound x ≤ hi.
Proof.
  intros Hlo Hhi. unfold mathRound. split.
  - rewrite <- (Qfloor_Z lo). apply Qfloor_resp_le. lra.
  - assert (Qfloor (x + (1 # 2)) < hi + 1); [|lia].
    rewrite Zlt_Qlt. eapply Qle_lt_trans; [apply Qfloor_le|].
    rewrite inject_Z_plus. change (inject_Z 1) with 1%Q. lra.
Qed.

Local Open Scope Q_scope.

(** One rounding on a number between 0 and an integer below 2^[k]. *)
Lemma round_step (x : Q) (hi : Z) (k : Z) :
  0 <= x → x <= inject_Z hi → inject_Z hi < Double.pow2 k → (-1021 ≤ k ≤ 53)%Z →
  0 <= Double.round x ∧ Double.round x <= inject_Z hi
  ∧ Qabs (Double.round x - x) <= Double.pow2 (k - 54).
Proof.
  intros Hlo Hhi Hk Hrange.
  assert (Hx : x < Double.pow2 k) by lra.
  assert (Hx53 : x < Double.pow2 53).
  { eapply Qlt_le_trans; [exact Hx|]. apply pow2_le. lia. }
  split; [by apply round_nonneg|]. split; [by apply round_le_Z|].
  apply round_error; [done|done|lia].
Qed.

(** [roundPercent] of a number between 0 and 1000: the binary64 value of
    a number of tenths, which is within half a tenth of the argument up
    to the rounding of the product and of the quotient. *)
Lemma roundPercent_spec (x : Q) (hi : Z) :
  0 <= x → x <= inject_Z hi → (0 ≤ hi ≤ 1000)%Z →
  ∃ tenths : Z,
    roundPercent x = Double.div (inject_Z tenths) 10
    ∧ (0 ≤ tenths ≤ 10 * hi)%Z
    ∧ Qabs (inject_Z tenths - 10 * x) <= (1 # 2) + Double.pow2 (-40)
    ∧ Qabs (roundPercent x - inject_Z tenths / 10) <= Double.pow2 (-44)
    ∧ 0 <= roundPercent x ∧ roundPercent x <= inject_Z hi
    ∧ Qabs (roundPercent x - x) <= (1 # 20) + Double.pow2 (-42).
Proof.
  intros Hlo Hhi Hrange.
  unfold roundPercent, Double.mul, Double.div.
  set (v := Double.round (x * 10)).
  assert (Hhi10 : x * 10 <= inject_Z (10 * hi)).
  { rewrite inject_Z_mult. change (inject_Z 10) with 10. lra. }
  assert (H14 : inject_Z (10 * hi) < Double.pow2 14).
  { rewrite pow2_Z by lia. rewrite <- Zlt_Qlt. change (2 ^ 14)%Z with 16384%Z. lia. }
  destruct (round_step (x * 10) (10 * hi) 14 ltac:(lra) Hhi10 H14 ltac:(lia))
    as (Hv0 & Hv1 & Hverr). fold v in Hv0, Hv1, Hverr.
  destruct (mathRound_bounds v) as [Hk1 Hk2].
  destruct (mathRound_range v 0 (10 * hi) Hv0 Hv1) as [Hk0 Hk3].
  set (k := mathRound v) in *.
  exists k. split; [reflexivity|]. split; [done|].
  assert (HkQ0 : 0 <= inject_Z k) by (change 0 with (inject_Z 0); by rewrite <- Zle_Qle).
  assert (HkQ1 : inject_Z k <= inject_Z (10 * hi)) by (by rewrite <- Zle_Qle).
  rewrite inject_Z_mult in Hhi10, Hv1, HkQ1. change (inject_Z 10) with 10 in *.
  assert (H10 : inject_Z hi < Double.pow2 10).
  { rewrite pow2_Z by lia. rewrite <- Zlt_Qlt. change (2 ^ 10)%Z with 1024%Z. lia. }
  destruct (round_step (inject_Z k / 10) hi 10) as (Hs0 & Hs1 & Hserr);
    [apply Qle_shift_div_l; lra|apply Qle_shift_div_r; lra|done|lia|].
  set (s := Double.round (inject_Z k / 10)) in *.
  assert (E40 : Double.pow2 (-40) == 1 # 1099511627776) by reflexivity.
  assert (E42 : Double.pow2 (-42) == 1 # 4398046511104) by reflexivity.
  assert (E44 : Double.pow2 (10 - 54) == 1 # 17592186044416) by reflexivity.
  assert (E44' : Double.pow2 (-44) == 1 # 17592186044416) by reflexivity.
  assert (E14 : Double.pow2 (14 - 54) == 1 # 1099511627776) by reflexivity.
  rewrite E44 in Hserr. rewrite E14 in Hverr. rewrite E40, E42, E44'.
  apply Qabs_Qle_condition in Hverr as [Hv2 Hv3].
  apply Qabs_Qle_condition in Hserr as [Hs2 Hs3].
  assert (Ediv : inject_Z k / 10 == inject_Z k * (1 # 10)) by (field).
  rewrite Ediv in Hs2, Hs3 |- *.
  split; [apply Qabs_Qle_condition; split; lra|].
  split; [apply Qabs_Qle_condition; split; lra|].
  split; [done|]. split; [done|].
  apply Qabs_Qle_condition; split; lra.
Qed.

(** The share of [part] in [total]: the binary64 value of a number of
    tenths between 0 and 100, within half a tenth of the exact percentage
    up to the rounding of the four operations. *)
Lemma sharePercent_spec (part total : Z) :
  (0 ≤ part ≤ total)%Z → (0 < total)%Z →
  ∃ tenths : Z,
    sharePercent part total = Double.div (inject_Z tenths) 10
    ∧ (0 ≤ tenths ≤ 1000)%Z
    ∧ Qabs (inject_Z tenths - 1000 * inject_Z part / inject_Z total)
      <= (1 # 2) + Double.pow2 (-39)
    ∧ Qabs (sharePercent part total - inject_Z tenths / 10) <= Double.pow2 (-44)
    ∧ 0 <= sharePercent part total ∧ sharePercent part total <= 100
    ∧ Qabs (sharePercent part total - 100 * inject_Z part / inject_Z total)
      <= (1 # 20) + Double.pow2 (-41).
Proof.
  intros [Hp0 Hp1] Ht. unfold sharePercent, Double.mul, Double.div.
  assert (HtQ : 0 < inject_Z total) by (change 0 with (inject_Z 0); by rewrite <- Zlt_Qlt).
  assert (HpQ0 : 0 <= inject_Z part) by (change 0 with (inject_Z 0); by rewrite <- Zle_Qle).
  assert (HpQ1 : inject_Z part <= inject_Z total) by (by rewrite <- Zle_Qle).
  set (x := inject_Z part / inject_Z total).
  assert (Hx0 : 0 <= x) by (apply Qle_shift_div_l; lra).
  assert (Hx1 : x <= inject_Z 1)
    by (apply Qle_shift_div_r; [done|]; change (inject_Z 1) with 1; lra).
  destruct (round_step x 1 1 Hx0 Hx1 ltac:(reflexivity) ltac:(lia)) as (Hv0 & Hv1 & Hverr).
  set (v := Double.round x) in *. change (inject_Z 1) with 1 in *.
  destruct (round_step (v * 100) 100 7) as (Hw0 & Hw1 & Hwerr);
    [lra|change (inject_Z 100) with 100; lra|reflexivity|lia|].
  set (w := Double.round (v * 100)) in *. change (inject_Z 100) with 100 in *.
  destruct (roundPercent_spec w 100 Hw0 Hw1 ltac:(lia))
    as (k & Hshare & Hk & Hkerr & Htenth & Hs0 & Hs1 & Hserr).
  exists k. split; [exact Hshare|]. split; [lia|].
  set (s := roundPercent w) in *.
  change (inject_Z 100) with 100 in *.
  assert (E39 : Double.pow2 (-39) == 1 # 549755813888) by reflexivity.
  assert (E40 : Double.pow2 (-40) == 1 # 1099511627776) by reflexivity.
  assert (E41 : Double.pow2 (-41) == 1 # 2199023255552) by reflexivity.
  assert (E42 : Double.pow2 (-42) == 1 # 4398046511104) by reflexivity.
  assert (E53 : Double.pow2 (1 - 54) == 1 # 9007199254740992) by reflexivity.
  assert (E47 : Double.pow2 (7 - 54) == 1 # 140737488355328) by reflexivity.
  rewrite E53 in Hverr. rewrite E47 in Hwerr. rewrite E40 in Hkerr. rewrite E42 in Hserr.
  rewrite E39, E41.
  apply Qabs_Qle_condition in Hverr as [Hv2 Hv3].
  apply Qabs_Qle_condition in Hwerr as [Hw2 Hw3].
  apply Qabs_Qle_condition in Hkerr as [Hk2 Hk3].
  apply Qabs_Qle_condition in Hserr as [Hs2 Hs3].
  assert (E1 : 1000 * inject_Z part / inject_Z total == 1000 * x) by (unfold x; field; lra).
  assert (E2 : 100 * inject_Z part / inject_Z total == 100 * x) by (unfold x; field; lra).
  rewrite E1, E2.
  split; [apply Qabs_Qle_condition; split; lra|].
  split; [exact Htenth|].
  split; [done|]. split; [done|].
  apply Qabs_Qle_condition; split; lra.
Qed.

(** The shares of two parts of one total: their numbers of tenths add up
    to 999, 1000 or 1001. *)
Lemma sharePercent_pair (a b : Z) :
  (0 ≤ a)%Z → (0 ≤ b)%Z → (0 < a + b)%Z →
  ∃ tenthsA tenthsB : Z,
    sharePercent a (a + b) = Double.div (inject_Z tenthsA) 10
    ∧ sharePercent b (a + b) = Double.div (inject_Z tenthsB) 10
    ∧ (tenthsA + tenthsB = 999 ∨ tenthsA + tenthsB = 1000 ∨ tenthsA + tenthsB = 1001)%Z
    ∧ Qabs (sharePercent a (a + b) - 100 * inject_Z a / inject_Z (a + b))
      <= (1 # 20) + Double.pow2 (-41)
    ∧ Qabs (sharePercent b (a + b) - 100 * inject_Z b / inject_Z (a + b))
      <= (1 # 20) + Double.pow2 (-41)
    ∧ Qabs (sharePercent a (a + b) + sharePercent b (a + b) - 100)
      <= (1 # 10) + Double.pow2 (-43)
    ∧ Qabs (Double.add (sharePercent a (a + b)) (sharePercent b (a + b)) - 100)
      <= (1 # 10) + Double.pow2 (-42).
Proof.
  intros Ha Hb Hpos.
  destruct (sharePercent_spec a (a + b) ltac:(lia) Hpos)
    as (kA & HshareA & HkA & HerrA & HtenthA & HA0 & HA1 & HpercentA).
  destruct (sharePercent_spec b (a + b) ltac:(lia) Hpos)
    as (kB & HshareB & HkB & HerrB & HtenthB & HB0 & HB1 & HpercentB).
  exists kA, kB. split; [exact HshareA|]. split; [exact HshareB|].
  set (sA := sharePercent a (a + b)) in *. set (sB := sharePercent b (a + b)) in *.
  assert (HtQ : 0 < inject_Z (a + b)) by (change 0 with (inject_Z 0); by rewrite <- Zlt_Qlt).
  assert (Hwhole : 1000 * inject_Z a / inject_Z (a + b) + 1000 * inject_Z b / inject_Z (a + b)
                   == 1000).
  { rewrite inject_Z_plus in HtQ |- *. field. lra. }
  assert (E39 : Double.pow2 (-39) == 1 # 549755813888) by reflexivity.
  assert (E42 : Double.pow2 (-42) == 1 # 4398046511104) by reflexivity.
  assert (E43 : Double.pow2 (-43) == 1 # 8796093022208) by reflexivity.
  assert (E44 : Double.pow2 (-44) == 1 # 17592186044416) by reflexivity.
  rewrite E39 in HerrA, HerrB. rewrite E44 in HtenthA, HtenthB.
  apply Qabs_Qle_condition in HerrA as [HerrA1 HerrA2].
  apply Qabs_Qle_condition in HerrB as [HerrB1 HerrB2].
  apply Qabs_Qle_condition in HtenthA as [HtenthA1 HtenthA2].
  apply Qabs_Qle_condition in HtenthB as [HtenthB1 HtenthB2].
  assert (Hsum : (999 ≤ kA + kB ≤ 1001)%Z).
  { assert (H1 : inject_Z 998 < inject_Z (kA + kB)).
    { rewrite inject_Z_plus. change (inject_Z 998) with 998. lra. }
    assert (H2 : inject_Z (kA + kB) < inject_Z 1002).
    { rewrite inject_Z_plus. change (inject_Z 1002) with 1002. lra. }
    rewrite <- Zlt_Qlt in H1, H2. lia. }
  split; [lia|]. split; [exact HpercentA|]. split; [exact HpercentB|].
  assert (HsumQ : 999 <= inject_Z kA + inject_Z kB ∧ inject_Z kA + inject_Z kB <= 1001).
  { rewrite <- inject_Z_plus. change 999 with (inject_Z 999).
    change 1001 with (inject_Z 1001). rewrite <- !Zle_Qle. lia. }
  destruct HsumQ as [HsumQ1 HsumQ2].
  assert (EdivA : inject_Z kA / 10 == inject_Z kA * (1 # 10)) by field.
  assert (EdivB : inject_Z kB / 10 == inject_Z kB * (1 # 10)) by field.
  rewrite EdivA in HtenthA1, HtenthA2. rewrite EdivB in HtenthB1, HtenthB2.
  assert (Hexact : Qabs (sA + sB - 100) <= (1 # 10) + Double.pow2 (-43)).
  { rewrite E43. apply Qabs_Qle_condition. split; lra. }
  split; [exact Hexact|].
  rewrite E43 in Hexact. apply Qabs_Qle_condition in Hexact as [Hexact1 Hexact2].
  destruct (round_step (sA + sB) 101 7) as (_ & _ & Hadd);
    [lra|change (inject_Z 101) with 101; lra|reflexivity|lia|].
  assert (E47 : Double.pow2 (7 - 54) == 1 # 140737488355328) by reflexivity.
  rewrite E47 in Hadd. apply Qabs_Qle_condition in Hadd as [Hadd1 Hadd2].
  unfold Double.add. rewrite E42. apply Qabs_Qle_condition. split; lra.
Qed.

Local Close Scope Q_scope.

(** [Double] and the kernel's binary64 numbers give the same share for
    every part of every total up to 64, and the same sum for two shares
    of 20.8 and 79.1. *)
Lemma sharePercent_matches_binary64 :
  forallb (λ '(part, total), Binary64.agree (Binary64.sharePercent part total)
                               (sharePercent part total)) (Binary64.grid 64) = true
  ∧ Binary64.agree (Binary64.sumOfTenths 208 791)
      (Double.add (Double.div 208 10) (Double.div 791 10)) = true.
Proof. split; vm_compute; reflexivity. Qed.

(** Each share is the rounded percentage of the agent's bytes. *)
Lemma buildSummary_shares_by_bytes (c : Contributions) (checkpointCount swapCount : Z) :
  let total := cs_estimatedWrittenBytes (contribA c) + cs_estimatedWrittenBytes (contribB c) in
  0 < total →
  roughCodeSharePercent (contribA (rs_contributions (buildSummary c checkpointCount swapCount)))
  = sharePercent (cs_estimatedWrittenBytes (contribA c)) total
  ∧ roughCodeSharePercent (contribB (rs_contributions (buildSummary c checkpointCount swapCount)))
    = sharePercent (cs_estimatedWrittenBytes (contribB c)) total.
Proof.
  intros total Hpos. unfold buildSummary. fold total.
  destruct (Z.ltb_spec 0 total); [done|lia].
Qed.

(** C6, amended: whenever the two agents' estimated bytes (counts that
    binary64 holds exactly) add up to more than zero, each share is the
    binary64 number for a whole number of tenths, within half a tenth of
    the agent's exact percentage up to the rounding of the operations; the
    two numbers of tenths add up to 999, 1000 or 1001, so that the shares
    add up to 100 within one tenth and that rounding, whether they are
    added exactly or as the code would add them. *)
Theorem rough_code_shares_sum_to_100_up_to_rounding
    (c : Contributions) (checkpointCount swapCount : Z) :
  0 ≤ cs_estimatedWrittenBytes (contribA c) →
  0 ≤ cs_estimatedWrittenBytes (contribB c) →
  0 < cs_estimatedWrittenBytes (contribA c) + cs_estimatedWrittenBytes (contribB c)
    < 2 ^ 53 →
  let bytesA := cs_estimatedWrittenBytes (contribA c) in
  let bytesB := cs_estimatedWrittenBytes (contribB c) in
  let summary := buildSummary c checkpointCount swapCount in
  let shareA := roughCodeSharePercent (contribA (rs_contributions summary)) in
  let shareB := roughCodeSharePercent (contribB (rs_contributions summary)) in
  ∃ tenthsA tenthsB : Z,
    shareA = Double.div (inject_Z tenthsA) 10
    ∧ shareB = Double.div (inject_Z tenthsB) 10
    ∧ (tenthsA + tenthsB = 999 ∨ tenthsA + tenthsB = 1000 ∨ tenthsA + tenthsB = 1001)
    ∧ (Qabs (shareA - 100 * inject_Z bytesA / inject_Z (bytesA + bytesB))
       <= (1 # 20) + Double.pow2 (-41))%Q
    ∧ (Qabs (shareB - 100 * inject_Z bytesB / inject_Z (bytesA + bytesB))
       <= (1 # 20) + Double.pow2 (-41))%Q
    ∧ (Qabs (shareA + shareB - 100) <= (1 # 10) + Double.pow2 (-43))%Q
    ∧ (Qabs (Double.add shareA shareB - 100) <= (1 # 10) + Double.pow2 (-42))%Q.
Proof.
  intros HA HB [Hpos _] bytesA bytesB summary shareA shareB.
  destruct (buildSummary_shares_by_bytes c checkpointCount swapCount Hpos) as [EA EB].
  fold summary in EA, EB. fold shareA in EA. fold shareB in EB.
  fold bytesA bytesB in EA, EB. rewrite EA, EB.
  by apply sharePercent_pair.
Qed.

(** C6 as stated fails for 417 bytes against 1583: the shares are the
    binary64 numbers for 20.8 and 79.1, and their sum, 99.89999999999999
    as the code would compute it, is more than 0.1 away from 100. *)
Lemma shares_of_417_and_1583_bytes_miss_100_by_more_than_a_tenth :
  0 < cs_estimatedWrittenBytes (contribA Sessions.uneven)
      + cs_estimatedWrittenBytes (contribB Sessions.uneven)
  ∧ (roughCodeSharePercent (contribA (rs_contributions (buildSummary Sessions.uneven 1 1)))
     == Double.div 208 10)%Q
  ∧ (roughCodeSharePercent (contribB (rs_contributions (buildSummary Sessions.uneven 1 1)))
     == Double.div 791 10)%Q
  ∧ (1 # 10
     < Qabs
         (roughCodeSharePercent (contribA (rs_contributions (buildSummary Sessions.uneven 1 1)))
          + roughCodeSharePercent
              (contribB (rs_contributions (buildSummary Sessions.uneven 1 1)))
          - 100))%Q
  ∧ (1 # 10
     < Qabs
         (Double.add
            (roughCodeSharePercent
               (contribA (rs_contributions (buildSummary Sessions.uneven 1 1))))
            (roughCodeSharePercent
               (contribB (rs_contributions (buildSummary Sessions.uneven 1 1))))
          - 100))%Q.
Proof. repeat split; vm_compute; reflexivity. Qed.

End SummaryFacts.

(* ===================================================================== *)
(** * The command line *)
(* ===================================================================== *)

Module CliFacts.
Import Cli.

Section WithPaths.
Context (resolve : string → string).

(** An option that is none of the three leaves [pair.turnPolicy] as it
    is. *)
Lemma applyOption_other c arg next c' :
  assignsTurnPolicy arg = false →
  applyOption resolve c arg next = Ok c' →
  turnPolicy (pair c') = turnPolicy (pair c).
Proof.
  unfold assignsTurnPolicy. intros Hfree.
  apply orb_false_iff in Hfree as [Hfree H3]. apply orb_false_iff in Hfree as [H1 H2].
  unfold applyOption. rewrite H1, H2, H3.
  repeat match goal with
         | |- context [if String.eqb arg ?s then _ else _] => destruct (String.eqb arg s)
         end;
  unfold andThen;
  repeat match goal with
         | |- context [match ?r with Ok _ => _ | Throw _ => _ end] => destruct r
         end;
  intros [= <-]; reflexivity.
Qed.

(** The loop consumes a stretch of whole options and goes on with what
    follows. *)
Lemma parseArgs_app n : ∀ pre, (List.length pre ≤ n)%nat → wholeOptions pre = true →
  ∀ rest c,
    parseArgs resolve (pre ++ rest) c
    = andThen (parseArgs resolve pre c) (parseArgs resolve rest).
Proof.
  induction n as [|n IH]; intros [|arg pre] Hlen Hwhole rest c;
    cbn [List.length] in Hlen; try lia; try done.
  cbn [app parseArgs]. cbn [wholeOptions] in Hwhole.
  destruct (String.eqb arg "") eqn:E1; cbn [orb] in Hwhole |- *.
  { apply IH; [lia|done]. }
  destruct (String.eqb arg "--help") eqn:E2; cbn [orb] in Hwhole |- *; [done|].
  destruct (String.eqb arg "-h") eqn:E3; cbn [orb] in Hwhole |- *; [done|].
  destruct (String.eqb arg "--keep-workspace") eqn:E4; cbn [orb] in Hwhole |- *.
  { apply IH; [lia|done]. }
  destruct (Js.startsWith arg "--") eqn:E5; cbn [negb] in Hwhole |- *.
  2:{ apply IH; [lia|done]. }
  destruct pre as [|next pre]; [done|]. cbn [app].
  destruct (String.eqb next ""); [done|].
  destruct (applyOption resolve c arg next) as [c'|e]; [|done].
  cbn [andThen]. apply IH; [cbn [List.length] in Hlen; lia|done].
Qed.

(** A stretch without any of the three arguments leaves the policy as it
    is. *)
Lemma parseArgs_turnPolicyFree n : ∀ argv, (List.length argv ≤ n)%nat →
  turnPolicyFree argv = true →
  ∀ c c', parseArgs resolve argv c = Ok c' → turnPolicy (pair c') = turnPolicy (pair c).
Proof.
  induction n as [|n IH]; intros [|arg argv] Hlen Hfree c c';
    cbn [List.length] in Hlen; try lia; cbn [parseArgs]; try (by intros [= <-]).
  cbn [turnPolicyFree forallb] in Hfree. apply andb_true_iff in Hfree as [Harg Hfree].
  apply negb_true_iff in Harg.
  destruct (String.eqb arg ""); [apply IH; [lia|done]|].
  destruct (String.eqb arg "--help" || String.eqb arg "-h"); [done|].
  destruct (String.eqb arg "--keep-workspace").
  { intros H. by rewrite (IH argv ltac:(lia) Hfree _ _ H). }
  destruct (negb (Js.startsWith arg "--")); [apply IH; [lia|done]|].
  destruct argv as [|next argv]; [done|].
  destruct (String.eqb next ""); [done|].
  destruct (applyOption resolve c arg next) as [c1|e] eqn:Happly; [|done].
  cbn [forallb] in Hfree. apply andb_true_iff in Hfree as [_ Hfree].
  intros H. rewrite (IH argv ltac:(cbn [List.length] in Hlen; lia) Hfree _ _ H).
  by apply (applyOption_other c arg next).
Qed.

Lemma applyOption_alternate c :
  applyOption resolve c "--turn-policy" "alternate_each_round"
  = Ok (withPair c (withTurnPolicy (pair c) AlternateEachRound)).
Proof. reflexivity. Qed.

(** The step the claim is about: a cap option met while the policy is
    the alternating one. *)
Lemma applyOption_cap_after_alternate c capFlag value :
  turnPolicy (pair c) = AlternateEachRound →
  capFlag = "--max-consecutive-rounds" ∨ capFlag = "--max-consecutive-checkpoints" →
  applyOption resolve c capFlag value
  = andThen (parsePositiveInteger capFlag value)
      (λ n, Ok (withPair c (withTurnPolicy (pair c) (policyAfterCap capFlag n)))).
Proof.
  intros Hpolicy Hflag.
  destruct Hflag as [-> | ->]; unfold applyOption; cbn [String.eqb Ascii.eqb Bool.eqb];
    unfold setMaxConsecutiveRounds, setMaxConsecutiveCheckpoints;
    rewrite Hpolicy; cbn [defaultStickyTurnPolicy];
    by destruct (parsePositiveInteger _ value).
Qed.

(** What [parsePositiveInteger] returns is a positive finite number read
    by [Number.parseInt]. *)
Lemma parsePositiveInteger_finite name value n :
  parsePositiveInteger name value = Ok n → parseInt value = Double.Finite n ∧ 0 < n.
Proof.
  unfold parsePositiveInteger. destruct (parseInt value) as [| |parsed]; try done.
  destruct (Z.leb_spec parsed 0); [done|]. intros [= <-]. done.
Qed.

Lemma mathInt_some_nonempty value k : mathInt value = Some k → String.eqb value "" = false.
Proof. by destruct value. Qed.

(** C10, amended: on an argument list that [parseCli] accepts, where
    [--turn-policy alternate_each_round] is given as an option, a cap
    option whose value reads as a positive integer is given later, and no
    other option that assigns the turn policy follows the first, the
    resulting policy is the sticky one with the default for the other cap
    and, for the cap given, the number that [Number.parseInt] returns for
    the value: the integer itself below 2^53, where every integer is a
    binary64 number, and the nearest binary64 number otherwise. *)
Theorem cap_option_after_alternate_selects_sticky_default
    (pre mid post : list string) (capFlag value processCwd : string) (k : Z)
    (config : CliConfig) :
  wholeOptions pre = true →
  wholeOptions mid = true →
  turnPolicyFree mid = true →
  turnPolicyFree post = true →
  capFlag = "--max-consecutive-rounds" ∨ capFlag = "--max-consecutive-checkpoints" →
  mathInt value = Some k →
  0 < k →
  parseCli resolve
    (pre ++ ["--turn-policy"; "alternate_each_round"] ++ mid ++ [capFlag; value] ++ post)
    processCwd = Ok config →
  ∃ n,
    Double.ofZ k = Double.Finite n
    ∧ 0 < n
    ∧ turnPolicy (pair config) = policyAfterCap capFlag n
    ∧ (k < 2 ^ 53 → n = k).
Proof.
  intros Hpre Hmid Hmidfree Hpostfree Hflag Hvalue Hpos.
  unfold parseCli.
  rewrite (parseArgs_app (List.length pre) pre (le_n _) Hpre).
  match goal with |- context [parseArgs resolve pre ?c0] =>
    destruct (parseArgs resolve pre c0) as [c1|e] end; [|done].
  cbn [andThen app]. cbn [parseArgs String.eqb Ascii.eqb Bool.eqb orb negb Js.startsWith].
  change (Js.startsWith "--turn-policy" "--") with true. cbn [negb].
  rewrite applyOption_alternate.
  set (c2 := withPair c1 _).
  rewrite (parseArgs_app (List.length mid) mid (le_n _) Hmid).
  destruct (parseArgs resolve mid c2) as [c3|e] eqn:Hc3; [|done].
  cbn [andThen app].
  assert (Hpolicy3 : turnPolicy (pair c3) = AlternateEachRound).
  { by rewrite (parseArgs_turnPolicyFree (List.length mid) mid (le_n _) Hmidfree _ _ Hc3). }
  assert (Hstep : parseArgs resolve (capFlag :: value :: post) c3
                  = andThen (parsePositiveInteger capFlag value)
                      (λ n, parseArgs resolve post
                              (withPair c3
                                 (withTurnPolicy (pair c3) (policyAfterCap capFlag n))))).
  { cbn [parseArgs].
    rewrite (mathInt_some_nonempty value k Hvalue).
    rewrite (applyOption_cap_after_alternate c3 capFlag value Hpolicy3 Hflag).
    destruct (parsePositiveInteger capFlag value); by destruct Hflag as [-> | ->]. }
  rewrite Hstep.
  destruct (parsePositiveInteger capFlag value) as [n|e] eqn:Hcap; [|done].
  cbn [andThen].
  destruct (parsePositiveInteger_finite _ _ _ Hcap) as [Hparsed Hn].
  unfold parseInt in Hparsed. rewrite Hvalue in Hparsed.
  destruct (parseArgs resolve post _) as [c5|e] eqn:Hc5; [|done].
  destruct (String.eqb (task c5) ""); [done|]. intros [= <-]. cbn.
  exists n. split; [exact Hparsed|]. split; [exact Hn|]. split.
  - by rewrite (parseArgs_turnPolicyFree (List.length post) post (le_n _) Hpostfree _ _ Hc5).
  - intros Hsmall. rewrite (DoubleFacts.ofZ_exact k ltac:(lia)) in Hparsed.
    by injection Hparsed as <-.
Qed.

End WithPaths.

(** C10 as stated fails on this argument list: the alternating policy is
    selected, a cap option follows, and the policy returned is the
    alternating one, because a later [--turn-policy] option assigns it
    again. *)
Lemma later_turn_policy_option_restores_alternation :
  match
    parseCli id
      [ "--task"; "x"; "--turn-policy"; "alternate_each_round";
        "--max-consecutive-rounds"; "5"; "--turn-policy"; "alternate_each_round" ]
      "/repo"
  with
  | Ok config => turnPolicy (pair config) = AlternateEachRound
  | Throw _ => False
  end.
Proof. vm_compute. reflexivity. Qed.

End CliFacts.

(* ===================================================================== *)
(** * The round loop and the end of a run *)
(* ===================================================================== *)

Module StepFacts.
Import OrchestratorCommon.

Lemma bind_ok {S T U} (m : ST S T) (k : T → ST S U) s x s' :
  m s = (Ok x, s') → bind m k s = k x s'.
Proof. unfold bind. by intros ->. Qed.

Lemma bind_throw {S T U} (m : ST S T) (k : T → ST S U) s e s' :
  m s = (Throw e, s') → bind m k s = (Throw e, s').
Proof. unfold bind. by intros ->. Qed.

Section WithEnv.
Context (E : Env).

(** [record] never throws and touches nothing but the clock and the
    observer's own lists. *)
Lemma record_ok ev st o :
  ∃ st' o', Observer.record E ev (st, o) = (Ok tt, (st', o'))
            ∧ prompts o' = prompts o ∧ fsOps o' = fsOps o
            ∧ eventStreamFileContent o' = eventStreamFileContent o
            ∧ logFileContent o' = logFileContent o.
Proof.
  unfold Observer.record. destruct (Observer.flushedSummary st); [by eauto 10|].
  unfold bind, Observer.dateNow, modify, Observer.queueEventStreamLine, ret.
  cbn.
  repeat match goal with |- context [if ?b then _ else _] => destruct b end; by eauto 10.
Qed.

Lemma observerCall_record_ok ev w :
  ∃ w', observerCall (Observer.record E ev) w = (Ok tt, w')
        ∧ sharedJournal w' = sharedJournal w
        ∧ prompts (outside w') = prompts (outside w)
        ∧ workerA w' = workerA w ∧ workerB w' = workerB w.
Proof.
  unfold observerCall. destruct (observer w) as [obs|]; [|by eauto 10].
  destruct (record_ok ev obs (outside w)) as (st' & o' & -> & Hp & _).
  eexists. split; [reflexivity|]. done.
Qed.

Lemma broadcastShared_ok stage actor content w :
  ∃ timestamp w',
    broadcastShared E stage actor content w = (Ok tt, w')
    ∧ sharedJournal w' = sharedJournal w
        ++ [{| stage := stage; entryActor := actor; content := content;
               entryTimestamp := timestamp |}]
    ∧ prompts (outside w') = prompts (outside w)
    ∧ observer w' = observer w.
Proof.
  unfold broadcastShared, appendSharedContext, updateWorker, dateNow, bind, modify.
  cbn. eexists _, _. split; [reflexivity|]. done.
Qed.

End WithEnv.
End StepFacts.

Module LoopFacts.
Import OrchestratorCommon Orchestrator StepFacts.

Section WithEnv.
Context (E : Env) (config : PairAgentConfig).

Lemma shouldStop_iff result :
  shouldStop result = true
  ↔ dr_status (rr_driverReport result) = StatusDone
    ∧ hasFeedback (rr_navigatorReview result) = false.
Proof.
  unfold shouldStop. rewrite andb_true_iff, bool_decide_eq_true, negb_true_iff. done.
Qed.

(** After a round that ends the session, the rest of the iteration
    records the round, broadcasts the stop and breaks. *)
Lemma afterRound_stop round ls result w :
  shouldStop result = true →
  ∃ timestamp w',
    afterRound E config round ls result w = (Ok (false, accumulate ls result), w')
    ∧ sharedJournal w'
      = sharedJournal w
          ++ [{| stage := "loop_stop"; entryActor := Observer.ActorSystem;
                 content := "Stopped at round " +:+ Js.numToString round
                            +:+ " because driver signaled done and navigator had no feedback.";
                 entryTimestamp := timestamp |}]
    ∧ prompts (outside w') = prompts (outside w).
Proof.
  intros Hstop. unfold afterRound. rewrite Hstop.
  destruct (observerCall_record_ok E
              (orchestratorEvent "round_end" round (roundEndDetails result)) w)
    as (w1 & Hrec & Hj1 & Hp1 & _).
  rewrite (bind_ok _ _ _ _ _ Hrec).
  destruct (broadcastShared_ok E "loop_stop" Observer.ActorSystem
              ("Stopped at round " +:+ Js.numToString round
               +:+ " because driver signaled done and navigator had no feedback.") w1)
    as (ts & w2 & Hb & Hj2 & Hp2 & _).
  rewrite (bind_ok _ _ _ _ _ Hb). unfold ret.
  exists ts, w2. split; [done|]. rewrite Hj2, Hj1, Hp2, Hp1. done.
Qed.

(** The turn policy is not looked at in that case. *)
Lemma afterRound_stop_any_policy policy round ls result w :
  shouldStop result = true →
  afterRound E (Cli.withTurnPolicy config policy) round ls result w
  = afterRound E config round ls result w.
Proof. intros Hstop. unfold afterRound. by rewrite Hstop. Qed.

(** C3: a round whose driver reports [done] and whose navigator has no
    feedback ends the round loop: the loop returns with that round as its
    last, no further agent is prompted, the only journal entry added after
    the round is the [loop_stop] notice (no [driver_swap]), the driver and
    the swap count are what they were, and the turn policy is never looked
    at. *)
Theorem done_without_feedback_ends_the_round_loop
    (task agreedPlan : string) (remaining : nat) (round : Z) (ls : LoopState)
    (w w1 : World) (result : RoundResult) :
  round ≤ maxRounds config →
  (observerCall (Observer.record E (roundStartEvent round (driverId ls))) ;;;
   runRound E config task agreedPlan round (driverId ls)) w = (Ok result, w1) →
  dr_status (rr_driverReport result) = StatusDone →
  hasFeedback (rr_navigatorReview result) = false →
  ∃ timestamp w2,
    roundLoop E config task agreedPlan (S remaining) round ls w
    = (Ok (accumulate ls result), w2)
    ∧ rounds (accumulate ls result) = rounds ls ++ [result]
    ∧ swapCount (accumulate ls result) = swapCount ls
    ∧ driverId (accumulate ls result) = driverId ls
    ∧ prompts (outside w2) = prompts (outside w1)
    ∧ sharedJournal w2
      = sharedJournal w1
          ++ [{| stage := "loop_stop"; entryActor := Observer.ActorSystem;
                 content := "Stopped at round " +:+ Js.numToString round
                            +:+ " because driver signaled done and navigator had no feedback.";
                 entryTimestamp := timestamp |}]
    ∧ (∀ policy,
         afterRound E (Cli.withTurnPolicy config policy) round ls result w1
         = afterRound E config round ls result w1).
Proof.
  intros Hround Hrun Hdone Hnone.
  assert (Hstop : shouldStop result = true) by (apply shouldStop_iff; done).
  destruct (afterRound_stop round ls result w1 Hstop) as (ts & w2 & Hafter & Hj & Hp).
  exists ts, w2. cbn [roundLoop].
  destruct (Z.leb_spec round (maxRounds config)); [|lia].
  unfold bind at 1 in Hrun.
  unfold bind at 1.
  destruct (observerCall (Observer.record E (roundStartEvent round (driverId ls))) w)
    as [[[]|e] w0]; [|done].
  rewrite (bind_ok _ _ _ _ _ Hrun), (bind_ok _ _ _ _ _ Hafter). cbn [fst snd].
  repeat split; try done.
  intros policy. by apply afterRound_stop_any_policy.
Qed.

(** Whatever the round, the rest of the iteration does not throw, appends
    the round, and lets the loop go on only after a round that does not end
    the session. *)
Lemma afterRound_cases round ls result w :
  ∃ continue ls' w',
    afterRound E config round ls result w = (Ok (continue, ls'), w')
    ∧ rounds ls' = rounds ls ++ [result]
    ∧ (continue = true → shouldStop result = false).
Proof.
  unfold afterRound. cbv zeta.
  destruct (observerCall_record_ok E
              (orchestratorEvent "round_end" round (roundEndDetails result)) w)
    as (w1 & Hrec & _).
  rewrite (bind_ok _ _ _ _ _ Hrec).
  destruct (shouldStop result) eqn:Hstop.
  { match goal with |- context [broadcastShared E ?s ?a ?c] =>
      destruct (broadcastShared_ok E s a c w1) as (ts & w2 & Hb & _) end.
    rewrite (bind_ok _ _ _ _ _ Hb). unfold ret. by eauto 10. }
  destruct (round =? maxRounds config).
  { match goal with |- context [broadcastShared E ?s ?a ?c] =>
      destruct (broadcastShared_ok E s a c w1) as (ts & w2 & Hb & _) end.
    rewrite (bind_ok _ _ _ _ _ Hb). unfold ret. by eauto 10. }
  destruct (swap _); [|unfold ret; by eauto 10].
  match goal with |- context [broadcastShared E ?s ?a ?c] =>
    destruct (broadcastShared_ok E s a c w1) as (ts & w2 & Hb & _) end.
  rewrite (bind_ok _ _ _ _ _ Hb).
  match goal with |- context [observerCall (Observer.record E ?ev)] =>
    destruct (observerCall_record_ok E ev w2) as (w3 & Hrec3 & _) end.
  rewrite (bind_ok _ _ _ _ _ Hrec3). unfold ret. by eauto 10.
Qed.

(** Among the rounds a run of the loop returns, one that ends the session
    can only be the last. *)
Lemma roundLoop_stop_is_last task agreedPlan remaining : ∀ round ls w ls' w',
  roundLoop E config task agreedPlan remaining round ls w = (Ok ls', w') →
  ∃ new, rounds ls' = rounds ls ++ new
         ∧ ∀ before result after,
             new = before ++ result :: after → shouldStop result = true → after = [].
Proof.
  induction remaining as [|remaining IH]; intros round ls w ls' w'; cbn [roundLoop].
  { intros [= <- <-]. exists []. rewrite app_nil_r. split; [done|].
    intros [|??] ? ? ?; done. }
  destruct (round <=? maxRounds config).
  2:{ intros [= <- <-]. exists []. rewrite app_nil_r. split; [done|].
      intros [|??] ? ? ?; done. }
  destruct (observerCall_record_ok E (roundStartEvent round (driverId ls)) w)
    as (w0 & Hrec & _).
  rewrite (bind_ok _ _ _ _ _ Hrec).
  destruct (runRound E config task agreedPlan round (driverId ls) w0) as [[result|e] w1] eqn:Hrun.
  2:{ rewrite (bind_throw _ _ _ _ _ Hrun). done. }
  rewrite (bind_ok _ _ _ _ _ Hrun).
  destruct (afterRound_cases round ls result w1) as (continue & ls1 & w2 & Hafter & Hrounds & Hgo).
  rewrite (bind_ok _ _ _ _ _ Hafter). cbn [fst snd].
  destruct continue.
  - intros Hloop. destruct (IH _ _ _ _ _ Hloop) as (new & Hnew & Hlast).
    exists (result :: new). rewrite Hnew, Hrounds, <- app_assoc. split; [done|].
    intros [|r0 before] r1 after Heq Hstop.
    + injection Heq as <- <-. rewrite Hgo in Hstop; done.
    + injection Heq as <- ->. by apply (Hlast before r1 after).
  - intros [= <- <-]. exists [result]. split; [done|].
    intros [|r0 [|??]] r1 after Heq Hstop; try done. by injection Heq as <- <-.
Qed.

(** The iterations [runPairedExecution] allows for are all the loop can
    make: from any round, allowing for more changes nothing. *)
Lemma roundLoop_fuel task agreedPlan remaining : ∀ round ls w,
  (Z.to_nat (maxRounds config - round + 1) ≤ remaining)%nat →
  roundLoop E config task agreedPlan remaining round ls w
  = roundLoop E config task agreedPlan (Z.to_nat (maxRounds config - round + 1)) round ls w.
Proof.
  induction remaining as [|remaining IH]; intros round ls w Hfuel.
  { by replace (Z.to_nat (maxRounds config - round + 1)) with 0%nat by lia. }
  destruct (round <=? maxRounds config) eqn:Hcond.
  - apply Z.leb_le in Hcond as Hle.
    replace (Z.to_nat (maxRounds config - round + 1))
      with (S (Z.to_nat (maxRounds config - (round + 1) + 1))) in * by lia.
    cbn [roundLoop]. rewrite Hcond. unfold bind.
    destruct (observerCall _ w) as [[[]|e] w0]; [|done].
    destruct (runRound E config task agreedPlan round (driverId ls) w0)
      as [[result|e] w1]; [|done].
    destruct (afterRound E config round ls result w1) as [[[continue ls1]|e] w2]; [|done].
    cbn [fst snd]. destruct continue; [|done]. apply IH. lia.
  - apply Z.leb_gt in Hcond as Hgt.
    replace (Z.to_nat (maxRounds config - round + 1)) with 0%nat by lia.
    cbn [roundLoop]. by rewrite Hcond.
Qed.

End WithEnv.
End LoopFacts.

Module RunFacts.
Import OrchestratorCommon Orchestrator StepFacts.

Section WithEnv.
Context (E : Env) (config : PairAgentConfig).

(** What [record] appends while the log is not frozen. *)
Lemma record_appends ev st o :
  Observer.flushedSummary st = None →
  ∃ st' o',
    Observer.record E ev (st, o) = (Ok tt, (st', o'))
    ∧ Observer.events st'
      = Observer.events st
          ++ [{| Observer.index := Observer.eventIndex st;
                 Observer.timestamp := clock E (ticks o);
                 Observer.event := ev |}]
    ∧ Observer.flushedSummary st' = None.
Proof.
  intros Hf. unfold Observer.record. rewrite Hf.
  unfold bind, Observer.dateNow, modify, Observer.queueEventStreamLine, ret. cbn.
  repeat match goal with |- context [if ?b then _ else _] => destruct b end;
    eexists _, _; (split; [reflexivity|]); done.
Qed.

(** What a [flush] that returns has written, when the log was not frozen
    before. *)
Lemma flush_writes_log status msg st o summary st' o' :
  Observer.flushedSummary st = None →
  Observer.flush E status msg (st, o) = (Ok summary, (st', o')) →
  ∃ payload,
    logFileContent o' = Some (Whole payload)
    ∧ Observer.meta_status payload = status
    ∧ Observer.meta_errorMessage payload = msg
    ∧ Observer.payload_events payload = Observer.events st.
Proof.
  intros Hf. unfold Observer.flush. rewrite Hf.
  unfold bind, Observer.dateNow, Observer.queueEventStreamLine, Observer.awaitWriteQueue,
    gets, Observer.writeLogFile, modify, ret.
  destruct (negb (Observer.isSet (Observer.eventLogFile st))
            || Observer.isSet (Observer.eventStreamWriteError st));
    match goal with
    | |- context [Observer.drainQueue E ?q ?s ?o] =>
        destruct (Observer.drainQueue E q s o) as [st1 o1]
    end;
    destruct (fsOutcome E (fsOps o1)); intros [= <- <- <-];
    eexists; (split; [reflexivity|]); done.
Qed.

(** Every way [run] ends.  It returns the whole result of a [try] block
    that completed, after [flush] has returned for the status [completed];
    or it raises.  When the [try] block threw, the error raised is that
    first error, after [session_error] has been recorded and [flush] has
    returned for the status [failed] and the message of the error (so that
    an observer not flushed before holds a log with that status, that
    message and that last event).  When [flush] itself rejects, what [run]
    raises is the rejection of [flush].  A result is returned in the first
    case only. *)
Lemma run_outcome (task : string) (w : World) :
  match runBody E config task w with
  | (Ok core, w1) =>
      match flushObserver E Observer.Completed None w1 with
      | (Ok observability, w2) =>
          run E config task w = (Ok (pairRunResult (core, observability)), w2)
      | (Throw rejection, w2) =>
          run E config task w = (Throw rejection, w2)
      end
  | (Throw error, w1) =>
      ∃ w2,
        recordSessionError E error w1 = (Ok tt, w2)
        ∧ match flushObserver E Observer.Failed (Some (thrownMessage error)) w2 with
          | (Ok _, w3) =>
              run E config task w = (Throw error, w3)
              ∧ ∀ obs,
                  observer w1 = Some obs →
                  Observer.flushedSummary obs = None →
                  ∃ payload timestamp,
                    logFileContent (outside w3) = Some (Whole payload)
                    ∧ Observer.meta_status payload = Observer.Failed
                    ∧ Observer.meta_errorMessage payload = Some (thrownMessage error)
                    ∧ Observer.payload_events payload
                      = Observer.events obs
                          ++ [{| Observer.index := Observer.eventIndex obs;
                                 Observer.timestamp := timestamp;
                                 Observer.event :=
                                   sessionEvent "session_error"
                                     [("message", Js.VString (thrownMessage error))] |}]
          | (Throw rejection, w3) =>
              run E config task w = (Throw rejection, w3)
          end
  end.
Proof.
  unfold run, tryCatchRethrowFinally, bind.
  destruct (runBody E config task w) as [[core|error] w1] eqn:Hbody.
  - cbn [flushAtEnd].
    destruct (flushObserver E Observer.Completed None w1) as [[observability|rejection] w2];
      reflexivity.
  - unfold recordSessionError.
    destruct (observerCall_record_ok E
                (sessionEvent "session_error" [("message", Js.VString (thrownMessage error))])
                w1) as (w2 & Hrec & _).
    exists w2. split; [exact Hrec|]. rewrite Hrec. cbn [flushAtEnd].
    destruct (flushObserver E Observer.Failed (Some (thrownMessage error)) w2)
      as [[observability|rejection] w3] eqn:Hflush; [|reflexivity].
    split; [reflexivity|].
    intros obs Hobs Hfresh.
    unfold observerCall in Hrec. rewrite Hobs in Hrec.
    destruct (record_appends
                (sessionEvent "session_error" [("message", Js.VString (thrownMessage error))])
                obs (outside w1) Hfresh) as (st' & o' & Hr & Hevents & Hfresh').
    rewrite Hr in Hrec. injection Hrec as <-.
    unfold flushObserver in Hflush. cbn [observer setObserver outside] in Hflush.
    destruct (Observer.flush E Observer.Failed (Some (thrownMessage error)) (st', o'))
      as [[summary|e] [st'' o'']] eqn:Hf; [|done].
    injection Hflush as _ <-.
    destruct (flush_writes_log _ _ _ _ _ _ _ Hfresh' Hf) as (payload & Hlog & Hs & Hm & Hev).
    exists payload, (clock E (ticks (outside w1))).
    cbn [outside setObserver]. rewrite Hev, Hevents. done.
Qed.

(** C5: a defect of the code.  [run] is written to return the result of
    its [try] block, or to raise the first error again once the observer
    has been flushed as failed.  The [flush] that the [finally] block
    awaits is not guarded: whenever it rejects, what [run] raises is that
    rejection.  The result of a run whose [try] block completed is then
    lost, and the first error of a run that failed is replaced by the
    error of the log write. *)
Theorem flush_rejection_replaces_the_outcome (task : string) (w : World) :
  (∀ core w1 rejection w2,
     runBody E config task w = (Ok core, w1) →
     flushObserver E Observer.Completed None w1 = (Throw rejection, w2) →
     run E config task w = (Throw rejection, w2))
  ∧ (∀ error w1 w2 rejection w3,
       runBody E config task w = (Throw error, w1) →
       recordSessionError E error w1 = (Ok tt, w2) →
       flushObserver E Observer.Failed (Some (thrownMessage error)) w2
       = (Throw rejection, w3) →
       run E config task w = (Throw rejection, w3)).
Proof.
  pose proof (run_outcome task w) as Hrun. split.
  - intros core w1 rejection w2 Hbody Hflush. by rewrite Hbody, Hflush in Hrun.
  - intros error w1 w2 rejection w3 Hbody Hrecord Hflush. rewrite Hbody in Hrun.
    destruct Hrun as (w2' & Hrecord' & Hrun). rewrite Hrecord in Hrecord'.
    injection Hrecord' as <-. by rewrite Hflush in Hrun.
Qed.

End WithEnv.
End RunFacts.

(* ===================================================================== *)
(** * One execution simulated by another *)
(* ===================================================================== *)

Module ReplayFacts.
Import Replay OrchestratorCommon.

(** ** The simulation calculus *)

Lemma sim_ret {S1 S2 T1 T2} (R : S1 → S2 → Prop) (Q : T1 → T2 → Prop) a b :
  Q a b → simulates R Q (ret a) (ret b).
Proof. intros HQ s1 s2 HR. done. Qed.

Lemma sim_throw {S1 S2 T1 T2} (R : S1 → S2 → Prop) (Q : T1 → T2 → Prop) e :
  simulates R Q (throw e) (throw e).
Proof. intros s1 s2 HR. done. Qed.

Lemma sim_bind {S1 S2 T1 T2 U1 U2} (R : S1 → S2 → Prop)
    (Q : T1 → T2 → Prop) (Q' : U1 → U2 → Prop)
    (m1 : ST S1 T1) (m2 : ST S2 T2) (k1 : T1 → ST S1 U1) (k2 : T2 → ST S2 U2) :
  simulates R Q m1 m2 →
  (∀ a b, Q a b → simulates R Q' (k1 a) (k2 b)) →
  simulates R Q' (bind m1 k1) (bind m2 k2).
Proof.
  intros Hm Hk s1 s2 HR. unfold bind.
  destruct (Hm s1 s2 HR) as [Hres HR'].
  destruct (m1 s1) as [[a|e1] s1'], (m2 s2) as [[b|e2] s2']; cbn in *; try done.
  by apply Hk.
Qed.

Lemma sim_bind_eq {S1 S2 T U1 U2} (R : S1 → S2 → Prop) (Q' : U1 → U2 → Prop)
    (m1 : ST S1 T) (m2 : ST S2 T) (k1 : T → ST S1 U1) (k2 : T → ST S2 U2) :
  simulates R eq m1 m2 →
  (∀ a, simulates R Q' (k1 a) (k2 a)) →
  simulates R Q' (bind m1 k1) (bind m2 k2).
Proof. intros Hm Hk. apply (sim_bind R eq); [done|]. intros a b <-. apply Hk. Qed.

Lemma sim_weaken {S1 S2 T1 T2} (R : S1 → S2 → Prop) (Q Q' : T1 → T2 → Prop) m1 m2 :
  (∀ a b, Q a b → Q' a b) → simulates R Q m1 m2 → simulates R Q' m1 m2.
Proof.
  intros HQ Hm s1 s2 HR. destruct (Hm s1 s2 HR) as [Hres HR']. split; [|done].
  destruct (fst (m1 s1)), (fst (m2 s2)); cbn in *; auto.
Qed.

Lemma sim_modify {S1 S2} (R : S1 → S2 → Prop) f1 f2 :
  (∀ s1 s2, R s1 s2 → R (f1 s1) (f2 s2)) → simulates R eq (modify f1) (modify f2).
Proof. intros Hf s1 s2 HR. split; [done|]. by apply Hf. Qed.

Lemma sim_gets {S1 S2 T1 T2} (R : S1 → S2 → Prop) (Q : T1 → T2 → Prop) f1 f2 :
  (∀ s1 s2, R s1 s2 → Q (f1 s1) (f2 s2)) → simulates R Q (gets f1) (gets f2).
Proof. intros Hf s1 s2 HR. split; [by apply Hf|done]. Qed.

Lemma bind_assoc {S T U V} (m : ST S T) (f : T → ST S U) (g : U → ST S V) s :
  bind (bind m f) g s = bind m (λ x, bind (f x) g) s.
Proof. unfold bind. by destruct (m s) as [[x|e] s']. Qed.

Lemma bind_ret_l {S T U} (x : T) (k : T → ST S U) s : bind (ret x) k s = k x s.
Proof. done. Qed.

(** Computations that agree state by state simulate the same ones. *)
Lemma sim_ext_r {S1 S2 T1 T2} (R : S1 → S2 → Prop) (Q : T1 → T2 → Prop) m1 m2 m2' :
  (∀ s, m2 s = m2' s) → simulates R Q m1 m2' → simulates R Q m1 m2.
Proof. intros Heq Hm s1 s2 HR. rewrite Heq. by apply Hm. Qed.

Lemma sim_ext_l {S1 S2 T1 T2} (R : S1 → S2 → Prop) (Q : T1 → T2 → Prop) m1 m1' m2 :
  (∀ s, m1 s = m1' s) → simulates R Q m1' m2 → simulates R Q m1 m2.
Proof. intros Heq Hm s1 s2 HR. rewrite Heq. by apply Hm. Qed.

Lemma sim_try {S1 S2 T1 T2 F1 F2} (R : S1 → S2 → Prop)
    (Q : T1 → T2 → Prop) (QF : F1 → F2 → Prop)
    (body1 : ST S1 T1) (body2 : ST S2 T2) handler1 handler2
    (final1 : option Thrown → ST S1 F1) (final2 : option Thrown → ST S2 F2) :
  simulates R Q body1 body2 →
  (∀ e, simulates R eq (handler1 e) (handler2 e)) →
  (∀ caught, simulates R QF (final1 caught) (final2 caught)) →
  simulates R (λ r1 r2, Q (fst r1) (fst r2) ∧ QF (snd r1) (snd r2))
    (tryCatchRethrowFinally body1 handler1 final1)
    (tryCatchRethrowFinally body2 handler2 final2).
Proof.
  intros Hbody Hhandler Hfinal s1 s2 HR. unfold tryCatchRethrowFinally.
  destruct (Hbody s1 s2 HR) as [Hres HR1].
  destruct (body1 s1) as [[x1|e1] s1'], (body2 s2) as [[x2|e2] s2']; cbn in Hres, HR1;
    try done.
  - destruct (Hfinal None s1' s2' HR1) as [Hf HR2].
    destruct (final1 None s1') as [[y1|e1] s1''], (final2 None s2') as [[y2|e2] s2''];
      cbn in *; done.
  - subst e2.
    destruct (Hhandler e1 s1' s2' HR1) as [Hh HR2].
    destruct (handler1 e1 s1') as [h1 s1''], (handler2 e1 s2') as [h2 s2'']; cbn in Hh, HR2.
    destruct (Hfinal (Some e1) s1'' s2'' HR2) as [Hf HR3].
    destruct (final1 (Some e1) s1'') as [[y1|e1'] s1'''],
             (final2 (Some e1) s2'') as [[y2|e2'] s2''']; cbn in *; try done.
    split; [|done]. destruct h1, h2; cbn in *; done.
Qed.

(** ** The observer *)

Section TwoEnvironments.
Context (Time : Z → Z → Prop) (E1 E2 : Env) (HE : envRel Time E1 E2).

Local Abbreviation MR := methodRel.
Local Abbreviation WR := (worldRel Time).

Lemma sim_queueEventStreamLine entry1 entry2 :
  simulates MR eq (Observer.queueEventStreamLine entry1) (Observer.queueEventStreamLine entry2).
Proof.
  intros [st1 o1] [st2 o2] [(Hf & Hlog & Herr & Hinit & Hq & Hmode) (Ht & Hfs & Hp)].
  cbn in *.
  unfold Observer.queueEventStreamLine. rewrite Hlog, Herr.
  destruct (negb _ || _); cbn; (split; [done|]); repeat split; cbn;
    try done; try apply Hf; rewrite ?length_app, ?Hq; done.
Qed.

(** [record] with events of the same category and name: the details and
    the time stamp are the observer's own business. *)
Lemma sim_record ev1 ev2 :
  Observer.category ev1 = Observer.category ev2 →
  Observer.name ev1 = Observer.name ev2 →
  simulates MR eq (Observer.record E1 ev1) (Observer.record E2 ev2).
Proof.
  intros Hcat Hname [st1 o1] [st2 o2] HR.
  destruct HR as [(Hf & Hlog & Herr & Hinit & Hq & Hmode) (Ht & Hfs & Hp)]. cbn in *.
  unfold Observer.record.
  destruct (Observer.flushedSummary st1) as [s1|] eqn:Hf1,
           (Observer.flushedSummary st2) as [s2|] eqn:Hf2.
  - split; [done|]. repeat split; cbn; try done; rewrite ?Hf1, ?Hf2; done.
  - destruct Hf as [_ Hf]. by specialize (Hf eq_refl).
  - destruct Hf as [Hf _]. by specialize (Hf eq_refl).
  - unfold bind, Observer.dateNow, modify, ret. cbn.
    unfold Observer.shouldStreamEvent. cbn. rewrite Hmode, Hcat, Hname.
    destruct (match Observer.eventStreamMode st2 with
              | Observer.Compact => _ | Observer.Full => _ end).
    + unfold Observer.queueEventStreamLine. cbn. rewrite Hlog, Herr.
      destruct (negb _ || _); cbn; (split; [done|]); repeat split; cbn;
        rewrite ?Hf1, ?Hf2, ?Ht, ?length_app, ?Hq; done.
    + cbn. split; [done|]. repeat split; cbn; rewrite ?Hf1, ?Hf2, ?Ht; done.
Qed.

Lemma sim_runQueuedWrite entry1 entry2 st1 o1 st2 o2 :
  MR (st1, o1) (st2, o2) →
  MR (Observer.runQueuedWrite E1 entry1 st1 o1) (Observer.runQueuedWrite E2 entry2 st2 o2).
Proof.
  intros [(Hf & Hlog & Herr & Hinit & Hq & Hmode) (Ht & Hfs & Hp)]. cbn in *.
  unfold Observer.runQueuedWrite.
  destruct HE as (_ & Hfsout & _). rewrite Hfs, Hfsout, Hinit.
  assert (Htail : List.length (tail (Observer.eventStreamWriteQueue st1))
                  = List.length (tail (Observer.eventStreamWriteQueue st2))).
  { destruct (Observer.eventStreamWriteQueue st1), (Observer.eventStreamWriteQueue st2);
      cbn in *; congruence. }
  destruct (fsOutcome E2 (fsOps o2)); [| destruct (Observer.eventStreamInitialized st2) |];
    repeat split; cbn; try done; try apply Hf.
Qed.

Lemma sim_drainQueue q1 : ∀ q2 st1 o1 st2 o2,
  List.length q1 = List.length q2 →
  MR (st1, o1) (st2, o2) →
  MR (Observer.drainQueue E1 q1 st1 o1) (Observer.drainQueue E2 q2 st2 o2).
Proof.
  induction q1 as [|e1 q1 IH]; intros [|e2 q2] st1 o1 st2 o2 Hlen HR; cbn in Hlen; try done.
  cbn [Observer.drainQueue].
  pose proof (sim_runQueuedWrite e1 e2 st1 o1 st2 o2 HR) as Hstep.
  destruct (Observer.runQueuedWrite E1 e1 st1 o1) as [st1' o1'],
           (Observer.runQueuedWrite E2 e2 st2 o2) as [st2' o2'].
  apply IH; [congruence|done].
Qed.

Lemma sim_observer_dateNow :
  simulates MR anything (Observer.dateNow E1) (Observer.dateNow E2).
Proof.
  intros [st1 o1] [st2 o2] [Hobs (Ht & Hfs & Hp)]. cbn in *.
  split; [done|]. repeat split; cbn; try apply Hobs; congruence.
Qed.

Lemma sim_awaitWriteQueue :
  simulates MR eq (Observer.awaitWriteQueue E1) (Observer.awaitWriteQueue E2).
Proof.
  intros [st1 o1] [st2 o2] HR. unfold Observer.awaitWriteQueue. cbn [fst snd].
  split; [done|]. apply sim_drainQueue; [apply HR|done].
Qed.

Lemma sim_writeLogFile payload1 payload2 :
  simulates MR eq (Observer.writeLogFile E1 payload1) (Observer.writeLogFile E2 payload2).
Proof.
  intros [st1 o1] [st2 o2] [Hobs (Ht & Hfs & Hp)]. cbn in *.
  unfold Observer.writeLogFile. destruct HE as (_ & Hfsout & _). rewrite Hfs, Hfsout.
  destruct (fsOutcome E2 (fsOps o2)); cbn; (split; [done|]); repeat split; cbn;
    try apply Hobs; congruence.
Qed.

Lemma sim_setFlushed summary1 summary2 :
  simulates MR eq
    (modify (λ '(st, o), (Observer.setFlushed st summary1, o)))
    (modify (λ '(st, o), (Observer.setFlushed st summary2, o))).
Proof.
  apply sim_modify. intros [st1 o1] [st2 o2] [(Hf & Hrest) Ho]. cbn in *.
  repeat split; cbn; try apply Hrest; try apply Ho; done.
Qed.

(** [flush]: whatever its arguments, it returns or rejects alike. *)
Lemma sim_flush status1 msg1 status2 msg2 :
  simulates MR anything (Observer.flush E1 status1 msg1) (Observer.flush E2 status2 msg2).
Proof.
  intros [st1 o1] [st2 o2] HR.
  pose proof HR as [(Hf & _) _]. cbn in Hf.
  unfold Observer.flush.
  destruct (Observer.flushedSummary st1) as [s1|] eqn:Hf1,
           (Observer.flushedSummary st2) as [s2|] eqn:Hf2.
  - done.
  - destruct Hf as [_ Hf]. by specialize (Hf eq_refl).
  - destruct Hf as [Hf _]. by specialize (Hf eq_refl).
  - lazymatch goal with
    | |- resultRel _ (fst (?m1 _)) (fst (?m2 _)) ∧ _ =>
        apply (λ H : simulates MR anything m1 m2, H _ _ HR)
    end.
    apply (sim_bind _ anything); [apply sim_observer_dateNow|]. intros t1 t2 _.
    apply sim_bind_eq; [apply sim_queueEventStreamLine|]. intros [].
    apply sim_bind_eq; [apply sim_awaitWriteQueue|]. intros [].
    apply (sim_bind _ anything); [by apply sim_gets|]. intros e1 e2 _.
    apply sim_bind_eq; [apply sim_writeLogFile|]. intros [].
    apply sim_bind_eq; [apply sim_setFlushed|]. intros [].
    by apply sim_ret.
Qed.

(** ** The workers and the journal *)

Ltac world_rel :=
  unfold worldRel; cbn;
  repeat match goal with |- _ ∧ _ => split end; try done.

Lemma sim_dateNow : simulates WR Time (dateNow E1) (dateNow E2).
Proof.
  intros w1 w2 ((Ht & Hfs & Hp) & Hobs & Hj & HA & HB). unfold dateNow. cbn.
  split; [rewrite Ht; apply HE|]. world_rel. unfold outsideRel; cbn. by rewrite Ht.
Qed.

Lemma sim_observerCall m1 m2 :
  simulates MR eq m1 m2 → simulates WR eq (observerCall m1) (observerCall m2).
Proof.
  intros Hm w1 w2 (Ho & Hobs & Hj & HA & HB). unfold observerCall.
  destruct (observer w1) as [obs1|] eqn:Hw1, (observer w2) as [obs2|] eqn:Hw2;
    cbn in Hobs; try done.
  - destruct (Hm (obs1, outside w1) (obs2, outside w2) (conj Hobs Ho)) as [Hres [Hobs' Ho']].
    destruct (m1 (obs1, outside w1)) as [r1 [obs1' o1']],
             (m2 (obs2, outside w2)) as [r2 [obs2' o2']]. cbn in *.
    split; [done|]. world_rel.
  - split; [done|]. world_rel. by rewrite Hw1, Hw2.
Qed.

Lemma sim_updateWorker id f1 f2 :
  (∀ mw, mw_modelSpec (f1 mw) = mw_modelSpec mw) →
  (∀ mw, mw_modelSpec (f2 mw) = mw_modelSpec mw) →
  simulates WR eq (updateWorker id f1) (updateWorker id f2).
Proof.
  intros H1 H2. apply sim_modify. intros w1 w2 (Ho & Hobs & Hj & HA & HB).
  destruct id; world_rel; by rewrite H1, H2.
Qed.

Lemma sim_setRole id role1 role2 : simulates WR eq (setRole id role1) (setRole id role2).
Proof. by apply sim_updateWorker. Qed.

Lemma sim_appendSharedContext id content1 content2 :
  simulates WR eq (appendSharedContext E1 id content1) (appendSharedContext E2 id content2).
Proof.
  apply (sim_bind _ Time); [apply sim_dateNow|]. intros t1 t2 _.
  by apply sim_updateWorker.
Qed.

Lemma sim_appendPrivateMemory id content1 content2 :
  simulates WR eq (appendPrivateMemory E1 id content1) (appendPrivateMemory E2 id content2).
Proof.
  apply (sim_bind _ Time); [apply sim_dateNow|]. intros t1 t2 _.
  by apply sim_updateWorker.
Qed.

Lemma sim_steer id text1 text2 :
  simulates WR eq (steer E1 id text1) (steer E2 id text2).
Proof.
  apply (sim_bind _ Time); [apply sim_dateNow|]. intros t1 t2 _.
  by apply sim_updateWorker.
Qed.

Lemma sim_broadcastShared stage actor content :
  simulates WR eq (broadcastShared E1 stage actor content)
    (broadcastShared E2 stage actor content).
Proof.
  apply (sim_bind _ Time); [apply sim_dateNow|]. intros t1 t2 Ht.
  apply sim_bind_eq.
  { apply sim_modify. intros w1 w2 (Ho & Hobs & Hj & HA & HB).
    world_rel. apply Forall2_app; [done|]. by repeat constructor. }
  intros []. apply sim_bind_eq; [apply sim_appendSharedContext|]. intros [].
  apply sim_appendSharedContext.
Qed.

(** ** Prompting an agent *)

Section Subscriber.
Context {St : Type} (h1 h2 : AgentEvent → St → M St).
Context (Hh : ∀ e s, simulates WR eq (h1 e s) (h2 e s)).

Lemma sim_deliver events : ∀ s, simulates WR eq (deliver h1 events s) (deliver h2 events s).
Proof.
  induction events as [|e events IH]; intros s; cbn [deliver]; [by apply sim_ret|].
  apply sim_bind_eq; [apply Hh|]. apply IH.
Qed.

Lemma sim_agentPrompt id prompt1 prompt2 s :
  simulates WR eq (agentPrompt E1 id prompt1 h1 s) (agentPrompt E2 id prompt2 h2 s).
Proof.
  unfold agentPrompt.
  apply sim_bind_eq.
  { intros w1 w2 ((Ht & Hfs & Hp) & Hobs & Hj & HA & HB). cbn.
    destruct HE as (_ & _ & Hrun). rewrite Hp, Hrun. split; [done|].
    world_rel. }
  intros run. apply sim_bind_eq; [by apply sim_updateWorker|]. intros [].
  apply sim_bind_eq; [apply sim_deliver|]. intros s'.
  destruct (run_rejects run); [apply sim_throw|by apply sim_ret].
Qed.

Lemma sim_runPrompt id prompt1 prompt2 s :
  simulates WR eq (runPrompt E1 id prompt1 h1 s) (runPrompt E2 id prompt2 h2 s).
Proof.
  unfold runPrompt. apply sim_bind_eq; [apply sim_agentPrompt|]. intros [last s'].
  destruct last as [message|]; [|by apply sim_ret].
  destruct (_ || _); [|by apply sim_ret].
  apply sim_bind_eq; [|intros spec; apply sim_throw].
  apply sim_gets. intros w1 w2 (_ & _ & _ & HA & HB). by destruct id.
Qed.

End Subscriber.

Lemma sim_recordAgentEvent actor round phase event :
  simulates MR eq (Observer.recordAgentEvent E1 actor round phase event)
    (Observer.recordAgentEvent E2 actor round phase event).
Proof. destruct event; apply sim_record; done. Qed.

Lemma sim_runPromptWithObservability {St} (h1 h2 : AgentEvent → St → M St)
    actor prompt1 prompt2 promptKind phase round s :
  (∀ e s, simulates WR eq (h1 e s) (h2 e s)) →
  simulates WR eq
    (runPromptWithObservability E1 actor prompt1 promptKind phase round h1 s)
    (runPromptWithObservability E2 actor prompt2 promptKind phase round h2 s).
Proof.
  intros Hh. unfold runPromptWithObservability.
  apply sim_bind_eq; [apply sim_observerCall; by apply sim_record|]. intros [].
  apply sim_bind_eq.
  { apply sim_runPrompt. intros e s'.
    apply sim_bind_eq; [apply sim_observerCall, sim_recordAgentEvent|]. intros []. apply Hh. }
  intros r. apply sim_bind_eq; [apply sim_observerCall; by apply sim_record|]. intros [].
  by apply sim_ret.
Qed.

Lemma sim_promptPlain actor prompt1 prompt2 promptKind phase round :
  simulates WR eq (promptPlain E1 actor prompt1 promptKind phase round)
    (promptPlain E2 actor prompt2 promptKind phase round).
Proof.
  unfold promptPlain. apply sim_bind_eq.
  { apply sim_runPromptWithObservability. intros e s. by apply sim_ret. }
  intros r. by apply sim_ret.
Qed.

(** ** Planning, rounds and reviews *)

Create HintDb sim.
#[local] Hint Resolve sim_setRole sim_appendPrivateMemory sim_appendSharedContext sim_steer
  sim_broadcastShared sim_promptPlain : sim.
#[local] Hint Extern 1 (simulates _ _ (observerCall _) (observerCall _)) =>
  apply sim_observerCall, sim_record; reflexivity : sim.
#[local] Hint Extern 1 (simulates _ _ (ret _) (ret _)) => apply sim_ret; reflexivity : sim.

Ltac sim_seq := apply sim_bind_eq; [solve [eauto with sim]|intros ?].

Lemma sim_collaborativePlanning task :
  simulates WR eq (collaborativePlanning E1 task) (collaborativePlanning E2 task).
Proof. unfold collaborativePlanning. do 8 sim_seq. auto with sim. Qed.

Lemma sim_finalReview task agreedPlan :
  simulates WR eq (finalReview E1 task agreedPlan) (finalReview E2 task agreedPlan).
Proof. unfold finalReview. do 10 sim_seq. auto with sim. Qed.

Lemma sim_afterRound config round ls result :
  simulates WR eq (afterRound E1 config round ls result) (afterRound E2 config round ls result).
Proof.
  unfold afterRound. sim_seq.
  repeat case_match; repeat sim_seq; auto with sim.
Qed.

Section Rounds.
Import Orchestrator.
Context (config : PairAgentConfig).

Lemma sim_trackerOnEvent (callback1 callback2 : option (Tracker.Phase → M unit)) event tracker :
  optionRel (λ c1 c2, ∀ phase, simulates WR eq (c1 phase) (c2 phase)) callback1 callback2 →
  simulates WR eq (trackerOnEvent config callback1 event tracker)
    (trackerOnEvent config callback2 event tracker).
Proof.
  intros Hc. unfold trackerOnEvent.
  destruct (Tracker.onEvent _ _ _) as [tracker' [phase|]],
           callback1 as [c1|], callback2 as [c2|]; cbn in Hc; try done; auto with sim.
  apply sim_bind_eq; [apply Hc|]. intros []. auto with sim.
Qed.

Lemma sim_broadcastReview navigatorId review :
  simulates WR eq (broadcastReview E1 navigatorId review) (broadcastReview E2 navigatorId review).
Proof. unfold broadcastReview. destruct (hasFeedback review); sim_seq; auto with sim. Qed.

Lemma sim_resolveFeedback round driverId review
    (h1 h2 : AgentEvent → Tracker.State → M Tracker.State) tracker :
  (∀ e s, simulates WR eq (h1 e s) (h2 e s)) →
  simulates WR eq (resolveFeedback E1 round driverId review h1 tracker)
    (resolveFeedback E2 round driverId review h2 tracker).
Proof.
  intros Hh. unfold resolveFeedback. destruct (hasFeedback review); [|auto with sim].
  apply sim_bind_eq; [by apply sim_runPromptWithObservability|]. intros r.
  sim_seq. auto with sim.
Qed.

Lemma sim_pauseSubscriber driverId navigatorId event tracker :
  simulates WR eq
    (trackerOnEvent config
       (Some (λ phase, steer E1 driverId (Prompts.buildPauseInterruptionPrompt navigatorId phase)))
       event tracker)
    (trackerOnEvent config
       (Some (λ phase, steer E2 driverId (Prompts.buildPauseInterruptionPrompt navigatorId phase)))
       event tracker).
Proof. apply sim_trackerOnEvent. intros phase. apply sim_steer. Qed.

Lemma sim_runRound task agreedPlan round driverId :
  simulates WR eq (runRound E1 config task agreedPlan round driverId)
    (runRound E2 config task agreedPlan round driverId).
Proof.
  unfold runRound. cbv zeta. do 2 sim_seq.
  apply sim_bind_eq.
  { apply sim_runPromptWithObservability. intros; apply sim_pauseSubscriber. }
  intros r. do 3 sim_seq.
  apply sim_bind_eq; [apply sim_broadcastReview|]. intros [].
  apply sim_bind_eq.
  { apply sim_resolveFeedback. intros; apply sim_pauseSubscriber. }
  intros d. auto with sim.
Qed.

Lemma sim_roundLoop task agreedPlan remaining : ∀ round ls,
  simulates WR eq (roundLoop E1 config task agreedPlan remaining round ls)
    (roundLoop E2 config task agreedPlan remaining round ls).
Proof.
  induction remaining as [|remaining IH]; intros round ls; cbn [roundLoop]; [auto with sim|].
  destruct (round <=? maxRounds config); [|auto with sim].
  sim_seq.
  apply sim_bind_eq; [apply sim_runRound|]. intros result.
  apply sim_bind_eq; [apply sim_afterRound|]. intros [goOn ls'].
  destruct goOn; cbn [fst snd]; [apply IH|auto with sim].
Qed.

Lemma sim_runPairedExecution task agreedPlan :
  simulates WR eq (runPairedExecution E1 config task agreedPlan)
    (runPairedExecution E2 config task agreedPlan).
Proof.
  unfold runPairedExecution. apply sim_bind_eq; [apply sim_roundLoop|]. intros ls.
  auto with sim.
Qed.

Lemma sim_soloPlanning task :
  simulates WR eq (soloPlanning E1 task) (soloPlanning E2 task).
Proof. unfold soloPlanning. do 4 sim_seq. auto with sim. Qed.

Lemma sim_synthesizeSoloFinalReview round :
  simulates WR eq (synthesizeSoloFinalReview E1 round) (synthesizeSoloFinalReview E2 round).
Proof. unfold synthesizeSoloFinalReview. cbv zeta. sim_seq. auto with sim. Qed.

Lemma sim_runSoloDriverThenReviewerExecution task agreedPlan :
  simulates WR eq (runSoloDriverThenReviewerExecution E1 config task agreedPlan)
    (runSoloDriverThenReviewerExecution E2 config task agreedPlan).
Proof.
  unfold runSoloDriverThenReviewerExecution. cbv zeta. do 3 sim_seq.
  apply sim_bind_eq.
  { apply sim_runPromptWithObservability. intros. by apply sim_trackerOnEvent. }
  intros r. do 3 sim_seq.
  apply sim_bind_eq; [apply sim_broadcastReview|]. intros [].
  apply sim_bind_eq.
  { apply sim_resolveFeedback. intros. by apply sim_trackerOnEvent. }
  intros d. do 2 sim_seq.
  apply sim_bind_eq; [apply sim_synthesizeSoloFinalReview|]. intros review.
  auto with sim.
Qed.

Lemma sim_journal : simulates WR (journalRel Time) (gets sharedJournal) (gets sharedJournal).
Proof. apply sim_gets. by intros w1 w2 (_ & _ & Hj & _). Qed.

Lemma sim_runBody task :
  simulates WR (coreRel Time) (runBody E1 config task) (runBody E2 config task).
Proof.
  unfold runBody. do 2 sim_seq.
  apply sim_bind_eq.
  { destruct (executionMode config); [apply sim_collaborativePlanning|apply sim_soloPlanning]. }
  intros agreedPlan. apply sim_bind_eq.
  { destruct (executionMode config);
      [apply sim_runPairedExecution|apply sim_runSoloDriverThenReviewerExecution]. }
  intros execution. apply sim_bind_eq.
  { destruct (ex_finalReview execution); [auto with sim|apply sim_finalReview]. }
  intros review. cbv zeta.
  apply (sim_bind _ (journalRel Time)); [apply sim_journal|]. intros j1 j2 Hj.
  apply sim_ret. by repeat split.
Qed.

End Rounds.

(** ** The end of a run *)

Lemma sim_flushObserver status failureMessage1 failureMessage2 :
  simulates WR anything (flushObserver E1 status failureMessage1)
    (flushObserver E2 status failureMessage2).
Proof.
  intros w1 w2 (Ho & Hobs & Hj & HA & HB). unfold flushObserver.
  destruct (observer w1) as [obs1|] eqn:Hw1, (observer w2) as [obs2|] eqn:Hw2;
    cbn in Hobs; try done.
  - destruct (sim_flush status failureMessage1 status failureMessage2
                (obs1, outside w1) (obs2, outside w2) (conj Hobs Ho)) as [Hres [Hobs' Ho']].
    destruct (Observer.flush E1 _ _ _) as [r1 [obs1' o1']],
             (Observer.flush E2 _ _ _) as [r2 [obs2' o2']]. cbn in *.
    split; [by destruct r1, r2|]. world_rel.
  - split; [done|]. world_rel. by rewrite Hw1, Hw2.
Qed.

Lemma sim_recordSessionError error :
  simulates WR eq (recordSessionError E1 error) (recordSessionError E2 error).
Proof. unfold recordSessionError. auto with sim. Qed.

Lemma sim_flushAtEnd caught :
  simulates WR anything (flushAtEnd E1 caught) (flushAtEnd E2 caught).
Proof. destruct caught; apply sim_flushObserver. Qed.

(** The later revision run twice. *)
Lemma sim_run config task :
  simulates WR (runRel Time) (Orchestrator.run E1 config task) (Orchestrator.run E2 config task).
Proof.
  unfold Orchestrator.run.
  eapply sim_bind.
  { apply sim_try; [apply sim_runBody|apply sim_recordSessionError|apply sim_flushAtEnd]. }
  intros [c1 f1] [c2 f2] [Hc _]. apply sim_ret. apply Hc.
Qed.

(** ** The earlier revision against the later one *)

Section Revisions.
Context (config : PairAgentConfig).

Lemma sim_onDriverEvent driverId navigatorId event v :
  simulates WR eq
    (InlineOrchestrator.onDriverEvent E1 config driverId navigatorId event v)
    (Orchestrator.trackerOnEvent config
       (Some (λ phase, steer E2 driverId (Prompts.buildPauseInterruptionPrompt navigatorId phase)))
       event v).
Proof.
  unfold InlineOrchestrator.onDriverEvent, Orchestrator.trackerOnEvent, Tracker.onEvent.
  destruct event as [id name args|id name result isError| | | | |]; try by apply sim_ret.
  - destruct (Tracker.isWriteTool name); by apply sim_ret.
  - destruct (pauseStrategy config) as [|editsPerPause countedTools].
    + destruct (negb isError && Tracker.isWriteTool name); by apply sim_ret.
    + cbv zeta. destruct isError; [by apply sim_ret|].
      destruct (negb (Tracker.includes countedTools name)); [by apply sim_ret|].
      destruct (Tracker.ltThreshold _ _); [by apply sim_ret|].
      apply sim_bind_eq; [apply sim_steer|]. intros []. by apply sim_ret.
Qed.

Lemma sim_inline_runRound task agreedPlan round driverId :
  simulates WR eq (InlineOrchestrator.runRound E1 config task agreedPlan round driverId)
    (Orchestrator.runRound E2 config task agreedPlan round driverId).
Proof.
  unfold InlineOrchestrator.runRound, Orchestrator.runRound. cbv zeta. do 2 sim_seq.
  apply sim_bind_eq.
  { apply sim_runPromptWithObservability. intros; apply sim_onDriverEvent. }
  intros r. do 3 sim_seq.
  unfold Orchestrator.broadcastReview.
  eapply sim_ext_r; [intros s; apply bind_assoc|].
  apply sim_bind_eq; [destruct (hasFeedback _); auto with sim|]. intros [].
  sim_seq.
  apply sim_bind_eq.
  { unfold Orchestrator.resolveFeedback. destruct (hasFeedback _); [|auto with sim].
    apply sim_bind_eq.
    { apply sim_runPromptWithObservability. intros; apply sim_onDriverEvent. }
    intros r'. sim_seq. auto with sim. }
  intros d. by apply sim_ret.
Qed.

Lemma sim_inline_roundLoop task agreedPlan remaining : ∀ round ls,
  simulates WR eq (InlineOrchestrator.roundLoop E1 config task agreedPlan remaining round ls)
    (Orchestrator.roundLoop E2 config task agreedPlan remaining round ls).
Proof.
  induction remaining as [|remaining IH]; intros round ls;
    cbn [InlineOrchestrator.roundLoop Orchestrator.roundLoop]; [auto with sim|].
  destruct (round <=? maxRounds config); [|auto with sim].
  sim_seq.
  apply sim_bind_eq; [apply sim_inline_runRound|]. intros result.
  apply sim_bind_eq; [apply sim_afterRound|]. intros [goOn ls'].
  destruct goOn; cbn [fst snd]; [apply IH|auto with sim].
Qed.

Lemma sim_inline_runBody task :
  executionMode config = PairedTurns →
  simulates WR (coreRel Time) (InlineOrchestrator.runBody E1 config task)
    (Orchestrator.runBody E2 config task).
Proof.
  intros Hmode. unfold InlineOrchestrator.runBody, Orchestrator.runBody. rewrite Hmode.
  do 2 sim_seq.
  apply sim_bind_eq; [apply sim_collaborativePlanning|]. intros agreedPlan.
  unfold Orchestrator.runPairedExecution.
  eapply sim_ext_r; [intros s; apply bind_assoc|].
  apply sim_bind_eq; [apply sim_inline_roundLoop|]. intros ls.
  eapply sim_ext_r; [intros s; apply bind_ret_l|]. cbn [Orchestrator.ex_finalReview].
  apply sim_bind_eq; [apply sim_finalReview|]. intros review. cbv zeta.
  apply (sim_bind _ (journalRel Time)); [apply sim_journal|]. intros j1 j2 Hj.
  apply sim_ret. by repeat split.
Qed.

Lemma sim_inline_run task :
  executionMode config = PairedTurns →
  simulates WR (runRel Time) (InlineOrchestrator.run E1 config task)
    (Orchestrator.run E2 config task).
Proof.
  intros Hmode. unfold InlineOrchestrator.run, Orchestrator.run.
  eapply sim_bind.
  { apply sim_try; [by apply sim_inline_runBody|apply sim_recordSessionError
                   |apply sim_flushAtEnd]. }
  intros [c1 f1] [c2 f2] [Hc _]. apply sim_ret. apply Hc.
Qed.

End Revisions.

End TwoEnvironments.

(** ** Related journals *)

Lemma journalRel_untimed j1 j2 :
  journalRel anything j1 j2 ↔ untimed <$> j1 = untimed <$> j2.
Proof.
  split.
  - induction 1 as [|e1 e2 j1 j2 (Hs & Ha & Hc & _) _ IH]; [done|].
    cbn. unfold untimed at 1 3. by rewrite Hs, Ha, Hc, IH.
  - revert j2. induction j1 as [|e1 j1 IH]; intros [|e2 j2] Heq; try done; [constructor|].
    cbn in Heq. injection Heq as Hs Ha Hc Hrest.
    constructor; [done|by apply IH].
Qed.

Lemma journalRel_eq j1 j2 : journalRel eq j1 j2 ↔ j1 = j2.
Proof.
  split.
  - induction 1 as [|[s1 a1 c1 t1] [s2 a2 c2 t2] j1 j2 (Hs & Ha & Hc & Ht) _ IH]; [done|].
    cbn in *. by subst.
  - intros <-. induction j1; by constructor.
Qed.

Lemma journalRel_mono (Time Time' : Z → Z → Prop) j1 j2 :
  (∀ a b, Time a b → Time' a b) → journalRel Time j1 j2 → journalRel Time' j1 j2.
Proof.
  intros Hsub. induction 1 as [|e1 e2 j1 j2 (Hs & Ha & Hc & Ht) _ IH]; constructor; [|done].
  repeat split; auto.
Qed.

Lemma worldRel_refl (Time : Z → Z → Prop) w : (∀ t, Time t t) → worldRel Time w w.
Proof.
  intros Hrefl. unfold worldRel. repeat match goal with |- _ ∧ _ => split end; try done.
  - by destruct (observer w).
  - induction (sharedJournal w); by constructor.
Qed.

End ReplayFacts.

(* ===================================================================== *)
(** * Replays and revisions *)
(* ===================================================================== *)

Module ReplayTheorems.
Import Replay OrchestratorCommon ReplayFacts.

Lemma envRel_anything E1 E2 :
  (∀ k, agentRun E1 k = agentRun E2 k) →
  (∀ k, fsOutcome E1 k = fsOutcome E2 k) →
  envRel anything E1 E2.
Proof. by intros Hrun Hfs. Qed.

Lemma envRel_eq E1 E2 :
  (∀ k, agentRun E1 k = agentRun E2 k) →
  (∀ k, fsOutcome E1 k = fsOutcome E2 k) →
  (∀ k, clock E1 k = clock E2 k) →
  envRel eq E1 E2.
Proof. by intros Hrun Hfs Hclock. Qed.

(** C7, amended: two runs of the orchestrator from the same state, fed
    the same agent invocations (answers and tool events) and the same
    file-system outcomes, end alike: both return or both raise the same
    error; the rounds, the agreed plan, the final review and the summary
    they return are equal; and their shared journals hold the same entries
    in the same order except for the time stamps [broadcastShared] reads
    off the clock.  When the two clocks read the same, the journals are
    equal. *)
Theorem replay_agrees_up_to_time_stamps
    (E1 E2 : Env) (config : PairAgentConfig) (task : string) (w : World) :
  (∀ k, agentRun E1 k = agentRun E2 k) →
  (∀ k, fsOutcome E1 k = fsOutcome E2 k) →
  let out1 := Orchestrator.run E1 config task w in
  let out2 := Orchestrator.run E2 config task w in
  resultRel
    (λ r1 r2,
       res_rounds r1 = res_rounds r2
       ∧ untimed <$> res_sharedJournal r1 = untimed <$> res_sharedJournal r2
       ∧ res_agreedPlan r1 = res_agreedPlan r2
       ∧ res_finalReview r1 = res_finalReview r2
       ∧ res_summary r1 = res_summary r2)
    (fst out1) (fst out2)
  ∧ untimed <$> sharedJournal (snd out1) = untimed <$> sharedJournal (snd out2)
  ∧ ((∀ k, clock E1 k = clock E2 k) →
     resultRel (λ r1 r2, res_sharedJournal r1 = res_sharedJournal r2) (fst out1) (fst out2)
     ∧ sharedJournal (snd out1) = sharedJournal (snd out2)).
Proof.
  intros Hrun Hfs out1 out2.
  destruct (sim_run anything E1 E2 (envRel_anything _ _ Hrun Hfs) config task w w
              (worldRel_refl anything w (λ _, I))) as [Hres Hworld].
  fold out1 out2 in Hres, Hworld.
  split; [|split].
  - destruct (fst out1) as [r1|e1], (fst out2) as [r2|e2]; cbn in *; try done.
    destruct Hres as (_ & Hplan & Hrounds & Hreview & Hsummary & Hjournal).
    by apply journalRel_untimed in Hjournal.
  - destruct Hworld as (_ & _ & Hjournal & _). by apply journalRel_untimed.
  - intros Hclock.
    destruct (sim_run eq E1 E2 (envRel_eq _ _ Hrun Hfs Hclock) config task w w
                (worldRel_refl eq w (λ _, eq_refl))) as [Hres' Hworld'].
    fold out1 out2 in Hres', Hworld'.
    split.
    + destruct (fst out1) as [r1|e1], (fst out2) as [r2|e2]; cbn in *; try done.
      destruct Hres' as (_ & _ & _ & _ & _ & Hjournal). by apply journalRel_eq.
    + destruct Hworld' as (_ & _ & Hjournal & _). by apply journalRel_eq.
Qed.

(** C7 as stated fails on the sample session replayed one second later:
    the agent invocations and the file-system outcomes are the same, both
    runs return, with the same rounds, and their journals differ (in the
    time stamp of the first entry already). *)
Lemma replay_under_another_clock_changes_the_journal :
  (∀ k, agentRun Examples.earlyEnv k = agentRun Examples.lateEnv k)
  ∧ (∀ k, fsOutcome Examples.earlyEnv k = fsOutcome Examples.lateEnv k)
  ∧ ∃ r1 r2,
      fst (Orchestrator.run Examples.earlyEnv Examples.config "Write a parser"
             Examples.bareWorld) = Ok r1
      ∧ fst (Orchestrator.run Examples.lateEnv Examples.config "Write a parser"
               Examples.bareWorld) = Ok r2
      ∧ res_rounds r1 = res_rounds r2
      ∧ entryTimestamp <$> head (res_sharedJournal r1) = Some 1000
      ∧ entryTimestamp <$> head (res_sharedJournal r2) = Some 2000
      ∧ res_sharedJournal r1 ≠ res_sharedJournal r2.
Proof.
  split; [done|]. split; [done|].
  destruct (fst (Orchestrator.run Examples.earlyEnv Examples.config "Write a parser"
                   Examples.bareWorld)) as [r1|e1] eqn:H1; [|by vm_compute in H1].
  destruct (fst (Orchestrator.run Examples.lateEnv Examples.config "Write a parser"
                   Examples.bareWorld)) as [r2|e2] eqn:H2; [|by vm_compute in H2].
  exists r1, r2. split; [done|]. split; [done|].
  vm_compute in H1. vm_compute in H2.
  injection H1 as <-. injection H2 as <-.
  split; [reflexivity|]. split; [reflexivity|]. split; [reflexivity|].
  intros Heq. discriminate Heq.
Qed.

(** C8: with the execution mode [paired_turns], in the same environment
    (agent invocations, file-system outcomes and clock) and from the same
    state, [run] of the earlier revision and [run] of the later one both
    return or both raise the same error, and return the same rounds, shared
    journal, summary and final review (and the same task and agreed
    plan). *)
Theorem revisions_agree_on_paired_turns
    (E : Env) (config : PairAgentConfig) (task : string) (w : World) :
  executionMode config = PairedTurns →
  resultRel
    (λ r1 r2,
       res_rounds r1 = res_rounds r2
       ∧ res_sharedJournal r1 = res_sharedJournal r2
       ∧ res_summary r1 = res_summary r2
       ∧ res_finalReview r1 = res_finalReview r2
       ∧ res_task r1 = res_task r2
       ∧ res_agreedPlan r1 = res_agreedPlan r2)
    (fst (InlineOrchestrator.run E config task w))
    (fst (Orchestrator.run E config task w))
  ∧ sharedJournal (snd (InlineOrchestrator.run E config task w))
    = sharedJournal (snd (Orchestrator.run E config task w)).
Proof.
  intros Hmode.
  assert (HE : envRel eq E E) by done.
  destruct (sim_inline_run eq E E HE config task Hmode w w
              (worldRel_refl eq w (λ _, eq_refl))) as [Hres Hworld].
  split.
  - destruct (fst (InlineOrchestrator.run E config task w)) as [r1|e1],
             (fst (Orchestrator.run E config task w)) as [r2|e2]; cbn in *; try done.
    destruct Hres as (Htask & Hplan & Hrounds & Hreview & Hsummary & Hjournal).
    by apply journalRel_eq in Hjournal.
  - destruct Hworld as (_ & _ & Hjournal & _). by apply journalRel_eq.
Qed.

End ReplayTheorems.

(* ===================================================================== *)
(** * The sample sessions *)
(* ===================================================================== *)

Module Scenarios.
Import OrchestratorCommon Examples.

(** The subscriber of the earlier revision keeps the same eight variables
    as the tracker of the later one. *)
Lemma onDriverEvent_tracks E config driverId navigatorId event v w :
  fst (InlineOrchestrator.onDriverEvent E config driverId navigatorId event v w)
  = Ok (fst (Tracker.onEvent (pauseStrategy config) v event)).
Proof.
  unfold InlineOrchestrator.onDriverEvent, Tracker.onEvent.
  destruct event as [id name args|id name result isError| | | | |]; try done.
  - by destruct (Tracker.isWriteTool name).
  - destruct (pauseStrategy config) as [|editsPerPause countedTools].
    + by destruct (negb isError && Tracker.isWriteTool name).
    + cbv zeta. destruct isError; [done|].
      destruct (negb (Tracker.includes countedTools name)); [done|].
      by destruct (Tracker.ltThreshold _ _).
Qed.

(** The driving events of the sample round, with a period of two: three
    successful counted calls, one checkpoint. *)
Lemma checkpoint_arithmetic_on_the_sample_round :
  0 < 2
  ∧ Tracker.successfulCountedCalls ["edit"; "write"] drivingEvents = 3
  ∧ Tracker.checkpointCount
      (Tracker.onEvents (EveryNFileEdits 2 ["edit"; "write"])
         (Tracker.create (EveryNFileEdits 2 ["edit"; "write"])) drivingEvents) = 1.
Proof.
  split; [lia|]. split; [reflexivity|].
  destruct (TrackerFacts.checkpoint_arithmetic 2 ["edit"; "write"] drivingEvents
              ltac:(lia)) as (Hcount & _).
  rewrite Hcount. reflexivity.
Defined.

(** The sample round, whose navigator answers [NONE.]: the loop started
    with three rounds to go returns after the first. *)
Lemma sample_round_ends_the_loop :
  ∃ result w1 timestamp w2,
    (observerCall (Observer.record roundEnv (roundStartEvent 1 A)) ;;;
     Orchestrator.runRound roundEnv config "Write a parser" "1. Parser. 2. Tests." 1 A)
      bareWorld = (Ok result, w1)
    ∧ dr_status (rr_driverReport result) = StatusDone
    ∧ publicFeedback (rr_navigatorReview result) = "NONE."
    ∧ hasFeedback (rr_navigatorReview result) = false
    ∧ Orchestrator.roundLoop roundEnv config "Write a parser" "1. Parser. 2. Tests." 3 1
        (initialLoopState config) bareWorld
      = (Ok (accumulate (initialLoopState config) result), w2)
    ∧ prompts (outside w2) = prompts (outside w1)
    ∧ sharedJournal w2
      = sharedJournal w1
          ++ [{| stage := "loop_stop"; entryActor := Observer.ActorSystem;
                 content := "Stopped at round 1 because driver signaled done and navigator had no feedback.";
                 entryTimestamp := timestamp |}].
Proof.
  assert (Hdone :
    match fst ((observerCall (Observer.record roundEnv (roundStartEvent 1 A)) ;;;
                Orchestrator.runRound roundEnv config "Write a parser"
                  "1. Parser. 2. Tests." 1 A) bareWorld) with
    | Ok result =>
        dr_status (rr_driverReport result) = StatusDone
        ∧ publicFeedback (rr_navigatorReview result) = "NONE."%string
        ∧ hasFeedback (rr_navigatorReview result) = false
    | Throw _ => False
    end) by (vm_compute; repeat split).
  destruct ((observerCall (Observer.record roundEnv (roundStartEvent 1 A)) ;;;
             Orchestrator.runRound roundEnv config "Write a parser"
               "1. Parser. 2. Tests." 1 A) bareWorld) as [[result|e] w1] eqn:Hrun;
    [|destruct Hdone].
  destruct Hdone as (Hdone & Htext & Hnone).
  assert (Hround : 1 ≤ maxRounds config) by (vm_compute; discriminate).
  destruct (LoopFacts.done_without_feedback_ends_the_round_loop roundEnv config
              "Write a parser" "1. Parser. 2. Tests." 2 1 (initialLoopState config)
              bareWorld w1 result Hround Hrun Hdone Hnone)
    as (timestamp & w2 & Hloop & _ & _ & _ & Hprompts & Hjournal & _).
  assert (Hnotice :
    ("Stopped at round " +:+ Js.numToString 1
     +:+ " because driver signaled done and navigator had no feedback.")%string
    = "Stopped at round 1 because driver signaled done and navigator had no feedback."%string)
    by (vm_compute; reflexivity).
  rewrite Hnotice in Hjournal.
  exists result, w1, timestamp, w2.
  exact (conj eq_refl (conj Hdone (conj Htext (conj Hnone
           (conj Hloop (conj Hprompts Hjournal)))))).
Defined.

(** One byte against 1999: the shares are the numbers for 0.1 and 100,
    1001 tenths together. *)
Lemma rough_code_share_of_a_lopsided_run :
  0 < cs_estimatedWrittenBytes (contribA lopsided)
      + cs_estimatedWrittenBytes (contribB lopsided) < 2 ^ 53
  ∧ ∃ tenthsA tenthsB : Z,
      roughCodeSharePercent (contribA (rs_contributions (buildSummary lopsided 1 1)))
      = Double.div (inject_Z tenthsA) 10
      ∧ roughCodeSharePercent (contribB (rs_contributions (buildSummary lopsided 1 1)))
        = Double.div (inject_Z tenthsB) 10
      ∧ (tenthsA + tenthsB = 999 ∨ tenthsA + tenthsB = 1000 ∨ tenthsA + tenthsB = 1001).
Proof.
  assert (Hrange : 0 < cs_estimatedWrittenBytes (contribA lopsided)
                       + cs_estimatedWrittenBytes (contribB lopsided) < 2 ^ 53)
    by (split; reflexivity).
  split; [exact Hrange|].
  destruct (SummaryFacts.rough_code_shares_sum_to_100_up_to_rounding lopsided 1 1
              ltac:(discriminate) ltac:(discriminate) Hrange)
    as (tenthsA & tenthsB & HA & HB & Hsum & _).
  exists tenthsA, tenthsB. exact (conj HA (conj HB Hsum)).
Defined.

(** The sample session replayed one second later. *)
Lemma replay_of_the_sample_session :
  (∀ k, agentRun earlyEnv k = agentRun lateEnv k)
  ∧ (∀ k, fsOutcome earlyEnv k = fsOutcome lateEnv k)
  ∧ Replay.untimed <$> sharedJournal (snd (Orchestrator.run earlyEnv config "Write a parser" bareWorld))
    = Replay.untimed <$> sharedJournal (snd (Orchestrator.run lateEnv config "Write a parser" bareWorld)).
Proof.
  split; [done|]. split; [done|].
  destruct (ReplayTheorems.replay_agrees_up_to_time_stamps earlyEnv lateEnv config
              "Write a parser" bareWorld (λ k, eq_refl) (λ k, eq_refl)) as (_ & Hjournal & _).
  exact Hjournal.
Defined.

(** The sample session under both revisions. *)
Lemma revisions_agree_on_the_sample_session :
  executionMode config = PairedTurns
  ∧ sharedJournal
      (snd (InlineOrchestrator.run earlyEnv config "Write a parser" (observedWorld earlyEnv)))
    = sharedJournal
        (snd (Orchestrator.run earlyEnv config "Write a parser" (observedWorld earlyEnv))).
Proof.
  split; [reflexivity|].
  destruct (ReplayTheorems.revisions_agree_on_paired_turns earlyEnv config "Write a parser"
              (observedWorld earlyEnv) eq_refl) as [_ Hjournal].
  exact Hjournal.
Defined.

(** A fresh observer flushed once, then flushed again as failed and given
    one more event. *)
Lemma flush_twice_on_a_fresh_observer :
  ∃ summary st' o',
    Observer.flush earlyEnv Observer.Completed None
      (Observer.create earlyEnv observerOptions nothingOutside) = (Ok summary, (st', o'))
    ∧ Observer.flush earlyEnv Observer.Failed (Some "too late") (st', o')
      = (Ok summary, (st', o'))
    ∧ Observer.record earlyEnv (sessionEvent "session_error" []) (st', o')
      = (Ok tt, (st', o')).
Proof.
  destruct (Observer.flush earlyEnv Observer.Completed None
              (Observer.create earlyEnv observerOptions nothingOutside))
    as [[summary|e] [st' o']] eqn:Hflush; [|by vm_compute in Hflush].
  exists summary, st', o'. split; [done|].
  destruct (ObserverFacts.flush_is_idempotent_and_freezes_the_log earlyEnv
              Observer.Completed None _ _ summary st' o' Hflush) as (_ & Hagain & Hrecord).
  split; [apply Hagain|apply Hrecord].
Defined.

(** Alternation selected, then the rounds of one driver capped at five. *)
Lemma cap_option_after_alternate_on_the_sample_arguments :
  ∃ parsed,
    Cli.parseCli id cappedArguments "/repo" = Ok parsed
    ∧ turnPolicy (Cli.pair parsed) = SameDriverUntilNavigatorSignoff 5 4.
Proof.
  destruct (Cli.parseCli id cappedArguments "/repo") as [parsed|e] eqn:Hparse;
    [|by vm_compute in Hparse].
  exists parsed. split; [done|].
  destruct (CliFacts.cap_option_after_alternate_selects_sticky_default id
              ["--task"; "x"] [] [] "--max-consecutive-rounds" "5" "/repo" 5 parsed
              eq_refl eq_refl eq_refl eq_refl (or_introl eq_refl) eq_refl eq_refl Hparse)
    as (n & _ & _ & Hpolicy & Hexact).
  rewrite (Hexact eq_refl) in Hpolicy. exact Hpolicy.
Defined.

(** The defect of C5 on a disk that takes no more data.  In the sample
    session the [try] block completes, and [run] raises the rejection of
    the log write, an error thrown by none of planning, rounds and final
    review.  In the failing session the first error is the provider's, and
    what [run] raises is again the rejection of the log write. *)
Lemma log_write_failure_replaces_the_outcome :
  (∃ core w1,
     Orchestrator.runBody fullDiskEnv config "Write a parser" (observedWorld fullDiskEnv)
     = (Ok core, w1))
  ∧ fst (Orchestrator.run fullDiskEnv config "Write a parser" (observedWorld fullDiskEnv))
    = Throw (ErrorObject "ENOSPC: no space left")
  ∧ fst (Orchestrator.runBody outageEnv config "Write a parser" (observedWorld outageEnv))
    = Throw (ErrorObject "Model A (anthropic/claude-opus-4-6) failed: overloaded")
  ∧ fst (Orchestrator.run outageEnv config "Write a parser" (observedWorld outageEnv))
    = Throw (ErrorObject "ENOSPC: no space left").
Proof.
  split.
  { destruct (Orchestrator.runBody fullDiskEnv config "Write a parser"
                (observedWorld fullDiskEnv)) as [[core|e] w1] eqn:Hbody.
    - by exists core, w1.
    - by vm_compute in Hbody. }
  split.
  { destruct (Orchestrator.runBody fullDiskEnv config "Write a parser"
                (observedWorld fullDiskEnv)) as [[core|e] w1] eqn:Hbody;
      [|by vm_compute in Hbody].
    destruct (flushObserver fullDiskEnv Observer.Completed None w1)
      as [[summary|rejection] w2] eqn:Hflush.
    { assert (Hw1 : w1 = snd (Orchestrator.runBody fullDiskEnv config "Write a parser"
                                (observedWorld fullDiskEnv))) by (by rewrite Hbody).
      rewrite Hw1 in Hflush. by vm_compute in Hflush. }
    destruct (RunFacts.flush_rejection_replaces_the_outcome fullDiskEnv config
                "Write a parser" (observedWorld fullDiskEnv)) as [Hcompleted _].
    rewrite (Hcompleted core w1 rejection w2 Hbody Hflush). cbn [fst].
    assert (Hw1 : w1 = snd (Orchestrator.runBody fullDiskEnv config "Write a parser"
                              (observedWorld fullDiskEnv))) by (by rewrite Hbody).
    assert (Hrejection :
      fst (flushObserver fullDiskEnv Observer.Completed None w1)
      = Throw (ErrorObject "ENOSPC: no space left"))
      by (rewrite Hw1; vm_compute; reflexivity).
    rewrite Hflush in Hrejection. cbn [fst] in Hrejection.
    by injection Hrejection as ->. }
  split; by vm_compute.
Defined.

End Scenarios.

(* ===================================================================== *)
(** * More of the execution tracker *)
(* ===================================================================== *)

Module TrackerMore.
Import Tracker TrackerSpec.

Lemma onEvents_snoc ps st events e :
  onEvents ps st (events ++ [e]) = fst (onEvent ps (onEvents ps st events) e).
Proof. unfold onEvents. by rewrite fold_left_app. Qed.

Lemma onEvents_step ps st e events :
  onEvents ps st (e :: events) = onEvents ps (fst (onEvent ps st e)) events.
Proof. done. Qed.

Lemma onEvents_append ps st l1 l2 :
  onEvents ps st (l1 ++ l2) = onEvents ps (onEvents ps st l1) l2.
Proof. unfold onEvents. by rewrite fold_left_app. Qed.

(** One event under the strategy [none]: nothing of the checkpoint
    cadence moves. *)
Lemma onEvent_none_cadence st e :
  snd (onEvent PauseNone st e) = None
  ∧ checkpointCount (fst (onEvent PauseNone st e)) = checkpointCount st
  ∧ pauseTriggered (fst (onEvent PauseNone st e)) = pauseTriggered st
  ∧ countedEdits (fst (onEvent PauseNone st e)) = countedEdits st
  ∧ nextCheckpointAt (fst (onEvent PauseNone st e)) = nextCheckpointAt st.
Proof.
  destruct e as [id name args|id name result isError| | | | |]; cbn; try done.
  - by destruct (isWriteTool name).
  - by destruct (negb isError && isWriteTool name).
Qed.

(** X1: with the pause strategy [none] the tracker never fires a checkpoint:
    whatever the events and the state they start from, [onCheckpoint] is
    not called, and [checkpointCount], [pauseTriggered] and [countedEdits]
    stay as they are. *)
Theorem no_checkpoint_without_pause_strategy (st : State) (events : list AgentEvent) :
  checkpointsFired PauseNone st events = []
  ∧ checkpointCount (onEvents PauseNone st events) = checkpointCount st
  ∧ pauseTriggered (onEvents PauseNone st events) = pauseTriggered st
  ∧ countedEdits (onEvents PauseNone st events) = countedEdits st.
Proof.
  revert st. induction events as [|e events IH]; intros st; [done|].
  rewrite onEvents_step. cbn [checkpointsFired].
  destruct (onEvent_none_cadence st e) as (Hfired & Hc & Hp & He & _).
  destruct (onEvent PauseNone st e) as [st' fired]. cbn [fst snd] in *. subst fired.
  destruct (IH st') as (IH1 & IH2 & IH3 & IH4).
  by rewrite IH1, IH2, IH3, IH4, Hc, Hp, He.
Qed.

Lemma successfulWrites_cons e events :
  successfulWrites (e :: events)
  = (if isSuccessfulWrite e then 1 else 0) + successfulWrites events.
Proof.
  unfold successfulWrites. cbn [List.filter]. destruct (isSuccessfulWrite e); cbn [List.length]; lia.
Qed.

Lemma onEvent_editWriteCallCount ps st e :
  editWriteCallCount (fst (onEvent ps st e))
  = editWriteCallCount st + (if isSuccessfulWrite e then 1 else 0).
Proof.
  destruct e as [id name args|id name result isError| | | | |]; cbn [isSuccessfulWrite];
    try (cbn; lia).
  - cbn [onEvent]. destruct (isWriteTool name); cbn; lia.
  - destruct ps as [|N tools]; cbn [onEvent].
    + destruct (negb isError && isWriteTool name); cbn; lia.
    + cbv zeta.
      destruct isError, (isWriteTool name), (includes tools name); cbn [negb andb];
        try (cbn; lia);
        match goal with |- context [ltThreshold ?a ?b] => destruct (ltThreshold a b) end;
        cbn; lia.
Qed.

(** X2: [editWriteCallCount] counts the successful [edit] and [write] calls
    and nothing else, under either pause strategy and whether or not the
    tool is one of [countedTools]. *)
Theorem editWriteCallCount_counts_successful_writes
    (ps : PauseStrategy) (st : State) (events : list AgentEvent) :
  editWriteCallCount (onEvents ps st events) = editWriteCallCount st + successfulWrites events.
Proof.
  revert st. induction events as [|e events IH]; intros st.
  - unfold successfulWrites. cbn. lia.
  - rewrite onEvents_step, IH, onEvent_editWriteCallCount, successfulWrites_cons. lia.
Qed.

(** An event of another call leaves the estimate waiting for [id] alone. *)
Lemma onEvent_other_call ps st e id :
  callId e ≠ Some id →
  pendingWriteEstimates (fst (onEvent ps st e)) !! id = pendingWriteEstimates st !! id.
Proof.
  intros Hid.
  destruct e as [id' name args|id' name result isError| | | | |]; cbn [callId] in Hid; try done.
  - cbn [onEvent]. destruct (isWriteTool name); [|done]. cbn.
    apply lookup_insert_ne. congruence.
  - assert (Hne : id' ≠ id) by congruence.
    destruct ps as [|N tools]; cbn [onEvent].
    + destruct (negb isError && isWriteTool name); [|done]. cbn. by apply lookup_delete_ne.
    + cbv zeta.
      destruct isError, (isWriteTool name), (includes tools name); cbn [negb andb];
        try (cbn; by rewrite ?lookup_delete_ne);
        match goal with |- context [ltThreshold ?a ?b] => destruct (ltThreshold a b) end;
        cbn; by rewrite ?lookup_delete_ne.
Qed.

Lemma onEvents_other_calls ps id events : ∀ st,
  Forall (λ e, callId e ≠ Some id) events →
  pendingWriteEstimates (onEvents ps st events) !! id = pendingWriteEstimates st !! id.
Proof.
  induction events as [|e events IH]; intros st Hall; [done|].
  inversion Hall as [|? ? He Hrest]; subst.
  by rewrite onEvents_step, IH, onEvent_other_call.
Qed.

(** The successful end of a call that writes: the estimate waiting for
    it is credited and removed. *)
Lemma onEvent_successful_write ps st id name result :
  isWriteTool name = true →
  estimatedWrittenBytes (fst (onEvent ps st (ToolExecutionEnd id name result false)))
  = estimatedWrittenBytes st + pendingOrZero st id
  ∧ pendingWriteEstimates (fst (onEvent ps st (ToolExecutionEnd id name result false))) !! id
    = None.
Proof.
  intros Hw. destruct ps as [|N tools]; cbn [onEvent negb andb]; rewrite Hw.
  - cbn. split; [done|]. apply lookup_delete_eq.
  - cbv zeta. destruct (negb (includes tools name)); [cbn; split; [done|apply lookup_delete_eq]|].
    match goal with |- context [ltThreshold ?a ?b] => destruct (ltThreshold a b) end;
      cbn; (split; [done|apply lookup_delete_eq]).
Qed.

(** X3: a successful [edit] or [write] call is credited with the estimate
    taken from the arguments of its own start event, whatever other calls
    start and end in between, under either pause strategy; and its entry
    is gone afterwards. *)
Theorem write_is_credited_with_its_start_estimate
    (ps : PauseStrategy) (st : State) (id name : string) (args result : Js.Value)
    (between : list AgentEvent) :
  isWriteTool name = true →
  Forall (λ e, callId e ≠ Some id) between →
  let started := onEvents ps st (ToolExecutionStart id name args :: between) in
  let ended := fst (onEvent ps started (ToolExecutionEnd id name result false)) in
  pendingWriteEstimates started !! id = Some (estimateWrittenBytes name args)
  ∧ estimatedWrittenBytes ended
    = estimatedWrittenBytes started + estimateWrittenBytes name args
  ∧ editWriteCallCount ended = editWriteCallCount started + 1
  ∧ pendingWriteEstimates ended !! id = None.
Proof.
  intros Hw Hbetween started ended.
  assert (Hpending : pendingWriteEstimates started !! id
                     = Some (estimateWrittenBytes name args)).
  { unfold started. rewrite onEvents_step, onEvents_other_calls by done.
    cbn [onEvent]. rewrite Hw. cbn. apply lookup_insert_eq. }
  destruct (onEvent_successful_write ps started id name result Hw) as [Hbytes Hgone].
  split; [exact Hpending|]. split; [|split].
  - unfold ended. rewrite Hbytes. unfold pendingOrZero. by rewrite Hpending.
  - unfold ended. rewrite onEvent_editWriteCallCount. cbn [isSuccessfulWrite negb andb].
    by rewrite Hw.
  - exact Hgone.
Qed.

Lemma byteLength_nonneg s : 0 ≤ Js.byteLength s.
Proof. induction s as [|c s IH]; cbn [Js.byteLength]; [done|]. case_match; lia. Qed.

Lemma estimateWrittenBytes_nonneg name args : 0 ≤ estimateWrittenBytes name args.
Proof.
  unfold estimateWrittenBytes.
  repeat case_match; try done; apply byteLength_nonneg.
Qed.

Lemma onEvent_bytes_grow ps st e :
  pendingNonNegative st →
  pendingNonNegative (fst (onEvent ps st e))
  ∧ estimatedWrittenBytes st ≤ estimatedWrittenBytes (fst (onEvent ps st e)).
Proof.
  intros Hst.
  assert (Hzero : ∀ id, 0 ≤ pendingOrZero st id).
  { intros id. unfold pendingOrZero.
    destruct (pendingWriteEstimates st !! id) as [v|] eqn:Hv; [|done]. exact (Hst _ _ Hv). }
  assert (Hdel : ∀ id, map_Forall (λ _ estimate, 0 ≤ estimate)
                         (delete id (pendingWriteEstimates st))).
  { intros id k v Hkv. apply lookup_delete_Some in Hkv as [_ Hkv]. exact (Hst _ _ Hkv). }
  destruct e as [id name args|id name result isError| | | | |]; try done.
  - cbn [onEvent]. destruct (isWriteTool name); [|done]. cbn. split; [|lia].
    unfold pendingNonNegative. cbn. apply map_Forall_insert_2; [|done].
    apply estimateWrittenBytes_nonneg.
  - specialize (Hzero id). specialize (Hdel id).
    destruct ps as [|N tools]; cbn [onEvent].
    + destruct (negb isError && isWriteTool name); [|done]. cbn. split; [done|lia].
    + cbv zeta.
      destruct isError, (isWriteTool name), (includes tools name); cbn [negb andb];
        try (cbn; split; [done|lia]);
        match goal with |- context [ltThreshold ?a ?b] => destruct (ltThreshold a b) end;
        cbn; (split; [done|lia]).
Qed.

Lemma onEvents_bytes_grow ps events : ∀ st,
  pendingNonNegative st →
  pendingNonNegative (onEvents ps st events)
  ∧ estimatedWrittenBytes st ≤ estimatedWrittenBytes (onEvents ps st events).
Proof.
  induction events as [|e events IH]; intros st Hst; [done|].
  rewrite onEvents_step.
  destruct (onEvent_bytes_grow ps st e Hst) as [Hst' Hle].
  destruct (IH _ Hst') as [Hfinal Hle']. split; [done|lia].
Qed.

(** X4: from a fresh tracker, [estimatedWrittenBytes] is never negative and
    never decreases as further events arrive. *)
Theorem estimated_bytes_never_decrease (ps : PauseStrategy) (l1 l2 : list AgentEvent) :
  0 ≤ estimatedWrittenBytes (onEvents ps (create ps) l1)
  ∧ estimatedWrittenBytes (onEvents ps (create ps) l1)
    ≤ estimatedWrittenBytes (onEvents ps (create ps) (l1 ++ l2)).
Proof.
  assert (Hfresh : pendingNonNegative (create ps)) by (intros k v Hkv; done).
  destruct (onEvents_bytes_grow ps l1 _ Hfresh) as [H1 Hle1].
  split; [exact Hle1|].
  rewrite onEvents_append. by apply onEvents_bytes_grow.
Qed.

Lemma onEvent_pause_flag ps st e :
  0 ≤ checkpointCount st →
  (pauseTriggered st = true ↔ 0 < checkpointCount st) →
  0 ≤ checkpointCount (fst (onEvent ps st e))
  ∧ (pauseTriggered (fst (onEvent ps st e)) = true
     ↔ 0 < checkpointCount (fst (onEvent ps st e))).
Proof.
  intros Hnn Hiff.
  destruct e as [id name args|id name result isError| | | | |]; try done.
  - cbn [onEvent]. by destruct (isWriteTool name).
  - destruct ps as [|N tools]; cbn [onEvent].
    + by destruct (negb isError && isWriteTool name).
    + cbv zeta.
      destruct isError, (isWriteTool name), (includes tools name); cbn [negb andb];
        try done;
        match goal with |- context [ltThreshold ?a ?b] => destruct (ltThreshold a b) end;
        cbn; try done; (split; [lia|]); split; intros; (done || lia).
Qed.

(** X5: from a fresh tracker, [pauseTriggered] is set exactly when at least
    one checkpoint has fired. *)
Theorem pauseTriggered_iff_checkpoint_fired (ps : PauseStrategy) (events : list AgentEvent) :
  pauseTriggered (onEvents ps (create ps) events) = true
  ↔ 0 < checkpointCount (onEvents ps (create ps) events).
Proof.
  assert (Hinv : ∀ evs st,
            0 ≤ checkpointCount st →
            (pauseTriggered st = true ↔ 0 < checkpointCount st) →
            0 ≤ checkpointCount (onEvents ps st evs)
            ∧ (pauseTriggered (onEvents ps st evs) = true
               ↔ 0 < checkpointCount (onEvents ps st evs))).
  { induction evs as [|e evs IH]; intros st Hnn Hiff; [done|].
    rewrite onEvents_step.
    destruct (onEvent_pause_flag ps st e Hnn Hiff) as [Hnn' Hiff']. by apply IH. }
  apply Hinv; cbn; [lia|]. split; [done|lia].
Qed.

End TrackerMore.

(* ===================================================================== *)
(** * More of the parsers *)
(* ===================================================================== *)

Module ParsingMore.
Import Parsing ParsingSpec TextFacts.

(** Only [<] itself matches [<] under the [i] flag. *)
Lemma canonicalize_lt c :
  Ascii.eqb (Js.canonicalize "<") (Js.canonicalize c) = true → c = "<"%char.
Proof.
  destruct c as [[] [] [] [] [] [] [] []]; vm_compute; intros H; congruence.
Qed.

(** A pattern matches any spelling of itself that differs in case only. *)
Lemma matchLiteralCI_same pat : ∀ spelling rest,
  Js.toUpperCase spelling = Js.toUpperCase pat →
  matchLiteralCI pat (spelling +:+ rest) = Some rest.
Proof.
  induction pat as [|p pat IH]; intros [|c spelling] rest Heq; try done.
  cbn in Heq. injection Heq as Hc Hrest.
  append_heads. cbn [matchLiteralCI]. unfold Js.canonicalize. rewrite Hc, Ascii.eqb_refl.
  by apply IH.
Qed.

(** The search for a pattern that starts with [<] skips a text without
    [<]. *)
Lemma searchLiteralCI_skip pat pre rest :
  lacks "<" pre = true →
  searchLiteralCI (String "<" pat) (pre +:+ rest)
  = match searchLiteralCI (String "<" pat) rest with
    | Some (before, after) => Some (pre +:+ before, after)
    | None => None
    end.
Proof.
  induction pre as [|c pre IH]; intros Hpre.
  - append_heads. by destruct (searchLiteralCI _ rest) as [[??]|].
  - cbn [lacks] in Hpre. apply andb_prop in Hpre as [Hc Hpre].
    append_heads. cbn [searchLiteralCI matchLiteralCI].
    destruct (Ascii.eqb (Js.canonicalize "<") (Js.canonicalize c)) eqn:Hm.
    { apply canonicalize_lt in Hm. subst c. done. }
    fold searchLiteralCI. rewrite (IH Hpre).
    by destruct (searchLiteralCI _ rest) as [[??]|].
Qed.

Lemma searchLiteralCI_none pat text :
  lacks "<" text = true → searchLiteralCI (String "<" pat) text = None.
Proof.
  intros Htext. rewrite <- (append_nil_r text) at 1.
  rewrite searchLiteralCI_skip by done. by destruct pat.
Qed.

Lemma searchLiteralCI_here pat spelling rest :
  Js.toUpperCase spelling = Js.toUpperCase pat →
  searchLiteralCI pat (spelling +:+ rest) = Some (EmptyString, rest).
Proof.
  intros Heq. destruct (spelling +:+ rest) eqn:Htext;
    cbn [searchLiteralCI]; rewrite <- Htext, (matchLiteralCI_same pat spelling rest Heq); done.
Qed.

Lemma extractTag_none raw tag : lacks "<" raw = true → extractTag raw tag = None.
Proof.
  intros Hraw. unfold extractTag. append_heads.
  by rewrite searchLiteralCI_none.
Qed.

(** X6: the element is found whatever surrounds it and however its tags are
    cased: with no [<] before the opening tag and none inside the element,
    [extractTag] returns the trimmed content of the element; what follows
    the closing tag (a second element of the same name included) is not
    looked at. *)
Theorem extractTag_reads_the_first_element (pre opening body closing post tag : string) :
  plainName tag = true →
  Js.toUpperCase opening = Js.toUpperCase tag →
  Js.toUpperCase closing = Js.toUpperCase tag →
  lacks "<" pre = true →
  lacks "<" body = true →
  extractTag
    (pre +:+ "<" +:+ opening +:+ ">" +:+ body +:+ "</" +:+ closing +:+ ">" +:+ post) tag
  = Some (Js.trim body).
Proof.
  intros _ Hopen Hclose Hpre Hbody. unfold extractTag. append_heads.
  assert (Hsplit : ∀ name rest, name +:+ String ">" rest = (name +:+ ">") +:+ rest).
  { intros name rest. rewrite append_assoc. by append_heads. }
  rewrite searchLiteralCI_skip by done.
  rewrite (Hsplit opening), <- (append_String "<" (opening +:+ ">")), searchLiteralCI_here.
  2:{ unfold Js.toUpperCase in *. cbn [Js.mapString]. f_equal.
      by rewrite !mapString_app, Hopen. }
  rewrite searchLiteralCI_skip by done.
  rewrite (Hsplit closing), <- (append_String "/" (closing +:+ ">")),
    <- (append_String "<" (String "/" (closing +:+ ">"))), searchLiteralCI_here.
  2:{ unfold Js.toUpperCase in *. cbn [Js.mapString]. do 2 f_equal.
      by rewrite !mapString_app, Hclose. }
  by rewrite append_nil_r.
Qed.

(** X7: a reply without any markup is read with every default: the driver
    goes on, the navigator has no feedback and recommends no handoff, the
    decision is [partial], the verdict is [NEEDS_MORE_WORK]; the summary,
    the justification and the rationale are the trimmed reply. *)
Theorem untagged_reply_is_read_with_defaults (raw : string) :
  lacks "<" raw = true →
  parseDriverReport raw
  = {| dr_status := StatusContinue; dr_summary := Js.trim raw;
       dr_changes := "(driver did not provide a structured changes section)";
       dr_questionsForNavigator := "NONE"; dr_raw := raw |}
  ∧ parseNavigatorReview raw
    = {| privateReflection := "(no private reflection provided)";
         publicFeedback := "NONE"; hasFeedback := false;
         driverRecommendation := RecContinue; nr_raw := raw |}
  ∧ parseDriverDecision raw
    = {| decision := Partial; justification := Js.trim raw; dd_raw := raw |}
  ∧ parseJointVerdict raw
    = {| jv_jointVerdict := NEEDS_MORE_WORK; jv_rationale := Js.trim raw;
         jv_nextSteps := "NONE"; jv_raw := raw |}.
Proof.
  intros Hraw.
  unfold parseDriverReport, parseNavigatorReview, parseDriverDecision, parseJointVerdict.
  rewrite !(extractTag_none raw _ Hraw). done.
Qed.

End ParsingMore.

(* ===================================================================== *)
(** * More of the session observer *)
(* ===================================================================== *)

Module ObserverMore.
Import Observer ObserverSpec TextFacts.

Section WithEnv.
Context (E : Env).

(** [record] on an observer not yet flushed, in full. *)
Lemma record_unflushed ev st o :
  flushedSummary st = None →
  ∃ st',
    record E ev (st, o) = (Ok tt, (st', setTicks o (S (ticks o))))
    ∧ events st' = events st ++ [rendered E st o ev]
    ∧ eventIndex st' = eventIndex st + 1
    ∧ eventStreamWriteQueue st'
      = eventStreamWriteQueue st
          ++ (if streaming st && shouldStreamEvent st (rendered E st o ev)
              then [EventEntry (rendered E st o ev)] else [])
    ∧ sameSetup st st'
    ∧ flushedSummary st' = None
    ∧ eventStreamInitialized st' = eventStreamInitialized st
    ∧ eventStreamWriteError st' = eventStreamWriteError st.
Proof.
  intros Hf. unfold record. rewrite Hf.
  unfold bind, dateNow, modify, queueEventStreamLine, ret, streaming, shouldStreamEvent,
    rendered.
  cbn.
  destruct (eventStreamMode st) eqn:Hmode;
    [destruct (isCategory (category ev) CatAgentEvent
               && String.eqb (name ev) "message_update")|];
    cbn; destruct (isSet (eventLogFile st)), (isSet (eventStreamWriteError st));
    cbn; eexists; (split; [reflexivity|]); cbn; rewrite ?app_nil_r, ?Hmode; done.
Qed.

Lemma drainQueue_keeps pending : ∀ st o,
  events (fst (drainQueue E pending st o)) = events st
  ∧ eventIndex (fst (drainQueue E pending st o)) = eventIndex st
  ∧ flushedSummary (fst (drainQueue E pending st o)) = flushedSummary st
  ∧ sameSetup st (fst (drainQueue E pending st o))
  ∧ logFileContent (snd (drainQueue E pending st o)) = logFileContent o
  ∧ ticks (snd (drainQueue E pending st o)) = ticks o.
Proof.
  induction pending as [|entry pending IH]; intros st o; [done|].
  cbn [drainQueue].
  destruct (runQueuedWrite E entry st o) as [st1 o1] eqn:Hrun.
  destruct (IH st1 o1) as (H1 & H2 & H3 & (H4 & H5 & H6 & H7) & H8 & H9).
  unfold runQueuedWrite in Hrun.
  destruct (fsOutcome E (fsOps o)); [|destruct (eventStreamInitialized st)|];
    injection Hrun as <- <-; cbn in *; rewrite ?H1, ?H2, ?H3, ?H4, ?H5, ?H6, ?H7, ?H8, ?H9;
    done.
Qed.

(** [flush] touches neither the events nor their numbering. *)
Lemma flush_keeps_events status msg st o :
  events (fst (snd (flush E status msg (st, o)))) = events st
  ∧ eventIndex (fst (snd (flush E status msg (st, o)))) = eventIndex st.
Proof.
  unfold flush. destruct (flushedSummary st); [done|].
  unfold bind, dateNow, queueEventStreamLine, awaitWriteQueue, gets, writeLogFile, modify, ret.
  destruct (negb (isSet (eventLogFile st)) || isSet (eventStreamWriteError st));
    match goal with
    | |- context [drainQueue E ?q ?s ?o] =>
        destruct (drainQueue_keeps q s o) as (H1 & H2 & _);
        destruct (drainQueue E q s o) as [st1 o1]
    end;
    cbn [fst snd] in *; destruct (fsOutcome E (fsOps o1)); cbn; done.
Qed.

Lemma record_keeps_numbering ev st o :
  indexedByPosition st → indexedByPosition (fst (snd (record E ev (st, o)))).
Proof.
  intros [Hlen Hpos].
  destruct (flushedSummary st) as [s|] eqn:Hf.
  { unfold record. rewrite Hf. done. }
  destruct (record_unflushed ev st o Hf) as (st' & -> & Hev & Hidx & _). cbn [fst snd].
  split.
  - rewrite Hidx, Hev, length_app, Hlen. cbn. lia.
  - intros k e. rewrite Hev. intros Hk.
    apply lookup_app_Some in Hk as [Hk|[Hge Hk]]; [by apply Hpos|].
    destruct (k - List.length (events st))%nat as [|n] eqn:Hn; [|done].
    injection Hk as <-. cbn. rewrite Hlen. f_equal. lia.
Qed.

Lemma calls_keep_numbering cs : ∀ st o,
  indexedByPosition st → indexedByPosition (fst (snd (calls E cs (st, o)))).
Proof.
  induction cs as [|c cs IH]; intros st o Hst; [done|].
  cbn [calls]. unfold bind at 1.
  assert (Hcall : indexedByPosition (fst (snd (call E c (st, o))))).
  { destruct c as [ev|status msg]; cbn [call]; unfold bind, ret.
    - pose proof (record_keeps_numbering ev st o Hst) as H.
      by destruct (record E ev (st, o)) as [[[]|e] [st1 o1]].
    - destruct (flush_keeps_events status msg st o) as [H1 H2].
      destruct (flush E status msg (st, o)) as [[s|e] [st1 o1]]; cbn [fst snd] in *;
        unfold indexedByPosition in *; by rewrite H1, H2. }
  destruct (call E c (st, o)) as [[r|e] [st1 o1]]; [|done]. cbn [fst snd] in Hcall.
  unfold bind. specialize (IH st1 o1 Hcall).
  by destruct (calls E cs (st1, o1)) as [[rs|e] [st2 o2]].
Qed.

(** X8: whatever is recorded and whenever the log is flushed, the events of
    an observer are numbered from 0 by their position, and [eventIndex]
    is their number. *)
Theorem event_indexes_are_positions
    (options : SessionObserverOptions) (o : Out) (cs : list Call) :
  indexedByPosition (fst (snd (calls E cs (create E options o)))).
Proof.
  destruct (create E options o) as [st0 o0] eqn:Hcreate.
  apply calls_keep_numbering.
  unfold create, queueEventStreamLine in Hcreate. cbn in Hcreate.
  destruct (negb _ || _); injection Hcreate as <- <-; split; cbn; try done;
    intros k e Hk; by rewrite lookup_nil in Hk.
Qed.

Lemma shouldStreamEvent_mode st st' e :
  eventStreamMode st' = eventStreamMode st → shouldStreamEvent st' e = shouldStreamEvent st e.
Proof. unfold shouldStreamEvent. by intros ->. Qed.

(** A run of [record] calls on an observer not yet flushed. *)
Lemma records_unflushed evs : ∀ st o,
  flushedSummary st = None →
  ∃ st' o' new,
    calls E (CallRecord <$> evs) (st, o) = (Ok ((λ _, None) <$> evs), (st', o'))
    ∧ events st' = events st ++ new
    ∧ event <$> new = evs
    ∧ eventStreamWriteQueue st'
      = eventStreamWriteQueue st
          ++ (if streaming st then EventEntry <$> List.filter (shouldStreamEvent st) new
              else [])
    ∧ sameSetup st st'
    ∧ flushedSummary st' = None
    ∧ eventStreamInitialized st' = eventStreamInitialized st
    ∧ eventStreamWriteError st' = eventStreamWriteError st
    ∧ fsOps o' = fsOps o
    ∧ eventStreamFileContent o' = eventStreamFileContent o
    ∧ logFileContent o' = logFileContent o.
Proof.
  induction evs as [|ev evs IH]; intros st o Hf.
  { exists st, o, []. rewrite app_nil_r. do 3 (split; [done|]).
    split; [destruct (streaming st); by rewrite app_nil_r|]. done. }
  destruct (record_unflushed ev st o Hf)
    as (st1 & Hrec & Hev & _ & Hq & Hsetup & Hf1 & Hinit & Herr).
  destruct (IH st1 (setTicks o (S (ticks o))) Hf1)
    as (st' & o' & new & Hcalls & Hev' & Hnew & Hq' & Hsetup' & Hf' & Hinit' & Herr'
        & Hfs & Hstream & Hlog).
  exists st', o', (rendered E st o ev :: new).
  split.
  { cbn [fmap list_fmap calls call]. unfold bind, ret. rewrite Hrec. cbn.
    change (list_fmap EventInput Call CallRecord evs) with (CallRecord <$> evs).
    by rewrite Hcalls. }
  destruct Hsetup as (Hs1 & Hs2 & Hs3 & Hs4), Hsetup' as (Hs1' & Hs2' & Hs3' & Hs4').
  assert (Hstreaming : streaming st1 = streaming st).
  { unfold streaming. by rewrite Hs2, Herr. }
  split; [by rewrite Hev', Hev, <- app_assoc|].
  split; [by rewrite <- Hnew|].
  split.
  { rewrite Hq', Hq, Hstreaming, <- app_assoc. f_equal.
    destruct (streaming st); [|done]. cbn [andb List.filter].
    rewrite (List.filter_ext _ _ (λ e, shouldStreamEvent_mode st st1 e Hs4)).
    by destruct (shouldStreamEvent st (rendered E st o ev)). }
  split; [unfold sameSetup; by rewrite Hs1', Hs2', Hs3', Hs4'|].
  rewrite Hinit', Herr', Hfs, Hstream, Hlog. done.
Qed.

Lemma drainQueue_fsOps pending : ∀ st o,
  fsOps (snd (drainQueue E pending st o)) = (fsOps o + List.length pending)%nat.
Proof.
  induction pending as [|entry pending IH]; intros st o; [cbn; lia|].
  cbn [drainQueue List.length].
  destruct (runQueuedWrite E entry st o) as [st1 o1] eqn:Hrun.
  rewrite IH. unfold runQueuedWrite in Hrun.
  destruct (fsOutcome E (fsOps o)); [|destruct (eventStreamInitialized st)|];
    injection Hrun as <- <-; cbn; lia.
Qed.

Lemma drainQueue_cons entry pending st o :
  drainQueue E (entry :: pending) st o
  = drainQueue E pending (fst (runQueuedWrite E entry st o))
      (snd (runQueuedWrite E entry st o)).
Proof. cbn [drainQueue]. by destruct (runQueuedWrite E entry st o). Qed.

(** The queued writes on a file system that takes them all. *)
Lemma drainQueue_ok rest : ∀ entry st o,
  (∀ k, fsOutcome E k = FsOk) →
  eventStreamFileContent (snd (drainQueue E (entry :: rest) st o))
  = Some ((if eventStreamInitialized st then default [] (eventStreamFileContent o) else [])
          ++ entry :: rest)
  ∧ eventStreamWriteError (fst (drainQueue E (entry :: rest) st o))
    = eventStreamWriteError st.
Proof.
  induction rest as [|next rest IH]; intros entry st o Hfs; rewrite drainQueue_cons.
  - cbn [drainQueue]. unfold runQueuedWrite. rewrite Hfs. cbn.
    by destruct (eventStreamInitialized st).
  - destruct (IH next (fst (runQueuedWrite E entry st o))
                (snd (runQueuedWrite E entry st o)) Hfs) as [Hc He].
    rewrite Hc, He. unfold runQueuedWrite. rewrite Hfs. cbn.
    destruct (eventStreamInitialized st); cbn; by rewrite <- ?app_assoc.
Qed.

(** [flush] of an observer that is streaming, on a file system that takes
    every write. *)
Lemma flush_streaming_ok status msg st o :
  (∀ k, fsOutcome E k = FsOk) →
  flushedSummary st = None →
  streaming st = true →
  ∃ summary endedAt st' o',
    flush E status msg (st, o) = (Ok summary, (st', o'))
    ∧ events st' = events st
    ∧ sameSetup st st'
    ∧ eventStreamFileContent o'
      = Some ((if eventStreamInitialized st then default [] (eventStreamFileContent o)
               else [])
              ++ eventStreamWriteQueue st
              ++ [MetaEnd endedAt status (ifSet msg) (eventCount summary)
                    (promptCount summary) (toolExecutionCount summary)
                    (toolExecutionErrorCount summary) (durationMs summary)
                    (eventStreamMode st)])
    ∧ sum_eventStreamWriteError summary = ifSet (eventStreamWriteError st).
Proof.
  intros Hfs Hf Hstreaming. unfold flush. rewrite Hf.
  unfold streaming in Hstreaming. apply andb_prop in Hstreaming as [Hlog Herr].
  apply negb_true_iff in Herr.
  unfold bind, dateNow, queueEventStreamLine, awaitWriteQueue, gets, writeLogFile, modify, ret.
  rewrite Hlog, Herr. cbn [negb orb fst snd eventStreamWriteQueue setQueue].
  set (metaEnd := MetaEnd _ _ _ _ _ _ _ _ _).
  set (st1 := setQueue st (eventStreamWriteQueue st ++ [metaEnd])).
  set (o1 := setTicks o (S (ticks o))).
  assert (Hne : ∃ entry rest, eventStreamWriteQueue st ++ [metaEnd] = entry :: rest).
  { destruct (eventStreamWriteQueue st); cbn; eauto. }
  destruct Hne as (entry & rest & Hq). rewrite Hq.
  destruct (drainQueue_ok rest entry st1 o1 Hfs) as [Hcontent Herror].
  destruct (drainQueue_keeps (entry :: rest) st1 o1) as (Hev & _ & _ & Hsetup & _ & _).
  destruct (drainQueue E (entry :: rest) st1 o1) as [st2 o2]. cbn [fst snd] in *.
  rewrite Hfs. cbn [fst snd].
  eexists _, _, _, _. split; [reflexivity|]. cbn.
  split; [exact Hev|]. split; [exact Hsetup|].
  split; [by rewrite Hcontent, <- Hq|]. by rewrite Herror.
Qed.

(** X9: with the file system taking every write, the event stream file of
    an observer that was created, given events and flushed holds the start
    line, one line for each event in the order recorded (less the
    [message_update] events of agents when the mode is [compact]) and the
    end line with the counts of the summary; the log keeps every event. *)
Theorem event_stream_holds_the_streamed_events
    (options : SessionObserverOptions) (o : Out) (evs : list EventInput)
    (status : Status) (errorMessage : option string) :
  (∀ k, fsOutcome E k = FsOk) →
  isSet (eventLogFile (fst (create E options o))) = true →
  ∃ summary endedAt st' o',
    (calls E (CallRecord <$> evs) ;;; flush E status errorMessage) (create E options o)
    = (Ok summary, (st', o'))
    ∧ event <$> events st' = evs
    ∧ eventStreamFileContent o'
      = Some (MetaStart (startedAt st') (logFile st') (eventStreamMode st')
              :: (EventEntry <$> List.filter (shouldStreamEvent st') (events st'))
              ++ [MetaEnd endedAt status (ifSet errorMessage) (eventCount summary)
                    (promptCount summary) (toolExecutionCount summary)
                    (toolExecutionErrorCount summary) (durationMs summary)
                    (eventStreamMode st')])
    ∧ sum_eventStreamWriteError summary = None.
Proof.
  intros Hfs Hset.
  destruct (create E options o) as [st0 o0] eqn:Hcreate. cbn [fst] in Hset.
  assert (Hst0 : flushedSummary st0 = None ∧ events st0 = []
                 ∧ eventStreamInitialized st0 = false
                 ∧ eventStreamWriteError st0 = None
                 ∧ eventStreamWriteQueue st0
                   = [MetaStart (startedAt st0) (logFile st0) (eventStreamMode st0)]).
  { unfold create, queueEventStreamLine in Hcreate. cbn in Hcreate.
    match type of Hcreate with
    | context [if ?c then _ else _] => destruct c eqn:Hc
    end; cbn in Hcreate; injection Hcreate as <- <-; cbn in *; [|done].
    rewrite Hset in Hc. done. }
  destruct Hst0 as (Hf0 & Hev0 & Hinit0 & Herr0 & Hq0).
  assert (Hstreaming0 : streaming st0 = true).
  { unfold streaming. by rewrite Hset, Herr0. }
  destruct (records_unflushed evs st0 o0 Hf0)
    as (st1 & o1 & new & Hcalls & Hev1 & Hnew & Hq1 & (Hs1 & Hs2 & Hs3 & Hs4) & Hf1
        & Hinit1 & Herr1 & _).
  assert (Hstreaming1 : streaming st1 = true).
  { unfold streaming. by rewrite Hs2, Herr1. }
  destruct (flush_streaming_ok status errorMessage st1 o1 Hfs Hf1 Hstreaming1)
    as (summary & endedAt & st' & o' & Hflush & Hev' & (Hs1' & Hs2' & Hs3' & Hs4')
        & Hcontent & Hwrite).
  exists summary, endedAt, st', o'.
  split; [unfold bind; by rewrite Hcalls|].
  rewrite Hev', Hev1, Hev0, app_nil_l.
  split; [exact Hnew|]. split.
  - assert (Hfilter : List.filter (shouldStreamEvent st') new
                      = List.filter (shouldStreamEvent st0) new).
    { apply List.filter_ext. intros e. apply shouldStreamEvent_mode. by rewrite Hs4'. }
    rewrite Hfilter, Hcontent, Hinit1, Hinit0, Hq1, Hq0, Hstreaming0, Hs1', Hs3', Hs4',
      Hs1, Hs3, Hs4.
    done.
  - by rewrite Hwrite, Herr1, Herr0.
Qed.




(** X11: a [flush] that rejects leaves the observer unflushed, with its
    events.  The log file is as it was when the write failed before the
    file was opened, and torn (truncated, with at most a part of the new
    log) when it failed after that.  Once the file system takes writes
    again, a second [flush] writes the whole log with the same events and
    returns. *)
Theorem failed_flush_can_be_retried
    (status : Status) (errorMessage : option string) (st : State) (o : Out)
    (error : Thrown) (st' : State) (o' : Out) :
  flush E status errorMessage (st, o) = (Throw error, (st', o')) →
  flushedSummary st' = None
  ∧ events st' = events st
  ∧ (∃ message,
       error = ErrorObject message
       ∧ (fsOutcome E (pred (fsOps o')) = FsFailEarly message
          ∧ logFileContent o' = logFileContent o
          ∨ fsOutcome E (pred (fsOps o')) = FsFailLate message
            ∧ logFileContent o' = Some Torn))
  ∧ ((∀ k, (fsOps o' ≤ k)%nat → fsOutcome E k = FsOk) →
     ∀ status2 errorMessage2,
       ∃ summary st2 o2 payload,
         flush E status2 errorMessage2 (st', o') = (Ok summary, (st2, o2))
         ∧ eventCount summary = Z.of_nat (List.length (events st))
         ∧ logFileContent o2 = Some (Whole payload)
         ∧ meta_status payload = status2
         ∧ payload_events payload = events st).
Proof.
  intros Hflush.
  assert (Hfirst :
    flushedSummary st' = None ∧ events st' = events st
    ∧ ∃ message,
        error = ErrorObject message
        ∧ (fsOutcome E (pred (fsOps o')) = FsFailEarly message
           ∧ logFileContent o' = logFileContent o
           ∨ fsOutcome E (pred (fsOps o')) = FsFailLate message
             ∧ logFileContent o' = Some Torn)).
  { unfold flush in Hflush. destruct (flushedSummary st) eqn:Hf; [done|].
    revert Hflush.
    unfold bind, dateNow, queueEventStreamLine, awaitWriteQueue, gets, writeLogFile, modify,
      ret.
    destruct (negb (isSet (eventLogFile st)) || isSet (eventStreamWriteError st));
      match goal with
      | |- context [drainQueue E ?q ?s ?o1] =>
          destruct (drainQueue_keeps q s o1) as (H1 & _ & H3 & _ & H5 & _);
          destruct (drainQueue E q s o1) as [st1 o1']
      end;
      cbn [fst snd] in *;
      destruct (fsOutcome E (fsOps o1')) as [|message|message] eqn:Hout;
      intros [= <- <- <-]; cbn; rewrite ?H1, ?H3, ?H5;
      (split; [done|]); (split; [done|]); exists message; (split; [done|]);
      rewrite Hout; [left|right|left|right]; done. }
  destruct Hfirst as (Hf' & Hev' & Hlog'). do 3 (split; [done|]).
  intros Hfs status2 errorMessage2.
  unfold flush. rewrite Hf'.
  unfold bind, dateNow, queueEventStreamLine, awaitWriteQueue, gets, writeLogFile, modify, ret.
  destruct (negb (isSet (eventLogFile st')) || isSet (eventStreamWriteError st'));
    match goal with
    | |- context [drainQueue E ?q ?s ?o1] =>
        pose proof (drainQueue_fsOps q s o1) as Hops;
        destruct (drainQueue E q s o1) as [st1 o1']
    end;
    cbn [fst snd] in *; rewrite Hfs by (rewrite Hops; cbn; lia);
    eexists _, _, _, _; (split; [reflexivity|]); cbn; by rewrite Hev'.
Qed.

Lemma defaultEventLogFile_json stem :
  defaultEventLogFile (stem +:+ ".json") = stem +:+ ".events.jsonl".
Proof.
  unfold defaultEventLogFile, endsWith, dropLast.
  rewrite length_append.
  change (String.length ".json") with 5%nat.
  replace (String.length stem + 5 - 5)%nat with (String.length stem) by lia.
  change 5%nat with (String.length ".json") at 1.
  rewrite substring_suffix, substring_prefix, String.eqb_refl.
  cbn [andb]. destruct (Nat.leb_spec 5 (String.length stem + 5)); [done|lia].
Qed.

(** X12: unless the event stream is disabled or given a file of its own, it
    goes to a file beside the log: the name of the log file with
    [.events.jsonl] in place of its [.json]. *)
Theorem event_stream_is_a_sidecar_of_the_log
    (options : SessionObserverOptions) (o : Out) (stem : string) :
  opt_disableEventStream options = false →
  opt_eventLogFile options = None →
  logFile (fst (create E options o)) = stem +:+ ".json" →
  eventLogFile (fst (create E options o)) = Some (stem +:+ ".events.jsonl").
Proof.
  unfold create, queueEventStreamLine. intros Hon Hnone. rewrite Hon, Hnone.
  cbn -[defaultEventLogFile].
  match goal with |- context [if ?c then _ else _] => destruct c end;
    cbn -[defaultEventLogFile]; intros ->; by rewrite defaultEventLogFile_json.
Qed.

End WithEnv.
End ObserverMore.

(* ===================================================================== *)
(** * More of the run summary *)
(* ===================================================================== *)

Module SummaryMore.
Import OrchestratorCommon SummaryFacts.

Lemma buildSummary_shares_by_rounds (c : Contributions) (checkpointCount swapCount : Z) :
  let total := cs_roundsDriven (contribA c) + cs_roundsDriven (contribB c) in
  cs_estimatedWrittenBytes (contribA c) + cs_estimatedWrittenBytes (contribB c) ≤ 0 →
  let summary := buildSummary c checkpointCount swapCount in
  (0 < total →
   roughCodeSharePercent (contribA (rs_contributions summary))
   = sharePercent (cs_roundsDriven (contribA c)) total
   ∧ roughCodeSharePercent (contribB (rs_contributions summary))
     = sharePercent (cs_roundsDriven (contribB c)) total)
  ∧ (total ≤ 0 →
     roughCodeSharePercent (contribA (rs_contributions summary)) = 0%Q
     ∧ roughCodeSharePercent (contribB (rs_contributions summary)) = 0%Q).
Proof.
  intros total Hbytes summary. unfold summary, buildSummary. fold total.
  destruct (Z.ltb_spec 0 (cs_estimatedWrittenBytes (contribA c)
                          + cs_estimatedWrittenBytes (contribB c))); [lia|].
  destruct (Z.ltb_spec 0 total); (split; [intros ?|intros ?]); first [lia|done].
Qed.

(** X13: of a number between 0 and 1000, [roundPercent] gives the binary64
    number for a whole number of tenths; that number of tenths is within
    a half of ten times the argument, and the result within 0.05 of the
    argument, in both cases up to the rounding of the product and of the
    quotient.  (A tie is decided on the rounded product, so that the
    result need not be the tenth nearest to the argument.) *)
Theorem roundPercent_is_the_nearest_tenth (x : Q) :
  (0 <= x)%Q → (x <= 1000)%Q →
  ∃ tenths : Z,
    roundPercent x = Double.div (inject_Z tenths) 10
    ∧ (Qabs (inject_Z tenths - 10 * x) <= (1 # 2) + Double.pow2 (-40))%Q
    ∧ (Qabs (roundPercent x - inject_Z tenths / 10) <= Double.pow2 (-44))%Q
    ∧ (Qabs (roundPercent x - x) <= (1 # 20) + Double.pow2 (-42))%Q.
Proof.
  intros Hlow Hup.
  destruct (roundPercent_spec x 1000 Hlow Hup ltac:(lia))
    as (tenths & Hshape & _ & Htenths & Hvalue & _ & _ & Hnear).
  exists tenths. exact (conj Hshape (conj Htenths (conj Hvalue Hnear))).
Qed.

(** X14: with no bytes written, the shares are those of the rounds driven
    (counts that binary64 holds exactly): each is the binary64 number for
    a whole number of tenths, within half a tenth of the agent's exact
    percentage of the rounds up to the rounding of the operations, and the
    two numbers of tenths add up to 999, 1000 or 1001.  With no round
    driven either, both shares are 0. *)
Theorem share_falls_back_to_rounds_driven
    (c : Contributions) (checkpointCount swapCount : Z) :
  cs_estimatedWrittenBytes (contribA c) + cs_estimatedWrittenBytes (contribB c) ≤ 0 →
  0 ≤ cs_roundsDriven (contribA c) →
  0 ≤ cs_roundsDriven (contribB c) →
  cs_roundsDriven (contribA c) + cs_roundsDriven (contribB c) < 2 ^ 53 →
  let drivenA := cs_roundsDriven (contribA c) in
  let drivenB := cs_roundsDriven (contribB c) in
  let summary := buildSummary c checkpointCount swapCount in
  let shareA := roughCodeSharePercent (contribA (rs_contributions summary)) in
  let shareB := roughCodeSharePercent (contribB (rs_contributions summary)) in
  (0 < drivenA + drivenB →
   ∃ tenthsA tenthsB : Z,
     shareA = Double.div (inject_Z tenthsA) 10
     ∧ shareB = Double.div (inject_Z tenthsB) 10
     ∧ (tenthsA + tenthsB = 999 ∨ tenthsA + tenthsB = 1000 ∨ tenthsA + tenthsB = 1001)
     ∧ (Qabs (shareA - 100 * inject_Z drivenA / inject_Z (drivenA + drivenB))
        <= (1 # 20) + Double.pow2 (-41))%Q
     ∧ (Qabs (shareB - 100 * inject_Z drivenB / inject_Z (drivenA + drivenB))
        <= (1 # 20) + Double.pow2 (-41))%Q)
  ∧ (drivenA + drivenB ≤ 0 → shareA = 0%Q ∧ shareB = 0%Q).
Proof.
  intros Hbytes HA HB _ drivenA drivenB summary shareA shareB.
  destruct (buildSummary_shares_by_rounds c checkpointCount swapCount Hbytes)
    as [Hrounds Hnone].
  fold drivenA drivenB summary in Hrounds, Hnone.
  fold shareA shareB in Hrounds, Hnone.
  split; [|exact Hnone].
  intros Hpos. destruct (Hrounds Hpos) as [EA EB]. rewrite EA, EB.
  destruct (sharePercent_pair drivenA drivenB HA HB Hpos)
    as (tenthsA & tenthsB & HshapeA & HshapeB & Hsum & HpercentA & HpercentB & _).
  exists tenthsA, tenthsB.
  exact (conj HshapeA (conj HshapeB (conj Hsum (conj HpercentA HpercentB)))).
Qed.

(** X15: no share leaves the range from 0 to 100, whatever the counts, as
    long as none of them is negative (and binary64 holds them exactly). *)
Theorem rough_code_share_is_a_percentage
    (c : Contributions) (checkpointCount swapCount : Z) :
  0 ≤ cs_estimatedWrittenBytes (contribA c) →
  0 ≤ cs_estimatedWrittenBytes (contribB c) →
  0 ≤ cs_roundsDriven (contribA c) →
  0 ≤ cs_roundsDriven (contribB c) →
  cs_estimatedWrittenBytes (contribA c) + cs_estimatedWrittenBytes (contribB c) < 2 ^ 53 →
  cs_roundsDriven (contribA c) + cs_roundsDriven (contribB c) < 2 ^ 53 →
  let summary := buildSummary c checkpointCount swapCount in
  (0 <= roughCodeSharePercent (contribA (rs_contributions summary)) <= 100)%Q
  ∧ (0 <= roughCodeSharePercent (contribB (rs_contributions summary)) <= 100)%Q.
Proof.
  intros HbA HbB HrA HrB _ _ summary.
  assert (Hrange : ∀ part total, 0 ≤ part ≤ total → 0 < total →
                     (0 <= sharePercent part total <= 100)%Q).
  { intros part total Hpart Htotal.
    destruct (sharePercent_spec part total Hpart Htotal)
      as (tenths & _ & _ & _ & _ & Hlow & Hup & _).
    exact (conj Hlow Hup). }
  destruct (Z.lt_ge_cases 0 (cs_estimatedWrittenBytes (contribA c)
                             + cs_estimatedWrittenBytes (contribB c))) as [Hbytes|Hbytes].
  { destruct (buildSummary_shares_by_bytes c checkpointCount swapCount Hbytes) as [EA EB].
    fold summary in EA, EB. rewrite EA, EB. split; apply Hrange; lia. }
  destruct (buildSummary_shares_by_rounds c checkpointCount swapCount Hbytes)
    as [Hrounds Hnone].
  fold summary in Hrounds, Hnone.
  destruct (Z.lt_ge_cases 0 (cs_roundsDriven (contribA c) + cs_roundsDriven (contribB c)))
    as [Hdriven|Hdriven].
  - destruct (Hrounds Hdriven) as [EA EB]. rewrite EA, EB. split; apply Hrange; lia.
  - destruct (Hnone Hdriven) as [EA EB]. rewrite EA, EB. split; split; lra.
Qed.

End SummaryMore.

(* ===================================================================== *)
(** * More of the command line *)
(* ===================================================================== *)

Module CliMore.
Import Cli CliSpec.

Lemma parsePositiveInteger_ok name value n :
  parsePositiveInteger name value = Ok n → 0 < n ∧ parseInt value = Double.Finite n.
Proof.
  unfold parsePositiveInteger. destruct (parseInt value) as [| |parsed]; [done..|].
  destruct (Z.leb_spec parsed 0); [done|]. intros [= <-]. done.
Qed.

Section WithPaths.
Context (resolve : string → string).

(** A property of the configuration that every option and the
    [--keep-workspace] flag preserve holds at the end of the loop. *)
Lemma parseArgs_invariant (P : CliConfig → Prop) :
  (∀ c arg next c', P c → applyOption resolve c arg next = Ok c' → P c') →
  (∀ c, P c →
        P {| task := task c; outputPath := outputPath c; logFile := logFile c;
             eventLogFile := eventLogFile c; eventStreamMode := eventStreamMode c;
             workspaceMode := workspaceMode c; keepWorkspace := true; pair := pair c |}) →
  ∀ n argv, (List.length argv ≤ n)%nat →
  ∀ c c', P c → parseArgs resolve argv c = Ok c' → P c'.
Proof.
  intros Hoption Hkeep.
  induction n as [|n IH]; intros [|arg argv] Hlen c c' Hc;
    cbn [List.length] in Hlen; try lia; cbn [parseArgs]; try (by intros [= <-]).
  destruct (String.eqb arg ""); [apply IH; [lia|done]|].
  destruct (String.eqb arg "--help" || String.eqb arg "-h"); [done|].
  destruct (String.eqb arg "--keep-workspace"); [apply IH; [lia|by apply Hkeep]|].
  destruct (negb (Js.startsWith arg "--")); [apply IH; [lia|done]|].
  destruct argv as [|next argv]; [done|].
  destruct (String.eqb next ""); [done|].
  destruct (applyOption resolve c arg next) as [c1|e] eqn:Happly; [|done].
  apply IH; [cbn [List.length] in Hlen; lia|]. by apply (Hoption c arg next).
Qed.

Lemma applyOption_positive c arg next c' :
  positiveNumbers (pair c) →
  applyOption resolve c arg next = Ok c' →
  positiveNumbers (pair c').
Proof.
  intros (Hrounds & Hpolicy & Hpause). unfold applyOption.
  repeat match goal with
         | |- context [if String.eqb arg ?s then _ else _] => destruct (String.eqb arg s)
         end;
    unfold andThen;
    try (intros [= <-]; done);
    try (match goal with
         | |- context [match ?r with Ok _ => _ | Throw _ => _ end] =>
             destruct r as [x|e] eqn:Hr; [|done]
         end;
         intros [= <-]; cbn; try done).
  - (* --max-rounds *)
    apply parsePositiveInteger_ok in Hr as [Hx _]. done.
  - (* --turn-policy *)
    unfold setTurnPolicy in Hr.
    destruct (String.eqb next "alternate_each_round"); [by injection Hr as <-|].
    destruct (String.eqb next "same_driver_until_navigator_signoff"); [|done].
    injection Hr as <-. split; [done|]. split; [|done].
    destruct (turnPolicy (pair c)); [cbn; lia|done].
  - (* --max-consecutive-rounds *)
    unfold setMaxConsecutiveRounds in Hr. split; [done|]. split; [|done].
    destruct (turnPolicy (pair c)) as [|r k]; cbn in Hr;
      destruct (parsePositiveInteger _ next) as [n|] eqn:Hn; try done;
      apply parsePositiveInteger_ok in Hn as [Hn _]; injection Hr as <-;
      cbn; [lia|]. split; [done|]. apply Hpolicy.
  - (* --max-consecutive-checkpoints *)
    unfold setMaxConsecutiveCheckpoints in Hr. split; [done|]. split; [|done].
    destruct (turnPolicy (pair c)) as [|r k]; cbn in Hr;
      destruct (parsePositiveInteger _ next) as [n|] eqn:Hn; try done;
      apply parsePositiveInteger_ok in Hn as [Hn _]; injection Hr as <-;
      cbn; [lia|]. split; [apply Hpolicy|done].
  - (* --pause-mode *)
    unfold setPauseMode in Hr.
    destruct (String.eqb next "none"); [by injection Hr as <-|].
    destruct (String.eqb next "every_n_file_edits"); [|done].
    injection Hr as <-. do 2 (split; [done|]).
    destruct (pauseStrategy (pair c)); [cbn; lia|done].
  - (* --edits-per-pause *)
    unfold setEditsPerPause in Hr. do 2 (split; [done|]).
    destruct (pauseStrategy (pair c)) as [|n0 tools]; cbn in Hr;
      destruct (parsePositiveInteger _ next) as [n|] eqn:Hn; try done;
      apply parsePositiveInteger_ok in Hn as [Hn _]; by injection Hr as <-.
Qed.

(** X16: whatever the arguments, a configuration that [parseCli] returns has
    a positive round limit, positive safety caps when the policy is the
    sticky one, and a positive checkpoint period when pauses are
    count-based: zero, negative and non-numeric values are rejected. *)
Theorem parsed_counts_are_positive (argv : list string) (processCwd : string)
    (parsed : CliConfig) :
  parseCli resolve argv processCwd = Ok parsed → positiveNumbers (pair parsed).
Proof.
  unfold parseCli.
  match goal with |- context [parseArgs resolve argv ?c0] =>
    destruct (parseArgs resolve argv c0) as [c|e] eqn:Hparse; [|done];
    pose proof (parseArgs_invariant (λ c, positiveNumbers (pair c))
                  applyOption_positive (λ c H, H) (List.length argv) argv (le_n _)
                  c0 c) as Hinv
  end.
  destruct (String.eqb (task c) ""); [done|]. intros [= <-]. cbn.
  apply Hinv; [|exact Hparse]. cbn. unfold positiveNumbers. cbn. lia.
Qed.

(** What an option does to the task. *)
Lemma applyOption_task c arg next c' :
  applyOption resolve c arg next = Ok c' →
  task c' = if String.eqb arg "--task" then Js.trim next else task c.
Proof.
  unfold applyOption.
  repeat match goal with
         | |- context [if String.eqb arg ?s then _ else _] => destruct (String.eqb arg s)
         end;
    unfold andThen;
    repeat match goal with
           | |- context [match ?r with Ok _ => _ | Throw _ => _ end] => destruct r
           end;
    intros [= <-]; reflexivity.
Qed.

Lemma parseArgs_task n : ∀ argv, (List.length argv ≤ n)%nat →
  ∀ c c', parseArgs resolve argv c = Ok c' →
  task c' = task c
  ∨ ∃ before value after,
      argv = before ++ "--task" :: value :: after ∧ task c' = Js.trim value.
Proof.
  induction n as [|n IH]; intros [|arg argv] Hlen c c';
    cbn [List.length] in Hlen; try lia; cbn [parseArgs]; try (intros [= <-]; by left).
  assert (Hskip : ∀ c0, parseArgs resolve argv c0 = Ok c' → task c0 = task c →
            task c' = task c
            ∨ ∃ before value after,
                arg :: argv = before ++ "--task" :: value :: after
                ∧ task c' = Js.trim value).
  { intros c0 Hparse Htask.
    destruct (IH argv ltac:(lia) c0 c' Hparse) as [Hsame|(before & value & after & -> & Ht)].
    - left. congruence.
    - right. exists (arg :: before), value, after. done. }
  destruct (String.eqb arg ""); [intros H; by apply (Hskip c)|].
  destruct (String.eqb arg "--help" || String.eqb arg "-h"); [done|].
  destruct (String.eqb arg "--keep-workspace"); [intros H; by apply (Hskip _ H)|].
  destruct (negb (Js.startsWith arg "--")); [intros H; by apply (Hskip c)|].
  destruct argv as [|next argv]; [done|].
  destruct (String.eqb next ""); [done|].
  destruct (applyOption resolve c arg next) as [c1|e] eqn:Happly; [|done].
  apply applyOption_task in Happly. intros Hparse.
  destruct (IH argv ltac:(cbn [List.length] in Hlen; lia) c1 c' Hparse)
    as [Hsame|(before & value & after & -> & Ht)].
  - destruct (String.eqb_spec arg "--task") as [->|Hne].
    + right. exists [], next, argv. split; [done|]. congruence.
    + left. congruence.
  - right. exists (arg :: next :: before), value, after. done.
Qed.

(** X17: a configuration comes back only for a task: the task returned is the
    trimmed value of a [--task] option of the argument list and is not
    empty.  Without such an option, or with a blank value, [parseCli]
    raises. *)
Theorem parsed_task_comes_from_a_task_option (argv : list string) (processCwd : string)
    (parsed : CliConfig) :
  parseCli resolve argv processCwd = Ok parsed →
  task parsed ≠ ""
  ∧ ∃ before value after,
      argv = before ++ "--task" :: value :: after ∧ task parsed = Js.trim value.
Proof.
  unfold parseCli.
  match goal with |- context [parseArgs resolve argv ?c0] =>
    destruct (parseArgs resolve argv c0) as [c|e] eqn:Hparse; [|done]
  end.
  destruct (String.eqb_spec (task c) "") as [|Hne]; [done|]. intros [= <-]. cbn [task].
  split; [done|].
  destruct (parseArgs_task (List.length argv) argv (le_n _) _ _ Hparse)
    as [Hsame|Hfound]; [|done].
  cbn in Hsame. done.
Qed.

End WithPaths.
End CliMore.

(* ===================================================================== *)
(** * More of the round loop *)
(* ===================================================================== *)

Module LoopMore.
Import OrchestratorCommon Orchestrator LoopSpec StepFacts.

Lemma bind_Ok_inv {S T U} (m : ST S T) (k : T → ST S U) s y s' :
  bind m k s = (Ok y, s') → ∃ x s1, m s = (Ok x, s1) ∧ k x s1 = (Ok y, s').
Proof. unfold bind. destruct (m s) as [[x|e] s1]; [eauto|done]. Qed.

(** Strips the binds of a computation that returned, down to its last
    step. *)
Ltac last_step H :=
  repeat (apply bind_Ok_inv in H; destruct H as (? & ? & _ & H)).

(** What [buildSummary] passes on as it is. *)
Lemma buildSummary_counts c checkpoints swaps :
  rs_checkpointCount (buildSummary c checkpoints swaps) = checkpoints
  ∧ rs_swapCount (buildSummary c checkpoints swaps) = swaps
  ∧ totalEstimatedWrittenBytes (buildSummary c checkpoints swaps)
    = cs_estimatedWrittenBytes (contribA c) + cs_estimatedWrittenBytes (contribB c)
  ∧ ∀ agent,
      let before := contribution c agent in
      let after := contribution (rs_contributions (buildSummary c checkpoints swaps)) agent in
      cs_agent after = cs_agent before
      ∧ cs_estimatedWrittenBytes after = cs_estimatedWrittenBytes before
      ∧ cs_editWriteCallCount after = cs_editWriteCallCount before
      ∧ cs_roundsDriven after = cs_roundsDriven before
      ∧ cs_checkpointsWhileDriving after = cs_checkpointsWhileDriving before.
Proof.
  unfold buildSummary.
  repeat match goal with |- context [if ?b then _ else _] => destruct b end;
    cbn; repeat split; try done; by destruct agent.
Qed.

Section WithEnv.
Context (E : Env) (config : PairAgentConfig).

(** [afterRound] returns what [nextLoopState] says. *)
Lemma afterRound_value round ls result w :
  ∃ w', afterRound E config round ls result w
        = (Ok (nextLoopState config round ls result), w').
Proof.
  unfold afterRound, nextLoopState. cbv zeta.
  destruct (observerCall_record_ok E
              (orchestratorEvent "round_end" round (roundEndDetails result)) w)
    as (w1 & Hrec & _).
  rewrite (bind_ok _ _ _ _ _ Hrec).
  destruct (shouldStop result).
  { match goal with |- context [broadcastShared E ?s ?a ?c] =>
      destruct (broadcastShared_ok E s a c w1) as (ts & w2 & Hb & _) end.
    rewrite (bind_ok _ _ _ _ _ Hb). unfold ret. by eauto. }
  destruct (round =? maxRounds config).
  { match goal with |- context [broadcastShared E ?s ?a ?c] =>
      destruct (broadcastShared_ok E s a c w1) as (ts & w2 & Hb & _) end.
    rewrite (bind_ok _ _ _ _ _ Hb). unfold ret. by eauto. }
  destruct (swap _); [|unfold ret; by eauto].
  match goal with |- context [broadcastShared E ?s ?a ?c] =>
    destruct (broadcastShared_ok E s a c w1) as (ts & w2 & Hb & _) end.
  rewrite (bind_ok _ _ _ _ _ Hb).
  match goal with |- context [observerCall (Observer.record E ?ev)] =>
    destruct (observerCall_record_ok E ev w2) as (w3 & Hrec3 & _) end.
  rewrite (bind_ok _ _ _ _ _ Hrec3). unfold ret. by eauto.
Qed.

(** A round that returns is numbered and attributed as it was asked. *)
Lemma runRound_fields task agreedPlan round driver w result w' :
  runRound E config task agreedPlan round driver w = (Ok result, w') →
  rr_round result = round
  ∧ rr_driver result = driver
  ∧ rr_navigator result = otherAgent driver.
Proof.
  unfold runRound. cbv zeta. intros H. last_step H.
  unfold ret in H. by injection H as <- _.
Qed.

Lemma roundLoop_replays task agreedPlan remaining : ∀ round ls w ls' w',
  (Z.to_nat (maxRounds config - round + 1) ≤ remaining)%nat →
  roundLoop E config task agreedPlan remaining round ls w = (Ok ls', w') →
  ∃ results,
    replays config round ls results
    ∧ ls' = finalState config round ls results
    ∧ (round ≤ maxRounds config → results ≠ []).
Proof.
  induction remaining as [|remaining IH]; intros round ls w ls' w' Hfuel; cbn [roundLoop].
  { intros [= <- <-]. exists []. do 2 (split; [done|]). lia. }
  destruct (Z.leb_spec round (maxRounds config)) as [Hround|Hround].
  2:{ intros [= <- <-]. exists []. do 2 (split; [done|]). lia. }
  intros H.
  apply bind_Ok_inv in H as ([] & w0 & _ & H).
  apply bind_Ok_inv in H as (result & w1 & Hrun & H).
  apply bind_Ok_inv in H as (next & w2 & Hafter & H).
  destruct (afterRound_value round ls result w1) as (w2' & Hvalue).
  rewrite Hvalue in Hafter. injection Hafter as <- <-.
  destruct (runRound_fields _ _ _ _ _ _ _ Hrun) as (Hr & Hd & Hn).
  destruct (fst (nextLoopState config round ls result)) eqn:Hcontinue.
  - assert (Hmore : round + 1 ≤ maxRounds config).
    { unfold nextLoopState in Hcontinue. cbv zeta in Hcontinue.
      destruct (shouldStop result); [done|].
      destruct (Z.eqb_spec round (maxRounds config)); [done|lia]. }
    assert (Hfuel' : (Z.to_nat (maxRounds config - (round + 1) + 1) ≤ remaining)%nat)
      by lia.
    destruct (IH _ _ _ _ _ Hfuel' H) as (results & Hreplays & -> & Hne).
    exists (result :: results). cbn [replays finalState]. rewrite Hcontinue.
    repeat split; auto.
  - injection H as <- <-. exists [result]. cbn [replays finalState]. rewrite Hcontinue.
    repeat split; auto.
Qed.

(** The rounds of the loop variables are the rounds run. *)
Lemma finalState_rounds results : ∀ round ls,
  rounds (finalState config round ls results) = rounds ls ++ results.
Proof.
  induction results as [|result results IH]; intros round ls; cbn [finalState].
  { by rewrite app_nil_r. }
  rewrite IH. unfold nextLoopState. cbv zeta.
  repeat case_match; cbn; by rewrite <- app_assoc.
Qed.

(** A paired execution that returns, read as a run of the loop. *)
Lemma runPairedExecution_replays task agreedPlan w ex w' :
  runPairedExecution E config task agreedPlan w = (Ok ex, w') →
  ∃ results,
    replays config 1 (initialLoopState config) results
    ∧ (1 ≤ maxRounds config → results ≠ [])
    ∧ ex_rounds ex = results
    ∧ ex_checkpointCount ex
      = checkpointCount (finalState config 1 (initialLoopState config) results)
    ∧ ex_swapCount ex = swapCount (finalState config 1 (initialLoopState config) results)
    ∧ ex_contributions ex
      = contributions (finalState config 1 (initialLoopState config) results)
    ∧ ex_finalReview ex = None.
Proof.
  unfold runPairedExecution. intros H.
  apply bind_Ok_inv in H as (ls & w1 & Hloop & H).
  assert (Hfuel : (Z.to_nat (maxRounds config - 1 + 1) ≤ Z.to_nat (maxRounds config))%nat)
    by lia.
  destruct (roundLoop_replays _ _ _ _ _ _ _ _ Hfuel Hloop)
    as (results & Hreplays & -> & Hne).
  exists results. unfold ret in H. injection H as <- _. cbn.
  rewrite finalState_rounds. done.
Qed.

(** A paired run that returns, read as a paired execution. *)
Lemma run_paired_inv task w result w' :
  executionMode config = PairedTurns →
  run E config task w = (Ok result, w') →
  ∃ agreedPlan w1 ex w2,
    runPairedExecution E config task agreedPlan w1 = (Ok ex, w2)
    ∧ res_rounds result = ex_rounds ex
    ∧ res_summary result
      = buildSummary (ex_contributions ex) (ex_checkpointCount ex) (ex_swapCount ex).
Proof.
  intros Hmode. unfold run. intros H.
  apply bind_Ok_inv in H as ([core observability] & w1 & Htry & H).
  unfold ret in H. injection H as <- <-.
  unfold tryCatchRethrowFinally in Htry.
  destruct (runBody E config task w) as [[core'|e] wb] eqn:Hbody.
  2:{ destruct (recordSessionError E e wb) as [handled wh].
      by destruct (flushAtEnd E (Some e) wh) as [[?|?] ?]. }
  destruct (flushAtEnd E None wb) as [[y|e] wf]; [|done].
  injection Htry as <- <- <-.
  unfold runBody in Hbody. rewrite Hmode in Hbody.
  apply bind_Ok_inv in Hbody as ([] & ? & _ & Hbody).
  apply bind_Ok_inv in Hbody as ([] & ? & _ & Hbody).
  apply bind_Ok_inv in Hbody as (agreedPlan & wp & _ & Hbody).
  apply bind_Ok_inv in Hbody as (ex & we & Hex & Hbody).
  apply bind_Ok_inv in Hbody as (review & ? & _ & Hbody).
  apply bind_Ok_inv in Hbody as (journal & ? & _ & Hbody).
  unfold ret in Hbody. injection Hbody as <- _.
  exists agreedPlan, wp, ex, we. done.
Qed.

(** ** Numbering *)

Lemma replays_numbers results : ∀ round ls,
  replays config round ls results →
  rr_round <$> results = seqZ round (Z.of_nat (List.length results))
  ∧ (results ≠ [] → round + Z.of_nat (List.length results) - 1 ≤ maxRounds config)
  ∧ Forall (λ r, rr_navigator r = otherAgent (rr_driver r)) results.
Proof.
  induction results as [|result rest IH]; intros round ls; cbn [replays].
  { intros _. done. }
  intros (Hr & Hd & Hn & Hle & Hlast & Hrest).
  destruct (IH _ _ Hrest) as (Hnumbers & Hbound & Hnav).
  split; [|split].
  - rewrite seqZ_cons by (cbn [List.length]; lia). cbn [fmap list_fmap]. f_equal; [done|].
    replace (Z.pred (Z.of_nat (List.length (result :: rest))))
      with (Z.of_nat (List.length rest)) by (cbn [List.length]; lia).
    exact Hnumbers.
  - intros _. cbn [List.length]. destruct rest as [|next rest]; [cbn; lia|].
    specialize (Hbound ltac:(done)). cbn [List.length] in *. lia.
  - constructor; [congruence|done].
Qed.

(** X18: the rounds of a paired run are numbered 1, 2, 3, ... without a gap;
    there are at most [maxRounds] of them, and at least one when
    [maxRounds] is positive; in each the navigator is the agent that does
    not drive. *)
Theorem rounds_are_numbered_from_one (task : string) (w : World)
    (result : PairRunResult) (w' : World) :
  executionMode config = PairedTurns →
  run E config task w = (Ok result, w') →
  rr_round <$> res_rounds result = seqZ 1 (Z.of_nat (List.length (res_rounds result)))
  ∧ Z.of_nat (List.length (res_rounds result)) ≤ Z.max 0 (maxRounds config)
  ∧ (0 < maxRounds config → res_rounds result ≠ [])
  ∧ Forall (λ r, rr_navigator r = otherAgent (rr_driver r)) (res_rounds result).
Proof.
  intros Hmode Hrun.
  destruct (run_paired_inv _ _ _ _ Hmode Hrun) as (plan & w1 & ex & w2 & Hex & Hrounds & _).
  destruct (runPairedExecution_replays _ _ _ _ _ Hex) as (results & Hreplays & Hne & <- & _).
  rewrite Hrounds.
  destruct (replays_numbers _ _ _ Hreplays) as (Hnumbers & Hbound & Hnav).
  split; [done|]. split; [|split; [intros; apply Hne; lia|done]].
  destruct (ex_rounds ex) as [|r rest]; [cbn; lia|]. specialize (Hbound ltac:(done)). lia.
Qed.

(** ** Alternation *)

Lemma nextLoopState_alternate round ls result :
  turnPolicy config = AlternateEachRound →
  if fst (nextLoopState config round ls result)
  then driverId (snd (nextLoopState config round ls result)) = otherAgent (driverId ls)
       ∧ swapCount (snd (nextLoopState config round ls result)) = swapCount ls + 1
  else swapCount (snd (nextLoopState config round ls result)) = swapCount ls.
Proof.
  intros Hpolicy. unfold nextLoopState, shouldSwapDriver. rewrite Hpolicy. cbv zeta.
  destruct (shouldStop result); [done|].
  by destruct (round =? maxRounds config).
Qed.

Lemma otherAgent_involutive agent : otherAgent (otherAgent agent) = agent.
Proof. by destruct agent. Qed.

Lemma replays_alternate results : ∀ round ls,
  turnPolicy config = AlternateEachRound →
  replays config round ls results →
  (∀ k r, results !! k = Some r →
          rr_driver r = if Nat.even k then driverId ls else otherAgent (driverId ls))
  ∧ swapCount (finalState config round ls results)
    = swapCount ls + Z.of_nat (List.length results - 1).
Proof.
  induction results as [|result rest IH]; intros round ls Hpolicy; cbn [replays finalState].
  { intros _. split; [intros k r Hk; by rewrite lookup_nil in Hk|cbn; lia]. }
  intros (Hr & Hd & Hn & Hle & Hlast & Hrest).
  pose proof (nextLoopState_alternate round ls result Hpolicy) as Hnext.
  destruct (fst (nextLoopState config round ls result)).
  - destruct Hnext as [Hdriver Hswaps].
    destruct (IH _ _ Hpolicy Hrest) as [Hdrivers Hcount].
    split.
    + intros [|k] r Hk; [by injection Hk as <-|].
      cbn in Hk. rewrite (Hdrivers k r Hk), Hdriver, otherAgent_involutive.
      rewrite Nat.even_succ. unfold Nat.odd. by destruct (Nat.even k).
    + rewrite Hcount, Hswaps. destruct rest; [done|]. cbn [List.length]. lia.
  - subst rest. cbn [finalState]. split; [|cbn; lia].
    intros [|k] r Hk; [by injection Hk as <-|done].
Qed.

(** X19: with the policy [alternate_each_round] the agents take turns: the
    starting driver drives the first, third, fifth round and the other
    agent the rounds between; every round but the last ends with a swap,
    so a run of [n] rounds counts [n - 1] swaps. *)
Theorem alternate_policy_takes_turns (task : string) (w : World)
    (result : PairRunResult) (w' : World) :
  executionMode config = PairedTurns →
  turnPolicy config = AlternateEachRound →
  run E config task w = (Ok result, w') →
  (∀ k r, res_rounds result !! k = Some r →
          rr_driver r = if Nat.even k then driverStartsAs config
                        else otherAgent (driverStartsAs config))
  ∧ rs_swapCount (res_summary result)
    = Z.of_nat (List.length (res_rounds result) - 1).
Proof.
  intros Hmode Hpolicy Hrun.
  destruct (run_paired_inv _ _ _ _ Hmode Hrun)
    as (plan & w1 & ex & w2 & Hex & Hrounds & Hsummary).
  destruct (runPairedExecution_replays _ _ _ _ _ Hex)
    as (results & Hreplays & _ & <- & _ & Hswaps & _).
  destruct (replays_alternate _ _ _ Hpolicy Hreplays) as [Hdrivers Hcount].
  rewrite Hrounds, Hsummary. split; [exact Hdrivers|].
  destruct (buildSummary_counts (ex_contributions ex) (ex_checkpointCount ex)
              (ex_swapCount ex)) as (_ & -> & _).
  rewrite Hswaps, Hcount. cbn. lia.
Qed.

(** ** The forced swap *)

Lemma snoc_eq_app {T} (l : list T) (x : T) (a b : list T) :
  l ++ [x] = a ++ b →
  (b = [] ∧ a = l ++ [x]) ∨ (∃ b', b = b' ++ [x] ∧ l = a ++ b').
Proof.
  destruct b as [|y b] using rev_ind.
  - rewrite app_nil_r. intros <-. by left.
  - clear IHb. rewrite app_assoc. intros Heq. apply app_inj_tail in Heq as [-> ->].
    right. by exists b.
Qed.

Lemma lastRun_snoc_same n driver past result :
  lastRunAtMost n driver past →
  lastRunAtMost (n + 1) driver (past ++ [result]).
Proof.
  intros Hpast before run Heq Hrun.
  destruct (snoc_eq_app _ _ _ _ Heq) as [[-> _]|(run' & -> & ->)]; [cbn; specialize (Hpast past [] ltac:(by rewrite app_nil_r) ltac:(constructor)); cbn in Hpast; lia|].
  apply Forall_app in Hrun as [Hrun' _].
  specialize (Hpast before run' eq_refl Hrun'). rewrite length_app. cbn. lia.
Qed.

Lemma lastRun_snoc_other driver past result :
  rr_driver result = driver →
  lastRunAtMost 0 (otherAgent driver) (past ++ [result]).
Proof.
  intros Hd before run Heq Hrun.
  destruct (snoc_eq_app _ _ _ _ Heq) as [[-> _]|(run' & -> & ->)]; [done|].
  apply Forall_app in Hrun as [_ Hlast]. inversion Hlast as [|? ? Hbad _]; subst.
  rewrite Hbad in *. by destruct (rr_driver result).
Qed.

Lemma runs_snoc cap n past result :
  0 ≤ n → n + 1 ≤ cap →
  lastRunAtMost n (rr_driver result) past →
  runsAtMost cap past →
  runsAtMost cap (past ++ [result]).
Proof.
  intros Hn Hcap Hlast Hpast before run after driver Heq Hrun.
  rewrite app_assoc in Heq.
  destruct (snoc_eq_app _ _ _ _ Heq) as [[-> Heq']|(after' & -> & ->)].
  - symmetry in Heq'.
    destruct (snoc_eq_app _ _ _ _ Heq') as [[-> _]|(run' & -> & ->)]; [cbn; lia|].
    apply Forall_app in Hrun as [Hrun' Hx]. inversion Hx as [|? ? Hdriver _].
    rewrite <- Hdriver in Hrun'.
    specialize (Hlast before run' eq_refl Hrun'). rewrite length_app. cbn. lia.
  - apply (Hpast before run after' driver); [by rewrite app_assoc|done].
Qed.

(** Under the sticky policy, an iteration that lets the loop go on leaves
    the driver with fewer consecutive rounds than the cap: either the
    driver was swapped, or the cap was not reached. *)
Lemma nextLoopState_sticky cap checkpointCap round ls result :
  turnPolicy config = SameDriverUntilNavigatorSignoff cap checkpointCap →
  fst (nextLoopState config round ls result) = true →
  (driverId (snd (nextLoopState config round ls result)) = otherAgent (driverId ls)
   ∧ consecutiveRoundsWithDriver (snd (nextLoopState config round ls result)) = 0)
  ∨ (driverId (snd (nextLoopState config round ls result)) = driverId ls
     ∧ consecutiveRoundsWithDriver (snd (nextLoopState config round ls result))
       = consecutiveRoundsWithDriver ls + 1
     ∧ consecutiveRoundsWithDriver ls + 1 < cap).
Proof.
  intros Hpolicy. unfold nextLoopState, shouldSwapDriver. rewrite Hpolicy. cbv zeta.
  destruct (shouldStop result); [done|].
  destruct (round =? maxRounds config); [done|].
  destruct (bool_decide _); [by left|]. cbn [accumulate consecutiveRoundsWithDriver].
  destruct (Z.leb_spec cap (consecutiveRoundsWithDriver ls + 1)); [by left|].
  destruct (_ <=? _); [by left|]. intros _. right. cbn. done.
Qed.

Lemma replays_cap cap checkpointCap results : ∀ round ls past,
  turnPolicy config = SameDriverUntilNavigatorSignoff cap checkpointCap →
  replays config round ls results →
  0 ≤ consecutiveRoundsWithDriver ls < cap →
  lastRunAtMost (consecutiveRoundsWithDriver ls) (driverId ls) past →
  runsAtMost cap past →
  runsAtMost cap (past ++ results).
Proof.
  induction results as [|result rest IH]; intros round ls past Hpolicy; cbn [replays].
  { intros _ _ _ Hpast. by rewrite app_nil_r. }
  intros (Hr & Hd & Hn & Hle & Hlast & Hrest) Hcount Htail Hpast.
  assert (Hpast' : runsAtMost cap (past ++ [result])).
  { apply (runs_snoc cap (consecutiveRoundsWithDriver ls)); [lia|lia| |done].
    by rewrite Hd. }
  destruct (fst (nextLoopState config round ls result)) eqn:Hcontinue.
  2:{ by subst rest. }
  replace (past ++ result :: rest) with ((past ++ [result]) ++ rest)
    by (by rewrite <- app_assoc).
  destruct (nextLoopState_sticky cap checkpointCap round ls result Hpolicy Hcontinue)
    as [[Hdriver Hzero]|(Hdriver & Hplus & Hbelow)].
  - apply (IH _ _ _ Hpolicy Hrest); [lia| |done].
    rewrite Hdriver, Hzero. by apply lastRun_snoc_other.
  - apply (IH _ _ _ Hpolicy Hrest); [lia| |done].
    rewrite Hdriver, Hplus. by apply lastRun_snoc_same.
Qed.

(** X20: under the sticky policy no agent drives more than
    [maxConsecutiveRounds] rounds in a row, whatever the navigator
    recommends: any stretch of consecutive rounds of a paired run with one
    and the same driver is at most that long. *)
Theorem no_driver_exceeds_the_round_cap (task : string) (w : World)
    (result : PairRunResult) (w' : World) (cap checkpointCap : Z) :
  executionMode config = PairedTurns →
  turnPolicy config = SameDriverUntilNavigatorSignoff cap checkpointCap →
  0 < cap →
  run E config task w = (Ok result, w') →
  runsAtMost cap (res_rounds result).
Proof.
  intros Hmode Hpolicy Hcap Hrun.
  destruct (run_paired_inv _ _ _ _ Hmode Hrun) as (plan & w1 & ex & w2 & Hex & Hrounds & _).
  destruct (runPairedExecution_replays _ _ _ _ _ Hex) as (results & Hreplays & _ & <- & _).
  rewrite Hrounds.
  apply (replays_cap cap checkpointCap (ex_rounds ex) 1 (initialLoopState config) []
           Hpolicy Hreplays).
  - cbn. lia.
  - intros before run Heq _. symmetry in Heq. apply app_eq_nil in Heq as [_ ->]. done.
  - intros before run after driver Heq _. symmetry in Heq.
    apply app_eq_nil in Heq as [_ Heq]. apply app_eq_nil in Heq as [-> _]. cbn. lia.
Qed.

(** ** Totals *)

Lemma nextLoopState_counts round ls result :
  checkpointCount (snd (nextLoopState config round ls result))
  = checkpointCount ls + rr_checkpointCount result
  ∧ contributions (snd (nextLoopState config round ls result))
    = contributions (accumulate ls result).
Proof.
  unfold nextLoopState. cbv zeta. repeat case_match; done.
Qed.

Lemma total_drivenBy_cons agent f result rest :
  totalDrivenBy agent f (result :: rest)
  = (if drivenBy agent result then f result else 0) + totalDrivenBy agent f rest.
Proof.
  unfold totalDrivenBy. cbn [List.filter]. by destruct (drivenBy agent result).
Qed.

Lemma finalState_totals results : ∀ round ls,
  replays config round ls results →
  checkpointCount (finalState config round ls results)
  = checkpointCount ls + total rr_checkpointCount results
  ∧ ∀ agent,
      cs_estimatedWrittenBytes
        (contribution (contributions (finalState config round ls results)) agent)
      = cs_estimatedWrittenBytes (contribution (contributions ls) agent)
        + totalDrivenBy agent rr_estimatedWrittenBytes results
      ∧ cs_editWriteCallCount
          (contribution (contributions (finalState config round ls results)) agent)
        = cs_editWriteCallCount (contribution (contributions ls) agent)
          + totalDrivenBy agent rr_editWriteCallCount results
      ∧ cs_roundsDriven
          (contribution (contributions (finalState config round ls results)) agent)
        = cs_roundsDriven (contribution (contributions ls) agent)
          + totalDrivenBy agent (λ _, 1) results
      ∧ cs_checkpointsWhileDriving
          (contribution (contributions (finalState config round ls results)) agent)
        = cs_checkpointsWhileDriving (contribution (contributions ls) agent)
          + totalDrivenBy agent rr_checkpointCount results.
Proof.
  induction results as [|result rest IH]; intros round ls; cbn [replays finalState].
  { intros _. split; [cbn; lia|]. intros agent. unfold totalDrivenBy. cbn. lia. }
  intros (Hr & Hd & Hn & Hle & Hlast & Hrest).
  destruct (IH _ _ Hrest) as [Hcheckpoints Hagents].
  destruct (nextLoopState_counts round ls result) as [Hc Hcontrib].
  split; [rewrite Hcheckpoints, Hc; cbn [total]; lia|].
  intros agent. destruct (Hagents agent) as (H1 & H2 & H3 & H4).
  rewrite H1, H2, H3, H4, Hcontrib, !total_drivenBy_cons.
  unfold drivenBy. rewrite Hd. cbn [accumulate contributions].
  destruct agent, (driverId ls); repeat case_bool_decide; try done; cbn; repeat split; lia.
Qed.

Lemma total_split f results :
  total f results = totalDrivenBy A f results + totalDrivenBy B f results.
Proof.
  induction results as [|result rest IH]; [done|].
  rewrite !total_drivenBy_cons. cbn [total]. rewrite IH. unfold drivenBy.
  destruct (rr_driver result); repeat case_bool_decide; try done; lia.
Qed.

(** X21: the summary of a paired run adds up its rounds: the checkpoint count
    and the total of estimated bytes are the sums over all rounds, and
    each agent is credited with the bytes, the calls, the checkpoints and
    the number of the rounds it drove, and with nothing of the rounds it
    navigated. *)
Theorem summary_adds_up_the_rounds (task : string) (w : World)
    (result : PairRunResult) (w' : World) :
  executionMode config = PairedTurns →
  run E config task w = (Ok result, w') →
  rs_checkpointCount (res_summary result) = total rr_checkpointCount (res_rounds result)
  ∧ totalEstimatedWrittenBytes (res_summary result)
    = total rr_estimatedWrittenBytes (res_rounds result)
  ∧ ∀ agent,
      let credited := contribution (rs_contributions (res_summary result)) agent in
      cs_estimatedWrittenBytes credited
      = totalDrivenBy agent rr_estimatedWrittenBytes (res_rounds result)
      ∧ cs_editWriteCallCount credited
        = totalDrivenBy agent rr_editWriteCallCount (res_rounds result)
      ∧ cs_roundsDriven credited = totalDrivenBy agent (λ _, 1) (res_rounds result)
      ∧ cs_checkpointsWhileDriving credited
        = totalDrivenBy agent rr_checkpointCount (res_rounds result).
Proof.
  intros Hmode Hrun.
  destruct (run_paired_inv _ _ _ _ Hmode Hrun)
    as (plan & w1 & ex & w2 & Hex & Hrounds & Hsummary).
  destruct (runPairedExecution_replays _ _ _ _ _ Hex)
    as (results & Hreplays & _ & <- & Hcheckpoints & _ & Hcontrib & _).
  destruct (finalState_totals _ _ _ Hreplays) as [Hc Hagents].
  destruct (buildSummary_counts (ex_contributions ex) (ex_checkpointCount ex)
              (ex_swapCount ex)) as (Hs1 & _ & Hs3 & Hs4).
  rewrite Hrounds, Hsummary.
  set (summary := buildSummary _ _ _) in *.
  rewrite Hs1, Hs3, Hcheckpoints, Hc.
  split; [cbn; lia|]. split.
  - rewrite (total_split rr_estimatedWrittenBytes), Hcontrib.
    destruct (Hagents A) as (HA & _), (Hagents B) as (HB & _).
    cbn [contribution] in HA, HB. rewrite HA, HB. cbn. lia.
  - intros agent credited. unfold credited.
    destruct (Hs4 agent) as (_ & -> & -> & -> & ->). rewrite Hcontrib.
    destruct (Hagents agent) as (-> & -> & -> & ->).
    destruct agent; cbn; repeat split; lia.
Qed.

End WithEnv.
End LoopMore.

(* ===================================================================== *)
(** * What a run leaves alone *)
(* ===================================================================== *)

Module FrameMore.
Import OrchestratorCommon Orchestrator FrameSpec StepFacts.

Section Allowed.
Context (allowed : AgentInput → Prop).
Context (prompted : ∀ prompt, allowed (Prompted prompt)).
Context (appended : ∀ text timestamp, allowed (Appended text timestamp)).

Local Abbreviation keeps := (keeps allowed).
Local Abbreviation extends := (extends allowed).
Local Abbreviation sameAgent := (sameAgent allowed).

Lemma sameAgent_refl mw : sameAgent mw mw.
Proof. repeat split. exists []. by rewrite app_nil_r. Qed.

Lemma sameAgent_trans mw1 mw2 mw3 :
  sameAgent mw1 mw2 → sameAgent mw2 mw3 → sameAgent mw1 mw3.
Proof.
  intros (Hi & Hs & new & Hn & Hall) (Hi' & Hs' & new' & Hn' & Hall').
  repeat split; try congruence.
  exists (new ++ new'). split; [by rewrite Hn', Hn, app_assoc|by apply Forall_app].
Qed.

Lemma extends_refl w : extends w w.
Proof.
  repeat split; try apply sameAgent_refl; try done. exists []. by rewrite app_nil_r.
Qed.

Lemma extends_trans w1 w2 w3 : extends w1 w2 → extends w2 w3 → extends w1 w3.
Proof.
  intros ((new & Hj) & HA & HB & Ho) ((new' & Hj') & HA' & HB' & Ho').
  split; [|split; [by eapply sameAgent_trans|split; [by eapply sameAgent_trans|]]].
  - exists (new ++ new'). by rewrite Hj', Hj, app_assoc.
  - by rewrite Ho', Ho.
Qed.

Lemma extends_outside w o : extends w (setOutside w o).
Proof.
  repeat split; try apply sameAgent_refl; try done. exists []. by rewrite app_nil_r.
Qed.

(** ** The calculus *)

Lemma keeps_ret {T} (x : T) : keeps (ret x).
Proof. intros w. apply extends_refl. Qed.

Lemma keeps_throw {T} e : keeps (throw e : M T).
Proof. intros w. apply extends_refl. Qed.

Lemma keeps_bind {T U} (m : M T) (k : T → M U) :
  keeps m → (∀ x, keeps (k x)) → keeps (bind m k).
Proof.
  intros Hm Hk w. unfold bind. specialize (Hm w).
  destruct (m w) as [[x|e] w1]; [|done]. cbn [snd] in Hm.
  eapply extends_trans; [exact Hm|apply Hk].
Qed.

Lemma keeps_gets {T} (f : World → T) : keeps (gets f).
Proof. intros w. apply extends_refl. Qed.

Lemma keeps_try {T F} (body : M T) handler (final : option Thrown → M F) :
  keeps body → (∀ e, keeps (handler e)) → (∀ caught, keeps (final caught)) →
  keeps (tryCatchRethrowFinally body handler final).
Proof.
  intros Hbody Hhandler Hfinal w. unfold tryCatchRethrowFinally.
  specialize (Hbody w). destruct (body w) as [[x|e] w1]; cbn [snd] in Hbody.
  - specialize (Hfinal None w1). destruct (final None w1) as [[y|e] w2];
      by eapply extends_trans.
  - specialize (Hhandler e w1). destruct (handler e w1) as [handled w2].
    specialize (Hfinal (Some e) w2). destruct (final (Some e) w2) as [[y|e'] w3];
      cbn [snd] in *; eapply extends_trans; try exact Hbody; by eapply extends_trans.
Qed.

Section WithEnv.
Context (E : Env).

(** ** The steps *)

Lemma keeps_dateNow : keeps (dateNow E).
Proof. intros w. unfold dateNow. cbn. apply extends_outside. Qed.

Lemma keeps_observerCall method : keeps (observerCall method).
Proof.
  intros w. unfold observerCall. destruct (observer w) as [obs|] eqn:Hobs.
  - destruct (method (obs, outside w)) as [r [obs' o']]. cbn.
    repeat split; try apply sameAgent_refl; cbn; try (by rewrite Hobs).
    exists []. by rewrite app_nil_r.
  - apply extends_refl.
Qed.

Lemma keeps_updateWorker id f :
  (∀ mw, sameAgent mw (f mw)) → keeps (updateWorker id f).
Proof.
  intros Hf w. unfold updateWorker, modify. cbn.
  destruct id; repeat split; cbn; try apply Hf; try apply sameAgent_refl; try done;
    exists []; by rewrite app_nil_r.
Qed.

Lemma sameAgent_withInput mw input : allowed input → sameAgent mw (withInput mw input).
Proof. intros Hinput. repeat split. exists [input]. split; [done|]. by constructor. Qed.

Lemma keeps_setRole id role : keeps (setRole id role).
Proof.
  apply keeps_updateWorker. intros mw. repeat split. exists []. cbn. by rewrite app_nil_r.
Qed.

Lemma keeps_appendSharedContext id content : keeps (appendSharedContext E id content).
Proof.
  apply keeps_bind; [apply keeps_dateNow|]. intros now.
  apply keeps_updateWorker. intros mw. apply sameAgent_withInput, appended.
Qed.

Lemma keeps_appendPrivateMemory id content : keeps (appendPrivateMemory E id content).
Proof.
  apply keeps_bind; [apply keeps_dateNow|]. intros now.
  apply keeps_updateWorker. intros mw. apply sameAgent_withInput, appended.
Qed.

Lemma keeps_steer id text :
  (∀ text timestamp, allowed (Steered text timestamp)) → keeps (steer E id text).
Proof.
  intros steered. apply keeps_bind; [apply keeps_dateNow|]. intros now.
  apply keeps_updateWorker. intros mw. apply sameAgent_withInput, steered.
Qed.

Lemma keeps_broadcastShared stage actor content : keeps (broadcastShared E stage actor content).
Proof.
  apply keeps_bind; [apply keeps_dateNow|]. intros now.
  apply keeps_bind.
  { intros w. unfold modify. cbn. repeat split; try apply sameAgent_refl; try done.
    by eexists. }
  intros []. apply keeps_bind; [apply keeps_appendSharedContext|]. intros [].
  apply keeps_appendSharedContext.
Qed.

Create HintDb keeps.
#[local] Hint Resolve keeps_ret keeps_throw keeps_gets keeps_dateNow keeps_observerCall
  keeps_setRole keeps_appendSharedContext keeps_appendPrivateMemory
  keeps_broadcastShared : keeps.

Ltac keeps_seq := apply keeps_bind; [solve [eauto with keeps]|intros ?].

Lemma keeps_deliver {St} (h : AgentEvent → St → M St) events :
  (∀ e s, keeps (h e s)) → ∀ s, keeps (deliver h events s).
Proof.
  intros Hh. induction events as [|e events IH]; intros s; cbn [deliver];
    [auto with keeps|].
  apply keeps_bind; [apply Hh|apply IH].
Qed.

Lemma keeps_agentPrompt {St} id prompt (h : AgentEvent → St → M St) s :
  (∀ e s, keeps (h e s)) → keeps (agentPrompt E id prompt h s).
Proof.
  intros Hh. unfold agentPrompt. apply keeps_bind.
  { intros w. cbn. apply extends_outside. }
  intros run. apply keeps_bind.
  { apply keeps_updateWorker. intros mw. apply sameAgent_withInput, prompted. }
  intros []. apply keeps_bind; [by apply keeps_deliver|]. intros s'.
  destruct (run_rejects run); auto with keeps.
Qed.

Lemma keeps_runPrompt {St} id prompt (h : AgentEvent → St → M St) s :
  (∀ e s, keeps (h e s)) → keeps (runPrompt E id prompt h s).
Proof.
  intros Hh. unfold runPrompt. apply keeps_bind; [by apply keeps_agentPrompt|].
  intros [last s']. destruct last as [message|]; [|auto with keeps].
  destruct (_ || _); [|auto with keeps]. keeps_seq. auto with keeps.
Qed.

Lemma keeps_runPromptWithObservability {St} actor prompt promptKind phase round
    (h : AgentEvent → St → M St) s :
  (∀ e s, keeps (h e s)) →
  keeps (runPromptWithObservability E actor prompt promptKind phase round h s).
Proof.
  intros Hh. unfold runPromptWithObservability. keeps_seq.
  apply keeps_bind.
  { apply keeps_runPrompt. intros e s'. keeps_seq. apply Hh. }
  intros r. keeps_seq. auto with keeps.
Qed.

Lemma keeps_promptPlain actor prompt promptKind phase round :
  keeps (promptPlain E actor prompt promptKind phase round).
Proof.
  unfold promptPlain. apply keeps_bind; [|auto with keeps].
  apply keeps_runPromptWithObservability. auto with keeps.
Qed.

#[local] Hint Resolve keeps_promptPlain : keeps.

Lemma keeps_collaborativePlanning task : keeps (collaborativePlanning E task).
Proof. unfold collaborativePlanning. do 8 keeps_seq. auto with keeps. Qed.

Lemma keeps_finalReview task agreedPlan : keeps (finalReview E task agreedPlan).
Proof. unfold finalReview. do 10 keeps_seq. auto with keeps. Qed.

Section Rounds.
Context (config : PairAgentConfig).

Lemma keeps_afterRound round ls result : keeps (afterRound E config round ls result).
Proof.
  unfold afterRound. keeps_seq. repeat case_match; repeat keeps_seq; auto with keeps.
Qed.

(** The subscriber of a round calls back only when the tracker fires a
    checkpoint, which takes a pause strategy. *)
Lemma keeps_trackerOnEvent callback event tracker :
  (∀ c phase, callback = Some c → keeps (c phase)) ∨ pauseStrategy config = PauseNone →
  keeps (trackerOnEvent config callback event tracker).
Proof.
  intros [Hc|Hnone]; unfold trackerOnEvent.
  - destruct (Tracker.onEvent _ _ _) as [tracker' [phase|]], callback as [c|];
      auto with keeps.
    apply keeps_bind; [by apply Hc|]. auto with keeps.
  - rewrite Hnone.
    pose proof (TrackerMore.onEvent_none_cadence tracker event) as (Hfired & _).
    destruct (Tracker.onEvent _ _ _) as [tracker' fired]. cbn in Hfired. subst fired.
    auto with keeps.
Qed.

Local Abbreviation maySteer := (maySteer allowed config).

Lemma keeps_pauseSubscriber driver navigator event tracker :
  maySteer →
  keeps (trackerOnEvent config
           (Some (λ phase, steer E driver
                             (Prompts.buildPauseInterruptionPrompt navigator phase)))
           event tracker).
Proof.
  intros [steered|Hnone]; apply keeps_trackerOnEvent; [left|by right].
  intros c phase [= <-]. by apply keeps_steer.
Qed.

Lemma keeps_silentSubscriber event tracker :
  keeps (trackerOnEvent config None event tracker).
Proof. apply keeps_trackerOnEvent. by left. Qed.

Lemma keeps_broadcastReview navigator review : keeps (broadcastReview E navigator review).
Proof. unfold broadcastReview. destruct (hasFeedback review); keeps_seq; auto with keeps. Qed.

Lemma keeps_resolveFeedback round driver review h tracker :
  (∀ e s, keeps (h e s)) → keeps (resolveFeedback E round driver review h tracker).
Proof.
  intros Hh. unfold resolveFeedback. destruct (hasFeedback review); [|auto with keeps].
  apply keeps_bind; [by apply keeps_runPromptWithObservability|]. intros r.
  keeps_seq. auto with keeps.
Qed.

Lemma keeps_runRound task agreedPlan round driver :
  maySteer → keeps (runRound E config task agreedPlan round driver).
Proof.
  intros Hsteer. unfold runRound. cbv zeta. do 2 keeps_seq.
  apply keeps_bind.
  { apply keeps_runPromptWithObservability. intros; by apply keeps_pauseSubscriber. }
  intros r. do 3 keeps_seq.
  apply keeps_bind; [apply keeps_broadcastReview|]. intros [].
  apply keeps_bind.
  { apply keeps_resolveFeedback. intros; by apply keeps_pauseSubscriber. }
  intros d. auto with keeps.
Qed.

Lemma keeps_roundLoop task agreedPlan remaining :
  maySteer → ∀ round ls, keeps (roundLoop E config task agreedPlan remaining round ls).
Proof.
  intros Hsteer. induction remaining as [|remaining IH]; intros round ls; cbn [roundLoop];
    [auto with keeps|].
  destruct (round <=? maxRounds config); [|auto with keeps].
  keeps_seq.
  apply keeps_bind; [by apply keeps_runRound|]. intros result.
  apply keeps_bind; [apply keeps_afterRound|]. intros [goOn ls'].
  destruct goOn; cbn [fst snd]; [apply IH|auto with keeps].
Qed.

Lemma keeps_runPairedExecution task agreedPlan :
  maySteer → keeps (runPairedExecution E config task agreedPlan).
Proof.
  intros Hsteer. unfold runPairedExecution.
  apply keeps_bind; [by apply keeps_roundLoop|]. auto with keeps.
Qed.

Lemma keeps_soloPlanning task : keeps (soloPlanning E task).
Proof. unfold soloPlanning. do 4 keeps_seq. auto with keeps. Qed.

Lemma keeps_synthesizeSoloFinalReview round : keeps (synthesizeSoloFinalReview E round).
Proof. unfold synthesizeSoloFinalReview. cbv zeta. keeps_seq. auto with keeps. Qed.

Lemma keeps_runSoloDriverThenReviewerExecution task agreedPlan :
  keeps (runSoloDriverThenReviewerExecution E config task agreedPlan).
Proof.
  unfold runSoloDriverThenReviewerExecution. cbv zeta. do 3 keeps_seq.
  apply keeps_bind.
  { apply keeps_runPromptWithObservability. intros. apply keeps_silentSubscriber. }
  intros r. do 3 keeps_seq.
  apply keeps_bind; [apply keeps_broadcastReview|]. intros [].
  apply keeps_bind.
  { apply keeps_resolveFeedback. intros. apply keeps_silentSubscriber. }
  intros d. do 2 keeps_seq.
  apply keeps_bind; [apply keeps_synthesizeSoloFinalReview|]. auto with keeps.
Qed.

Lemma keeps_runBody task :
  executionMode config = SoloDriverThenReviewer ∨ maySteer →
  keeps (runBody E config task).
Proof.
  intros Hsteer. unfold runBody. do 2 keeps_seq.
  apply keeps_bind.
  { destruct (executionMode config);
      [apply keeps_collaborativePlanning|apply keeps_soloPlanning]. }
  intros agreedPlan. apply keeps_bind.
  { destruct (executionMode config);
      [|apply keeps_runSoloDriverThenReviewerExecution].
    apply keeps_runPairedExecution. by destruct Hsteer. }
  intros execution. apply keeps_bind.
  { destruct (ex_finalReview execution); [auto with keeps|apply keeps_finalReview]. }
  intros review. cbv zeta. keeps_seq. auto with keeps.
Qed.

Lemma keeps_flushObserver status message : keeps (flushObserver E status message).
Proof.
  intros w. unfold flushObserver. destruct (observer w) as [obs|] eqn:Hobs.
  - destruct (Observer.flush E status message (obs, outside w)) as [r [obs' o']]. cbn.
    repeat split; try apply sameAgent_refl; cbn; try (by rewrite Hobs).
    exists []. by rewrite app_nil_r.
  - apply extends_refl.
Qed.

Lemma keeps_flushAtEnd caught : keeps (flushAtEnd E caught).
Proof. destruct caught; apply keeps_flushObserver. Qed.

Lemma keeps_run task :
  executionMode config = SoloDriverThenReviewer ∨ maySteer →
  keeps (run E config task).
Proof.
  intros Hsteer. unfold run. apply keeps_bind; [|auto with keeps].
  apply keeps_try; [by apply keeps_runBody| |apply keeps_flushAtEnd].
  intros e. unfold recordSessionError. auto with keeps.
Qed.

End Rounds.
End WithEnv.
End Allowed.

Section WithEnv.
Context (E : Env).

Section Rounds.
Context (config : PairAgentConfig).

Lemma flushAtEnd_journal caught w :
  sharedJournal (snd (flushAtEnd E caught w)) = sharedJournal w.
Proof.
  destruct caught; cbn [flushAtEnd]; unfold flushObserver;
    (destruct (observer w) as [obs|]; [|done]);
    by destruct (Observer.flush E _ _ (obs, outside w)) as [r [obs' o']].
Qed.

(** X22: whether it returns or raises, a run only adds to the state of the
    orchestrator: the shared journal and the inputs handed to each agent
    grow at their end, the agents keep their identity and model, and no
    observer appears or disappears.  The journal of a result is the whole
    journal of the orchestrator at the end of the run. *)
Theorem run_only_adds (task : string) (w : World) :
  extends anyInput w (snd (run E config task w))
  ∧ ∀ result,
      fst (run E config task w) = Ok result →
      res_sharedJournal result = sharedJournal (snd (run E config task w)).
Proof.
  split.
  - apply keeps_run; try done. right. by left.
  - unfold run, bind, tryCatchRethrowFinally.
    destruct (runBody E config task w) as [[core|e] wb] eqn:Hbody.
    2:{ destruct (recordSessionError E e wb) as [handled wh].
        by destruct (flushAtEnd E (Some e) wh) as [[?|?] ?]. }
    pose proof (flushAtEnd_journal None wb) as Hflush.
    destruct (flushAtEnd E None wb) as [[y|e] wf]; [|done]. cbn in Hflush |- *.
    intros result [= <-]. cbn. rewrite Hflush.
    unfold runBody in Hbody.
    do 5 (apply LoopMore.bind_Ok_inv in Hbody; destruct Hbody as (? & ? & _ & Hbody)).
    unfold gets, ret, bind in Hbody. by injection Hbody as <- <-.
Qed.

(** X23: the driver is interrupted only at a checkpoint of a paired round: in
    solo mode, and in any mode without a pause strategy, a run hands the
    agents prompts and appended context but never a steering message,
    whether it returns or raises. *)
Theorem no_steering_without_checkpoints (task : string) (w : World) :
  executionMode config = SoloDriverThenReviewer ∨ pauseStrategy config = PauseNone →
  extends notSteered w (snd (run E config task w)).
Proof.
  intros Hquiet. apply keeps_run; try done.
  destruct Hquiet as [Hsolo|Hnone]; [by left|]. right. by right.
Qed.

End Rounds.

(** ** A prompt that the provider fails *)

Lemma extends_modelSpec w w' id :
  extends anyInput w w' → mw_modelSpec (worker w' id) = mw_modelSpec (worker w id).
Proof. intros (_ & (_ & HA & _) & (_ & HB & _) & _). by destruct id. Qed.

Lemma recordAgentEvent_is_record actor round phase event :
  ∃ ev, Observer.recordAgentEvent E actor round phase event = Observer.record E ev.
Proof. destruct event; by eexists. Qed.

Lemma deliver_recording_ok actor round phase events : ∀ w,
  ∃ w', deliver (λ event s,
                   observerCall (Observer.recordAgentEvent E actor round phase event) ;;;
                   ret s) events tt w = (Ok tt, w').
Proof.
  induction events as [|event events IH]; intros w; cbn [deliver]; [by eexists|].
  destruct (recordAgentEvent_is_record actor round phase event) as [ev ->].
  destruct (observerCall_record_ok E ev w) as (w1 & Hrecord & _).
  unfold bind at 1. unfold bind at 1. rewrite Hrecord. cbn. apply IH.
Qed.

Lemma agentPrompt_recording_ok actor round phase prompt w :
  run_rejects (agentRun E (prompts (outside w))) = None →
  ∃ w', agentPrompt E actor prompt
          (λ event s,
             observerCall (Observer.recordAgentEvent E actor round phase event) ;;;
             ret s) tt w
        = (Ok (run_lastAssistantMessage (agentRun E (prompts (outside w))), tt), w').
Proof.
  intros Hrejects. unfold agentPrompt.
  unfold bind at 1. cbv beta iota zeta. unfold bind at 1.
  unfold updateWorker, modify. cbv beta iota zeta.
  match goal with
  | |- ∃ _, _ ?w1 = _ =>
      destruct (deliver_recording_ok actor round phase
                  (run_events (agentRun E (prompts (outside w)))) w1) as (w2 & Hdeliver)
  end.
  rewrite (bind_ok _ _ _ _ _ Hdeliver), Hrejects. by eexists.
Qed.

(** [message.errorMessage?.trim() || "unknown provider error"] *)
Lemma failure_reason message :
  (if Observer.isSet (Js.trim <$> am_errorMessage message)
   then default ""%string (Js.trim <$> am_errorMessage message)
   else "unknown provider error"%string)
  = match am_errorMessage message with
    | Some text => if String.eqb (Js.trim text) "" then "unknown provider error"%string
                   else Js.trim text
    | None => "unknown provider error"%string
    end.
Proof.
  destruct (am_errorMessage message) as [text|]; cbn; [|done].
  by destruct (String.eqb (Js.trim text) "").
Qed.

(** X24: a prompt whose last assistant message stopped with [error] or
    [aborted] does not return a reply: it raises an error that names the
    agent, the provider and model it was created with, and the provider's
    trimmed error message, or [unknown provider error] when that message
    is missing or blank. *)
Theorem provider_error_fails_the_prompt
    (actor : AgentId) (prompt promptKind phase : string) (round : option Z) (w : World)
    (message : AssistantMessage) :
  run_rejects (agentRun E (prompts (outside w))) = None →
  run_lastAssistantMessage (agentRun E (prompts (outside w))) = Some message →
  am_stopReason message = "error"%string ∨ am_stopReason message = "aborted"%string →
  fst (promptPlain E actor prompt promptKind phase round w)
  = Throw (ErrorObject
      ("Model " +:+ Prompts.agentName actor
       +:+ " (" +:+ provider (mw_modelSpec (worker w actor))
       +:+ "/" +:+ modelId (mw_modelSpec (worker w actor))
       +:+ ") failed: "
       +:+ match am_errorMessage message with
           | Some text => if String.eqb (Js.trim text) "" then "unknown provider error"
                          else Js.trim text
           | None => "unknown provider error"
           end)).
Proof.
  intros Hrejects Hlast Hstop.
  unfold promptPlain, runPromptWithObservability, Observer.recordPromptStart.
  match goal with
  | |- context [observerCall (Observer.record E ?ev)] =>
      destruct (observerCall_record_ok E ev w) as (w1 & Hstart & _ & Hprompts & _);
      pose proof (keeps_observerCall anyInput (Observer.record E ev) w) as Hw1
  end.
  rewrite Hstart in Hw1. cbn [snd] in Hw1.
  rewrite <- Hprompts in Hrejects, Hlast.
  destruct (agentPrompt_recording_ok actor round phase prompt w1 Hrejects) as (w2 & Hagent).
  match type of Hagent with
  | agentPrompt E actor prompt ?h tt w1 = _ =>
      pose proof (keeps_agentPrompt anyInput (λ _, I) E actor prompt h tt) as Hw2
  end.
  assert (∀ event (s : unit),
            keeps anyInput
              (observerCall (Observer.recordAgentEvent E actor round phase event) ;;;
               ret s)) as Hhandler
    by (intros; apply keeps_bind; intros; [apply keeps_observerCall|apply keeps_ret]).
  specialize (Hw2 Hhandler w1).
  rewrite Hagent in Hw2. cbn [snd] in Hw2.
  rewrite Hlast in Hagent.
  unfold bind at 1. unfold bind at 1. rewrite Hstart. cbv beta iota.
  unfold bind at 1. unfold runPrompt. unfold bind at 1.
  cbv beta in Hagent |- *. rewrite Hagent. cbv beta iota zeta.
  replace (String.eqb (am_stopReason message) "error"
           || String.eqb (am_stopReason message) "aborted") with true
    by (destruct Hstop as [-> | ->]; done).
  unfold bind, gets, throw. cbn [fst].
  rewrite failure_reason.
  by rewrite (extends_modelSpec w1 w2), (extends_modelSpec w w1).
Qed.

End WithEnv.
End FrameMore.

(* ===================================================================== *)
(** * The two revisions, round by round *)
(* ===================================================================== *)

Module RevisionMore.
Import OrchestratorCommon StepFacts.

Lemma bind_ext_r {S T U} (m : ST S T) (k1 k2 : T → ST S U) s :
  (∀ x s', k1 x s' = k2 x s') → bind m k1 s = bind m k2 s.
Proof. intros Hk. unfold bind. destruct (m s) as [[x|e] s']; [apply Hk|done]. Qed.

Lemma bind_ext_l {S T U} (m1 m2 : ST S T) (k : T → ST S U) s :
  m1 s = m2 s → bind m1 k s = bind m2 k s.
Proof. unfold bind. by intros ->. Qed.

Section WithEnv.
Context (E : Env) (config : PairAgentConfig).

Section Subscribers.
Context {St : Type} (h1 h2 : AgentEvent → St → M St).
Context (same : ∀ event s w, h1 event s w = h2 event s w).

Lemma deliver_ext events : ∀ s w, deliver h1 events s w = deliver h2 events s w.
Proof.
  induction events as [|event events IH]; intros s w; cbn [deliver]; [done|].
  erewrite bind_ext_l by apply same. apply bind_ext_r. intros; apply IH.
Qed.

Lemma agentPrompt_ext id prompt s w :
  agentPrompt E id prompt h1 s w = agentPrompt E id prompt h2 s w.
Proof.
  unfold agentPrompt. apply bind_ext_r. intros run w1.
  apply bind_ext_r. intros [] w2. apply bind_ext_l, deliver_ext.
Qed.

Lemma runPrompt_ext id prompt s w :
  runPrompt E id prompt h1 s w = runPrompt E id prompt h2 s w.
Proof. unfold runPrompt. apply bind_ext_l, agentPrompt_ext. Qed.

End Subscribers.

Lemma runPromptWithObservability_ext {St} (h1 h2 : AgentEvent → St → M St)
    actor prompt promptKind phase round s w :
  (∀ event s w, h1 event s w = h2 event s w) →
  runPromptWithObservability E actor prompt promptKind phase round h1 s w
  = runPromptWithObservability E actor prompt promptKind phase round h2 s w.
Proof.
  intros same. unfold runPromptWithObservability. apply bind_ext_r. intros [] w1.
  apply bind_ext_l, runPrompt_ext. intros event s' w'. apply bind_ext_r. intros; apply same.
Qed.

(** The subscriber written inside [runRound] in the earlier revision is
    the tracker of the later one with the steering prompt as its
    checkpoint callback. *)
Lemma onDriverEvent_is_the_tracker driverId navigatorId event v w :
  InlineOrchestrator.onDriverEvent E config driverId navigatorId event v w
  = Orchestrator.trackerOnEvent config
      (Some (λ phase, steer E driverId
                        (Prompts.buildPauseInterruptionPrompt navigatorId phase)))
      event v w.
Proof.
  unfold InlineOrchestrator.onDriverEvent, Orchestrator.trackerOnEvent, Tracker.onEvent.
  destruct event as [id name args|id name result isError| | | | |]; try done.
  - by destruct (Tracker.isWriteTool name).
  - destruct (pauseStrategy config) as [|editsPerPause countedTools].
    + by destruct (negb isError && Tracker.isWriteTool name).
    + cbv zeta. destruct isError; [done|].
      destruct (negb (Tracker.includes countedTools name)); [done|].
      by destruct (Tracker.ltThreshold _ _).
Qed.

Lemma runRound_coincide task agreedPlan round driverId w :
  InlineOrchestrator.runRound E config task agreedPlan round driverId w
  = Orchestrator.runRound E config task agreedPlan round driverId w.
Proof.
  unfold InlineOrchestrator.runRound, Orchestrator.runRound. cbv zeta.
  do 2 (apply bind_ext_r; intros [] ?).
  erewrite bind_ext_l
    by (apply runPromptWithObservability_ext; intros; apply onDriverEvent_is_the_tracker).
  apply bind_ext_r. intros r ?. apply bind_ext_r. intros [] ?.
  apply bind_ext_r. intros raw ?. apply bind_ext_r. intros [] ?.
  unfold Orchestrator.broadcastReview. rewrite ReplayFacts.bind_assoc.
  apply bind_ext_r. intros [] ?. apply bind_ext_r. intros [] ?.
  unfold Orchestrator.resolveFeedback.
  destruct (hasFeedback (Parsing.parseNavigatorReview raw)); [|done].
  apply bind_ext_l. cbv zeta. apply bind_ext_l.
  apply runPromptWithObservability_ext. intros; apply onDriverEvent_is_the_tracker.
Qed.

(** X25: the round loop of the earlier revision, with the subscriber written
    inside [runRound], and the round loop of the later revision, with the
    extracted tracker, are the same computation: from the same state they
    give the same rounds or raise the same error, and leave the same
    journal, agent inputs, observer log and clock. *)
Theorem round_loops_coincide (task agreedPlan : string) (remaining : nat) (round : Z)
    (ls : LoopState) (w : World) :
  InlineOrchestrator.roundLoop E config task agreedPlan remaining round ls w
  = Orchestrator.roundLoop E config task agreedPlan remaining round ls w.
Proof.
  revert round ls w. induction remaining as [|remaining IH]; intros round ls w;
    cbn [InlineOrchestrator.roundLoop Orchestrator.roundLoop]; [done|].
  destruct (round <=? maxRounds config); [|done].
  apply bind_ext_r. intros [] w1.
  erewrite bind_ext_l by apply runRound_coincide.
  apply bind_ext_r. intros result w2. apply bind_ext_r. intros [goOn ls'] w3.
  destruct goOn; cbn [fst snd]; [apply IH|done].
Qed.

End WithEnv.
End RevisionMore.

(* ===================================================================== *)
(** * Solo mode *)
(* ===================================================================== *)

Module SoloMore.
Import OrchestratorCommon Orchestrator StepFacts.

Section WithEnv.
Context (E : Env) (config : PairAgentConfig).

Lemma resolveFeedback_presence round driver review h tracker w d w' :
  resolveFeedback E round driver review h tracker w = (Ok d, w') →
  (is_Some (fst d) ↔ hasFeedback review = true).
Proof.
  unfold resolveFeedback. destruct (hasFeedback review).
  - intros H. LoopMore.last_step H. unfold ret in H. injection H as <- _. cbn.
    split; [done|by eexists].
  - unfold ret. intros [= <- _]. cbn. split; [by intros [? ?]|done].
Qed.

Lemma synthesizeSoloFinalReview_value round w review w' :
  synthesizeSoloFinalReview E round w = (Ok review, w') →
  reviewB review = rr_navigatorReview round
  ∧ fr_raw review = "synthetic_solo_final_review"%string
  ∧ jointVerdict review
    = (if negb (hasFeedback (rr_navigatorReview round))
          || match rr_driverDecision round with
             | Some d => bool_decide (decision d = Accept)
             | None => false
             end
       then APPROVED else NEEDS_MORE_WORK)
  ∧ nextSteps review
    = match jointVerdict review with
      | APPROVED => "NONE"%string
      | NEEDS_MORE_WORK => publicFeedback (rr_navigatorReview round)
      end.
Proof.
  unfold synthesizeSoloFinalReview. cbv zeta. intros H.
  apply LoopMore.bind_Ok_inv in H as ([] & ? & _ & H).
  unfold ret in H. by injection H as <- _.
Qed.

Lemma solo_execution_inv task agreedPlan w ex w' :
  runSoloDriverThenReviewerExecution E config task agreedPlan w = (Ok ex, w') →
  ∃ round review,
    ex_rounds ex = [round]
    ∧ ex_finalReview ex = Some review
    ∧ ex_swapCount ex = 0
    ∧ ex_checkpointCount ex = rr_checkpointCount round
    ∧ cs_roundsDriven (contribA (ex_contributions ex)) = 1
    ∧ cs_roundsDriven (contribB (ex_contributions ex)) = 0
    ∧ cs_estimatedWrittenBytes (contribA (ex_contributions ex))
      = rr_estimatedWrittenBytes round
    ∧ cs_estimatedWrittenBytes (contribB (ex_contributions ex)) = 0
    ∧ cs_editWriteCallCount (contribA (ex_contributions ex)) = rr_editWriteCallCount round
    ∧ cs_editWriteCallCount (contribB (ex_contributions ex)) = 0
    ∧ cs_checkpointsWhileDriving (contribA (ex_contributions ex)) = rr_checkpointCount round
    ∧ cs_checkpointsWhileDriving (contribB (ex_contributions ex)) = 0
    ∧ rr_round round = 1 ∧ rr_driver round = A ∧ rr_navigator round = B
    ∧ (is_Some (rr_driverDecision round) ↔ hasFeedback (rr_navigatorReview round) = true)
    ∧ ∃ w1 w2, synthesizeSoloFinalReview E round w1 = (Ok review, w2).
Proof.
  unfold runSoloDriverThenReviewerExecution. cbv zeta. intros H.
  do 3 (apply LoopMore.bind_Ok_inv in H; destruct H as ([] & ? & _ & H)).
  apply LoopMore.bind_Ok_inv in H as (r & ? & _ & H).
  apply LoopMore.bind_Ok_inv in H as ([] & ? & _ & H).
  apply LoopMore.bind_Ok_inv in H as (raw & ? & _ & H).
  do 2 (apply LoopMore.bind_Ok_inv in H; destruct H as ([] & ? & _ & H)).
  apply LoopMore.bind_Ok_inv in H as (d & ? & Hd & H).
  do 2 (apply LoopMore.bind_Ok_inv in H; destruct H as ([] & ? & _ & H)).
  apply LoopMore.bind_Ok_inv in H as (review & ? & Hreview & H).
  unfold ret in H. injection H as <- _.
  apply resolveFeedback_presence in Hd.
  eexists _, review. split_and!; [..|by eexists _, _]; done.
Qed.

(** X26: in solo mode a run that returns made exactly one round, numbered 1,
    driven by A and reviewed by B, with no swap and a driver decision
    exactly when B had feedback.  The summary credits the round to A alone:
    A has the round's written bytes, edit calls and checkpoints and one
    round driven, B has none of any, and the total is the round's bytes.
    Its final review is synthetic: B's side is B's review of that round,
    and the verdict is APPROVED exactly when B had no feedback or A
    accepted it; the next steps are then NONE, and B's feedback
    otherwise. *)
Theorem solo_mode_is_one_reviewed_round (task : string) (w : World)
    (result : PairRunResult) (w' : World) :
  executionMode config = SoloDriverThenReviewer →
  run E config task w = (Ok result, w') →
  ∃ round,
    res_rounds result = [round]
    ∧ rr_round round = 1 ∧ rr_driver round = A ∧ rr_navigator round = B
    ∧ (is_Some (rr_driverDecision round) ↔ hasFeedback (rr_navigatorReview round) = true)
    ∧ rs_swapCount (res_summary result) = 0
    ∧ rs_checkpointCount (res_summary result) = rr_checkpointCount round
    ∧ totalEstimatedWrittenBytes (res_summary result) = rr_estimatedWrittenBytes round
    ∧ cs_estimatedWrittenBytes (contribA (rs_contributions (res_summary result)))
      = rr_estimatedWrittenBytes round
    ∧ cs_estimatedWrittenBytes (contribB (rs_contributions (res_summary result))) = 0
    ∧ cs_editWriteCallCount (contribA (rs_contributions (res_summary result)))
      = rr_editWriteCallCount round
    ∧ cs_editWriteCallCount (contribB (rs_contributions (res_summary result))) = 0
    ∧ cs_checkpointsWhileDriving (contribA (rs_contributions (res_summary result)))
      = rr_checkpointCount round
    ∧ cs_checkpointsWhileDriving (contribB (rs_contributions (res_summary result))) = 0
    ∧ cs_roundsDriven (contribA (rs_contributions (res_summary result))) = 1
    ∧ cs_roundsDriven (contribB (rs_contributions (res_summary result))) = 0
    ∧ reviewB (res_finalReview result) = rr_navigatorReview round
    ∧ fr_raw (res_finalReview result) = "synthetic_solo_final_review"%string
    ∧ (jointVerdict (res_finalReview result) = APPROVED
       ↔ hasFeedback (rr_navigatorReview round) = false
         ∨ decision <$> rr_driverDecision round = Some Accept)
    ∧ nextSteps (res_finalReview result)
      = match jointVerdict (res_finalReview result) with
        | APPROVED => "NONE"%string
        | NEEDS_MORE_WORK => publicFeedback (rr_navigatorReview round)
        end.
Proof.
  intros Hmode. unfold run. intros H.
  apply LoopMore.bind_Ok_inv in H as ([core observability] & w1 & Htry & H).
  unfold ret in H. injection H as <- <-.
  unfold tryCatchRethrowFinally in Htry.
  destruct (runBody E config task w) as [[core'|e] wb] eqn:Hbody.
  2:{ destruct (recordSessionError E e wb) as [handled wh].
      by destruct (flushAtEnd E (Some e) wh) as [[?|?] ?]. }
  destruct (flushAtEnd E None wb) as [[y|e] wf]; [|done].
  injection Htry as <- <- <-.
  unfold runBody in Hbody. rewrite Hmode in Hbody.
  apply LoopMore.bind_Ok_inv in Hbody as ([] & ? & _ & Hbody).
  apply LoopMore.bind_Ok_inv in Hbody as ([] & ? & _ & Hbody).
  apply LoopMore.bind_Ok_inv in Hbody as (agreedPlan & wp & _ & Hbody).
  apply LoopMore.bind_Ok_inv in Hbody as (ex & we & Hex & Hbody).
  apply LoopMore.bind_Ok_inv in Hbody as (review & ? & Hfinal & Hbody).
  apply LoopMore.bind_Ok_inv in Hbody as (journal & ? & _ & Hbody).
  unfold ret in Hbody. injection Hbody as <- _.
  destruct (solo_execution_inv _ _ _ _ _ Hex)
    as (round & review' & Hrounds & Hreview & Hswaps & Hcheckpoints & HdrivenA & HdrivenB
        & HbytesA & HbytesB & HeditsA & HeditsB & HpausesA & HpausesB
        & Hnumber & Hdriver & Hnavigator & Hdecision & ws1 & ws2 & Hsynth).
  rewrite Hreview in Hfinal. unfold ret in Hfinal. injection Hfinal as <- _.
  destruct (synthesizeSoloFinalReview_value _ _ _ _ Hsynth)
    as (HreviewB & Hraw & Hverdict & Hnext).
  destruct (LoopMore.buildSummary_counts (ex_contributions ex) (ex_checkpointCount ex)
              (ex_swapCount ex)) as (Hc & Hs & Htotal & Hcontrib).
  destruct (Hcontrib A) as (_ & HA1 & HA2 & HA & HA3), (Hcontrib B) as (_ & HB1 & HB2 & HB & HB3).
  cbn in HA, HB, HA1, HA2, HA3, HB1, HB2, HB3.
  exists round. cbn [pairRunResult fst snd res_rounds res_summary res_finalReview
                       core_rounds core_summary core_finalReview].
  repeat split; try done; try apply Hdecision; try congruence; try lia.
  - rewrite Hverdict. destruct (hasFeedback (rr_navigatorReview round)); [|by left].
    destruct (rr_driverDecision round) as [d|]; cbn; [|done].
    case_bool_decide as Haccept; [|done]. intros _. right. by rewrite Haccept.
  - rewrite Hverdict. intros [->|Haccept]; [done|].
    destruct (rr_driverDecision round) as [d|]; cbn in *; [|done].
    injection Haccept as ->. rewrite bool_decide_eq_true_2 by done.
    by rewrite orb_true_r.
Qed.

End WithEnv.
End SoloMore.

(* ===================================================================== *)
(** * Further sample sessions *)
(* ===================================================================== *)

Module MoreScenarios.
Import OrchestratorCommon Examples Sessions.

(** The first write of the sample round, with a failed call of another
    identifier in between. *)
Lemma first_write_is_credited :
  Tracker.isWriteTool "write" = true
  ∧ Forall (λ e, TrackerSpec.callId e ≠ Some "call-1"%string)
      (writeCall "call-2" "export const b = 2;" true)
  ∧ Tracker.pendingWriteEstimates
      (Tracker.onEvents (pauseStrategy config) (Tracker.create (pauseStrategy config))
         (ToolExecutionStart "call-1" "write" firstWrite
          :: writeCall "call-2" "export const b = 2;" true)) !! "call-1"%string
    = Some (Tracker.estimateWrittenBytes "write" firstWrite).
Proof.
  assert (Hwrite : Tracker.isWriteTool "write" = true) by reflexivity.
  assert (Hbetween : Forall (λ e, TrackerSpec.callId e ≠ Some "call-1"%string)
                       (writeCall "call-2" "export const b = 2;" true))
    by (repeat constructor; discriminate).
  split; [exact Hwrite|]. split; [exact Hbetween|].
  destruct (TrackerMore.write_is_credited_with_its_start_estimate (pauseStrategy config)
              (Tracker.create (pauseStrategy config)) "call-1" "write" firstWrite
              Js.VUndefined (writeCall "call-2" "export const b = 2;" true)
              Hwrite Hbetween) as (Hpending & _).
  exact Hpending.
Defined.

(** A summary element in mixed case, after some prose and before a second
    element of the same name. *)
Lemma summary_element_in_mixed_case :
  ParsingSpec.plainName "summary" = true
  ∧ ParsingSpec.lacks "<" "Here it is: " = true
  ∧ ParsingSpec.lacks "<" " Done. " = true
  ∧ Parsing.extractTag
      ("Here it is: " +:+ "<" +:+ "Summary" +:+ ">" +:+ " Done. " +:+ "</" +:+ "SUMMARY"
       +:+ ">" +:+ "<summary>second</summary>") "summary"
    = Some (Js.trim " Done. ").
Proof.
  split; [reflexivity|]. split; [reflexivity|]. split; [reflexivity|].
  exact (ParsingMore.extractTag_reads_the_first_element "Here it is: " "Summary" " Done. "
           "SUMMARY" "<summary>second</summary>" "summary"
           eq_refl eq_refl eq_refl eq_refl eq_refl).
Defined.

(** A reply in plain prose. *)
Lemma plain_prose_is_read_with_defaults :
  ParsingSpec.lacks "<" "All good, nothing to add." = true
  ∧ Parsing.parseNavigatorReview "All good, nothing to add."
    = {| privateReflection := "(no private reflection provided)";
         publicFeedback := "NONE"; hasFeedback := false;
         driverRecommendation := RecContinue; nr_raw := "All good, nothing to add." |}.
Proof.
  split; [reflexivity|].
  destruct (ParsingMore.untagged_reply_is_read_with_defaults "All good, nothing to add."
              eq_refl) as (_ & Hreview & _).
  exact Hreview.
Defined.

(** The sample events streamed to the event file beside the log. *)
Lemma event_stream_of_the_sample_events :
  (∀ k, fsOutcome earlyEnv k = FsOk)
  ∧ Observer.isSet
      (Observer.eventLogFile (fst (Observer.create earlyEnv observerOptions nothingOutside)))
    = true
  ∧ ∃ summary st' o',
      (Observer.calls earlyEnv (Observer.CallRecord <$> sampleEvents) ;;;
       Observer.flush earlyEnv Observer.Completed None)
        (Observer.create earlyEnv observerOptions nothingOutside)
      = (Ok summary, (st', o'))
      ∧ Observer.event <$> Observer.events st' = sampleEvents
      ∧ Observer.sum_eventStreamWriteError summary = None.
Proof.
  assert (Hfs : ∀ k, fsOutcome earlyEnv k = FsOk) by reflexivity.
  assert (Hfile :
    Observer.isSet
      (Observer.eventLogFile (fst (Observer.create earlyEnv observerOptions nothingOutside)))
    = true) by reflexivity.
  split; [exact Hfs|]. split; [exact Hfile|].
  destruct (ObserverMore.event_stream_holds_the_streamed_events earlyEnv observerOptions
              nothingOutside sampleEvents Observer.Completed None Hfs Hfile)
    as (summary & endedAt & st' & o' & Hrun & Hevents & _ & Herror).
  exists summary, st', o'. exact (conj Hrun (conj Hevents Herror)).
Defined.


(** A log whose first write fails once the file is open, which leaves the
    file torn, and which the disk takes whole at the second attempt. *)
Lemma log_written_at_the_second_attempt :
  ∃ st o error st' o' summary st2 o2 payload,
    snd (Observer.calls busyDiskEnv (Observer.CallRecord <$> sampleEvents)
           (Observer.create busyDiskEnv logOnlyOptions nothingOutside)) = (st, o)
    ∧ Observer.flush busyDiskEnv Observer.Completed None (st, o)
      = (Throw error, (st', o'))
    ∧ error = ErrorObject "EBUSY: resource busy"
    ∧ Observer.flushedSummary st' = None
    ∧ logFileContent o = None
    ∧ logFileContent o' = Some Torn
    ∧ Observer.flush busyDiskEnv Observer.Completed None (st', o')
      = (Ok summary, (st2, o2))
    ∧ logFileContent o2 = Some (Whole payload)
    ∧ Observer.payload_events payload = Observer.events st
    ∧ Observer.event <$> Observer.events st = sampleEvents.
Proof.
  destruct (snd (Observer.calls busyDiskEnv (Observer.CallRecord <$> sampleEvents)
                   (Observer.create busyDiskEnv logOnlyOptions nothingOutside)))
    as [st o] eqn:Hrecorded.
  assert (Hbefore : logFileContent o = None).
  { change o with (snd (st, o)). rewrite <- Hrecorded. reflexivity. }
  assert (Hlogged : Observer.event <$> Observer.events st = sampleEvents).
  { change st with (fst (st, o)). rewrite <- Hrecorded. reflexivity. }
  destruct (Observer.flush busyDiskEnv Observer.Completed None (st, o))
    as [[summary|error] [st' o']] eqn:Hflush.
  { rewrite <- Hrecorded in Hflush. by vm_compute in Hflush. }
  assert (Hops : fsOps o' = 1%nat).
  { change o' with (snd (snd (Throw error : Result Observer.Summary, (st', o')))).
    rewrite <- Hflush, <- Hrecorded. reflexivity. }
  destruct (ObserverMore.failed_flush_can_be_retried busyDiskEnv Observer.Completed None
              st o error st' o' Hflush) as (Hunflushed & _ & Hfailed & Hretry).
  assert (Herror : error = ErrorObject "EBUSY: resource busy" ∧ logFileContent o' = Some Torn).
  { destruct Hfailed as (message & -> & [[Hearly _]|[Hlate Htorn]]);
      rewrite Hops in *; cbn in *; [discriminate|].
    injection Hlate as <-. done. }
  assert (Hlater : ∀ k, (fsOps o' ≤ k)%nat → fsOutcome busyDiskEnv k = FsOk).
  { rewrite Hops. intros [|k] Hk; [lia|reflexivity]. }
  destruct (Hretry Hlater Observer.Completed None)
    as (summary & st2 & o2 & payload & Hagain & _ & Hlog & _ & Hevents).
  exists st, o, error, st', o', summary, st2, o2, payload.
  exact (conj eq_refl (conj Hflush (conj (proj1 Herror) (conj Hunflushed (conj Hbefore
           (conj (proj2 Herror) (conj Hagain (conj Hlog (conj Hevents Hlogged))))))))).
Defined.

(** The event file of the sample observer. *)
Lemma event_file_of_the_sample_observer :
  Observer.opt_disableEventStream observerOptions = false
  ∧ Observer.opt_eventLogFile observerOptions = None
  ∧ Observer.eventLogFile (fst (Observer.create earlyEnv observerOptions nothingOutside))
    = Some ("/repo/session" +:+ ".events.jsonl").
Proof.
  split; [reflexivity|]. split; [reflexivity|].
  exact (ObserverMore.event_stream_is_a_sidecar_of_the_log earlyEnv observerOptions
           nothingOutside "/repo/session" eq_refl eq_refl eq_refl).
Defined.

(** Two rounds against one and nothing written: the shares are the
    binary64 numbers for 66.7 and 33.3. *)
Lemma shares_by_rounds_driven :
  cs_estimatedWrittenBytes (contribA nothingWritten)
  + cs_estimatedWrittenBytes (contribB nothingWritten) ≤ 0
  ∧ 0 < cs_roundsDriven (contribA nothingWritten) + cs_roundsDriven (contribB nothingWritten)
  ∧ roughCodeSharePercent (contribA (rs_contributions (buildSummary nothingWritten 0 1)))
    = Double.div 667 10
  ∧ roughCodeSharePercent (contribB (rs_contributions (buildSummary nothingWritten 0 1)))
    = Double.div 333 10
  ∧ (Qabs (roughCodeSharePercent
             (contribA (rs_contributions (buildSummary nothingWritten 0 1)))
           - 100 * inject_Z 2 / inject_Z (2 + 1)) <= (1 # 20) + Double.pow2 (-41))%Q
  ∧ (Qabs (roughCodeSharePercent
             (contribB (rs_contributions (buildSummary nothingWritten 0 1)))
           - 100 * inject_Z 1 / inject_Z (2 + 1)) <= (1 # 20) + Double.pow2 (-41))%Q.
Proof.
  assert (Hnone : cs_estimatedWrittenBytes (contribA nothingWritten)
                  + cs_estimatedWrittenBytes (contribB nothingWritten) ≤ 0)
    by (vm_compute; discriminate).
  assert (Hdriven : 0 < cs_roundsDriven (contribA nothingWritten)
                        + cs_roundsDriven (contribB nothingWritten))
    by (vm_compute; reflexivity).
  split; [exact Hnone|]. split; [exact Hdriven|].
  split; [vm_compute; reflexivity|]. split; [vm_compute; reflexivity|].
  destruct (SummaryMore.share_falls_back_to_rounds_driven nothingWritten 0 1 Hnone)
    as (Hshares & _); [vm_compute; discriminate..|vm_compute; reflexivity|].
  destruct (Hshares Hdriven) as (tenthsA & tenthsB & _ & _ & _ & HnearA & HnearB).
  exact (conj HnearA HnearB).
Defined.

(** The shares of the lopsided run: the binary64 number for 0.1 and 100,
    both percentages. *)
Lemma shares_of_the_lopsided_run_are_percentages :
  roughCodeSharePercent (contribA (rs_contributions (buildSummary lopsided 1 1)))
  = Double.div 1 10
  ∧ roughCodeSharePercent (contribB (rs_contributions (buildSummary lopsided 1 1)))
    = Double.div 1000 10
  ∧ (0 <= roughCodeSharePercent (contribA (rs_contributions (buildSummary lopsided 1 1)))
     <= 100)%Q
  ∧ (0 <= roughCodeSharePercent (contribB (rs_contributions (buildSummary lopsided 1 1)))
     <= 100)%Q.
Proof.
  split; [vm_compute; reflexivity|]. split; [vm_compute; reflexivity|].
  destruct (SummaryMore.rough_code_share_is_a_percentage lopsided 1 1) as [HA HB];
    [vm_compute; discriminate..|vm_compute; reflexivity|vm_compute; reflexivity|].
  exact (conj HA HB).
Defined.

(** The binary64 number nearest to 0.15 lies just below it; ten times it
    rounds to 1.5, which [Math.round] takes up: the result is the binary64
    number for 0.2, a little more than 0.05 away. *)
Lemma roundPercent_of_fifteen_hundredths :
  (0 <= Double.round (15 # 100))%Q
  ∧ (Double.round (15 # 100) <= 1000)%Q
  ∧ (Double.round (15 # 100) < 15 # 100)%Q
  ∧ roundPercent (Double.round (15 # 100)) = Double.div 2 10
  ∧ (1 # 20 < Qabs (roundPercent (Double.round (15 # 100)) - Double.round (15 # 100)))%Q
  ∧ (Qabs (roundPercent (Double.round (15 # 100)) - Double.round (15 # 100))
     <= (1 # 20) + Double.pow2 (-42))%Q.
Proof.
  assert (Hlow : (0 <= Double.round (15 # 100))%Q) by (vm_compute; discriminate).
  assert (Hup : (Double.round (15 # 100) <= 1000)%Q) by (vm_compute; discriminate).
  split; [exact Hlow|]. split; [exact Hup|].
  split; [vm_compute; reflexivity|]. split; [vm_compute; reflexivity|].
  split; [vm_compute; reflexivity|].
  destruct (SummaryMore.roundPercent_is_the_nearest_tenth (Double.round (15 # 100)) Hlow Hup)
    as (tenths & _ & _ & _ & Hnear).
  exact Hnear.
Defined.


(** The counts of the sample command line. *)
Lemma counts_of_the_sample_command_line :
  ∃ parsed,
    Cli.parseCli id countedArguments "/repo" = Ok parsed
    ∧ CliSpec.positiveNumbers (Cli.pair parsed).
Proof.
  destruct (Cli.parseCli id countedArguments "/repo") as [parsed|e] eqn:Hparse;
    [|by vm_compute in Hparse].
  exists parsed. split; [done|].
  exact (CliMore.parsed_counts_are_positive id countedArguments "/repo" parsed Hparse).
Defined.

(** The task of the sample command line. *)
Lemma task_of_the_sample_command_line :
  ∃ parsed before value after,
    Cli.parseCli id countedArguments "/repo" = Ok parsed
    ∧ countedArguments = before ++ "--task"%string :: value :: after
    ∧ Cli.task parsed = Js.trim value.
Proof.
  destruct (Cli.parseCli id countedArguments "/repo") as [parsed|e] eqn:Hparse;
    [|by vm_compute in Hparse].
  destruct (CliMore.parsed_task_comes_from_a_task_option id countedArguments "/repo"
              parsed Hparse) as (_ & before & value & after & Hargs & Htask).
  exists parsed, before, value, after. exact (conj eq_refl (conj Hargs Htask)).
Defined.

(** The two rounds of the sample session under alternation. *)
Lemma rounds_of_the_two_round_session :
  ∃ result w',
    Orchestrator.run twoRoundEnv alternatingConfig "Write a parser" bareWorld
    = (Ok result, w')
    ∧ rr_round <$> res_rounds result
      = seqZ 1 (Z.of_nat (List.length (res_rounds result))).
Proof.
  destruct (Orchestrator.run twoRoundEnv alternatingConfig "Write a parser" bareWorld)
    as [[result|e] w'] eqn:Hrun; [|by vm_compute in Hrun].
  destruct (LoopMore.rounds_are_numbered_from_one twoRoundEnv alternatingConfig
              "Write a parser" bareWorld result w' eq_refl Hrun) as (Hnumbers & _).
  exists result, w'. exact (conj eq_refl Hnumbers).
Defined.

(** The same session: one swap between its two rounds. *)
Lemma turns_of_the_two_round_session :
  ∃ result w',
    Orchestrator.run twoRoundEnv alternatingConfig "Write a parser" bareWorld
    = (Ok result, w')
    ∧ rs_swapCount (res_summary result)
      = Z.of_nat (List.length (res_rounds result) - 1).
Proof.
  destruct (Orchestrator.run twoRoundEnv alternatingConfig "Write a parser" bareWorld)
    as [[result|e] w'] eqn:Hrun; [|by vm_compute in Hrun].
  destruct (LoopMore.alternate_policy_takes_turns twoRoundEnv alternatingConfig
              "Write a parser" bareWorld result w' eq_refl eq_refl Hrun) as (_ & Hswaps).
  exists result, w'. exact (conj eq_refl Hswaps).
Defined.

(** The same script with a cap of one round for each driver. *)
Lemma cap_of_one_round :
  ∃ result w',
    Orchestrator.run twoRoundEnv strictConfig "Write a parser" bareWorld = (Ok result, w')
    ∧ LoopSpec.runsAtMost 1 (res_rounds result).
Proof.
  destruct (Orchestrator.run twoRoundEnv strictConfig "Write a parser" bareWorld)
    as [[result|e] w'] eqn:Hrun; [|by vm_compute in Hrun].
  exists result, w'. split; [done|].
  exact (LoopMore.no_driver_exceeds_the_round_cap twoRoundEnv strictConfig
           "Write a parser" bareWorld result w' 1 4 eq_refl eq_refl eq_refl Hrun).
Defined.

(** The summary of the two-round session. *)
Lemma summary_of_the_two_round_session :
  ∃ result w',
    Orchestrator.run twoRoundEnv alternatingConfig "Write a parser" bareWorld
    = (Ok result, w')
    ∧ rs_checkpointCount (res_summary result)
      = LoopSpec.total rr_checkpointCount (res_rounds result)
    ∧ totalEstimatedWrittenBytes (res_summary result)
      = LoopSpec.total rr_estimatedWrittenBytes (res_rounds result).
Proof.
  destruct (Orchestrator.run twoRoundEnv alternatingConfig "Write a parser" bareWorld)
    as [[result|e] w'] eqn:Hrun; [|by vm_compute in Hrun].
  destruct (LoopMore.summary_adds_up_the_rounds twoRoundEnv alternatingConfig
              "Write a parser" bareWorld result w' eq_refl Hrun)
    as (Hcheckpoints & Hbytes & _).
  exists result, w'. exact (conj eq_refl (conj Hcheckpoints Hbytes)).
Defined.

(** The solo session: its steering-free inputs. *)
Lemma solo_session_is_not_steered :
  executionMode soloConfig = SoloDriverThenReviewer
  ∧ FrameSpec.extends FrameSpec.notSteered bareWorld
      (snd (Orchestrator.run soloEnv soloConfig "Write a parser" bareWorld)).
Proof.
  split; [reflexivity|].
  exact (FrameMore.no_steering_without_checkpoints soloEnv soloConfig "Write a parser"
           bareWorld (or_introl eq_refl)).
Defined.

(** The first prompt of the session whose provider is overloaded. *)
Lemma overloaded_provider_fails_the_first_prompt :
  run_rejects (agentRun outageEnv (prompts (outside bareWorld))) = None
  ∧ fst (promptPlain outageEnv A "Plan it" "plan_draft" "planning" None bareWorld)
    = Throw (ErrorObject "Model A (anthropic/claude-opus-4-6) failed: overloaded").
Proof.
  split; [reflexivity|].
  exact (FrameMore.provider_error_fails_the_prompt outageEnv A "Plan it" "plan_draft"
           "planning" None bareWorld
           {| am_stopReason := "error"; am_errorMessage := Some "overloaded"%string;
              am_textParts := [] |}
           eq_refl eq_refl (or_introl eq_refl)).
Defined.

(** The solo session: one round, driven by A, to whom the summary credits
    all that the round wrote. *)
Lemma solo_session_is_one_round :
  ∃ result w' round,
    Orchestrator.run soloEnv soloConfig "Write a parser" bareWorld = (Ok result, w')
    ∧ res_rounds result = [round]
    ∧ rr_driver round = A ∧ rr_navigator round = B
    ∧ rs_swapCount (res_summary result) = 0
    ∧ totalEstimatedWrittenBytes (res_summary result) = rr_estimatedWrittenBytes round
    ∧ cs_estimatedWrittenBytes (contribA (rs_contributions (res_summary result)))
      = rr_estimatedWrittenBytes round
    ∧ cs_estimatedWrittenBytes (contribB (rs_contributions (res_summary result))) = 0
    ∧ cs_roundsDriven (contribA (rs_contributions (res_summary result))) = 1
    ∧ cs_roundsDriven (contribB (rs_contributions (res_summary result))) = 0.
Proof.
  destruct (Orchestrator.run soloEnv soloConfig "Write a parser" bareWorld)
    as [[result|e] w'] eqn:Hrun; [|by vm_compute in Hrun].
  destruct (SoloMore.solo_mode_is_one_reviewed_round soloEnv soloConfig "Write a parser"
              bareWorld result w' eq_refl Hrun)
    as (round & Hrounds & _ & Hdriver & Hnavigator & _ & Hswaps & _ & Htotal
        & HbytesA & HbytesB & _ & _ & _ & _ & HdrivenA & HdrivenB & _).
  exists result, w', round.
  exact (conj eq_refl (conj Hrounds (conj Hdriver (conj Hnavigator (conj Hswaps
           (conj Htotal (conj HbytesA (conj HbytesB (conj HdrivenA HdrivenB))))))))).
Defined.

End MoreScenarios.
